(** * NFL playoff predictor: the re-seeding engine and the leaderboard

    A shallow embedding of [server/src/services/season.ts] (bracket
    generation, winner recording, the re-seeding cascade) and of
    [server/src/services/leaderboard.ts] (the scoring calculator), with the
    SQLite tables of [server/src/db/schema.ts] as lists of rows.  The later
    parts add the participant bracket, the ESPN update, the lobby service
    and the limits of [server/src/services/limits.ts].

    Conventions.
    - A table is the list of its rows in rowid order.  [UPDATE ... WHERE]
      maps over the rows, [DELETE ... WHERE] filters them, [SELECT ... WHERE
      ... ORDER BY] filters and then sorts stably.
    - An [async] function is a state transformer over the database that
      either returns or throws; a throw keeps every write made before it
      (the service layer opens no transaction).
    - JavaScript numbers that hold row ids, seeds and scores are integers
      ([Z]); [string | null] is [option string]. *)

From Stdlib Require Import ZArith Lia.
From stdpp Require Import base option list strings sorting pretty.

Local Open Scope Z_scope.

(** ** Rows of the schema *)

Inductive Round := wild_card | divisional | conference | super_bowl.
Inductive Conference := AFC | NFC.
Inductive ScoringType := simple | weighted | bracket | both.

#[global] Instance Round_eq_dec : EqDecision Round.
Proof. solve_decision. Defined.
#[global] Instance Conference_eq_dec : EqDecision Conference.
Proof. solve_decision. Defined.
#[global] Instance ScoringType_eq_dec : EqDecision ScoringType.
Proof. solve_decision. Defined.

Record PlayoffSeed := mkPlayoffSeed {
  ps_id : Z;
  ps_season_id : Z;
  conference_of : Conference;
  seed : Z;
  team_abbr : string }.

Record Game := mkGame {
  id : Z;
  season_id : Z;
  round : Round;
  game_number : Z;
  team_home : string;
  team_away : string;
  seed_home : option Z;
  seed_away : option Z;
  winner : option string;
  espn_event_id : option string;
  completed : bool;
  is_actual_matchup : bool }.

Record Participant := mkParticipant {
  pt_id : Z;
  lobby_id : string;
  pt_name : string;
  submitted_at : Z }.

Record Prediction := mkPrediction {
  pr_id : Z;
  participant_id : Z;
  game_id : Z;
  predicted_winner : string;
  predicted_opponent : option string }.

#[global] Instance PlayoffSeed_eq_dec : EqDecision PlayoffSeed.
Proof. solve_decision. Defined.
#[global] Instance Game_eq_dec : EqDecision Game.
Proof. solve_decision. Defined.
#[global] Instance Participant_eq_dec : EqDecision Participant.
Proof. solve_decision. Defined.
#[global] Instance Prediction_eq_dec : EqDecision Prediction.
Proof. solve_decision. Defined.

(** The database: the four tables the two services touch, and the
    AUTOINCREMENT counter of [games]. *)
Record DB := mkDB {
  games : list Game;
  games_seq : Z;
  playoff_seeds : list PlayoffSeed;
  participants : list Participant;
  predictions : list Prediction }.

Definition set_games (f : list Game → list Game) (db : DB) : DB :=
  mkDB (f (games db)) (games_seq db) (playoff_seeds db)
       (participants db) (predictions db).

(** ** JavaScript fragments *)

(** Truthiness of a [string | null]: null and the empty string are falsy. *)
Definition truthy (v : option string) : bool :=
  match v with
  | Some s => negb (String.eqb s "")
  | None => false
  end.

(** [v!] on a [string | null] that a preceding guard has found truthy.  The
    assertion is erased at run time; the default is only met on null. *)
Definition bang (v : option string) : string := default "" v.

(** ToNumber on [number | null], as applied by the binary minus. *)
Definition toNumber (v : option Z) : Z := default 0 v.

(** [Array.prototype.sort(cmp)]: stable, ascending for [cmp]. *)
Section js_sort.
Context {A : Type} (cmp : A → A → Z).

Fixpoint sort_insert (x : A) (l : list A) : list A :=
    match l with
    | [] => [x]
    | y :: l' => if cmp x y <=? 0 then x :: y :: l' else y :: sort_insert x l'
    end.

Definition js_sort (l : list A) : list A := foldr sort_insert [] l.
End js_sort.

(** ** The monad of the service layer *)

Inductive Exn := Error (msg : string) | TypeError.

Inductive Res (A : Type) := Ok (a : A) | Throw (e : Exn).
Arguments Ok {A} a.
Arguments Throw {A} e.

Definition M (A : Type) : Type := DB → Res A * DB.

#[global] Instance M_ret : MRet M := λ A a db, (Ok a, db).
#[global] Instance M_bind : MBind M := λ A B k m db,
  match m db with
  | (Ok a, db') => k a db'
  | (Throw e, db') => (Throw e, db')
  end.

Definition throw {A} (e : Exn) : M A := λ db, (Throw e, db).
Definition runQuery {A} (q : DB → A) : M A := λ db, (Ok (q db), db).
Definition runExec (stmt : DB → DB) : M unit := λ db, (Ok tt, stmt db).

(** Property access on a value that may be [undefined]. *)
Definition deref {A} (v : option A) : M A :=
  match v with
  | Some a => mret a
  | None => throw TypeError
  end.

Fixpoint forM_ {A} (f : A → M unit) (l : list A) : M unit :=
  match l with
  | [] => mret tt
  | x :: l' => f x ;; forM_ f l'
  end.

(** ** SQL statements over [games] and [playoff_seeds] *)

Definition UPDATE_games (set : Game → Game) (wh : Game → bool) : DB → DB :=
  set_games (fmap (λ g, if wh g then set g else g)).

Definition DELETE_games (wh : Game → bool) : DB → DB :=
  set_games (filter (λ g, wh g = false)).

(** The text columns [round] and [conference] sort alphabetically. *)
Definition round_text_rank (r : Round) : Z :=
  match r with
  | conference => 0
  | divisional => 1
  | super_bowl => 2
  | wild_card => 3
  end.

Definition conference_text_rank (c : Conference) : Z :=
  match c with AFC => 0 | NFC => 1 end.

Definition lex (a b : Z) : Z := if a =? 0 then b else a.

Definition ORDER_BY_round_game_number (a b : Game) : Z :=
  lex (round_text_rank (round a) - round_text_rank (round b))
      (game_number a - game_number b).

Definition ORDER_BY_conference_seed (a b : PlayoffSeed) : Z :=
  lex (conference_text_rank (conference_of a) - conference_text_rank (conference_of b))
      (seed a - seed b).

(** Setters named after the statements' SET clauses. *)
Definition SET_winner_completed (w : string) (g : Game) : Game :=
  mkGame (id g) (season_id g) (round g) (game_number g) (team_home g)
         (team_away g) (seed_home g) (seed_away g) (Some w)
         (espn_event_id g) true (is_actual_matchup g).

Definition SET_winner_null (g : Game) : Game :=
  mkGame (id g) (season_id g) (round g) (game_number g) (team_home g)
         (team_away g) (seed_home g) (seed_away g) None
         (espn_event_id g) false (is_actual_matchup g).

Definition SET_matchup_clear (h a : string) (sh sa : option Z) (g : Game) : Game :=
  mkGame (id g) (season_id g) (round g) (game_number g) h a sh sa None
         (espn_event_id g) false true.

Definition SET_matchup (h a : string) (sh sa : option Z) (g : Game) : Game :=
  mkGame (id g) (season_id g) (round g) (game_number g) h a sh sa (winner g)
         (espn_event_id g) (completed g) true.

Definition WHERE_id (k : Z) (g : Game) : bool := id g =? k.

Definition WHERE_season (s : Z) (g : Game) : bool := season_id g =? s.

Definition WHERE_season_round (s : Z) (r : Round) (g : Game) : bool :=
  (season_id g =? s) && bool_decide (round g = r).

(** [INSERT INTO games]: [UNIQUE(season_id, round, game_number)] is checked,
    the id is one more than the largest id ever handed out. *)
Definition max_id (gs : list Game) : Z := foldr (λ g m, Z.max (id g) m) 0 gs.

Definition slot_taken (s : Z) (r : Round) (n : Z) (gs : list Game) : bool :=
  existsb (λ g, (season_id g =? s) && bool_decide (round g = r)
                && (game_number g =? n)) gs.

Definition runInsert_game (s : Z) (r : Round) (n : Z) (h a : string)
    (sh sa : option Z) (actual : bool) : M Z := λ db,
  if slot_taken s r n (games db) then
    (Throw (Error "UNIQUE constraint failed"), db)
  else
    let k := Z.max (games_seq db) (max_id (games db)) + 1 in
    (Ok k,
     mkDB (games db ++ [mkGame k s r n h a sh sa None None false actual])
          k (playoff_seeds db) (participants db) (predictions db)).

(** ** season.ts *)

Definition SELECT_games_WHERE_id (k : Z) (db : DB) : list Game :=
  filter (λ g, WHERE_id k g = true) (games db).

Definition SELECT_games_WHERE_season_ORDERED (s : Z) (db : DB) : list Game :=
  js_sort ORDER_BY_round_game_number
    (filter (λ g, WHERE_season s g = true) (games db)).

Definition SELECT_seeds_WHERE_season_ORDERED (s : Z) (db : DB) : list PlayoffSeed :=
  js_sort ORDER_BY_conference_seed
    (filter (λ p, ps_season_id p = s) (playoff_seeds db)).

Definition getGameById (k : Z) : M (option Game) :=
  runQuery (λ db, head (SELECT_games_WHERE_id k db)).

Definition getGamesBySeason (seasonId : Z) : M (list Game) :=
  runQuery (SELECT_games_WHERE_season_ORDERED seasonId).

Definition getPlayoffSeeds (seasonId : Z) : M (list PlayoffSeed) :=
  runQuery (SELECT_seeds_WHERE_season_ORDERED seasonId).

(** The three matchup writers.  [game] is the row as the caller read it, or
    [undefined] when the caller indexed past the end of its array. *)
Definition matchupChanged (game : Game) (teamHome teamAway : string) : bool :=
  negb (String.eqb (team_home game) teamHome)
  || negb (String.eqb (team_away game) teamAway).

Definition updateDivisionalGame (game : option Game) (teamHome teamAway : string)
    (seedHome seedAway : option Z) : M unit :=
  game ← deref game;
  if matchupChanged game teamHome teamAway then
    runExec (UPDATE_games (SET_matchup_clear teamHome teamAway seedHome seedAway)
                          (WHERE_id (id game))) ;;
    rows ← runQuery (SELECT_games_WHERE_id (id game));
    row ← deref (head rows);
    let seasonId := season_id row in
    runExec (UPDATE_games SET_winner_null (WHERE_season_round seasonId conference)) ;;
    runExec (UPDATE_games SET_winner_null (WHERE_season_round seasonId super_bowl))
  else if negb (is_actual_matchup game) then
    runExec (UPDATE_games (SET_matchup teamHome teamAway seedHome seedAway)
                          (WHERE_id (id game)))
  else mret tt.

(** [season_id = (SELECT season_id FROM games WHERE id = ?)]: no row makes
    the subquery NULL and the comparison false for every row. *)
Definition WHERE_season_of_round (k : Z) (r : Round) (db : DB) (g : Game) : bool :=
  match head (SELECT_games_WHERE_id k db) with
  | Some row => WHERE_season_round (season_id row) r g
  | None => false
  end.

Definition updateConferenceGame (game : option Game) (teamHome teamAway : string)
    (seedHome seedAway : option Z) : M unit :=
  game ← deref game;
  if matchupChanged game teamHome teamAway then
    runExec (UPDATE_games (SET_matchup_clear teamHome teamAway seedHome seedAway)
                          (WHERE_id (id game))) ;;
    runExec (λ db, UPDATE_games SET_winner_null
                     (WHERE_season_of_round (id game) super_bowl db) db)
  else if negb (is_actual_matchup game) then
    runExec (UPDATE_games (SET_matchup teamHome teamAway seedHome seedAway)
                          (WHERE_id (id game)))
  else mret tt.

Definition updateSuperBowlGame (game : Game) (teamHome teamAway : string)
    (seedHome seedAway : option Z) : M unit :=
  if matchupChanged game teamHome teamAway then
    runExec (UPDATE_games (SET_matchup_clear teamHome teamAway seedHome seedAway)
                          (WHERE_id (id game)))
  else if negb (is_actual_matchup game) then
    runExec (UPDATE_games (SET_matchup teamHome teamAway seedHome seedAway)
                          (WHERE_id (id game)))
  else mret tt.

(** Helpers local to [reseedPlayoffBracket]. *)
Definition isRoundComplete (roundGames : list Game) : bool :=
  (0 <? Z.of_nat (length roundGames))
  && forallb (λ g, completed g && truthy (winner g)) roundGames.

Definition getSeedForTeam (seeds : list PlayoffSeed) (team : string) : option Z :=
  seed <$> head (filter (λ s, team_abbr s = team) seeds).

Definition getConferenceForTeam (seeds : list PlayoffSeed) (team : string)
    : option Conference :=
  conference_of <$> head (filter (λ s, team_abbr s = team) seeds).

Definition game_number_between (lo hi : Z) (g : Game) : bool :=
  (lo <=? game_number g) && (game_number g <=? hi).

(** The [{ team, seed }] records of the winners, sorted by seed. *)
Definition winnersBySeed (seeds : list PlayoffSeed) (gs : list Game)
    : list (string * option Z) :=
  js_sort (λ a b, toNumber (a.2) - toNumber (b.2))
          ((λ g, (bang (winner g), getSeedForTeam seeds (bang (winner g)))) <$> gs).

Definition firstSeedOf (seeds : list PlayoffSeed) (c : Conference)
    : option PlayoffSeed :=
  head (filter (λ s, conference_of s = c ∧ seed s = 1) seeds).

(** One conference's half of "Re-seed Divisional Round from Wild Card";
    [slot] is the index of the conference's first divisional game. *)
Definition reseedDivisional (seeds : list PlayoffSeed) (c : Conference)
    (confWildCardGames divisionalGames : list Game) (slot : nat) : M unit :=
  if forallb (λ g, truthy (winner g)) confWildCardGames then
    let winners := winnersBySeed seeds confWildCardGames in
    seed1 ← deref (firstSeedOf seeds c);
    worst ← deref (winners !! 2%nat);
    best ← deref (winners !! 0%nat);
    second ← deref (winners !! 1%nat);
    updateDivisionalGame (divisionalGames !! slot)
      (team_abbr seed1) (worst.1) (Some 1) (worst.2) ;;
    updateDivisionalGame (divisionalGames !! S slot)
      (best.1) (second.1) (best.2) (second.2)
  else mret tt.

(** One conference's half of "Re-seed Conference Championship from
    Divisional". *)
Definition reseedConference (seeds : list PlayoffSeed)
    (confDivisionalGames conferenceGames : list Game) (slot : nat) : M unit :=
  if forallb (λ g, truthy (winner g)) confDivisionalGames then
    let winners := winnersBySeed seeds confDivisionalGames in
    best ← deref (winners !! 0%nat);
    second ← deref (winners !! 1%nat);
    updateConferenceGame (conferenceGames !! slot)
      (best.1) (second.1) (best.2) (second.2)
  else mret tt.

(** The body of [reseedPlayoffBracket] once [games] and [seeds] are read:
    every decision below is taken on these two values, never on a later
    read of the table. *)
Definition reseedRounds (games : list Game) (seeds : list PlayoffSeed) : M unit :=
  let wildCardGames := filter (λ g, round g = wild_card) games in
  let divisionalGames := filter (λ g, round g = divisional) games in
  let conferenceGames := filter (λ g, round g = conference) games in
  let superBowlGame := head (filter (λ g, round g = super_bowl) games) in
  (if isRoundComplete wildCardGames then
     let afcWildCardGames := filter (λ g, game_number_between 1 3 g = true) wildCardGames in
     let nfcWildCardGames := filter (λ g, game_number_between 4 6 g = true) wildCardGames in
     reseedDivisional seeds AFC afcWildCardGames divisionalGames 0 ;;
     reseedDivisional seeds NFC nfcWildCardGames divisionalGames 2
   else mret tt) ;;
  (if isRoundComplete divisionalGames then
     let afcDivisionalGames := filter (λ g, game_number_between 1 2 g = true) divisionalGames in
     let nfcDivisionalGames := filter (λ g, game_number_between 3 4 g = true) divisionalGames in
     reseedConference seeds afcDivisionalGames conferenceGames 0 ;;
     reseedConference seeds nfcDivisionalGames conferenceGames 1
   else mret tt) ;;
  (if isRoundComplete conferenceGames then
     match superBowlGame with
     | Some superBowlGame =>
         afc ← deref (conferenceGames !! 0%nat);
         nfc ← deref (conferenceGames !! 1%nat);
         let afcChampion := bang (winner afc) in
         let nfcChampion := bang (winner nfc) in
         updateSuperBowlGame superBowlGame afcChampion nfcChampion
           (getSeedForTeam seeds afcChampion) (getSeedForTeam seeds nfcChampion)
     | None => mret tt
     end
   else mret tt).

Definition reseedPlayoffBracket (seasonId : Z) : M unit :=
  games ← getGamesBySeason seasonId;
  seeds ← getPlayoffSeeds seasonId;
  reseedRounds games seeds.

Definition updateGameWinner (gameId : Z) (winner : string) : M unit :=
  game ← getGameById gameId;
  match game with
  | None => throw (Error "Game not found")
  | Some game =>
      runExec (UPDATE_games (SET_winner_completed winner) (WHERE_id gameId)) ;;
      reseedPlayoffBracket (season_id game)
  end.

(** Bracket generation. *)
Definition generateWildCardGames (seasonId : Z) (confSeeds : list PlayoffSeed)
    (gameNumberOffset : Z) : M unit :=
  let pairs := [(confSeeds !! 1%nat, confSeeds !! 6%nat);
                (confSeeds !! 2%nat, confSeeds !! 5%nat);
                (confSeeds !! 3%nat, confSeeds !! 4%nat)] in
  forM_ (λ '(i, (home, away)),
           home ← deref home;
           away ← deref away;
           runInsert_game seasonId wild_card (gameNumberOffset + i + 1)
             (team_abbr home) (team_abbr away)
             (Some (seed home)) (Some (seed away)) true ;;
           mret tt)
        (zip [0; 1; 2] pairs).

Definition generateDivisionalPlaceholders (seasonId : Z) (gameNumberOffset : Z)
    : M unit :=
  forM_ (λ i, runInsert_game seasonId divisional (gameNumberOffset + i + 1)
                "TBD" "TBD" None None false ;; mret tt)
        [0; 1].

Definition generatePlayoffGamesFromSeeds (seasonId : Z) : M unit :=
  seeds ← getPlayoffSeeds seasonId;
  if bool_decide (length seeds = 0%nat) then
    throw (Error "No playoff seeds defined for this season")
  else
    let afcSeeds := js_sort (λ a b, seed a - seed b)
                      (filter (λ s, conference_of s = AFC) seeds) in
    let nfcSeeds := js_sort (λ a b, seed a - seed b)
                      (filter (λ s, conference_of s = NFC) seeds) in
    if (Z.of_nat (length afcSeeds) <? 7) || (Z.of_nat (length nfcSeeds) <? 7) then
      throw (Error "Each conference must have 7 seeds defined")
    else
      runExec (DELETE_games (WHERE_season seasonId)) ;;
      generateWildCardGames seasonId afcSeeds 0 ;;
      generateWildCardGames seasonId nfcSeeds 3 ;;
      generateDivisionalPlaceholders seasonId 0 ;;
      generateDivisionalPlaceholders seasonId 2 ;;
      runInsert_game seasonId conference 1 "TBD" "TBD" None None false ;;
      runInsert_game seasonId conference 2 "TBD" "TBD" None None false ;;
      runInsert_game seasonId super_bowl 1 "TBD" "TBD" None None false ;;
      mret tt.

(** ** lobby.ts: the two queries the leaderboard reads *)

(** [predictions p JOIN participants pt ON p.participant_id = pt.id WHERE
    pt.lobby_id = ?]; the query has no ORDER BY, the rows are taken in
    the order of the predictions table. *)
Definition SELECT_predictions_JOIN_lobby (lobbyId : string) (db : DB)
    : list Prediction :=
  p ← predictions db;
  pt ← filter (λ pt, pt_id pt = participant_id p ∧ lobby_id pt = lobbyId)
              (participants db);
  [p].

Definition SELECT_participants_WHERE_lobby_ORDERED (lobbyId : string) (db : DB)
    : list Participant :=
  js_sort (λ a b, submitted_at a - submitted_at b)
          (filter (λ pt, lobby_id pt = lobbyId) (participants db)).

Definition getPredictionsByLobby (lobbyId : string) : M (list Prediction) :=
  runQuery (SELECT_predictions_JOIN_lobby lobbyId).

Definition getParticipantsByLobby (lobbyId : string) : M (list Participant) :=
  runQuery (SELECT_participants_WHERE_lobby_ORDERED lobbyId).

(** ** leaderboard.ts *)

Record LeaderboardEntry := mkEntry {
  participantId : Z;
  name : string;
  simpleScore : Z;
  weightedScore : Z;
  correctPicks : Z;
  totalPicks : Z }.

Definition WEIGHTED_POINTS (r : Round) : Z :=
  match r with
  | wild_card => 1
  | divisional => 2
  | conference => 3
  | super_bowl => 5
  end.

Record Points := mkPoints { pts_simple : Z; pts_weighted : Z; isCorrect : bool }.

Definition calculatePoints (game : Game) (prediction : Prediction)
    (scoringType : ScoringType) : Points :=
  if negb (completed game) || negb (truthy (winner game)) then
    mkPoints 0 0 false
  else
    let predictedCorrectWinner :=
      bool_decide (winner game = Some (predicted_winner prediction)) in
    if negb predictedCorrectWinner then mkPoints 0 0 false
    else mkPoints 1 (WEIGHTED_POINTS (round game)) true.

(** A JavaScript [Map<number, LeaderboardEntry>]: keys in insertion order;
    [set] on a present key replaces the value where it stands.  The entries
    are objects mutated through the reference [get] returns, which is a
    [set] of the updated record at the same key. *)
Abbreviation JsMap := (list (Z * LeaderboardEntry)).

Definition map_get (k : Z) (m : JsMap) : option LeaderboardEntry :=
  snd <$> head (filter (λ kv, kv.1 = k) m).

Fixpoint map_set (k : Z) (v : LeaderboardEntry) (m : JsMap) : JsMap :=
  match m with
  | [] => [(k, v)]
  | (k', v') :: m' =>
      if bool_decide (k' = k) then (k, v) :: m' else (k', v') :: map_set k v m'
  end.

Definition map_values (m : JsMap) : list LeaderboardEntry := snd <$> m.

Fixpoint foldM {A B} (f : B → A → M B) (b : B) (l : list A) : M B :=
  match l with
  | [] => mret b
  | x :: l' => b' ← f b x; foldM f b' l'
  end.

(** One iteration of [for (const prediction of predictions)]. *)
Definition scorePrediction (games : list Game) (scoringType : ScoringType)
    (leaderboard : JsMap) (prediction : Prediction) : M JsMap :=
  match head (filter (λ g, id g = game_id prediction) games) with
  | None => mret leaderboard
  | Some game =>
      entry ← deref (map_get (participant_id prediction) leaderboard);
      let totalPicks' := totalPicks entry + 1 in
      let points := calculatePoints game prediction scoringType in
      let entry' :=
        if isCorrect points then
          mkEntry (participantId entry) (name entry)
                  (simpleScore entry + pts_simple points)
                  (weightedScore entry + pts_weighted points)
                  (correctPicks entry + 1) totalPicks'
        else
          mkEntry (participantId entry) (name entry) (simpleScore entry)
                  (weightedScore entry) (correctPicks entry) totalPicks' in
      mret (map_set (participant_id prediction) entry' leaderboard)
  end.

Definition sortEntries (scoringType : ScoringType)
    (entries : list LeaderboardEntry) : list LeaderboardEntry :=
  match scoringType with
  | simple => js_sort (λ a b, simpleScore b - simpleScore a) entries
  | weighted => js_sort (λ a b, weightedScore b - weightedScore a) entries
  | _ => js_sort (λ a b, simpleScore b - simpleScore a) entries
  end.

Definition calculateLeaderboard (lobbyId : string) (seasonId : Z)
    (scoringType : ScoringType) : M (list LeaderboardEntry) :=
  games ← getGamesBySeason seasonId;
  predictions ← getPredictionsByLobby lobbyId;
  participants ← getParticipantsByLobby lobbyId;
  let leaderboard :=
    foldl (λ lb participant,
             map_set (pt_id participant)
                     (mkEntry (pt_id participant) (pt_name participant) 0 0 0 0) lb)
          [] participants in
  leaderboard ← foldM (scorePrediction games scoringType) leaderboard predictions;
  let entries := map_values leaderboard in
  mret (sortEntries scoringType entries).

(** * Vocabulary of the statements *)

(** Position of a round in the bracket: a round is downstream of the rounds
    of smaller depth. *)
Definition depth (r : Round) : Z :=
  match r with
  | wild_card => 0
  | divisional => 1
  | conference => 2
  | super_bowl => 3
  end.

Definition downstream (r r' : Round) : Prop := depth r < depth r'.

Definition teams (g : Game) : string * string := (team_home g, team_away g).

Definition cleared (g : Game) : Prop := winner g = None ∧ completed g = false.

Definition result_kept (g0 g : Game) : Prop :=
  winner g = winner g0 ∧ completed g = completed g0.

(** The columns no statement of the engine assigns. *)
Definition same_slot (g0 g : Game) : Prop :=
  id g = id g0 ∧ season_id g = season_id g0 ∧ round g = round g0
  ∧ game_number g = game_number g0 ∧ espn_event_id g = espn_event_id g0.

(** [id INTEGER PRIMARY KEY] on [games]. *)
Definition pk_unique (db : DB) : Prop := NoDup (id <$> games db).

(** How a row [g] of the running table relates to the row [g0] that stood in
    its place when the engine read the season [s]; rounds of depth below
    [lo] are out of reach of the calls under consideration. *)
Record row_evolves (lo s : Z) (gs0 : list Game) (g0 g : Game) : Prop := {
  re_in : g0 ∈ gs0;
  re_slot : same_slot g0 g;
  re_season : season_id g0 ≠ s → g = g0;
  re_low : depth (round g0) < lo → g = g0;
  re_result : result_kept g0 g ∨ cleared g;
  re_changed : teams g ≠ teams g0 → cleared g ∧ is_actual_matchup g = true }.

Definition cascaded (gs0 gs : list Game) : Prop :=
  ∀ g0 g h, g0 ∈ gs0 → g ∈ gs → id g = id g0 → teams g ≠ teams g0 →
    h ∈ gs → season_id h = season_id g0 → downstream (round g0) (round h) →
    cleared h.

Definition Inv (lo s : Z) (gs0 : list Game) (db : DB) : Prop :=
  Forall2 (row_evolves lo s gs0) gs0 (games db) ∧ cascaded gs0 (games db).

(** The state a call leaves behind, whether it returns or throws. *)
Definition preserves {A} (I : DB → Prop) (m : M A) : Prop :=
  ∀ db, I db → I (m db).2.

(** The row functions of the two shapes of write a matchup writer issues:
    the matchup with its result cleared, followed by the clearing of the
    rounds [rs] of season [s]; or the matchup alone. *)
Definition clearStep (k : Z) (h a : string) (sh sa : option Z) (s : Z)
    (rs : list Round) (g : Game) : Game :=
  let g1 := if WHERE_id k g then SET_matchup_clear h a sh sa g else g in
  if (season_id g1 =? s) && bool_decide (round g1 ∈ rs) then SET_winner_null g1 else g1.

Definition setStep (k : Z) (h a : string) (sh sa : option Z) (g : Game) : Game :=
  if WHERE_id k g then SET_matchup h a sh sa g else g.

Definition roundsAfter (r : Round) : list Round :=
  match r with
  | wild_card => [divisional; conference; super_bowl]
  | divisional => [conference; super_bowl]
  | conference => [super_bowl]
  | super_bowl => []
  end.

Definition from_round (s : Z) (gs0 : list Game) (r : Round) (g : Game) : Prop :=
  g ∈ gs0 ∧ season_id g = s ∧ round g = r.

(** The seeds recorded for one conference of a season. *)
Definition seedsOf (s : Z) (c : Conference) (db : DB) : list PlayoffSeed :=
  filter (λ p, conference_of p = c)
         (filter (λ p, ps_season_id p = s) (playoff_seeds db)).

(** The thirteen slots of a bracket, in creation order. *)
Definition bracketSlots : list (Round * Z) :=
  [(wild_card, 1); (wild_card, 2); (wild_card, 3);
   (wild_card, 4); (wild_card, 5); (wild_card, 6);
   (divisional, 1); (divisional, 2); (divisional, 3); (divisional, 4);
   (conference, 1); (conference, 2); (super_bowl, 1)].

(** ** Scoring, in the words of the specification *)

Definition targetGame (games : list Game) (p : Prediction) : option Game :=
  head (filter (λ g, id g = game_id p) games).

(** A prediction earns points when its target game exists, is completed,
    and has a winner, neither null nor the empty string, that is the
    predicted team. *)
Definition earns (games : list Game) (p : Prediction) : bool :=
  match targetGame games p with
  | Some g =>
      completed g
      && bool_decide (winner g ≠ None ∧ winner g ≠ Some ""
                      ∧ winner g = Some (predicted_winner p))
  | None => false
  end.

Definition awardedSimple (games : list Game) (p : Prediction) : Z :=
  if earns games p then 1 else 0.

Definition awardedWeighted (games : list Game) (p : Prediction) : Z :=
  match targetGame games p with
  | Some g => if earns games p then WEIGHTED_POINTS (round g) else 0
  | None => 0
  end.

Definition Zsum (l : list Z) : Z := foldr Z.add 0 l.

Definition picksOf (k : Z) (ps : list Prediction) : list Prediction :=
  filter (λ p, participant_id p = k) ps.

Definition freshEntry (pt : Participant) : LeaderboardEntry :=
  mkEntry (pt_id pt) (pt_name pt) 0 0 0 0.

(** The weight of the game with id [k], 0 when there is none. *)
Definition weightOfGame (games : list Game) (k : Z) : Z :=
  match head (filter (λ g, id g = k) games) with
  | Some g => WEIGHTED_POINTS (round g)
  | None => 0
  end.

Definition gamesInRound (r : Round) (games : list Game) : nat :=
  length (filter (λ g, round g = r) games).

(** ** The engine as a plan of writes

    Every decision of [reseedRounds] is taken on the rows it read at the
    start, so a run amounts to a list of matchup writes computed from these
    rows, applied in order.  The plan is [None] where the run throws. *)

Record Write := mkWrite {
  target : Game;
  newHome : string;
  newAway : string;
  newSeedHome : option Z;
  newSeedAway : option Z }.

(** What one matchup writer does to a row of the table. *)
Definition rowWrite (w : Write) (g : Game) : Game :=
  let d := target w in
  if matchupChanged d (newHome w) (newAway w) then
    clearStep (id d) (newHome w) (newAway w) (newSeedHome w) (newSeedAway w)
              (season_id d) (roundsAfter (round d)) g
  else if negb (is_actual_matchup d) then
    setStep (id d) (newHome w) (newAway w) (newSeedHome w) (newSeedAway w) g
  else g.

Definition applyWrite (db : DB) (w : Write) : DB := set_games (fmap (rowWrite w)) db.

Definition rowPlan (ws : list Write) (g : Game) : Game :=
  foldl (λ g w, rowWrite w g) g ws.

Definition planWrite (game : option Game) (h a : string) (sh sa : option Z)
    : option (list Write) :=
  d ← game; Some [mkWrite d h a sh sa].

Definition planDivisional (seeds : list PlayoffSeed) (c : Conference)
    (confWildCardGames divisionalGames : list Game) (slot : nat)
    : option (list Write) :=
  if forallb (λ g, truthy (winner g)) confWildCardGames then
    let winners := winnersBySeed seeds confWildCardGames in
    seed1 ← firstSeedOf seeds c;
    worst ← winners !! 2%nat;
    best ← winners !! 0%nat;
    second ← winners !! 1%nat;
    w1 ← planWrite (divisionalGames !! slot)
           (team_abbr seed1) (worst.1) (Some 1) (worst.2);
    w2 ← planWrite (divisionalGames !! S slot)
           (best.1) (second.1) (best.2) (second.2);
    Some (w1 ++ w2)
  else Some [].

Definition planConference (seeds : list PlayoffSeed)
    (confDivisionalGames conferenceGames : list Game) (slot : nat)
    : option (list Write) :=
  if forallb (λ g, truthy (winner g)) confDivisionalGames then
    let winners := winnersBySeed seeds confDivisionalGames in
    best ← winners !! 0%nat;
    second ← winners !! 1%nat;
    planWrite (conferenceGames !! slot) (best.1) (second.1) (best.2) (second.2)
  else Some [].

Definition planDivisionalRound (games : list Game) (seeds : list PlayoffSeed)
    : option (list Write) :=
  let wildCardGames := filter (λ g, round g = wild_card) games in
  let divisionalGames := filter (λ g, round g = divisional) games in
  if isRoundComplete wildCardGames then
    a ← planDivisional seeds AFC
          (filter (λ g, game_number_between 1 3 g = true) wildCardGames)
          divisionalGames 0;
    b ← planDivisional seeds NFC
          (filter (λ g, game_number_between 4 6 g = true) wildCardGames)
          divisionalGames 2;
    Some (a ++ b)
  else Some [].

Definition planConferenceRound (games : list Game) (seeds : list PlayoffSeed)
    : option (list Write) :=
  let divisionalGames := filter (λ g, round g = divisional) games in
  let conferenceGames := filter (λ g, round g = conference) games in
  if isRoundComplete divisionalGames then
    a ← planConference seeds
          (filter (λ g, game_number_between 1 2 g = true) divisionalGames)
          conferenceGames 0;
    b ← planConference seeds
          (filter (λ g, game_number_between 3 4 g = true) divisionalGames)
          conferenceGames 1;
    Some (a ++ b)
  else Some [].

Definition planSuperBowl (games : list Game) (seeds : list PlayoffSeed)
    : option (list Write) :=
  let conferenceGames := filter (λ g, round g = conference) games in
  if isRoundComplete conferenceGames then
    match head (filter (λ g, round g = super_bowl) games) with
    | Some superBowlGame =>
        afc ← conferenceGames !! 0%nat;
        nfc ← conferenceGames !! 1%nat;
        Some [mkWrite superBowlGame (bang (winner afc)) (bang (winner nfc))
                (getSeedForTeam seeds (bang (winner afc)))
                (getSeedForTeam seeds (bang (winner nfc)))]
    | None => Some []
    end
  else Some [].

Definition planRounds (games : list Game) (seeds : list PlayoffSeed)
    : option (list Write) :=
  p1 ← planDivisionalRound games seeds;
  p2 ← planConferenceRound games seeds;
  p3 ← planSuperBowl games seeds;
  Some (p1 ++ p2 ++ p3).

(** A call follows a plan when, from any state the engine can be in, it
    returns after the plan's writes, or throws where there is no plan. *)
Definition follows (lo s : Z) (gs0 : list Game) (m : M unit)
    (plan : option (list Write)) : Prop :=
  ∀ db, Inv lo s gs0 db →
    Inv lo s gs0 (m db).2
    ∧ match plan with
      | Some ws => m db = (Ok tt, foldl applyWrite db ws)
      | None => (m db).1 = Throw TypeError
      end.

(** A write whose target already shows the new matchup as the real one. *)
Definition settled (w : Write) : Prop :=
  teams (target w) = (newHome w, newAway w) ∧ is_actual_matchup (target w) = true.

Definition retarget (F : Game → Game) (w : Write) : Write :=
  mkWrite (F (target w)) (newHome w) (newAway w) (newSeedHome w) (newSeedAway w).

(** ** The standard bracket *)

(** The thirteen slots in the order [getGamesBySeason] reads them. *)
Definition orderedSlots : list (Round * Z) :=
  [(conference, 1); (conference, 2);
   (divisional, 1); (divisional, 2); (divisional, 3); (divisional, 4);
   (super_bowl, 1);
   (wild_card, 1); (wild_card, 2); (wild_card, 3);
   (wild_card, 4); (wild_card, 5); (wild_card, 6)].

(** The season's games fill exactly the thirteen slots of the format. *)
Definition standardBracket (s : Z) (db : DB) : Prop :=
  (λ g, (round g, game_number g)) <$> SELECT_games_WHERE_season_ORDERED s db
  = orderedSlots.

(** The winners of the wild-card games numbered [lo] to [hi]. *)
Definition wildCardWinners (s lo hi : Z) (db : DB) : list string :=
  (λ g, bang (winner g))
    <$> filter (λ g, round g = wild_card ∧ lo ≤ game_number g ≤ hi)
          (SELECT_games_WHERE_season_ORDERED s db).

(** A team's rank as the engine's sort sees it: the seed of the first seed
    row with its abbreviation, in either conference, 0 without one. *)
Definition rankOf (seeds : list PlayoffSeed) (team : string) : Z :=
  toNumber (getSeedForTeam seeds team).

(** What the engine's sort does for one conference, in terms of [rankOf]:
    [top] hosts the worst-ranked of the [winners] in [slot1]; the
    best-ranked hosts the second in [slot2]. *)
Definition divisionalPairing (seeds : list PlayoffSeed) (winners : list string)
    (top : string) (slot1 slot2 : Game) : Prop :=
  ∃ best second worst,
    [best; second; worst] ≡ₚ winners
    ∧ rankOf seeds best ≤ rankOf seeds second ≤ rankOf seeds worst
    ∧ teams slot1 = (top, worst) ∧ is_actual_matchup slot1 = true
    ∧ teams slot2 = (best, second) ∧ is_actual_matchup slot2 = true
    ∧ (rankOf seeds <$> winners ≡ₚ [2; 3; 4] →
       rankOf seeds worst = 4 ∧ rankOf seeds best = 2 ∧ rankOf seeds second = 3).

(** ** Seeding, in the words of the specification *)

(** The seed rows of a season. *)
Definition seasonSeeds (s : Z) (db : DB) : list PlayoffSeed :=
  filter (λ p, ps_season_id p = s) (playoff_seeds db).

(** [team] is seed number [n] of conference [c] in season [s]. *)
Definition seededAs (s : Z) (db : DB) (c : Conference) (team : string) (n : Z)
    : Prop :=
  ∃ row, row ∈ seedsOf s c db ∧ team_abbr row = team ∧ seed row = n.

(** The teams seeded in conference [c] of season [s]. *)
Definition conferenceTeams (s : Z) (db : DB) (c : Conference) : list string :=
  team_abbr <$> seedsOf s c db.

(** The seeds of the season form a proper table: one row per (conference,
    seed), as the UNIQUE constraint of [playoff_seeds] has it, and no
    abbreviation on two rows. *)
Definition properSeeds (s : Z) (db : DB) : Prop :=
  NoDup ((λ p, (conference_of p, seed p)) <$> seasonSeeds s db)
  ∧ NoDup (team_abbr <$> seasonSeeds s db).

(** The divisional round of conference [c] as the specification seeds it:
    [top], the conference's seed 1, hosts the worst-seeded of the three
    [winners] in [slot1]; the best-seeded hosts the second-best in [slot2].
    With the seeds 2, 3 and 4 as winners this is 1 v 4 and 2 v 3. *)
Definition divisionalSeeding (s : Z) (db : DB) (c : Conference)
    (winners : list string) (top : string) (slot1 slot2 : Game) : Prop :=
  (∃ best second worst nb ns nw,
     [best; second; worst] ≡ₚ winners
     ∧ seededAs s db c best nb ∧ seededAs s db c second ns
     ∧ seededAs s db c worst nw
     ∧ nb ≤ ns ≤ nw
     ∧ teams slot1 = (top, worst) ∧ is_actual_matchup slot1 = true
     ∧ teams slot2 = (best, second) ∧ is_actual_matchup slot2 = true)
  ∧ ∀ t2 t3 t4,
      seededAs s db c t2 2 → seededAs s db c t3 3 → seededAs s db c t4 4 →
      winners ≡ₚ [t2; t3; t4] →
      teams slot1 = (top, t4) ∧ teams slot2 = (t2, t3).

(** * A worked season

    The 2025 seeds of the test-suite, the bracket generated from them, and
    brackets with results recorded through [updateGameWinner]. *)

Definition exec {A} (m : M A) (db : DB) : DB := (m db).2.

Definition seeds2025 : list PlayoffSeed :=
  [ mkPlayoffSeed 1 1 AFC 1 "KC";   mkPlayoffSeed 2 1 AFC 2 "BUF";
    mkPlayoffSeed 3 1 AFC 3 "BAL";  mkPlayoffSeed 4 1 AFC 4 "HOU";
    mkPlayoffSeed 5 1 AFC 5 "CLE";  mkPlayoffSeed 6 1 AFC 6 "MIA";
    mkPlayoffSeed 7 1 AFC 7 "PIT";
    mkPlayoffSeed 8 1 NFC 1 "SF";   mkPlayoffSeed 9 1 NFC 2 "DAL";
    mkPlayoffSeed 10 1 NFC 3 "DET"; mkPlayoffSeed 11 1 NFC 4 "TB";
    mkPlayoffSeed 12 1 NFC 5 "PHI"; mkPlayoffSeed 13 1 NFC 6 "LA";
    mkPlayoffSeed 14 1 NFC 7 "GB" ].

Definition season2025 : DB := mkDB [] 0 seeds2025 [] [].

Definition bracket2025 : DB := exec (generatePlayoffGamesFromSeeds 1) season2025.

Definition recordAll (results : list (Z * string)) (db : DB) : DB :=
  foldl (λ db r, exec (updateGameWinner r.1 r.2) db) db results.

Definition chalkWildCard : list (Z * string) :=
  [(1, "BUF"); (2, "BAL"); (3, "HOU"); (4, "DAL"); (5, "DET"); (6, "TB")].

Definition chalkLaterRounds : list (Z * string) :=
  [(7, "KC"); (8, "BUF"); (9, "SF"); (10, "DAL"); (11, "KC"); (12, "SF"); (13, "KC")].

(** Five of the six wild-card games decided. *)
Definition partial2025 : DB := recordAll (take 5 chalkWildCard) bracket2025.

(** The wild-card round decided, the later rounds open. *)
Definition wildCardDone2025 : DB := recordAll chalkWildCard bracket2025.

(** Every round decided. *)
Definition decided2025 : DB := recordAll chalkLaterRounds wildCardDone2025.

(** [decided2025] after the write of [updateGameWinner 1 "PIT"], before the
    engine runs. *)
Definition upset2025 : DB :=
  UPDATE_games (SET_winner_completed "PIT") (WHERE_id 1) decided2025.

Definition gameOf (k : Z) (db : DB) : Game :=
  default (mkGame 0 0 wild_card 0 "" "" None None None None false false)
          (head (SELECT_games_WHERE_id k db)).

(** The 2025 season with an eighth AFC seed on record, and games stored. *)
Definition eightSeeds2025 : DB :=
  mkDB (games bracket2025) (games_seq bracket2025)
       (seeds2025 ++ [mkPlayoffSeed 15 1 AFC 8 "NE"]) [] [].

(** Two lobbies on the decided season: in "L" Ann picked one wild-card game
    and Bob one divisional game, both correctly; in "M" Cy picked all
    thirteen games correctly. *)
Definition lobby2025 : DB :=
  mkDB (games decided2025) (games_seq decided2025) seeds2025
    [ mkParticipant 1 "L" "Ann" 100; mkParticipant 2 "L" "Bob" 200;
      mkParticipant 3 "M" "Cy" 300 ]
    [ mkPrediction 1 1 1 "BUF" None; mkPrediction 2 2 7 "KC" None;
      mkPrediction 3 3 11 "KC" None; mkPrediction 4 3 12 "SF" None;
      mkPrediction 5 3 7 "KC" None; mkPrediction 6 3 8 "BUF" None;
      mkPrediction 7 3 9 "SF" None; mkPrediction 8 3 10 "DAL" None;
      mkPrediction 9 3 13 "KC" None;
      mkPrediction 10 3 1 "BUF" None; mkPrediction 11 3 2 "BAL" None;
      mkPrediction 12 3 3 "HOU" None; mkPrediction 13 3 4 "DAL" None;
      mkPrediction 14 3 5 "DET" None; mkPrediction 15 3 6 "TB" None ].

(** The generated bracket after [updateGameWinner 1 ""], with one
    participant whose pick for game 1 is the empty string. *)
Definition emptyWinner2025 : DB :=
  mkDB (games (exec (updateGameWinner 1 "") bracket2025))
       (games_seq bracket2025) seeds2025
       [mkParticipant 1 "L" "Ann" 100]
       [mkPrediction 1 1 1 "" None].

(** A season in which "PIT" is seed 7 of the AFC and seed 2 of the NFC, its
    bracket generated and the six wild-card games won by the seeds 2, 3
    and 4 of each conference. *)
Definition twinSeeds2025 : DB :=
  recordAll [(1, "BUF"); (2, "BAL"); (3, "HOU");
             (4, "PIT"); (5, "DET"); (6, "TB")]
    (exec (generatePlayoffGamesFromSeeds 1)
       (mkDB [] 0
          ((λ p, if ps_id p =? 9 then mkPlayoffSeed 9 1 NFC 2 "PIT" else p)
             <$> seeds2025) [] [])).

(** The generated bracket with the empty string recorded as the winner of
    each wild-card game. *)
Definition emptyWinners2025 : DB :=
  recordAll [(1, ""); (2, ""); (3, ""); (4, ""); (5, ""); (6, "")] bracket2025.

(** ** Later rounds and frames *)

(** The winners of the games of round [r] numbered [lo] to [hi]. *)
Definition roundWinners (s : Z) (r : Round) (lo hi : Z) (db : DB) : list string :=
  (λ g, bang (winner g))
    <$> filter (λ g, round g = r ∧ lo ≤ game_number g ≤ hi)
          (SELECT_games_WHERE_season_ORDERED s db).

(** Every game of round [r] of the season is completed with a winner. *)
Definition roundDecided (s : Z) (r : Round) (db : DB) : Prop :=
  Forall (λ g, round g = r →
               completed g = true ∧ winner g ≠ None ∧ winner g ≠ Some "")
         (SELECT_games_WHERE_season_ORDERED s db).

(** What the engine's sort does for a conference title game, in terms of
    [rankOf]: the better-ranked of the two divisional [winners] hosts the
    other. *)
Definition conferencePairing (seeds : list PlayoffSeed) (winners : list string)
    (slot : Game) : Prop :=
  ∃ best second,
    [best; second] ≡ₚ winners
    ∧ rankOf seeds best ≤ rankOf seeds second
    ∧ teams slot = (best, second) ∧ is_actual_matchup slot = true.

(** The title game of conference [c] as the specification seeds it: the
    better-seeded of the two divisional [winners] hosts the other. *)
Definition conferenceSeeding (s : Z) (db : DB) (c : Conference)
    (winners : list string) (slot : Game) : Prop :=
  ∃ best second nb ns,
    [best; second] ≡ₚ winners
    ∧ seededAs s db c best nb ∧ seededAs s db c second ns
    ∧ nb ≤ ns
    ∧ teams slot = (best, second) ∧ is_actual_matchup slot = true.

(** The tables other than [games], and the counter of [games]. *)
Definition same_tables (db db' : DB) : Prop :=
  games_seq db' = games_seq db ∧ playoff_seeds db' = playoff_seeds db
  ∧ participants db' = participants db ∧ predictions db' = predictions db.

(** The row written by [UPDATE games SET winner = ?, completed = 1
    WHERE id = ?]. *)
Definition recordRow (k : Z) (w : string) (g : Game) : Game :=
  if WHERE_id k g then SET_winner_completed w g else g.

(** ** The rows bracket generation inserts *)

Definition wildCardRow (k s n : Z) (home away : PlayoffSeed) : Game :=
  mkGame k s wild_card n (team_abbr home) (team_abbr away)
         (Some (seed home)) (Some (seed away)) None None false true.

Definition placeholderRow (k s : Z) (r : Round) (n : Z) : Game :=
  mkGame k s r n "TBD" "TBD" None None None None false false.

(** The thirteen rows in insertion order, with ids [k+1] to [k+13]. *)
Definition bracketRows (k s : Z) (afc nfc : list PlayoffSeed) : list Game :=
  match afc, nfc with
  | _ :: a1 :: a2 :: a3 :: a4 :: a5 :: a6 :: _,
    _ :: n1 :: n2 :: n3 :: n4 :: n5 :: n6 :: _ =>
      [ wildCardRow (k + 1) s 1 a1 a6; wildCardRow (k + 2) s 2 a2 a5;
        wildCardRow (k + 3) s 3 a3 a4;
        wildCardRow (k + 4) s 4 n1 n6; wildCardRow (k + 5) s 5 n2 n5;
        wildCardRow (k + 6) s 6 n3 n4;
        placeholderRow (k + 7) s divisional 1; placeholderRow (k + 8) s divisional 2;
        placeholderRow (k + 9) s divisional 3; placeholderRow (k + 10) s divisional 4;
        placeholderRow (k + 11) s conference 1; placeholderRow (k + 12) s conference 2;
        placeholderRow (k + 13) s super_bowl 1 ]
  | _, _ => []
  end.

(** A conference's seeds as [generatePlayoffGamesFromSeeds] orders them. *)
Definition sortedSeeds (s : Z) (c : Conference) (db : DB) : list PlayoffSeed :=
  js_sort (λ a b, seed a - seed b)
          (filter (λ p, conference_of p = c) (SELECT_seeds_WHERE_season_ORDERED s db)).

(** The conference of a wild-card game, by its number. *)
Definition wildCardConference (g : Game) : Conference :=
  if game_number g <=? 3 then AFC else NFC.

(** ** season.ts: adding and deleting games *)

(** [v || null] on an optional string and on an optional number. *)
Definition orNull_string (v : option string) : option string :=
  if truthy v then v else None.

Definition orNull_number (v : option Z) : option Z :=
  match v with
  | Some 0 => None
  | _ => v
  end.

(** [Math.max(...xs)]; the call is guarded by [xs.length > 0], the value on
    the empty list (minus infinity) is never asked for. *)
Definition Math_max (xs : list Z) : Z :=
  match xs with
  | [] => 0
  | x :: xs' => foldr Z.max x xs'
  end.

(** [INSERT INTO games (season_id, round, game_number, team_home, team_away,
    espn_event_id, seed_home, seed_away, is_actual_matchup)]: [winner] is
    NULL and [completed] takes its default 0. *)
Definition runInsert_game_espn (s : Z) (r : Round) (n : Z) (h a : string)
    (espn : option string) (sh sa : option Z) (actual : bool) : M Z := λ db,
  if slot_taken s r n (games db) then
    (Throw (Error "UNIQUE constraint failed"), db)
  else
    let k := Z.max (games_seq db) (max_id (games db)) + 1 in
    (Ok k,
     mkDB (games db ++ [mkGame k s r n h a sh sa None espn false actual])
          k (playoff_seeds db) (participants db) (predictions db)).

Definition addGameToSeason (seasonId : Z) (round' : Round)
    (teamHome teamAway : string) (espnEventId : option string)
    (seedHome seedAway : option Z) (isActualMatchup : option bool)
    : M (option Game) :=
  existingGames ← getGamesBySeason seasonId;
  let gamesInRound := filter (λ g, round g = round') existingGames in
  let maxGameNumber :=
    if (0 <? Z.of_nat (length gamesInRound))
    then Math_max (game_number <$> gamesInRound) else 0 in
  let gameNumber := maxGameNumber + 1 in
  id ← runInsert_game_espn seasonId round' gameNumber teamHome teamAway
         (orNull_string espnEventId) (orNull_number seedHome)
         (orNull_number seedAway) (default true isActualMatchup);
  getGameById id.

Definition deleteGame (gameId : Z) : M unit :=
  runExec (DELETE_games (WHERE_id gameId)).

(** [DELETE FROM games WHERE id IN (?, ..., ?)]. *)
Definition WHERE_id_IN (ks : list Z) (g : Game) : bool := bool_decide (id g ∈ ks).

Definition deleteMultipleGames (gameIds : list Z) : M unit :=
  if bool_decide (length gameIds = 0%nat) then mret tt
  else runExec (DELETE_games (WHERE_id_IN gameIds)).

Definition deleteAllGamesForSeason (seasonId : Z) : M unit :=
  runExec (DELETE_games (WHERE_season seasonId)).

(** ** The leaderboard loop, entry by entry *)

(** The entry after one prediction whose game was found: the body of the
    loop of [calculateLeaderboard] past its [continue]. *)
Definition scoredEntry (game : Game) (prediction : Prediction)
    (scoringType : ScoringType) (entry : LeaderboardEntry) : LeaderboardEntry :=
  let totalPicks' := totalPicks entry + 1 in
  let points := calculatePoints game prediction scoringType in
  if isCorrect points then
    mkEntry (participantId entry) (name entry)
            (simpleScore entry + pts_simple points)
            (weightedScore entry + pts_weighted points)
            (correctPicks entry + 1) totalPicks'
  else
    mkEntry (participantId entry) (name entry) (simpleScore entry)
            (weightedScore entry) (correctPicks entry) totalPicks'.

Definition scoredEntryOf (games : list Game) (scoringType : ScoringType)
    (entry : LeaderboardEntry) (p : Prediction) : LeaderboardEntry :=
  match targetGame games p with
  | Some game => scoredEntry game p scoringType entry
  | None => entry
  end.

(** A participant's entry once all the lobby's predictions are scored. *)
Definition finalEntry (games : list Game) (scoringType : ScoringType)
    (preds : list Prediction) (pt : Participant) : LeaderboardEntry :=
  foldl (scoredEntryOf games scoringType) (freshEntry pt)
        (picksOf (pt_id pt) preds).

(** The picks of participant [k] whose game is among [games]. *)
Definition countedPicks (games : list Game) (k : Z) (preds : list Prediction)
    : list Prediction :=
  filter (λ p, is_Some (targetGame games p)) (picksOf k preds).

(** What holds of every entry of a leaderboard. *)
Definition entryConsistent (e : LeaderboardEntry) : Prop :=
  correctPicks e = simpleScore e
  ∧ 0 ≤ simpleScore e ≤ totalPicks e
  ∧ simpleScore e ≤ weightedScore e ≤ 5 * simpleScore e.

(** ** lobby.ts: participants and predictions *)

Definition set_participants (f : list Participant → list Participant) (db : DB)
    : DB :=
  mkDB (games db) (games_seq db) (playoff_seeds db) (f (participants db))
       (predictions db).

Definition set_predictions (f : list Prediction → list Prediction) (db : DB)
    : DB :=
  mkDB (games db) (games_seq db) (playoff_seeds db) (participants db)
       (f (predictions db)).

Definition DELETE_participants (wh : Participant → bool) : DB → DB :=
  set_participants (filter (λ pt, wh pt = false)).

Definition DELETE_predictions (wh : Prediction → bool) : DB → DB :=
  set_predictions (filter (λ p, wh p = false)).

Definition getParticipantById (k : Z) : M (option Participant) :=
  runQuery (λ db, head (filter (λ pt, pt_id pt = k) (participants db))).

Definition getPredictionsByParticipant (participantId : Z)
    : M (list Prediction) :=
  runQuery (λ db, filter (λ p, participant_id p = participantId) (predictions db)).

Definition deleteParticipant (participantId : Z) : M unit :=
  runExec (DELETE_predictions (λ p, participant_id p =? participantId)) ;;
  runExec (DELETE_participants (λ pt, pt_id pt =? participantId)).

Definition deleteMultipleParticipants (participantIds : list Z) : M unit :=
  if bool_decide (length participantIds = 0%nat) then mret tt
  else
    runExec (DELETE_predictions
               (λ p, bool_decide (participant_id p ∈ participantIds))) ;;
    runExec (DELETE_participants
               (λ pt, bool_decide (pt_id pt ∈ participantIds))).

(** Every prediction names a stored participant. *)
Definition predictions_have_participants (db : DB) : Prop :=
  Forall (λ p, participant_id p ∈ pt_id <$> participants db) (predictions db).

(** ** bracket.ts: the bracket of one participant *)

Record BracketPick := mkBracketPick {
  predictedWinner : string;
  predictedOpponent : option string }.

Record BracketGame := mkBracketGame {
  bg_id : Z;
  bg_round : Round;
  gameNumber : Z;
  teamHome : string;
  teamAway : string;
  seedHome : option Z;
  seedAway : option Z;
  bg_winner : option string;
  bg_completed : bool;
  bg_prediction : option BracketPick;
  bg_isCorrect : option bool }.

Record BracketStats := mkBracketStats {
  st_simpleScore : Z;
  st_weightedScore : Z;
  st_correctPicks : Z;
  st_totalPicks : Z }.

Record BracketData := mkBracketData {
  bd_participant : Z * string;
  stats : BracketStats;
  bd_games : list BracketGame }.

(** [Map<number, Prediction>]: [set] replaces the value of a present key. *)
Definition pmap_get (k : Z) (m : list (Z * Prediction)) : option Prediction :=
  snd <$> head (filter (λ kv, kv.1 = k) m).

Fixpoint pmap_set (k : Z) (v : Prediction) (m : list (Z * Prediction))
    : list (Z * Prediction) :=
  match m with
  | [] => [(k, v)]
  | (k', v') :: m' =>
      if bool_decide (k' = k) then (k, v) :: m' else (k', v') :: pmap_set k v m'
  end.

(** [Set<string>]. *)
Definition set_add (x : string) (s : list string) : list string :=
  if bool_decide (x ∈ s) then s else s ++ [x].

Definition set_has (x : string) (s : list string) : bool := bool_decide (x ∈ s).

(** [WEIGHTED_POINTS[game.round] || 0]. *)
Definition orZero (n : Z) : Z := if n =? 0 then 0 else n.

(** One iteration of the loop that collects the losers of completed games. *)
Definition eliminate (eliminatedTeams : list string) (game : Game) : list string :=
  if completed game && truthy (winner game) then
    let s1 :=
      if truthy (Some (team_home game))
         && negb (bool_decide (Some (team_home game) = winner game))
      then set_add (team_home game) eliminatedTeams else eliminatedTeams in
    if truthy (Some (team_away game))
       && negb (bool_decide (Some (team_away game) = winner game))
    then set_add (team_away game) s1 else s1
  else eliminatedTeams.

(** The callback of [games.map]: it updates the four counters it closes
    over and yields the game's row of the bracket. *)
Definition bracketStep (predictionMap : list (Z * Prediction))
    (eliminatedTeams : list string)
    (acc : BracketStats * list BracketGame) (game : Game)
    : BracketStats * list BracketGame :=
  let prediction := pmap_get (id game) predictionMap in
  let counted :=
    match prediction with
    | Some prediction =>
        let st1 := mkBracketStats (st_simpleScore acc.1) (st_weightedScore acc.1)
                     (st_correctPicks acc.1) (st_totalPicks acc.1 + 1) in
        if completed game && truthy (winner game) then
          let isCorrect :=
            bool_decide (winner game = Some (predicted_winner prediction)) in
          (if isCorrect then
             mkBracketStats (st_simpleScore st1 + 1)
               (st_weightedScore st1 + orZero (WEIGHTED_POINTS (round game)))
               (st_correctPicks st1 + 1) (st_totalPicks st1)
           else st1,
           Some isCorrect)
        else
          (st1,
           if set_has (predicted_winner prediction) eliminatedTeams
           then Some false else None)
    | None => (acc.1, None)
    end in
  (counted.1,
   acc.2 ++ [mkBracketGame (id game) (round game) (game_number game)
               (team_home game) (team_away game) (seed_home game)
               (seed_away game) (winner game) (completed game)
               ((λ p, mkBracketPick (predicted_winner p) (predicted_opponent p))
                  <$> prediction)
               counted.2]).

Definition getParticipantBracket (participantId seasonId : Z)
    : M (option BracketData) :=
  participant ← getParticipantById participantId;
  match participant with
  | None => mret None
  | Some participant =>
      predictions ← getPredictionsByParticipant participantId;
      games ← getGamesBySeason seasonId;
      let predictionMap :=
        foldl (λ m pred, pmap_set (game_id pred) pred m) [] predictions in
      let eliminatedTeams := foldl eliminate [] games in
      let result :=
        foldl (bracketStep predictionMap eliminatedTeams)
              (mkBracketStats 0 0 0 0, []) games in
      mret (Some (mkBracketData (pt_id participant, pt_name participant)
                    result.1 result.2))
  end.

(** The four counters of a leaderboard entry. *)
Definition statsOf (e : LeaderboardEntry) : BracketStats :=
  mkBracketStats (simpleScore e) (weightedScore e) (correctPicks e) (totalPicks e).

Definition stats_add (a b : BracketStats) : BracketStats :=
  mkBracketStats (st_simpleScore a + st_simpleScore b)
    (st_weightedScore a + st_weightedScore b)
    (st_correctPicks a + st_correctPicks b) (st_totalPicks a + st_totalPicks b).

Definition stats_zero : BracketStats := mkBracketStats 0 0 0 0.

Definition stats_sum (l : list BracketStats) : BracketStats :=
  foldr stats_add stats_zero l.

(** What one pick on game [g] adds to the counters. *)
Definition pickStats (g : Game) (p : Prediction) : BracketStats :=
  if completed g && truthy (winner g)
     && bool_decide (winner g = Some (predicted_winner p))
  then mkBracketStats 1 (WEIGHTED_POINTS (round g)) 1 1
  else mkBracketStats 0 0 0 1.

(** [UNIQUE(participant_id, game_id)] on [predictions]. *)
Definition one_pick_per_game (db : DB) : Prop :=
  NoDup ((λ p, (participant_id p, game_id p)) <$> predictions db).

(** The team [t] is the loser of a completed game among [games]. *)
Definition lostIn (games : list Game) (t : string) : Prop :=
  Exists (λ g, completed g = true ∧ truthy (winner g) = true
               ∧ t ≠ "" ∧ winner g ≠ Some t
               ∧ (team_home g = t ∨ team_away g = t)) games.

(** The participant's prediction for a game. *)
Definition pickFor (k : Z) (g : Game) (db : DB) : option Prediction :=
  head (filter (λ p, game_id p = id g)
          (filter (λ p, participant_id p = k) (predictions db))).

(** How the bracket view judges a pick. *)
Definition judged (games : list Game) (g : Game) (p : option Prediction)
    : option bool :=
  match p with
  | None => None
  | Some p =>
      if completed g && truthy (winner g)
      then Some (bool_decide (winner g = Some (predicted_winner p)))
      else if bool_decide (lostIn games (predicted_winner p))
           then Some false else None
  end.

(** ** espn.ts: scores from the ESPN scoreboard *)

Record ESPNCompetitor := mkESPNCompetitor {
  team_abbreviation : string;
  competitor_winner : option bool }.

Record ESPNCompetition := mkESPNCompetition {
  competitors : list ESPNCompetitor;
  status_completed : bool }.

Record ESPNEvent := mkESPNEvent {
  ev_id : string;
  competitions : list ESPNCompetition }.

Record ESPNScoreboard := mkESPNScoreboard { events : list ESPNEvent }.

(** One iteration of [for (const game of games)]; [scoreboard] is what
    [fetchNFLPlayoffScores] returned. *)
Definition updateFromEvent (scoreboard : ESPNScoreboard) (updatedCount : Z)
    (game : Game) : M Z :=
  if completed game || negb (truthy (espn_event_id game)) then mret updatedCount
  else
    match head (filter (λ e, Some (ev_id e) = espn_event_id game)
                       (events scoreboard)) with
    | None => mret updatedCount
    | Some espnEvent =>
        competition ← deref (head (competitions espnEvent));
        if negb (status_completed competition) then mret updatedCount
        else
          match head (filter (λ c, competitor_winner c = Some true)
                             (competitors competition)) with
          | Some winner =>
              updateGameWinner (id game) (team_abbreviation winner) ;;
              mret (updatedCount + 1)
          | None => mret updatedCount
          end
    end.

(** [fetched] is the outcome of the request to the scoreboard: [None] when
    it failed. *)
Definition updateSeasonScoresFromESPN (fetched : option ESPNScoreboard)
    (seasonId : Z) : M Z :=
  games ← getGamesBySeason seasonId;
  match fetched with
  | None => mret 0
  | Some scoreboard => foldM (updateFromEvent scoreboard) 0 games
  end.

(** The games an update can reach: not completed, with an ESPN event id. *)
Definition espnCandidates (s : Z) (db : DB) : list Game :=
  filter (λ g, completed g = false ∧ truthy (espn_event_id g) = true)
         (SELECT_games_WHERE_season_ORDERED s db).

(** No game is added or removed and no slot column is changed. *)
Definition same_slots (db db' : DB) : Prop :=
  Forall2 same_slot (games db) (games db').

(** ** The whole database

    The tables of [schema.ts] the services above do not touch, the
    AUTOINCREMENT counters of the tables they insert into, and [now], the
    reading of the clock that [CURRENT_TIMESTAMP] returns.  No service sets
    the clock: a run of several statements is modelled at one reading. *)

Inductive SeasonStatus := season_active | season_archived.
Inductive LobbyStatus := lobby_open | lobby_in_progress | lobby_completed.

#[global] Instance SeasonStatus_eq_dec : EqDecision SeasonStatus.
Proof. solve_decision. Defined.
#[global] Instance LobbyStatus_eq_dec : EqDecision LobbyStatus.
Proof. solve_decision. Defined.

Record Admin := mkAdmin {
  ad_id : Z;
  username : string;
  password_hash : string;
  is_super_admin : bool;
  ad_created_at : Z }.

Record Season := mkSeason {
  se_id : Z;
  se_name : string;
  se_year : Z;
  se_sport : string;
  se_status : SeasonStatus;
  se_created_at : Z }.

Record Lobby := mkLobby {
  lb_id : string;
  lb_admin_id : Z;
  lb_season_id : Z;
  lb_name : string;
  scoring_type : ScoringType;
  lb_status : LobbyStatus;
  lb_created_at : Z }.

(** The row of [system_config]; its [id] is 1 by the CHECK constraint. *)
Record SystemConfig := mkSystemConfig {
  max_admins : Z;
  max_lobbies_per_admin : Z;
  max_participants_per_lobby : Z;
  max_active_seasons : Z;
  updated_at : Z }.

Record Store := mkStore {
  tables : DB;
  seeds_seq : Z;
  participants_seq : Z;
  predictions_seq : Z;
  admins : list Admin;
  seasons : list Season;
  seasons_seq : Z;
  lobbies : list Lobby;
  system_config : option SystemConfig;
  now : Z }.

Definition set_tables (f : DB → DB) (st : Store) : Store :=
  mkStore (f (tables st)) (seeds_seq st) (participants_seq st)
          (predictions_seq st) (admins st) (seasons st) (seasons_seq st)
          (lobbies st) (system_config st) (now st).

Definition MS (A : Type) : Type := Store → Res A * Store.

#[global] Instance MS_ret : MRet MS := λ A a st, (Ok a, st).
#[global] Instance MS_bind : MBind MS := λ A B k m st,
  match m st with
  | (Ok a, st') => k a st'
  | (Throw e, st') => (Throw e, st')
  end.

Definition throwS {A} (e : Exn) : MS A := λ st, (Throw e, st).
Definition runQueryS {A} (q : Store → A) : MS A := λ st, (Ok (q st), st).
Definition runExecS (stmt : Store → Store) : MS unit := λ st, (Ok tt, stmt st).

Definition derefS {A} (v : option A) : MS A :=
  match v with
  | Some a => mret a
  | None => throwS TypeError
  end.

(** A service of the four tables, run on the whole database. *)
Definition liftDB {A} (m : M A) : MS A := λ st,
  ((m (tables st)).1, set_tables (λ _, (m (tables st)).2) st).

(** ** limits.ts *)

Definition MAX_ADMINS : Z := 1000.
Definition MAX_LOBBIES_PER_ADMIN : Z := 50.
Definition MAX_PARTICIPANTS_PER_LOBBY : Z := 500.
Definition MAX_ACTIVE_SEASONS : Z := 20.

Definition getSystemConfig : MS (option SystemConfig) :=
  runQueryS system_config.

(** [Partial<Omit<SystemConfig, 'id' | 'updated_at'>>]. *)
Record ConfigPatch := mkConfigPatch {
  new_max_admins : option Z;
  new_max_lobbies_per_admin : option Z;
  new_max_participants_per_lobby : option Z;
  new_max_active_seasons : option Z }.

(** [v ?? current.field]: [current] is dereferenced only when [v] is
    missing. *)
Definition orCurrent (v : option Z) (current : option SystemConfig)
    (field : SystemConfig → Z) : MS Z :=
  match v with
  | Some x => mret x
  | None => c ← derefS current; mret (field c)
  end.

Definition UPDATE_system_config (a l p s : Z) (st : Store) : Store :=
  mkStore (tables st) (seeds_seq st) (participants_seq st)
          (predictions_seq st) (admins st) (seasons st) (seasons_seq st)
          (lobbies st)
          ((λ _, mkSystemConfig a l p s (now st)) <$> system_config st)
          (now st).

Definition updateSystemConfig (config : ConfigPatch) : MS (option SystemConfig) :=
  current ← getSystemConfig;
  a ← orCurrent (new_max_admins config) current max_admins;
  l ← orCurrent (new_max_lobbies_per_admin config) current max_lobbies_per_admin;
  p ← orCurrent (new_max_participants_per_lobby config) current
        max_participants_per_lobby;
  s ← orCurrent (new_max_active_seasons config) current max_active_seasons;
  runExecS (UPDATE_system_config (Z.min a MAX_ADMINS)
              (Z.min l MAX_LOBBIES_PER_ADMIN)
              (Z.min p MAX_PARTICIPANTS_PER_LOBBY)
              (Z.min s MAX_ACTIVE_SEASONS)) ;;
  getSystemConfig.

Record LimitCheck := mkLimitCheck { allowed : bool; reason : option string }.

Definition checkLimit (count : Z) (limit : option Z) (reason : Z → string)
    : MS LimitCheck :=
  limit ← derefS limit;
  if limit <=? count then mret (mkLimitCheck false (Some (reason limit)))
  else mret (mkLimitCheck true None).

Definition canCreateAdmin : MS LimitCheck :=
  config ← getSystemConfig;
  adminCount ← runQueryS (λ st, Z.of_nat (length (admins st)));
  checkLimit adminCount (max_admins <$> config)
    (λ n, "Maximum number of admins reached (" +:+ pretty n
          +:+ "). Contact the site administrator.").

Definition canCreateLobby (adminId : Z) : MS LimitCheck :=
  config ← getSystemConfig;
  lobbyCount ← runQueryS (λ st,
    Z.of_nat (length (filter (λ l, lb_admin_id l = adminId) (lobbies st))));
  checkLimit lobbyCount (max_lobbies_per_admin <$> config)
    (λ n, "You have reached the maximum number of lobbies (" +:+ pretty n
          +:+ "). Delete some lobbies to create new ones.").

Definition canAddParticipant (lobbyId : string) : MS LimitCheck :=
  config ← getSystemConfig;
  participantCount ← runQueryS (λ st,
    Z.of_nat (length (filter (λ pt, lobby_id pt = lobbyId)
                        (participants (tables st)))));
  checkLimit participantCount (max_participants_per_lobby <$> config)
    (λ n, "This lobby has reached its maximum capacity (" +:+ pretty n
          +:+ " participants).").

Definition canCreateActiveSeason : MS LimitCheck :=
  config ← getSystemConfig;
  activeSeasonCount ← runQueryS (λ st,
    Z.of_nat (length (filter (λ s, se_status s = season_active) (seasons st))));
  checkLimit activeSeasonCount (max_active_seasons <$> config)
    (λ n, "Maximum number of active seasons reached (" +:+ pretty n
          +:+ "). Archive some seasons first.").

(** The limits in force are within the hard caps. *)
Definition within_hard_caps (c : SystemConfig) : Prop :=
  max_admins c ≤ MAX_ADMINS
  ∧ max_lobbies_per_admin c ≤ MAX_LOBBIES_PER_ADMIN
  ∧ max_participants_per_lobby c ≤ MAX_PARTICIPANTS_PER_LOBBY
  ∧ max_active_seasons c ≤ MAX_ACTIVE_SEASONS.

(** Every table but [system_config]. *)
Definition same_data (st st' : Store) : Prop :=
  tables st' = tables st ∧ seeds_seq st' = seeds_seq st
  ∧ participants_seq st' = participants_seq st
  ∧ predictions_seq st' = predictions_seq st
  ∧ admins st' = admins st ∧ seasons st' = seasons st
  ∧ seasons_seq st' = seasons_seq st ∧ lobbies st' = lobbies st.

(** ** The inserting statements of season.ts and lobby.ts *)

Definition max_key {A} (key : A → Z) (l : list A) : Z :=
  foldr (λ x m, Z.max (key x) m) 0 l.

Definition set_playoff_seeds (f : list PlayoffSeed → list PlayoffSeed) (db : DB)
    : DB :=
  mkDB (games db) (games_seq db) (f (playoff_seeds db)) (participants db)
       (predictions db).

Definition set_seasons (f : list Season → list Season) (st : Store) : Store :=
  mkStore (tables st) (seeds_seq st) (participants_seq st)
          (predictions_seq st) (admins st) (f (seasons st)) (seasons_seq st)
          (lobbies st) (system_config st) (now st).

Definition set_lobbies (f : list Lobby → list Lobby) (st : Store) : Store :=
  mkStore (tables st) (seeds_seq st) (participants_seq st)
          (predictions_seq st) (admins st) (seasons st) (seasons_seq st)
          (f (lobbies st)) (system_config st) (now st).

(** *** Seasons *)

Definition runInsert_season (name : string) (year : Z) (sport : string)
    : MS Z := λ st,
  if existsb (λ s, String.eqb (se_name s) name) (seasons st) then
    (Throw (Error "UNIQUE constraint failed: seasons.name"), st)
  else
    let k := Z.max (seasons_seq st) (max_key se_id (seasons st)) + 1 in
    (Ok k,
     mkStore (tables st) (seeds_seq st) (participants_seq st)
             (predictions_seq st) (admins st)
             (seasons st ++ [mkSeason k name year sport season_active (now st)])
             k (lobbies st) (system_config st) (now st)).

Definition getSeasonById (k : Z) : MS (option Season) :=
  runQueryS (λ st, head (filter (λ s, se_id s = k) (seasons st))).

(** [sport] is [None] when the argument is left out. *)
Definition createSeason (name : string) (year : Z) (sport : option string)
    : MS (option Season) :=
  k ← runInsert_season name year (default "NFL" sport);
  getSeasonById k.

Definition SET_status (status : SeasonStatus) (s : Season) : Season :=
  mkSeason (se_id s) (se_name s) (se_year s) (se_sport s) status
           (se_created_at s).

Definition updateSeasonStatus (k : Z) (status : SeasonStatus) : MS unit :=
  runExecS (set_seasons (fmap (λ s, if se_id s =? k then SET_status status s
                                    else s))).

Definition activeSeasons (st : Store) : list Season :=
  filter (λ s, se_status s = season_active) (seasons st).

(** *** Seeds *)

Definition seed_key (s : Z) (c : Conference) (n : Z) (p : PlayoffSeed) : bool :=
  (ps_season_id p =? s) && bool_decide (conference_of p = c) && (seed p =? n).

(** [INSERT OR REPLACE INTO playoff_seeds]: the row in conflict on
    [UNIQUE(season_id, conference, seed)] is deleted and the new row is
    inserted under a new id. *)
Definition setPlayoffSeed (seasonId : Z) (conference : Conference) (seed : Z)
    (teamAbbr : string) : MS unit :=
  runExecS (λ st,
    let k := Z.max (seeds_seq st)
                   (max_key ps_id (playoff_seeds (tables st))) + 1 in
    mkStore (set_playoff_seeds
               (λ rows, filter (λ p, seed_key seasonId conference seed p = false)
                               rows
                        ++ [mkPlayoffSeed k seasonId conference seed teamAbbr])
               (tables st))
            k (participants_seq st) (predictions_seq st) (admins st)
            (seasons st) (seasons_seq st) (lobbies st) (system_config st)
            (now st)).

(** The team stored under a key of [playoff_seeds]. *)
Definition seedTeam (s : Z) (c : Conference) (n : Z) (st : Store)
    : option string :=
  team_abbr <$> head (filter (λ p, seed_key s c n p = true)
                             (playoff_seeds (tables st))).

Definition seeds_unique (st : Store) : Prop :=
  NoDup ((λ p, (ps_season_id p, conference_of p, seed p))
           <$> playoff_seeds (tables st)).

(** *** Lobbies, participants and predictions *)

Definition name_taken (lobbyId name : string) (pts : list Participant) : bool :=
  existsb (λ pt, String.eqb (lobby_id pt) lobbyId && String.eqb (pt_name pt) name)
          pts.

Definition runInsert_participant (lobbyId name : string) : MS Z := λ st,
  if name_taken lobbyId name (participants (tables st)) then
    (Throw (Error "UNIQUE constraint failed: participants.lobby_id, participants.name"), st)
  else
    let k := Z.max (participants_seq st)
                   (max_key pt_id (participants (tables st))) + 1 in
    (Ok k,
     mkStore (set_participants
                (λ pts, pts ++ [mkParticipant k lobbyId name (now st)])
                (tables st))
             (seeds_seq st) k (predictions_seq st) (admins st) (seasons st)
             (seasons_seq st) (lobbies st) (system_config st) (now st)).

Definition addParticipant (lobbyId name : string) : MS (option Participant) :=
  k ← runInsert_participant lobbyId name;
  liftDB (getParticipantById k).

Definition pick_taken (participantId gameId : Z) (ps : list Prediction) : bool :=
  existsb (λ p, (participant_id p =? participantId) && (game_id p =? gameId)) ps.

Definition addPrediction (participantId gameId : Z) (predictedWinner : string)
    (predictedOpponent : option string) : MS unit := λ st,
  if pick_taken participantId gameId (predictions (tables st)) then
    (Throw (Error "UNIQUE constraint failed: predictions.participant_id, predictions.game_id"), st)
  else
    let k := Z.max (predictions_seq st)
                   (max_key pr_id (predictions (tables st))) + 1 in
    (Ok tt,
     mkStore (set_predictions
                (λ ps, ps ++ [mkPrediction k participantId gameId
                                predictedWinner (orNull_string predictedOpponent)])
                (tables st))
             (seeds_seq st) (participants_seq st) k (admins st) (seasons st)
             (seasons_seq st) (lobbies st) (system_config st) (now st)).

Definition deleteLobby (lobbyId : string) : MS unit :=
  participants ← liftDB (getParticipantsByLobby lobbyId);
  let participantIds := pt_id <$> participants in
  (if bool_decide (0 < length participantIds)%nat then
     liftDB (runExec (DELETE_predictions
                        (λ p, bool_decide (participant_id p ∈ participantIds))))
   else mret tt) ;;
  liftDB (runExec (DELETE_participants (λ pt, String.eqb (lobby_id pt) lobbyId))) ;;
  runExecS (set_lobbies (filter (λ l, lb_id l ≠ lobbyId))).

(** ** test-utils/database.ts *)

Record PickInput := mkPickInput {
  in_gameId : Z;
  in_predictedWinner : string;
  in_predictedOpponent : option string }.

Fixpoint forS_ {A} (f : A → MS unit) (l : list A) : MS unit :=
  match l with
  | [] => mret tt
  | x :: l' => f x ;; forS_ f l'
  end.

Definition createTestParticipant (lobbyId name : string)
    (predictions : list PickInput) : MS (option Participant) :=
  participant ← addParticipant lobbyId name;
  forS_ (λ pred,
           participant ← derefS participant;
           addPrediction (pt_id participant) (in_gameId pred)
                         (in_predictedWinner pred) (in_predictedOpponent pred))
        predictions ;;
  mret participant.

(** ** Example stores *)

Definition defaultConfig : SystemConfig := mkSystemConfig 100 10 50 5 0.

Definition store2025 : Store :=
  mkStore lobby2025 14 3 15
          [mkAdmin 1 "root" "hash" true 0]
          [mkSeason 1 "2025" 2025 "NFL" season_active 0]
          1
          [mkLobby "L" 1 1 "Office" simple lobby_open 0;
           mkLobby "M" 1 1 "Family" weighted lobby_open 0]
          (Some defaultConfig) 1000.

Definition seedStore2025 : Store :=
  mkStore season2025 14 0 0 [] [mkSeason 1 "2025" 2025 "NFL" season_active 0]
          1 [] (Some defaultConfig) 1000.

(** The number of participants of a lobby, as [canAddParticipant] counts
    them. *)
Definition lobbySize (lobbyId : string) (st : Store) : Z :=
  Z.of_nat (length (filter (λ pt, lobby_id pt = lobbyId)
                      (participants (tables st)))).

(** What a stored pick and a submitted pick say, apart from ids. *)
Definition storedPick (p : Prediction) : Z * string * option string :=
  (game_id p, predicted_winner p, predicted_opponent p).

Definition submittedPick (i : PickInput) : Z * string * option string :=
  (in_gameId i, in_predictedWinner i, orNull_string (in_predictedOpponent i)).

(** Two stores that differ in [predictions] at most. *)
Definition same_but_predictions (st st' : Store) : Prop :=
  games (tables st') = games (tables st)
  ∧ playoff_seeds (tables st') = playoff_seeds (tables st)
  ∧ participants (tables st') = participants (tables st)
  ∧ admins st' = admins st ∧ seasons st' = seasons st
  ∧ lobbies st' = lobbies st ∧ system_config st' = system_config st.

(** The ids of the participants of a lobby, as [deleteLobby] reads them. *)
Definition lobbyParticipantIds (lobbyId : string) (db : DB) : list Z :=
  pt_id <$> SELECT_participants_WHERE_lobby_ORDERED lobbyId db.
(** * Properties *)

(** ** Sorting *)

Section sort_facts.
Context {A : Type} (cmp : A → A → Z).

Lemma sort_insert_perm x l : sort_insert cmp x l ≡ₚ x :: l.
  Proof.
    induction l as [|y l IH]; simpl; [done|].
    destruct (cmp x y <=? 0); [done|].
    rewrite IH. apply Permutation_swap.
  Qed.

Lemma js_sort_perm l : js_sort cmp l ≡ₚ l.
  Proof.
    induction l as [|x l IH]; simpl; [done|].
    rewrite sort_insert_perm. by f_equiv.
  Qed.

Lemma elem_of_js_sort x l : x ∈ js_sort cmp l ↔ x ∈ l.
  Proof. by rewrite js_sort_perm. Qed.

Lemma length_js_sort l : length (js_sort cmp l) = length l.
  Proof. by rewrite js_sort_perm. Qed.
End sort_facts.

Lemma sort_insert_fmap {A B} (f : A → B) cmp cmp' x l :
  (∀ a b, cmp' (f a) (f b) = cmp a b) →
  sort_insert cmp' (f x) (f <$> l) = f <$> sort_insert cmp x l.
Proof.
  intros H. induction l as [|y l IH]; simpl; [done|].
  rewrite H. destruct (cmp x y <=? 0); simpl; [done|]. f_equal. exact IH.
Qed.

Lemma js_sort_fmap {A B} (f : A → B) cmp cmp' l :
  (∀ a b, cmp' (f a) (f b) = cmp a b) →
  js_sort cmp' (f <$> l) = f <$> js_sort cmp l.
Proof.
  intros H. induction l as [|x l IH]; [done|].
  rewrite fmap_cons. unfold js_sort in *. simpl. rewrite IH.
  by apply sort_insert_fmap.
Qed.

Section sort_key.
Context {A : Type} (key : A → Z) (cmp : A → A → Z).
Context (Hcmp : ∀ a b, cmp a b = key a - key b).

Lemma sort_insert_sorted x l :
    StronglySorted (λ a b, key a ≤ key b) l →
    StronglySorted (λ a b, key a ≤ key b) (sort_insert cmp x l).
  Proof.
    induction 1 as [|y l Hs IH Hy]; simpl.
    - repeat constructor.
    - rewrite Hcmp. destruct (Z.leb_spec (key x - key y) 0).
      + constructor; [by constructor|].
        constructor; [lia|]. eapply Forall_impl; [done|]. simpl. intros; lia.
      + constructor; [done|].
        rewrite sort_insert_perm. constructor; [lia|done].
  Qed.

Lemma js_sort_sorted l : StronglySorted (λ a b, key a ≤ key b) (js_sort cmp l).
  Proof.
    induction l; simpl; [constructor|]. by apply sort_insert_sorted.
  Qed.

Lemma sort_insert_filter_eq v x l :
    StronglySorted (λ a b, key a ≤ key b) l →
    filter (λ a, key a = v) (sort_insert cmp x l) = filter (λ a, key a = v) (x :: l).
  Proof.
    induction 1 as [|y l Hs IH Hy]; simpl; [done|].
    rewrite Hcmp. destruct (Z.leb_spec (key x - key y) 0); [done|].
    rewrite !filter_cons. rewrite filter_cons in IH.
    destruct (decide (key y = v)), (decide (key x = v)); try lia; by rewrite IH.
  Qed.

Lemma js_sort_stable v l :
    filter (λ a, key a = v) (js_sort cmp l) = filter (λ a, key a = v) l.
  Proof.
    induction l as [|x l IH]; simpl; [done|].
    rewrite sort_insert_filter_eq by apply js_sort_sorted.
    rewrite !filter_cons. by rewrite IH.
  Qed.
End sort_key.

(** ** The engine's writes, row by row *)

Lemma String_eqb_eq' (a b : string) : String.eqb a b = bool_decide (a = b).
Proof.
  destruct (String.eqb_spec a b); symmetry; [by apply bool_decide_eq_true|by apply bool_decide_eq_false].
Qed.

Lemma matchupChanged_false g h a :
  matchupChanged g h a = false ↔ teams g = (h, a).
Proof.
  unfold matchupChanged, teams. rewrite !String_eqb_eq'.
  rewrite orb_false_iff, !negb_false_iff, !bool_decide_eq_true.
  split; [intros [-> ->]; done|intros [= -> ->]; done].
Qed.


Section monad_facts.
Context {A B : Type}.

Lemma bind_unfold (m : M A) (k : A → M B) db :
    (m ≫= k) db = match m db with
                  | (Ok a, db') => k a db'
                  | (Throw e, db') => (Throw e, db')
                  end.
  Proof. done. Qed.

Lemma preserves_bind I (m : M A) (k : A → M B) :
    preserves I m → (∀ a, preserves I (k a)) → preserves I (m ≫= k).
  Proof.
    intros Hm Hk db HI. rewrite bind_unfold.
    specialize (Hm db HI). destruct (m db) as [[a|e] db']; simpl in *; [|done].
    by apply Hk.
  Qed.

Lemma preserves_ret I (a : A) : preserves I (mret a).
  Proof. by intros db HI. Qed.

Lemma preserves_throw I e : preserves I (throw e : M A).
  Proof. by intros db HI. Qed.

Lemma preserves_runQuery I (q : DB → A) : preserves I (runQuery q).
  Proof. by intros db HI. Qed.

Lemma preserves_deref I (v : option A) : preserves I (deref v).
  Proof. destruct v; [apply preserves_ret|apply preserves_throw]. Qed.
End monad_facts.

Lemma same_slot_refl g : same_slot g g.
Proof. by repeat split. Qed.

Lemma Forall2_diag_elem {A} (P : A → A → Prop) (l : list A) :
  (∀ x, x ∈ l → P x x) → Forall2 P l l.
Proof.
  induction l as [|x l IH]; intros H; constructor.
  - apply H. left.
  - apply IH. intros y Hy. apply H. by right.
Qed.


Lemma pk_inj gs (x y : Game) :
  NoDup (id <$> gs) → x ∈ gs → y ∈ gs → id x = id y → x = y.
Proof.
  intros Hnd Hx Hy Hid.
  apply list_elem_of_lookup in Hx as [i Hi], Hy as [j Hj].
  assert (i = j) as ->.
  { eapply NoDup_lookup; [exact Hnd| |]; rewrite list_lookup_fmap.
    - by rewrite Hi.
    - rewrite Hj. simpl. by rewrite Hid. }
  congruence.
Qed.

Lemma Inv_init lo s gs0 db :
  NoDup (id <$> gs0) → games db = gs0 → Inv lo s gs0 db.
Proof.
  intros Hnd <-. split.
  - apply Forall2_diag_elem. intros g Hg.
    split; try done; try apply same_slot_refl; by left.
  - intros g0 g h Hg0 Hg Hid Hne. 
    by rewrite (pk_inj _ _ _ Hnd Hg Hg0 Hid) in Hne.
Qed.

Lemma Inv_pair lo s gs0 db g :
  Inv lo s gs0 db → g ∈ games db → ∃ g0, row_evolves lo s gs0 g0 g.
Proof.
  intros [HF _] Hg. apply list_elem_of_lookup in Hg as [i Hi].
  destruct (Forall2_lookup_r _ _ _ _ _ HF Hi) as (g0 & _ & H). eauto.
Qed.

Lemma Inv_pair_l lo s gs0 db g0 :
  Inv lo s gs0 db → g0 ∈ gs0 → ∃ g, g ∈ games db ∧ row_evolves lo s gs0 g0 g.
Proof.
  intros [HF _] Hg. apply list_elem_of_lookup in Hg as [i Hi].
  destruct (Forall2_lookup_l _ _ _ _ _ HF Hi) as (g & Hg & H).
  exists g. split; [|done]. apply list_elem_of_lookup. eauto.
Qed.

Lemma downstream_roundsAfter r r' : downstream r r' ↔ r' ∈ roundsAfter r.
Proof.
  unfold downstream. destruct r, r'; simpl; split; intros H;
    try lia; try (by repeat constructor);
    repeat (apply elem_of_cons in H as [H|H]; [discriminate|]);
    by apply elem_of_nil in H.
Qed.

Lemma same_slot_trans a b c : same_slot a b → same_slot b c → same_slot a c.
Proof. unfold same_slot. intros (?&?&?&?&?) (?&?&?&?&?). repeat split; congruence. Qed.

Lemma clearStep_slot k h a sh sa s rs g : same_slot g (clearStep k h a sh sa s rs g).
Proof.
  unfold clearStep. destruct (WHERE_id k g); simpl;
    repeat case_match; by repeat split.
Qed.

Lemma setStep_slot k h a sh sa g : same_slot g (setStep k h a sh sa g).
Proof. unfold setStep. destruct (WHERE_id k g); by repeat split. Qed.

Lemma clearStep_cleared k h a sh sa s rs g :
  cleared g → cleared (clearStep k h a sh sa s rs g).
Proof.
  unfold clearStep. intros [??]. destruct (WHERE_id k g); simpl;
    repeat case_match; by split.
Qed.

Lemma setStep_cleared k h a sh sa g : cleared g → cleared (setStep k h a sh sa g).
Proof. unfold setStep. intros [??]. destruct (WHERE_id k g); by split. Qed.

Lemma clearStep_other k h a sh sa s rs g :
  id g ≠ k → teams (clearStep k h a sh sa s rs g) = teams g
             ∧ is_actual_matchup (clearStep k h a sh sa s rs g) = is_actual_matchup g.
Proof.
  intros Hne. unfold clearStep, WHERE_id.
  destruct (Z.eqb_spec (id g) k); [done|]. by case_match.
Qed.

Section steps.
Context (lo s : Z) (gs0 : list Game) (d : Game).
Context (Hnd : NoDup (id <$> gs0)) (Hd : d ∈ gs0) (Hs : season_id d = s).
Context (Hlo : lo ≤ depth (round d)).

Lemma row_clearStep h a sh sa g0 g :
    row_evolves lo s gs0 g0 g →
    row_evolves lo s gs0 g0
      (clearStep (id d) h a sh sa s (roundsAfter (round d)) g).
  Proof.
    intros [Hin Hslot Hseason Hlow Hres Hch].
    destruct Hslot as (Hid & Hsn & Hrd & Hgn & Hes).
    unfold clearStep, WHERE_id in *. destruct (Z.eqb_spec (id g) (id d)) as [Heq|Hne].
    - assert (g0 = d) as -> by (apply (pk_inj gs0); congruence).
      simpl in *. rewrite Hrd.
      rewrite (bool_decide_eq_false_2 (round d ∈ roundsAfter (round d))), andb_false_r in *.
      2:{ rewrite <- downstream_roundsAfter. unfold downstream. lia. }
      split; simpl; try done; try (intros; lia); try (by repeat split).
      by right.
    - destruct (Z.eqb_spec (season_id g) s) as [Hsg|Hsg]; simpl in *;
        [|by split].
      destruct (decide (round g ∈ roundsAfter (round d))) as [Hr|Hr].
      + rewrite (bool_decide_eq_true_2 _ Hr) in *.
        apply downstream_roundsAfter in Hr. unfold downstream in Hr.
        rewrite Hrd in Hr.
        split; simpl; try done; try (intros; lia); try (intros; congruence);
          try (by repeat split); try (by right).
        intros Ht. split; [done|]. by apply Hch.
      + rewrite (bool_decide_eq_false_2 _ Hr) in *. by split.
  Qed.

Lemma Inv_clearStep h a sh sa db :
    Inv lo s gs0 db →
    Inv lo s gs0
      (set_games (fmap (clearStep (id d) h a sh sa s (roundsAfter (round d)))) db).
  Proof.
    intros HI. pose proof HI as [HF Hc]. split; simpl.
    - apply Forall2_fmap_r. eapply Forall2_impl; [exact HF|].
      intros g0 g. apply row_clearStep.
    - intros g0 g' h' Hg0 Hg' Hid Hteams Hh' Hseason Hdown.
      apply list_elem_of_fmap in Hg' as (g & -> & Hg), Hh' as (x & -> & Hx).
      set (step := clearStep (id d) h a sh sa s (roundsAfter (round d))) in *.
      destruct (clearStep_slot (id d) h a sh sa s (roundsAfter (round d)) g)
        as (Hgi & _).
      destruct (clearStep_slot (id d) h a sh sa s (roundsAfter (round d)) x)
        as (_ & Hxs & Hxr & _).
      fold step in Hgi, Hxs, Hxr.
      destruct (decide (id g = id d)) as [Heq|Hne].
      + assert (g0 = d) as -> by (apply (pk_inj gs0); congruence).
        rewrite Hxr in Hdown. apply downstream_roundsAfter in Hdown.
        unfold step, clearStep.
        assert (Hx1 : ∀ y, same_slot x y →
                  (if (season_id y =? season_id d) && bool_decide (round y ∈ roundsAfter (round d))
                   then SET_winner_null y else y) = SET_winner_null y).
        { intros y (_ & Hys & Hyr & _). rewrite Hys, Hyr.
          rewrite (bool_decide_eq_true_2 _ Hdown).
          replace (season_id x =? season_id d) with true; [done|].
          symmetry. apply Z.eqb_eq. congruence. }
        rewrite <- Hs. destruct (WHERE_id (id d) x); rewrite Hx1; by repeat split.
      + destruct (clearStep_other (id d) h a sh sa s (roundsAfter (round d)) g Hne)
          as [Ht _]. fold step in Ht.
        apply clearStep_cleared. eapply (Hc g0 g x); eauto; congruence.
  Qed.

Lemma row_setStep h a sh sa g0 g :
    teams d = (h, a) →
    row_evolves lo s gs0 g0 g →
    row_evolves lo s gs0 g0 (setStep (id d) h a sh sa g).
  Proof.
    intros Hm [Hin Hslot Hseason Hlow Hres Hch].
    destruct Hslot as (Hid & Hsn & Hrd & Hgn & Hes).
    unfold setStep, WHERE_id in *. destruct (Z.eqb_spec (id g) (id d)) as [Heq|Hne];
      [|by split].
    assert (g0 = d) as -> by (apply (pk_inj gs0); congruence).
    split; simpl; try done; try (intros; lia); try (by repeat split);
      try (unfold teams in *; simpl; intros Hne; by destruct Hne).
  Qed.

Lemma Inv_setStep h a sh sa db :
    teams d = (h, a) →
    Inv lo s gs0 db →
    Inv lo s gs0 (set_games (fmap (setStep (id d) h a sh sa)) db).
  Proof.
    intros Hm HI. pose proof HI as [HF Hc]. split; simpl.
    - apply Forall2_fmap_r. eapply Forall2_impl; [exact HF|].
      intros g0 g. by apply row_setStep.
    - intros g0 g' h' Hg0 Hg' Hid Hteams Hh' Hseason Hdown.
      apply list_elem_of_fmap in Hg' as (g & -> & Hg), Hh' as (x & -> & Hx).
      destruct (setStep_slot (id d) h a sh sa g) as (Hgi & _).
      destruct (setStep_slot (id d) h a sh sa x) as (_ & Hxs & Hxr & _).
      apply setStep_cleared.
      destruct (decide (id g = id d)) as [Heq|Hne].
      + assert (g0 = d) as -> by (apply (pk_inj gs0); congruence).
        exfalso. apply Hteams. unfold setStep, WHERE_id.
        rewrite (proj2 (Z.eqb_eq _ _) Heq). by rewrite Hm.
      + eapply (Hc g0 g x); eauto; try congruence.
        unfold setStep, WHERE_id in Hteams.
        by rewrite (proj2 (Z.eqb_neq _ _) Hne) in Hteams.
  Qed.
End steps.

Lemma set_games_set_games f g db :
  set_games f (set_games g db) = set_games (f ∘ g) db.
Proof. done. Qed.

Lemma UPDATE_games_fmap set wh db :
  UPDATE_games set wh db = set_games (fmap (λ g, if wh g then set g else g)) db.
Proof. done. Qed.

Lemma set_games_ext f g db :
  f (games db) = g (games db) → set_games f db = set_games g db.
Proof. unfold set_games. by intros ->. Qed.

Lemma games_UPDATE_games set wh db :
  games (UPDATE_games set wh db) = (λ g, if wh g then set g else g) <$> games db.
Proof. done. Qed.

Lemma bind_runExec {B} f (k : unit → M B) db : (runExec f ≫= k) db = k tt (f db).
Proof. done. Qed.

Lemma bind_runQuery {A B} (q : DB → A) (k : A → M B) db :
  (runQuery q ≫= k) db = k (q db) db.
Proof. done. Qed.

Lemma bind_ret {A B} (a : A) (k : A → M B) db : (mret a ≫= k) db = k a db.
Proof. done. Qed.

Lemma bind_deref_Some {A B} (a : A) (k : A → M B) db :
  (deref (Some a) ≫= k) db = k a db.
Proof. done. Qed.

Lemma bind_deref_None {A B} (k : A → M B) db :
  (deref None ≫= k) db = (Throw TypeError, db).
Proof. done. Qed.

Section writers.
Context (lo s : Z) (gs0 : list Game) (d : Game).
Context (Hnd : NoDup (id <$> gs0)) (Hd : d ∈ gs0) (Hs : season_id d = s).

Lemma lookup_target db (u : Game → Game) :
    Inv lo s gs0 db → (∀ g, same_slot g (u g)) →
    ∃ row, head (filter (λ g, WHERE_id (id d) g = true) (u <$> games db)) = Some row
           ∧ season_id row = s.
  Proof.
    intros HI Hu.
    destruct (Inv_pair_l _ _ _ _ _ HI Hd) as (g & Hg & [_ (Hid & Hsn & _) _ _ _ _]).
    destruct (head _) as [row|] eqn:Hrow.
    - exists row. split; [done|].
      apply head_Some_elem_of, list_elem_of_filter in Hrow as [Hk Hin].
      apply list_elem_of_fmap in Hin as (x & -> & Hx).
      destruct (Hu x) as (Hxi & Hxs & _).
      destruct (Inv_pair _ _ _ _ _ HI Hx) as (x0 & [Hx0 (Hi0 & Hs0 & _) _ _ _ _]).
      unfold WHERE_id in Hk. apply Z.eqb_eq in Hk.
      assert (x0 = d) as -> by (apply (pk_inj gs0); congruence).
      congruence.
    - exfalso. apply head_None in Hrow.
      assert (u g ∈ filter (λ g, WHERE_id (id d) g = true) (u <$> games db)) as Hin.
      { apply list_elem_of_filter. split; [|by apply list_elem_of_fmap_2].
        unfold WHERE_id. apply Z.eqb_eq. destruct (Hu g) as (-> & _). done. }
      rewrite Hrow in Hin. by apply elem_of_nil in Hin.
  Qed.

Lemma clear_then_null_rounds h a sh sa (g : Game) :
    let w1 := λ g, if WHERE_id (id d) g then SET_matchup_clear h a sh sa g else g in
    let c r := λ g, if WHERE_season_round s r g then SET_winner_null g else g in
    c super_bowl (c conference (w1 g))
      = clearStep (id d) h a sh sa s [conference; super_bowl] g
    ∧ c super_bowl (w1 g) = clearStep (id d) h a sh sa s [super_bowl] g
    ∧ w1 g = clearStep (id d) h a sh sa s [] g.
  Proof.
    destruct g as [k sn r n th ta s1 s2 w e c ac].
    cbv zeta. unfold clearStep, WHERE_season_round, WHERE_id. simpl.
    destruct (k =? id d) eqn:E1; destruct (sn =? s) eqn:E2; destruct r;
      simpl; rewrite ?E1, ?E2; simpl; rewrite ?E1, ?E2; done.
  Qed.

Lemma updateDivisionalGame_run h a sh sa db :
    Inv lo s gs0 db →
    updateDivisionalGame (Some d) h a sh sa db =
      (Ok tt,
       if matchupChanged d h a then
         set_games (fmap (clearStep (id d) h a sh sa s [conference; super_bowl])) db
       else if negb (is_actual_matchup d) then
         set_games (fmap (setStep (id d) h a sh sa)) db
       else db).
  Proof.
    intros HI. unfold updateDivisionalGame. rewrite bind_deref_Some.
    destruct (matchupChanged d h a); [|by destruct (is_actual_matchup d)].
    rewrite bind_runExec, bind_runQuery.
    unfold SELECT_games_WHERE_id. rewrite games_UPDATE_games.
    destruct (lookup_target db
                (λ g, if WHERE_id (id d) g then SET_matchup_clear h a sh sa g else g) HI)
      as (row & -> & Hrow).
    { intros g. destruct (WHERE_id (id d) g); by repeat split. }
    rewrite bind_deref_Some, bind_runExec. rewrite Hrow.
    unfold runExec. f_equal.
    unfold UPDATE_games. rewrite !set_games_set_games.
    apply set_games_ext. simpl. rewrite <- !list_fmap_compose.
    apply list_fmap_ext. intros i g _. simpl.
    apply (clear_then_null_rounds h a sh sa g).
  Qed.

Lemma updateConferenceGame_run h a sh sa db :
    Inv lo s gs0 db →
    updateConferenceGame (Some d) h a sh sa db =
      (Ok tt,
       if matchupChanged d h a then
         set_games (fmap (clearStep (id d) h a sh sa s [super_bowl])) db
       else if negb (is_actual_matchup d) then
         set_games (fmap (setStep (id d) h a sh sa)) db
       else db).
  Proof.
    intros HI. unfold updateConferenceGame. rewrite bind_deref_Some.
    destruct (matchupChanged d h a); [|by destruct (is_actual_matchup d)].
    rewrite bind_runExec. unfold runExec. f_equal.
    unfold WHERE_season_of_round, SELECT_games_WHERE_id.
    rewrite games_UPDATE_games.
    destruct (lookup_target db
                (λ g, if WHERE_id (id d) g then SET_matchup_clear h a sh sa g else g) HI)
      as (row & -> & Hrow).
    { intros g'. destruct (WHERE_id (id d) g'); by repeat split. }
    rewrite Hrow.
    unfold UPDATE_games. rewrite !set_games_set_games.
    apply set_games_ext. simpl. rewrite <- !list_fmap_compose.
    apply list_fmap_ext. intros i g _. simpl.
    apply (clear_then_null_rounds h a sh sa g).
  Qed.

Lemma updateSuperBowlGame_run h a sh sa db :
    updateSuperBowlGame d h a sh sa db =
      (Ok tt,
       if matchupChanged d h a then
         set_games (fmap (clearStep (id d) h a sh sa s [])) db
       else if negb (is_actual_matchup d) then
         set_games (fmap (setStep (id d) h a sh sa)) db
       else db).
  Proof.
    unfold updateSuperBowlGame.
    destruct (matchupChanged d h a); [|by destruct (is_actual_matchup d)].
    unfold runExec. f_equal. unfold UPDATE_games.
    apply set_games_ext. apply list_fmap_ext. intros i g _.
    apply (clear_then_null_rounds h a sh sa g).
  Qed.

Lemma Inv_after_write (rs : list Round) h a sh sa db :
    lo ≤ depth (round d) → rs = roundsAfter (round d) →
    Inv lo s gs0 db →
    Inv lo s gs0
      (if matchupChanged d h a then
         set_games (fmap (clearStep (id d) h a sh sa s rs)) db
       else if negb (is_actual_matchup d) then
         set_games (fmap (setStep (id d) h a sh sa)) db
       else db).
  Proof.
    intros Hlo -> HI. destruct (matchupChanged d h a) eqn:Hm.
    - by apply Inv_clearStep.
    - destruct (is_actual_matchup d); simpl; [done|].
      apply Inv_setStep; try done. by apply matchupChanged_false.
  Qed.
End writers.

Section engine_invariant.
Context (lo s : Z) (gs0 : list Game).
Context (Hnd : NoDup (id <$> gs0)).

Lemma updateDivisionalGame_preserves game h a sh sa :
    lo ≤ 1 → (∀ d, game = Some d → from_round s gs0 divisional d) →
    preserves (Inv lo s gs0) (updateDivisionalGame game h a sh sa).
  Proof.
    intros Hlo Hg db HI. destruct game as [d|]; [|done].
    destruct (Hg d eq_refl) as (Hd & Hs & Hr).
    rewrite (updateDivisionalGame_run lo s gs0 d); try done. simpl.
    apply Inv_after_write; try done; by rewrite Hr.
  Qed.

Lemma updateConferenceGame_preserves game h a sh sa :
    lo ≤ 2 → (∀ d, game = Some d → from_round s gs0 conference d) →
    preserves (Inv lo s gs0) (updateConferenceGame game h a sh sa).
  Proof.
    intros Hlo Hg db HI. destruct game as [d|]; [|done].
    destruct (Hg d eq_refl) as (Hd & Hs & Hr).
    rewrite (updateConferenceGame_run lo s gs0 d); try done. simpl.
    apply Inv_after_write; try done; by rewrite Hr.
  Qed.

Lemma updateSuperBowlGame_preserves d h a sh sa :
    lo ≤ 3 → from_round s gs0 super_bowl d →
    preserves (Inv lo s gs0) (updateSuperBowlGame d h a sh sa).
  Proof.
    intros Hlo (Hd & Hs & Hr) db HI.
    rewrite (updateSuperBowlGame_run s d). simpl.
    apply Inv_after_write; try done; by rewrite Hr.
  Qed.
End engine_invariant.

(** ** The engine keeps the invariant *)

Lemma elem_of_season_snapshot s db g :
  g ∈ SELECT_games_WHERE_season_ORDERED s db ↔ g ∈ games db ∧ season_id g = s.
Proof.
  unfold SELECT_games_WHERE_season_ORDERED, WHERE_season.
  rewrite elem_of_js_sort, list_elem_of_filter, Z.eqb_eq. tauto.
Qed.

Lemma Forall_from_round s gs0 r (l : list Game) :
  Forall (λ g, g ∈ gs0 ∧ season_id g = s) l →
  Forall (from_round s gs0 r) (filter (λ g, round g = r) l).
Proof.
  rewrite !Forall_forall. intros H g [Hr Hg]%list_elem_of_filter.
  destruct (H g Hg). by repeat split.
Qed.

Section engine_preserves.
Context (lo s : Z) (gs0 : list Game).
Context (Hnd : NoDup (id <$> gs0)).

Lemma reseedDivisional_preserves seeds c wcs divs slot :
    lo ≤ 1 → Forall (from_round s gs0 divisional) divs →
    preserves (Inv lo s gs0) (reseedDivisional seeds c wcs divs slot).
  Proof.
    intros Hlo Hdivs. unfold reseedDivisional.
    destruct (forallb _ _); [|apply preserves_ret].
    do 4 (apply preserves_bind; [apply preserves_deref|intros ?]).
    apply preserves_bind; [|intros _];
      apply updateDivisionalGame_preserves; try done;
      intros d Hd; by eapply Forall_lookup in Hd.
  Qed.

Lemma reseedConference_preserves seeds divs confs slot :
    lo ≤ 2 → Forall (from_round s gs0 conference) confs →
    preserves (Inv lo s gs0) (reseedConference seeds divs confs slot).
  Proof.
    intros Hlo Hconfs. unfold reseedConference.
    destruct (forallb _ _); [|apply preserves_ret].
    do 2 (apply preserves_bind; [apply preserves_deref|intros ?]).
    apply updateConferenceGame_preserves; try done.
    intros d Hd; by eapply Forall_lookup in Hd.
  Qed.

Lemma reseedRounds_preserves games seeds :
    lo ≤ 2 →
    lo ≤ 1 ∨ isRoundComplete (filter (λ g, round g = wild_card) games) = false →
    Forall (λ g, g ∈ gs0 ∧ season_id g = s) games →
    preserves (Inv lo s gs0) (reseedRounds games seeds).
  Proof.
    intros Hlo Hwc Hgames. unfold reseedRounds.
    pose proof (Forall_from_round s gs0 divisional _ Hgames) as Hdiv.
    pose proof (Forall_from_round s gs0 conference _ Hgames) as Hconf.
    pose proof (Forall_from_round s gs0 super_bowl _ Hgames) as Hsb.
    apply preserves_bind; [|intros _; apply preserves_bind; [|intros _]].
    - destruct (isRoundComplete (filter _ games)) eqn:Hcomplete; [|apply preserves_ret].
      destruct Hwc as [Hlo1|?]; [|done].
      apply preserves_bind; [|intros _]; by apply reseedDivisional_preserves.
    - clear Hwc. destruct (isRoundComplete _); [|apply preserves_ret].
      apply preserves_bind; [|intros _]; by apply reseedConference_preserves.
    - clear Hwc. destruct (isRoundComplete _); [|apply preserves_ret].
      destruct (head _) as [sb|] eqn:Hhead; [|apply preserves_ret].
      do 2 (apply preserves_bind; [apply preserves_deref|intros ?]).
      apply updateSuperBowlGame_preserves; try lia; try done.
      apply head_Some_elem_of in Hhead.
      by rewrite Forall_forall in Hsb; apply Hsb.
  Qed.
End engine_preserves.

Lemma reseedPlayoffBracket_unfold s db :
  reseedPlayoffBracket s db =
    reseedRounds (SELECT_games_WHERE_season_ORDERED s db)
                 (SELECT_seeds_WHERE_season_ORDERED s db) db.
Proof. done. Qed.

Lemma reseedPlayoffBracket_Inv lo s db :
  pk_unique db → lo ≤ 2 →
  lo ≤ 1 ∨ isRoundComplete (filter (λ g, round g = wild_card)
                              (SELECT_games_WHERE_season_ORDERED s db)) = false →
  Inv lo s (games db) (reseedPlayoffBracket s db).2.
Proof.
  intros Hpk Hlo Hwc. rewrite reseedPlayoffBracket_unfold.
  apply reseedRounds_preserves; try done.
  - apply Forall_forall. intros g. by rewrite elem_of_season_snapshot.
  - by apply Inv_init.
Qed.

(** Rows of a round the calls cannot reach stand as they stood. *)
Lemma Inv_filter_round lo s gs0 db r :
  Inv lo s gs0 db → depth r < lo →
  filter (λ g, round g = r) (games db) = filter (λ g, round g = r) gs0.
Proof.
  intros [HF _] Hr. induction HF as [|g0 g l0 l [? (_&_&Hrd&_) _ Hlow _ _] _ IH];
    [done|].
  rewrite !filter_cons, IH. rewrite Hrd.
  destruct (decide (round g0 = r)) as [Heq|]; [|done].
  rewrite Hlow; [done|]. by rewrite Heq.
Qed.

(** ** Statements about the re-seeding engine *)

Lemma isRoundComplete_elem l g :
  isRoundComplete l = true → g ∈ l → completed g = true ∧ truthy (winner g) = true.
Proof.
  unfold isRoundComplete. intros [_ H]%andb_true_iff Hg.
  rewrite forallb_forall in H. apply list_elem_of_In in Hg.
  by apply andb_true_iff, H.
Qed.

Ltac concrete :=
  repeat match goal with
  | |- _ ∧ _ => split
  | |- pk_unique _ => apply (bool_decide_unpack _); vm_compute; reflexivity
  | |- _ ∈ _ => apply (bool_decide_unpack _); vm_compute; reflexivity
  | |- _ ≠ _ => apply (bool_decide_unpack _); vm_compute; reflexivity
  | |- downstream _ _ => reflexivity
  | |- _ = _ => vm_compute; reflexivity
  | |- _ ∨ _ => first [left; vm_compute; reflexivity | right; vm_compute; reflexivity]
  end.

(** C10 — Every run of the re-seeding engine leaves the wild-card round as
    it found it: the wild-card rows of the table (teams, seeds, winner,
    completed, is_actual_matchup) are the same rows after
    [reseedPlayoffBracket], whether it returns or throws. *)
Theorem reseed_leaves_wild_card_round (seasonId : Z) (db : DB) :
  pk_unique db →
  filter (λ g, round g = wild_card) (games (reseedPlayoffBracket seasonId db).2)
  = filter (λ g, round g = wild_card) (games db).
Proof.
  intros Hpk. eapply Inv_filter_round.
  - apply (reseedPlayoffBracket_Inv 1); [done|lia|by left].
  - simpl. lia.
Qed.

Lemma reseed_leaves_wild_card_round_witness :
  pk_unique upset2025
  ∧ filter (λ g, round g = wild_card) (games (reseedPlayoffBracket 1 upset2025).2)
    = filter (λ g, round g = wild_card) (games upset2025).
Proof.
  split; [concrete|].
  apply (reseed_leaves_wild_card_round 1 upset2025). concrete.
Defined.

(** C3 — When a run of the re-seeding engine changes the home/away pair of
    a game, every game of the same season in a round strictly downstream
    has winner = null and completed = false afterwards. *)
Theorem changed_matchup_clears_downstream (seasonId : Z) (db : DB)
    (g g' h' : Game) :
  pk_unique db →
  g ∈ games db →
  g' ∈ games (reseedPlayoffBracket seasonId db).2 →
  id g' = id g →
  teams g' ≠ teams g →
  h' ∈ games (reseedPlayoffBracket seasonId db).2 →
  season_id h' = season_id g →
  downstream (round g) (round h') →
  winner h' = None ∧ completed h' = false.
Proof.
  intros Hpk Hg Hg' Hid Hteams Hh' Hseason Hdown.
  destruct (reseedPlayoffBracket_Inv 1 seasonId db Hpk) as [_ Hc];
    [lia|by left|].
  by apply (Hc g g' h').
Qed.

Lemma changed_matchup_clears_downstream_witness :
  winner (gameOf 11 (exec (reseedPlayoffBracket 1) upset2025)) = None
  ∧ completed (gameOf 11 (exec (reseedPlayoffBracket 1) upset2025)) = false.
Proof.
  apply (changed_matchup_clears_downstream 1 upset2025
           (gameOf 7 upset2025)
           (gameOf 7 (exec (reseedPlayoffBracket 1) upset2025))
           (gameOf 11 (exec (reseedPlayoffBracket 1) upset2025))); concrete.
Defined.

(** C7 — While some wild-card game of the season is not completed or has
    no winner, a run of the re-seeding engine changes no divisional game:
    the divisional rows (placeholders included) are the same rows
    afterwards. *)
Theorem partial_wild_card_round_keeps_divisional (seasonId : Z) (db : DB)
    (w : Game) :
  pk_unique db →
  w ∈ games db → season_id w = seasonId → round w = wild_card →
  completed w = false ∨ winner w = None →
  filter (λ g, round g = divisional) (games (reseedPlayoffBracket seasonId db).2)
  = filter (λ g, round g = divisional) (games db).
Proof.
  intros Hpk Hw Hs Hr Hopen. eapply Inv_filter_round.
  - apply (reseedPlayoffBracket_Inv 2); [done|lia|right].
    destruct (isRoundComplete _) eqn:Hcomplete; [|done].
    destruct (isRoundComplete_elem _ w Hcomplete) as [Hc Ht].
    + apply list_elem_of_filter. split; [done|].
      by apply elem_of_season_snapshot.
    + destruct Hopen as [Ho|Ho]; rewrite Ho in *; done.
  - simpl. lia.
Qed.

Lemma partial_wild_card_round_keeps_divisional_witness :
  filter (λ g, round g = divisional) (games (reseedPlayoffBracket 1 partial2025).2)
  = filter (λ g, round g = divisional) (games partial2025).
Proof.
  apply (partial_wild_card_round_keeps_divisional 1 partial2025
           (gameOf 6 partial2025)); concrete.
Defined.

(** ** Recording a winner *)

Lemma pk_unique_UPDATE_games set wh db :
  (∀ g, id (set g) = id g) → pk_unique db → pk_unique (UPDATE_games set wh db).
Proof.
  unfold pk_unique. intros Hset Hpk. rewrite games_UPDATE_games.
  rewrite <- list_fmap_compose.
  erewrite list_fmap_ext; [exact Hpk|].
  intros i g _. simpl. by destruct (wh g).
Qed.

Lemma filter_none {A} (P : A → Prop) `{!∀ x, Decision (P x)} (l : list A) :
  (∀ x, x ∈ l → ¬ P x) → filter P l = [].
Proof.
  induction l as [|x l IH]; intros Hall; [done|].
  rewrite filter_cons_False by (apply Hall; left).
  apply IH. intros y Hy. apply Hall. by right.
Qed.

Lemma filter_id_singleton gs g :
  NoDup (id <$> gs) → g ∈ gs →
  filter (λ x, WHERE_id (id g) x = true) gs = [g].
Proof.
  induction gs as [|x gs IH]; intros Hnd Hg; [by apply elem_of_nil in Hg|].
  rewrite fmap_cons in Hnd. apply NoDup_cons in Hnd as [Hx Hnd].
  rewrite filter_cons.
  destruct (decide (WHERE_id (id g) x = true)) as [Heq|Hne];
    unfold WHERE_id in *.
  - apply Z.eqb_eq in Heq.
    apply elem_of_cons in Hg as [->|Hg].
    + f_equal. apply filter_none. intros y Hy Hy'.
      apply Z.eqb_eq in Hy'. apply Hx. rewrite <- Hy'.
      by apply list_elem_of_fmap_2.
    + exfalso. apply Hx. rewrite Heq. by apply list_elem_of_fmap_2.
  - apply elem_of_cons in Hg as [->|Hg]; [by rewrite Z.eqb_refl in Hne|].
    by apply IH.
Qed.

Lemma head_by_id_Some k db g :
  head (SELECT_games_WHERE_id k db) = Some g → g ∈ games db ∧ id g = k.
Proof.
  intros H. apply head_Some_elem_of, list_elem_of_filter in H as [Hk Hg].
  split; [done|]. by apply Z.eqb_eq.
Qed.

Lemma head_by_id_of_elem db g :
  pk_unique db → g ∈ games db → head (SELECT_games_WHERE_id (id g) db) = Some g.
Proof.
  intros Hpk Hg. unfold SELECT_games_WHERE_id. by rewrite filter_id_singleton.
Qed.

Lemma Inv_filter_id lo s gs0 db k :
  Inv lo s gs0 db →
  (∀ g0, g0 ∈ gs0 → id g0 = k → depth (round g0) < lo) →
  filter (λ g, WHERE_id k g = true) (games db)
  = filter (λ g, WHERE_id k g = true) gs0.
Proof.
  intros [HF _] Hk.
  induction HF as [|g0 g l0 l [Hin (Hid&_) _ Hlow _ _] _ IH]; [done|].
  rewrite !filter_cons, IH. unfold WHERE_id. rewrite Hid.
  destruct (Z.eqb_spec (id g0) k) as [Heq|Hne].
  - rewrite !decide_True by done. by rewrite (Hlow (Hk g0 Hin Heq)).
  - by rewrite !decide_False by done.
Qed.

(** C1 (as amended) — [updateGameWinner gameId winner]: when no game has
    this id it throws "Game not found" and changes nothing; otherwise, for
    any [winner] whatever (it is not compared with the game's teams), it
    sets winner = [winner] and completed = 1 on the game, leaving its other
    columns and every other row as they are, and then runs
    [reseedPlayoffBracket] for the game's season on that state; for a
    wild-card game the row with the recorded winner is in place when the
    call ends. *)
Theorem updateGameWinner_records_then_reseeds (gameId : Z) (w : string) (db : DB) :
  pk_unique db →
  match head (SELECT_games_WHERE_id gameId db) with
  | None => updateGameWinner gameId w db = (Throw (Error "Game not found"), db)
  | Some game =>
      let decided := λ g : Game,
        mkGame (id g) (season_id g) (round g) (game_number g) (team_home g)
               (team_away g) (seed_home g) (seed_away g) (Some w)
               (espn_event_id g) true (is_actual_matchup g) in
      let recorded :=
        mkDB ((λ g, if id g =? gameId then decided g else g) <$> games db)
             (games_seq db) (playoff_seeds db) (participants db)
             (predictions db) in
      updateGameWinner gameId w db
      = reseedPlayoffBracket (season_id game) recorded
      ∧ head (SELECT_games_WHERE_id gameId recorded) = Some (decided game)
      ∧ (round game = wild_card →
         head (SELECT_games_WHERE_id gameId (updateGameWinner gameId w db).2)
         = Some (decided game))
  end.
Proof.
  intros Hpk.
  destruct (head (SELECT_games_WHERE_id gameId db)) as [game|] eqn:Hgame.
  2:{ unfold updateGameWinner, getGameById. by rewrite bind_runQuery, Hgame. }
  intros decided recorded.
  assert (Hdecided : decided = SET_winner_completed w) by reflexivity.
  assert (Hrecorded : recorded
            = UPDATE_games (SET_winner_completed w) (WHERE_id gameId) db)
    by reflexivity.
  clearbody recorded decided. subst decided.
  unfold updateGameWinner, getGameById. rewrite bind_runQuery, Hgame.
  rewrite bind_runExec, <- Hrecorded.
  destruct (head_by_id_Some _ _ _ Hgame) as [Hin Hid].
  assert (Hpk' : pk_unique recorded)
    by (rewrite Hrecorded; by apply pk_unique_UPDATE_games).
  assert (Hin' : SET_winner_completed w game ∈ games recorded).
  { rewrite Hrecorded, games_UPDATE_games.
    apply list_elem_of_fmap. exists game. split; [|done].
    unfold WHERE_id. by rewrite (proj2 (Z.eqb_eq _ _) Hid). }
  assert (Hhead : head (SELECT_games_WHERE_id gameId recorded)
                  = Some (SET_winner_completed w game)).
  { rewrite <- Hid.
    by apply (head_by_id_of_elem recorded (SET_winner_completed w game)). }
  split; [done|]. split; [done|]. intros Hwc.
  rewrite <- Hhead. unfold SELECT_games_WHERE_id. f_equal.
  eapply Inv_filter_id.
  - apply (reseedPlayoffBracket_Inv 1); [done|lia|by left].
  - intros g0 Hg0 Hk.
    assert (g0 = SET_winner_completed w game) as ->.
    { apply (pk_inj (games recorded)); try done. simpl. congruence. }
    simpl. rewrite Hwc. simpl. lia.
Qed.

Lemma updateGameWinner_records_then_reseeds_witness :
  head (SELECT_games_WHERE_id 1 (updateGameWinner 1 "BUF" bracket2025).2)
  = Some (mkGame 1 1 wild_card 1 "BUF" "PIT" (Some 2) (Some 7) (Some "BUF")
                 None true true).
Proof.
  assert (Hpk : pk_unique bracket2025) by concrete.
  pose proof (updateGameWinner_records_then_reseeds 1 "BUF" bracket2025 Hpk) as H.
  assert (Hg : head (SELECT_games_WHERE_id 1 bracket2025)
               = Some (mkGame 1 1 wild_card 1 "BUF" "PIT" (Some 2) (Some 7) None
                              None false true)) by (vm_compute; reflexivity).
  rewrite Hg in H. destruct H as (_ & _ & H). apply H. reflexivity.
Defined.

(** C1 (counterexample) — game 1 of the generated bracket is BUF against
    PIT; recording "KC" as its winner is accepted and stored. *)
Lemma updateGameWinner_accepts_a_third_team :
  team_home (gameOf 1 bracket2025) = "BUF"
  ∧ team_away (gameOf 1 bracket2025) = "PIT"
  ∧ (updateGameWinner 1 "KC" bracket2025).1 = Ok tt
  ∧ winner (gameOf 1 (exec (updateGameWinner 1 "KC") bracket2025)) = Some "KC".
Proof. repeat split; vm_compute; reflexivity. Qed.

(** ** Bracket generation *)

Lemma slot_taken_app s r n l1 l2 :
  slot_taken s r n (l1 ++ l2) = slot_taken s r n l1 || slot_taken s r n l2.
Proof. apply existsb_app. Qed.

Lemma slot_taken_other_seasons s r n gs :
  slot_taken s r n (filter (λ g, WHERE_season s g = false) gs) = false.
Proof.
  induction gs as [|g gs IH]; [done|].
  rewrite filter_cons. destruct (decide _) as [Hg|]; [|done].
  simpl. rewrite IH. unfold WHERE_season in Hg. by rewrite Hg.
Qed.

Lemma runInsert_game_run s r n h a sh sa ac gs seq P Q R :
  slot_taken s r n gs = false →
  runInsert_game s r n h a sh sa ac (mkDB gs seq P Q R)
  = (Ok (Z.max seq (max_id gs) + 1),
     mkDB (gs ++ [mkGame (Z.max seq (max_id gs) + 1) s r n h a sh sa
                         None None false ac])
          (Z.max seq (max_id gs) + 1) P Q R).
Proof. intros H. unfold runInsert_game. simpl. by rewrite H. Qed.

Lemma length_conference_seeds s c db :
  length (js_sort (λ a b, seed a - seed b)
            (filter (λ p, conference_of p = c)
               (SELECT_seeds_WHERE_season_ORDERED s db)))
  = length (seedsOf s c db).
Proof.
  rewrite length_js_sort. unfold SELECT_seeds_WHERE_season_ORDERED, seedsOf.
  apply Permutation_length. apply filter_Permutation, js_sort_perm.
Qed.

Lemma seeds_snapshot_nonempty s c db :
  (0 < length (seedsOf s c db))%nat →
  length (SELECT_seeds_WHERE_season_ORDERED s db) ≠ 0%nat.
Proof.
  unfold seedsOf, SELECT_seeds_WHERE_season_ORDERED. rewrite length_js_sort.
  intros H Hz. apply nil_length_inv in Hz. rewrite Hz in H. simpl in H. lia.
Qed.

Lemma at_least_seven {A} (l : list A) :
  (Z.of_nat (length l) <? 7) = false →
  ∃ a0 a1 a2 a3 a4 a5 a6 rest, l = a0 :: a1 :: a2 :: a3 :: a4 :: a5 :: a6 :: rest.
Proof.
  intros H. apply Z.ltb_ge in H.
  do 7 (destruct l as [|? l]; [simpl in H; lia|]). by repeat eexists.
Qed.

Lemma bind_assoc_at {A B C} (m : M A) (k : A → M B) (k' : B → M C) db :
  ((m ≫= k) ≫= k') db = (m ≫= λ a, k a ≫= k') db.
Proof. rewrite !bind_unfold. by destruct (m db) as [[?|?] ?]. Qed.

Lemma bind_runInsert_game {B} s r n h a sh sa ac (k : Z → M B) gs seq P Q R :
  slot_taken s r n gs = false →
  (runInsert_game s r n h a sh sa ac ≫= k) (mkDB gs seq P Q R)
  = k (Z.max seq (max_id gs) + 1)
      (mkDB (gs ++ [mkGame (Z.max seq (max_id gs) + 1) s r n h a sh sa
                           None None false ac])
            (Z.max seq (max_id gs) + 1) P Q R).
Proof. intros H. rewrite bind_unfold. by rewrite runInsert_game_run. Qed.

(** C5 (as amended) — [generatePlayoffGamesFromSeeds] requires at least
    seven seeds per conference: when a conference of the season has fewer
    than seven (in particular when the season has none) it throws an Error
    and leaves the database as it was; when both have seven or more it
    returns, the season's former games are gone, the games of other seasons
    stand, and thirteen fresh undecided games fill the slots of the
    bracket. *)
Theorem generate_bracket_seed_check (seasonId : Z) (db : DB) :
  ((length (seedsOf seasonId AFC db) < 7 ∨ length (seedsOf seasonId NFC db) < 7)%nat →
   ∃ msg, generatePlayoffGamesFromSeeds seasonId db = (Throw (Error msg), db))
  ∧ ((7 ≤ length (seedsOf seasonId AFC db) ∧ 7 ≤ length (seedsOf seasonId NFC db))%nat →
     ∃ created seq,
       generatePlayoffGamesFromSeeds seasonId db
       = (Ok tt,
          mkDB (filter (λ g, WHERE_season seasonId g = false) (games db) ++ created)
               seq (playoff_seeds db) (participants db) (predictions db))
       ∧ (λ g, (round g, game_number g)) <$> created = bracketSlots
       ∧ Forall (λ g, season_id g = seasonId ∧ winner g = None ∧ completed g = false)
                created).
Proof.
  unfold generatePlayoffGamesFromSeeds, getPlayoffSeeds. rewrite bind_runQuery.
  pose proof (length_conference_seeds seasonId AFC db) as Hafc.
  pose proof (length_conference_seeds seasonId NFC db) as Hnfc.
  split.
  - intros Hfew. case_bool_decide; [by eexists|].
    rewrite Hafc, Hnfc.
    destruct (_ || _) eqn:Hchk; [by eexists|].
    apply orb_false_iff in Hchk as [?%Z.ltb_ge ?%Z.ltb_ge]. lia.
  - intros [H1 H2]. rewrite bool_decide_eq_false_2
      by (apply (seeds_snapshot_nonempty _ AFC); lia).
    destruct (_ || _) eqn:Hchk.
    { apply orb_true_iff in Hchk. rewrite Hafc, Hnfc in Hchk.
      destruct Hchk as [?%Z.ltb_lt| ?%Z.ltb_lt]; lia. }
    apply orb_false_iff in Hchk as [Ha Hn].
    apply at_least_seven in Ha as (a0&a1&a2&a3&a4&a5&a6&resta&->).
    apply at_least_seven in Hn as (n0&n1&n2&n3&n4&n5&n6&restn&->).
    rewrite bind_runExec. unfold DELETE_games, set_games.
    unfold generateWildCardGames, generateDivisionalPlaceholders. simpl zip.
    cbn [forM_].
    set (base := filter (λ g, WHERE_season seasonId g = false) (games db)).
    assert (Hbase : ∀ r n, slot_taken seasonId r n base = false)
      by (intros; apply slot_taken_other_seasons).
    match goal with |- ∃ _ _, ?lhs = _ ∧ _ => remember lhs as res eqn:Hres end.
    repeat first
      [ rewrite bind_assoc_at in Hres
      | rewrite bind_deref_Some in Hres
      | rewrite bind_ret in Hres
      | rewrite bind_runInsert_game in Hres
          by (rewrite <- ?app_assoc, ?slot_taken_app, ?Hbase;
              simpl; rewrite ?Z.eqb_refl; reflexivity);
        match type of Hres with
        | context [Z.max ?a ?b + 1] => set (Z.max a b + 1) in Hres
        end ].
    subst res. unfold mret, M_ret. rewrite <- !app_assoc. simpl app.
    eexists _, _. split; [reflexivity|]. split; [reflexivity|].
    repeat constructor.
Qed.

Lemma generate_bracket_seed_check_witness :
  (∃ msg, generatePlayoffGamesFromSeeds 2 bracket2025
          = (Throw (Error msg), bracket2025))
  ∧ (∃ created seq,
       generatePlayoffGamesFromSeeds 1 eightSeeds2025
       = (Ok tt,
          mkDB (filter (λ g, WHERE_season 1 g = false) (games eightSeeds2025)
                ++ created)
               seq (playoff_seeds eightSeeds2025) (participants eightSeeds2025)
               (predictions eightSeeds2025))
       ∧ (λ g, (round g, game_number g)) <$> created = bracketSlots
       ∧ Forall (λ g, season_id g = 1 ∧ winner g = None ∧ completed g = false)
                created).
Proof.
  split.
  - apply (proj1 (generate_bracket_seed_check 2 bracket2025)).
    left. vm_compute. lia.
  - apply (proj2 (generate_bracket_seed_check 1 eightSeeds2025)).
    split; vm_compute; lia.
Defined.

(** C5 (counterexample) — with eight AFC seeds on record (and seven NFC
    seeds) the check passes: the call returns and the stored games are
    replaced. *)
Lemma generate_accepts_eight_seeds :
  length (seedsOf 1 AFC eightSeeds2025) = 8%nat
  ∧ length (seedsOf 1 NFC eightSeeds2025) = 7%nat
  ∧ (generatePlayoffGamesFromSeeds 1 eightSeeds2025).1 = Ok tt
  ∧ games (exec (generatePlayoffGamesFromSeeds 1) eightSeeds2025)
    ≠ games eightSeeds2025.
Proof.
  repeat split; try (vm_compute; reflexivity).
  apply (bool_decide_unpack _). vm_compute. reflexivity.
Qed.

(** ** The leaderboard *)

Lemma truthy_Some_nonempty s : s ≠ "" → truthy (Some s) = true.
Proof.
  intros H. simpl. destruct (String.eqb_spec s ""); [done|done].
Qed.

Lemma truthy_iff (v : option string) :
  truthy v = true ↔ v ≠ None ∧ v ≠ Some "".
Proof.
  destruct v as [t|]; simpl; [|by split; [|intros [? _]]].
  destruct (String.eqb_spec t "") as [->|Hne]; simpl.
  - split; [done|]. by intros [_ ?].
  - split; [|done]. intros _. split; [done|]. congruence.
Qed.

Lemma calculatePoints_spec game p st :
  calculatePoints game p st =
    if completed game
       && bool_decide (winner game ≠ None ∧ winner game ≠ Some ""
                       ∧ winner game = Some (predicted_winner p))
    then mkPoints 1 (WEIGHTED_POINTS (round game)) true
    else mkPoints 0 0 false.
Proof.
  unfold calculatePoints.
  destruct (completed game); simpl; [|done].
  destruct (truthy (winner game)) eqn:Ht; simpl.
  - apply truthy_iff in Ht as [Hn He].
    case_bool_decide as Hw; simpl.
    + by rewrite bool_decide_eq_true_2.
    + rewrite bool_decide_eq_false_2; [done|]. by intros (_ & _ & ?).
  - rewrite bool_decide_eq_false_2; [done|].
    intros (Hn & He & _). apply not_true_iff_false in Ht. apply Ht.
    by apply truthy_iff.
Qed.

Lemma map_get_set_eq k v m : map_get k (map_set k v m) = Some v.
Proof.
  unfold map_get. induction m as [|[k' v'] m IH]; cbn [map_set].
  - by rewrite filter_cons_True.
  - case_bool_decide as Hk.
    + by rewrite filter_cons_True.
    + by rewrite filter_cons_False.
Qed.

Lemma map_get_set_ne k k' v m :
  k' ≠ k → map_get k' (map_set k v m) = map_get k' m.
Proof.
  intros Hne. unfold map_get. induction m as [|[k0 v0] m IH]; cbn [map_set].
  - by rewrite filter_cons_False by (simpl; congruence).
  - case_bool_decide as Hk.
    + subst k0. by rewrite !filter_cons_False by (simpl; congruence).
    + rewrite !filter_cons. cbn [fst]. destruct (decide (k0 = k')); [done|]. apply IH.
Qed.

Lemma map_get_Some_elem k e m : map_get k m = Some e → e ∈ map_values m.
Proof.
  unfold map_get, map_values. intros H.
  destruct (head _) as [[k' e']|] eqn:Hh; [|done]. simpl in H. injection H as ->.
  apply head_Some_elem_of, list_elem_of_filter in Hh as [_ Hin].
  apply list_elem_of_fmap. by exists (k', e).
Qed.

Lemma map_set_present_ids k e e' m :
  map_get k m = Some e → participantId e' = participantId e →
  participantId <$> map_values (map_set k e' m) = participantId <$> map_values m.
Proof.
  unfold map_get, map_values. induction m as [|[k0 v0] m IH]; [done|].
  intros Hget Hp. cbn [map_set]. case_bool_decide as Hk.
  - subst k0. rewrite filter_cons_True in Hget by done. simpl in Hget.
    injection Hget as ->. rewrite !fmap_cons. cbn [snd]. by rewrite Hp.
  - rewrite filter_cons_False in Hget by done. rewrite !fmap_cons.
    f_equal. by apply IH.
Qed.

Lemma Zsum_cons x l : Zsum (x :: l) = x + Zsum l.
Proof. done. Qed.

Lemma foldM_nil {A B} (f : B → A → M B) b db : foldM f b [] db = (Ok b, db).
Proof. done. Qed.

Lemma foldM_cons {A B} (f : B → A → M B) b x l db :
  foldM f b (x :: l) db = (f b x ≫= λ b', foldM f b' l) db.
Proof. done. Qed.

(** The picks of participant [k] among [p :: ps]. *)
Lemma picksOf_cons k p ps :
  picksOf k (p :: ps) = if decide (participant_id p = k) then p :: picksOf k ps
                        else picksOf k ps.
Proof. unfold picksOf. by rewrite filter_cons. Qed.

Section score_loop.
Context (games : list Game) (st : ScoringType).

Lemma scorePrediction_run lb p e db :
  map_get (participant_id p) lb = Some e →
  ∃ e',
    scorePrediction games st lb p db
    = (Ok (match targetGame games p with
           | Some _ => map_set (participant_id p) e' lb
           | None => lb
           end), db)
    ∧ participantId e' = participantId e
    ∧ name e' = name e
    ∧ simpleScore e' = simpleScore e + awardedSimple games p
    ∧ weightedScore e' = weightedScore e + awardedWeighted games p.
Proof.
  intros Hget. unfold scorePrediction, awardedSimple, awardedWeighted, earns, targetGame.
  destruct (head (filter _ games)) as [g|] eqn:Hg.
  - rewrite Hget, bind_deref_Some. rewrite calculatePoints_spec.
    destruct (completed g && bool_decide _); simpl; eexists; (split; [reflexivity|]);
      simpl; repeat split; lia.
  - exists e. repeat split; lia.
Qed.

Lemma score_loop_run ps : ∀ lb db,
  Forall (λ p, is_Some (map_get (participant_id p) lb)) ps →
  ∃ lb',
    foldM (scorePrediction games st) lb ps db = (Ok lb', db)
    ∧ participantId <$> map_values lb' = participantId <$> map_values lb
    ∧ ∀ k e, map_get k lb = Some e →
        ∃ e', map_get k lb' = Some e'
              ∧ participantId e' = participantId e
              ∧ name e' = name e
              ∧ simpleScore e'
                = simpleScore e + Zsum (awardedSimple games <$> picksOf k ps)
              ∧ weightedScore e'
                = weightedScore e + Zsum (awardedWeighted games <$> picksOf k ps).
Proof.
  induction ps as [|p ps IH]; intros lb db Hkeys.
  - exists lb. split; [done|]. split; [done|]. intros k e Hk. exists e.
    unfold picksOf. simpl. repeat split; try done; lia.
  - apply Forall_cons in Hkeys as [[e0 He0] Hkeys].
    destruct (scorePrediction_run lb p e0 db He0)
      as (e1 & Hrun & Hid1 & Hn1 & Hs1 & Hw1).
    rewrite foldM_cons, bind_unfold, Hrun.
    set (lb1 := match targetGame games p with
                | Some _ => map_set (participant_id p) e1 lb
                | None => lb
                end) in *.
    assert (Hget1 : ∀ k e, map_get k lb = Some e →
              ∃ e', map_get k lb1 = Some e'
                    ∧ participantId e' = participantId e ∧ name e' = name e
                    ∧ simpleScore e' = simpleScore e
                        + (if decide (participant_id p = k) then awardedSimple games p else 0)
                    ∧ weightedScore e' = weightedScore e
                        + (if decide (participant_id p = k) then awardedWeighted games p else 0)).
    { intros k e Hk. unfold lb1.
      destruct (decide (participant_id p = k)) as [<-|Hnek].
      - rewrite He0 in Hk. injection Hk as <-.
        destruct (targetGame games p) eqn:Ht.
        + exists e1. by rewrite map_get_set_eq.
        + exists e0. unfold awardedSimple, awardedWeighted, earns in *.
          rewrite Ht in *. repeat split; try done; lia.
      - exists e. split; [|repeat split; try done; lia].
        destruct (targetGame games p); [|done].
        by rewrite map_get_set_ne. }
    destruct (IH lb1 db) as (lb' & Hfold & Hids & Hall).
    { eapply Forall_impl; [exact Hkeys|]. intros q [e He]. simpl.
      destruct (Hget1 _ _ He) as (e' & -> & _). by eexists. }
    exists lb'. split; [done|]. split.
    { rewrite Hids. unfold lb1. destruct (targetGame games p); [|done].
      by eapply map_set_present_ids. }
    intros k e Hk. destruct (Hget1 k e Hk) as (e' & Hk' & Hi' & Hn' & Hs' & Hw').
    destruct (Hall k e' Hk') as (e'' & Hk'' & Hi'' & Hn'' & Hs'' & Hw'').
    exists e''. rewrite picksOf_cons.
    split; [done|]. split; [congruence|]. split; [congruence|].
    destruct (decide (participant_id p = k)); rewrite ?fmap_cons, ?Zsum_cons; lia.
Qed.
End score_loop.

Lemma map_set_fresh k v (m : JsMap) : k ∉ m.*1 → map_set k v m = m ++ [(k, v)].
Proof.
  induction m as [|[k' v'] m IH]; intros Hk; [done|].
  cbn [map_set]. rewrite fmap_cons in Hk. apply not_elem_of_cons in Hk as [Hne Hk].
  rewrite bool_decide_eq_false_2 by (simpl in Hne; congruence).
  simpl. by rewrite IH.
Qed.

Lemma initial_map_run pts : ∀ acc : JsMap,
  NoDup (acc.*1 ++ (pt_id <$> pts)) →
  foldl (λ lb pt, map_set (pt_id pt) (freshEntry pt) lb) acc pts
  = acc ++ ((λ pt, (pt_id pt, freshEntry pt)) <$> pts).
Proof.
  induction pts as [|pt pts IH]; intros acc Hnd; simpl.
  - by rewrite app_nil_r.
  - rewrite fmap_cons in Hnd. apply NoDup_app in Hnd as (Hacc & Hdisj & Hpts).
    apply NoDup_cons in Hpts as [Hpt Hpts].
    rewrite map_set_fresh by (intros Hin; apply (Hdisj _ Hin); left).
    rewrite IH.
    + by rewrite <- app_assoc.
    + rewrite fmap_app. simpl. rewrite <- app_assoc. simpl.
      apply NoDup_app. split; [done|]. split; [|by constructor].
      intros x Hx. by apply Hdisj.
Qed.

Lemma map_get_initial pts pt :
  NoDup (pt_id <$> pts) → pt ∈ pts →
  map_get (pt_id pt) ((λ pt, (pt_id pt, freshEntry pt)) <$> pts)
  = Some (freshEntry pt).
Proof.
  unfold map_get. induction pts as [|q pts IH]; intros Hnd Hpt;
    [by apply elem_of_nil in Hpt|].
  rewrite !fmap_cons in *. apply NoDup_cons in Hnd as [Hq Hnd].
  rewrite filter_cons. cbn [fst].
  apply elem_of_cons in Hpt as [->|Hpt].
  - by rewrite decide_True.
  - rewrite decide_False; [by apply IH|].
    intros Heq. apply Hq. rewrite Heq. by apply list_elem_of_fmap_2.
Qed.

Lemma NoDup_fmap_filter {A B} (f : A → B) (P : A → Prop)
    `{!∀ x, Decision (P x)} (l : list A) :
  NoDup (f <$> l) → NoDup (f <$> filter P l).
Proof.
  induction l as [|x l IH]; [done|].
  rewrite fmap_cons. intros [Hx Hnd]%NoDup_cons. rewrite filter_cons.
  destruct (decide (P x)); [|by apply IH].
  rewrite fmap_cons. apply NoDup_cons. split; [|by apply IH].
  intros (y & Hy & [_ Hin]%list_elem_of_filter)%list_elem_of_fmap.
  apply Hx. rewrite Hy. by apply list_elem_of_fmap_2.
Qed.

Lemma lobby_participants_NoDup lobbyId db :
  NoDup (pt_id <$> participants db) →
  NoDup (pt_id <$> SELECT_participants_WHERE_lobby_ORDERED lobbyId db).
Proof.
  intros Hnd. unfold SELECT_participants_WHERE_lobby_ORDERED.
  rewrite js_sort_perm. by apply NoDup_fmap_filter.
Qed.

Lemma elem_of_lobby_participants lobbyId db pt :
  pt ∈ SELECT_participants_WHERE_lobby_ORDERED lobbyId db
  ↔ pt ∈ participants db ∧ lobby_id pt = lobbyId.
Proof.
  unfold SELECT_participants_WHERE_lobby_ORDERED.
  rewrite elem_of_js_sort, list_elem_of_filter. tauto.
Qed.

Lemma elem_of_lobby_predictions lobbyId db p :
  p ∈ SELECT_predictions_JOIN_lobby lobbyId db →
  p ∈ predictions db
  ∧ ∃ pt, pt ∈ participants db ∧ pt_id pt = participant_id p
          ∧ lobby_id pt = lobbyId.
Proof.
  unfold SELECT_predictions_JOIN_lobby.
  intros (q & Hq & Hin)%list_elem_of_bind.
  apply list_elem_of_bind in Hq as (pt & Hp & Hpt).
  apply list_elem_of_singleton in Hp as ->.
  apply list_elem_of_filter in Hpt as [[??] ?]. eauto.
Qed.

Lemma elem_of_sortEntries st entries e :
  e ∈ sortEntries st entries ↔ e ∈ entries.
Proof. unfold sortEntries. destruct st; apply elem_of_js_sort. Qed.

(** What [calculateLeaderboard] computes, before the final sort. *)
Lemma calculateLeaderboard_run lobbyId seasonId st db :
  NoDup (pt_id <$> participants db) →
  ∃ unsorted,
    calculateLeaderboard lobbyId seasonId st db
    = (Ok (sortEntries st unsorted), db)
    ∧ participantId <$> unsorted
      = pt_id <$> SELECT_participants_WHERE_lobby_ORDERED lobbyId db
    ∧ ∀ pt, pt ∈ participants db → lobby_id pt = lobbyId →
        ∃ e, e ∈ unsorted
             ∧ participantId e = pt_id pt
             ∧ name e = pt_name pt
             ∧ simpleScore e
               = Zsum (awardedSimple (SELECT_games_WHERE_season_ORDERED seasonId db)
                         <$> picksOf (pt_id pt) (SELECT_predictions_JOIN_lobby lobbyId db))
             ∧ weightedScore e
               = Zsum (awardedWeighted (SELECT_games_WHERE_season_ORDERED seasonId db)
                         <$> picksOf (pt_id pt) (SELECT_predictions_JOIN_lobby lobbyId db)).
Proof.
  intros Hnd.
  unfold calculateLeaderboard, getGamesBySeason, getPredictionsByLobby,
    getParticipantsByLobby.
  rewrite !bind_runQuery.
  set (games := SELECT_games_WHERE_season_ORDERED seasonId db).
  set (preds := SELECT_predictions_JOIN_lobby lobbyId db).
  set (pts := SELECT_participants_WHERE_lobby_ORDERED lobbyId db).
  pose proof (lobby_participants_NoDup lobbyId db Hnd) as Hpts. fold pts in Hpts.
  change (λ lb participant, map_set (pt_id participant)
            (mkEntry (pt_id participant) (pt_name participant) 0 0 0 0) lb)
    with (λ lb pt, map_set (pt_id pt) (freshEntry pt) lb).
  rewrite (initial_map_run pts []) by done. rewrite app_nil_l.
  set (lb0 := (λ pt, (pt_id pt, freshEntry pt)) <$> pts).
  destruct (score_loop_run games st preds lb0 db) as (lb' & Hrun & Hids & Hall).
  { apply Forall_forall. intros p Hp.
    apply elem_of_lobby_predictions in Hp as (_ & pt & Hpt & Hid & Hl).
    rewrite <- Hid. unfold lb0. rewrite map_get_initial; [by eexists|done|].
    by apply elem_of_lobby_participants. }
  rewrite bind_unfold, Hrun. exists (map_values lb'). split; [done|]. split.
  { rewrite Hids. unfold lb0, map_values. rewrite <- !list_fmap_compose.
    by apply list_fmap_ext. }
  intros pt Hpt Hl.
  destruct (Hall (pt_id pt) (freshEntry pt)) as (e' & Hget & Hi & Hn & Hs & Hw).
  { unfold lb0. apply map_get_initial; [done|]. by apply elem_of_lobby_participants. }
  exists e'. split; [by eapply map_get_Some_elem|].
  simpl in *. repeat split; try done; lia.
Qed.

Lemma Zsum_perm l k : l ≡ₚ k → Zsum l = Zsum k.
Proof. induction 1; simpl; lia. Qed.

Lemma filter_key_singleton {A} (f : A → Z) (l : list A) x :
  NoDup (f <$> l) → x ∈ l → filter (λ y, f y = f x) l = [x].
Proof.
  induction l as [|y l IH]; intros Hnd Hx; [by apply elem_of_nil in Hx|].
  rewrite fmap_cons in Hnd. apply NoDup_cons in Hnd as [Hy Hnd].
  rewrite filter_cons. apply elem_of_cons in Hx as [->|Hx].
  - rewrite decide_True by done. f_equal. apply filter_none.
    intros z Hz Heq. apply Hy. rewrite <- Heq. by apply list_elem_of_fmap_2.
  - rewrite decide_False; [by apply IH|].
    intros Heq. apply Hy. rewrite Heq. by apply list_elem_of_fmap_2.
Qed.

Lemma weight_by_round games :
  Zsum ((λ g, WEIGHTED_POINTS (round g)) <$> games)
  = 1 * Z.of_nat (gamesInRound wild_card games)
    + 2 * Z.of_nat (gamesInRound divisional games)
    + 3 * Z.of_nat (gamesInRound conference games)
    + 5 * Z.of_nat (gamesInRound super_bowl games).
Proof.
  unfold gamesInRound. induction games as [|g games IH]; [done|].
  rewrite fmap_cons, Zsum_cons, IH, !filter_cons.
  destruct (round g); simpl; lia.
Qed.

Lemma all_correct_weighted games picks :
  NoDup (id <$> games) →
  game_id <$> picks ≡ₚ id <$> games →
  Forall (λ p, earns games p = true) picks →
  Zsum (awardedWeighted games <$> picks)
  = Zsum ((λ g, WEIGHTED_POINTS (round g)) <$> games).
Proof.
  intros Hnd Hperm Hearn.
  transitivity (Zsum (weightOfGame games <$> (game_id <$> picks))).
  - rewrite <- list_fmap_compose. f_equal. apply list_fmap_ext.
    intros i p Hp. simpl. apply list_elem_of_lookup_2 in Hp.
    rewrite Forall_forall in Hearn. specialize (Hearn p Hp).
    unfold awardedWeighted, weightOfGame, targetGame in *. rewrite Hearn.
    done.
  - rewrite (Zsum_perm _ (weightOfGame games <$> (id <$> games)))
      by (by apply fmap_Permutation).
    rewrite <- list_fmap_compose. f_equal. apply list_fmap_ext.
    intros i g Hg. simpl. apply list_elem_of_lookup_2 in Hg.
    unfold weightOfGame. by rewrite (filter_key_singleton id games g).
Qed.

Ltac concrete_hyp :=
  first [ apply (bool_decide_unpack _); vm_compute; reflexivity
        | vm_compute; reflexivity ].

(** C8 (as amended) — For every game and prediction, the calculator
    awards points exactly when the game is completed and has a winner that
    is neither null nor the empty string and is the predicted team: 1 on
    the simple scale and the round's weight on the weighted scale; in every
    other case it awards 0.  A participant's totals are the sums of these
    awards over the lobby's predictions (pending, invalidated and missing
    games add 0).  With one correct pick on each game of a 6+4+2+1 season
    the weighted total is 1×6 + 2×4 + 3×2 + 5×1 = 25. *)
Theorem leaderboard_awards_points (lobbyId : string) (seasonId : Z)
    (scoringType : ScoringType) (db : DB) :
  NoDup (pt_id <$> participants db) →
  (∀ game p,
     (isCorrect (calculatePoints game p scoringType) = true
      ↔ completed game = true ∧ winner game ≠ None ∧ winner game ≠ Some ""
        ∧ winner game = Some (predicted_winner p))
     ∧ calculatePoints game p scoringType
       = if completed game
            && bool_decide (winner game ≠ None ∧ winner game ≠ Some ""
                            ∧ winner game = Some (predicted_winner p))
         then mkPoints 1 (WEIGHTED_POINTS (round game)) true
         else mkPoints 0 0 false)
  ∧ ∃ entries,
      calculateLeaderboard lobbyId seasonId scoringType db = (Ok entries, db)
      ∧ ∀ pt, pt ∈ participants db → lobby_id pt = lobbyId →
          ∃ e, e ∈ entries
               ∧ participantId e = pt_id pt
               ∧ simpleScore e
                 = Zsum (awardedSimple (SELECT_games_WHERE_season_ORDERED seasonId db)
                           <$> picksOf (pt_id pt)
                                 (SELECT_predictions_JOIN_lobby lobbyId db))
               ∧ weightedScore e
                 = Zsum (awardedWeighted (SELECT_games_WHERE_season_ORDERED seasonId db)
                           <$> picksOf (pt_id pt)
                                 (SELECT_predictions_JOIN_lobby lobbyId db))
               ∧ (NoDup (id <$> SELECT_games_WHERE_season_ORDERED seasonId db) →
                  game_id <$> picksOf (pt_id pt)
                                (SELECT_predictions_JOIN_lobby lobbyId db)
                    ≡ₚ id <$> SELECT_games_WHERE_season_ORDERED seasonId db →
                  Forall (λ p, earns (SELECT_games_WHERE_season_ORDERED seasonId db) p = true)
                         (picksOf (pt_id pt)
                            (SELECT_predictions_JOIN_lobby lobbyId db)) →
                  gamesInRound wild_card (SELECT_games_WHERE_season_ORDERED seasonId db) = 6%nat →
                  gamesInRound divisional (SELECT_games_WHERE_season_ORDERED seasonId db) = 4%nat →
                  gamesInRound conference (SELECT_games_WHERE_season_ORDERED seasonId db) = 2%nat →
                  gamesInRound super_bowl (SELECT_games_WHERE_season_ORDERED seasonId db) = 1%nat →
                  weightedScore e = 25).
Proof.
  intros Hnd. split.
  - intros game p. rewrite calculatePoints_spec. split; [|done].
    destruct (completed game); simpl.
    + case_bool_decide as Hw; split; try done. by intros [_ ?].
    + split; [done|]. by intros [? _].
  - destruct (calculateLeaderboard_run lobbyId seasonId scoringType db Hnd)
      as (unsorted & Hrun & _ & Hall).
    eexists. split; [exact Hrun|]. intros pt Hpt Hl.
    destruct (Hall pt Hpt Hl) as (e & He & Hi & _ & Hs & Hw).
    exists e. split; [by apply elem_of_sortEntries|].
    do 3 (split; [done|]).
    intros Hgames Hperm Hearn H6 H4 H2 H1.
    rewrite Hw, (all_correct_weighted _ _ Hgames Hperm Hearn), weight_by_round.
    rewrite H6, H4, H2, H1. done.
Qed.

Lemma leaderboard_awards_points_witness :
  ∃ e, e ∈ default [] (match (calculateLeaderboard "M" 1 weighted lobby2025).1 with
                       | Ok entries => Some entries
                       | Throw _ => None
                       end)
       ∧ participantId e = 3 ∧ weightedScore e = 25.
Proof.
  assert (Hnd : NoDup (pt_id <$> participants lobby2025)) by concrete_hyp.
  destruct (leaderboard_awards_points "M" 1 weighted lobby2025 Hnd)
    as (_ & entries & Hrun & Hall).
  destruct (Hall (mkParticipant 3 "M" "Cy" 300)) as (e & He & Hi & _ & _ & H25);
    [concrete_hyp|reflexivity|].
  exists e. rewrite Hrun. simpl. split; [done|]. split; [done|].
  apply H25; concrete_hyp.
Defined.

(** C8 (counterexample) — game 1 is completed and its winner is the empty
    string, which is not null; Ann's pick for that game is the empty string
    too, so the predicted winner equals the winner; yet the pick earns
    nothing and Ann's totals are 0. *)
Lemma empty_winner_earns_nothing :
  completed (gameOf 1 emptyWinner2025) = true
  ∧ winner (gameOf 1 emptyWinner2025) = Some ""
  ∧ winner (gameOf 1 emptyWinner2025) ≠ None
  ∧ predictions emptyWinner2025 = [mkPrediction 1 1 1 "" None]
  ∧ calculatePoints (gameOf 1 emptyWinner2025) (mkPrediction 1 1 1 "" None)
      weighted = mkPoints 0 0 false
  ∧ calculateLeaderboard "L" 1 weighted emptyWinner2025
    = (Ok [mkEntry 1 "Ann" 0 0 0 1], emptyWinner2025).
Proof.
  split; [vm_compute; reflexivity|].
  split; [vm_compute; reflexivity|].
  split; [vm_compute; discriminate|].
  split; [reflexivity|].
  split; vm_compute; reflexivity.
Qed.

Lemma StronglySorted_weaken {A} (R R' : A → A → Prop) l :
  (∀ a b, R a b → R' a b) → StronglySorted R l → StronglySorted R' l.
Proof.
  intros H. induction 1 as [|x l Hs IH Hx]; constructor; [done|].
  eapply Forall_impl; [exact Hx|]. intros y. apply H.
Qed.

Lemma sort_by_simpleScore entries :
  StronglySorted (λ a b, simpleScore b ≤ simpleScore a)
    (js_sort (λ a b, simpleScore b - simpleScore a) entries)
  ∧ ∀ v, filter (λ e, simpleScore e = v)
           (js_sort (λ a b, simpleScore b - simpleScore a) entries)
         = filter (λ e, simpleScore e = v) entries.
Proof.
  split.
  - eapply StronglySorted_weaken;
      [|apply (js_sort_sorted (λ e, - simpleScore e)); intros; simpl; lia].
    simpl. intros; lia.
  - intros v.
    pose proof (js_sort_stable (λ e, - simpleScore e)
                  (λ a b, simpleScore b - simpleScore a)
                  ltac:(intros; simpl; lia) (- v) entries) as H.
    erewrite (list_filter_iff _ (λ a, - simpleScore a = - v)) by (intros; lia).
    rewrite H. apply list_filter_iff. intros; lia.
Qed.

(** C9 (as amended) — Under the "both" policy [calculateLeaderboard]
    returns what it returns under "simple": every participant's entry
    carries both totals, and the entries are sorted by simple score alone,
    highest first; the weighted score plays no part in the order, entries
    with equal simple scores stay in the order in which the participants
    joined the lobby. *)
Theorem both_policy_sorts_by_simple_score (lobbyId : string) (seasonId : Z)
    (db : DB) :
  NoDup (pt_id <$> participants db) →
  calculateLeaderboard lobbyId seasonId both db
  = calculateLeaderboard lobbyId seasonId simple db
  ∧ ∃ unsorted entries,
      calculateLeaderboard lobbyId seasonId both db = (Ok entries, db)
      ∧ participantId <$> unsorted
        = pt_id <$> SELECT_participants_WHERE_lobby_ORDERED lobbyId db
      ∧ (∀ pt, pt ∈ participants db → lobby_id pt = lobbyId →
           ∃ e, e ∈ unsorted
                ∧ participantId e = pt_id pt
                ∧ simpleScore e
                  = Zsum (awardedSimple (SELECT_games_WHERE_season_ORDERED seasonId db)
                            <$> picksOf (pt_id pt)
                                  (SELECT_predictions_JOIN_lobby lobbyId db))
                ∧ weightedScore e
                  = Zsum (awardedWeighted (SELECT_games_WHERE_season_ORDERED seasonId db)
                            <$> picksOf (pt_id pt)
                                  (SELECT_predictions_JOIN_lobby lobbyId db)))
      ∧ entries ≡ₚ unsorted
      ∧ StronglySorted (λ a b, simpleScore b ≤ simpleScore a) entries
      ∧ ∀ v, filter (λ e, simpleScore e = v) entries
             = filter (λ e, simpleScore e = v) unsorted.
Proof.
  intros Hnd. split; [reflexivity|].
  destruct (calculateLeaderboard_run lobbyId seasonId both db Hnd)
    as (unsorted & Hrun & Hids & Hall).
  exists unsorted, (sortEntries both unsorted).
  split; [done|]. split; [done|]. split.
  { intros pt Hpt Hl. destruct (Hall pt Hpt Hl) as (e & ? & ? & ? & ? & ?).
    by exists e. }
  unfold sortEntries. split; [apply js_sort_perm|].
  apply sort_by_simpleScore.
Qed.

Lemma both_policy_sorts_by_simple_score_witness :
  calculateLeaderboard "L" 1 both lobby2025
  = calculateLeaderboard "L" 1 simple lobby2025.
Proof.
  apply (both_policy_sorts_by_simple_score "L" 1 lobby2025).
  concrete_hyp.
Defined.

(** C9 (counterexample) — Ann and Bob both have simple score 1; Bob's
    weighted score is 2 against Ann's 1, yet under "both" Ann is listed
    first. *)
Lemma both_policy_has_no_weighted_tiebreak :
  calculateLeaderboard "L" 1 both lobby2025
  = (Ok [mkEntry 1 "Ann" 1 1 1 1; mkEntry 2 "Bob" 1 2 1 1], lobby2025).
Proof. vm_compute. reflexivity. Qed.

(** ** The engine follows its plan *)

Lemma applyWrite_eq s w db :
  season_id (target w) = s →
  (if matchupChanged (target w) (newHome w) (newAway w) then
     set_games (fmap (clearStep (id (target w)) (newHome w) (newAway w)
                        (newSeedHome w) (newSeedAway w) s
                        (roundsAfter (round (target w))))) db
   else if negb (is_actual_matchup (target w)) then
     set_games (fmap (setStep (id (target w)) (newHome w) (newAway w)
                        (newSeedHome w) (newSeedAway w))) db
   else db)
  = applyWrite db w.
Proof.
  intros <-. unfold applyWrite, rowWrite.
  destruct (matchupChanged _ _ _); [done|].
  destruct (negb _); [done|].
  destruct db. unfold set_games. simpl. by rewrite list_fmap_id.
Qed.

Section follows.
Context (lo s : Z) (gs0 : list Game).
Context (Hnd : NoDup (id <$> gs0)).

Lemma follows_ret : follows lo s gs0 (mret tt) (Some []).
Proof. by intros db HI. Qed.

Lemma follows_seq m1 m2 p1 p2 :
  follows lo s gs0 m1 p1 → follows lo s gs0 m2 p2 →
  follows lo s gs0 (m1 ;; m2) (a ← p1; b ← p2; Some (a ++ b)).
Proof.
  intros H1 H2 db HI. destruct (H1 db HI) as [HI1 Hr1].
  rewrite bind_unfold. destruct p1 as [ws1|]; simpl.
  - rewrite Hr1 in *. simpl in HI1.
    destruct (H2 _ HI1) as [HI2 Hr2]. split; [done|].
    destruct p2 as [ws2|]; simpl; [|done].
    by rewrite Hr2, foldl_app.
  - destruct (m1 db) as [[[]|e] db1]; simpl in *; [done|]. by split.
Qed.

Lemma follows_deref {A} (v : option A) (k : A → M unit) (p : A → option (list Write)) :
  (∀ a, v = Some a → follows lo s gs0 (k a) (p a)) →
  follows lo s gs0 (deref v ≫= k) (a ← v; p a).
Proof.
  intros Hk db HI. destruct v as [a|].
  - rewrite bind_deref_Some. exact (Hk a eq_refl db HI).
  - rewrite bind_deref_None. by split.
Qed.

Lemma follows_updateDivisionalGame game h a sh sa :
  lo ≤ 1 → (∀ d, game = Some d → from_round s gs0 divisional d) →
  follows lo s gs0 (updateDivisionalGame game h a sh sa) (planWrite game h a sh sa).
Proof.
  intros Hlo Hg db HI.
  split; [by apply updateDivisionalGame_preserves|].
  destruct game as [d|]; [|done].
  destruct (Hg d eq_refl) as (Hd & Hs & Hr).
  rewrite (updateDivisionalGame_run lo s gs0 d) by done.
  pose proof (applyWrite_eq s (mkWrite d h a sh sa) db Hs) as E.
  simpl in E. rewrite Hr in E. f_equal. exact E.
Qed.

Lemma follows_updateConferenceGame game h a sh sa :
  lo ≤ 2 → (∀ d, game = Some d → from_round s gs0 conference d) →
  follows lo s gs0 (updateConferenceGame game h a sh sa) (planWrite game h a sh sa).
Proof.
  intros Hlo Hg db HI.
  split; [by apply updateConferenceGame_preserves|].
  destruct game as [d|]; [|done].
  destruct (Hg d eq_refl) as (Hd & Hs & Hr).
  rewrite (updateConferenceGame_run lo s gs0 d) by done.
  pose proof (applyWrite_eq s (mkWrite d h a sh sa) db Hs) as E.
  simpl in E. rewrite Hr in E. f_equal. exact E.
Qed.

Lemma follows_updateSuperBowlGame d h a sh sa :
  lo ≤ 3 → from_round s gs0 super_bowl d →
  follows lo s gs0 (updateSuperBowlGame d h a sh sa) (Some [mkWrite d h a sh sa]).
Proof.
  intros Hlo Hg db HI.
  split; [by apply updateSuperBowlGame_preserves|].
  destruct Hg as (Hd & Hs & Hr).
  rewrite (updateSuperBowlGame_run s d).
  pose proof (applyWrite_eq s (mkWrite d h a sh sa) db Hs) as E.
  simpl in E. rewrite Hr in E. f_equal. exact E.
Qed.

Lemma follows_reseedDivisional seeds c wcs divs slot :
  lo ≤ 1 → Forall (from_round s gs0 divisional) divs →
  follows lo s gs0 (reseedDivisional seeds c wcs divs slot)
                   (planDivisional seeds c wcs divs slot).
Proof.
  intros Hlo Hdivs. unfold reseedDivisional, planDivisional.
  destruct (forallb _ _); [|apply follows_ret].
  do 4 (apply follows_deref; intros ? _).
  apply follows_seq; apply follows_updateDivisionalGame; try done;
    intros d Hd; by eapply Forall_lookup in Hd.
Qed.

Lemma follows_reseedConference seeds divs confs slot :
  lo ≤ 2 → Forall (from_round s gs0 conference) confs →
  follows lo s gs0 (reseedConference seeds divs confs slot)
                   (planConference seeds divs confs slot).
Proof.
  intros Hlo Hconfs. unfold reseedConference, planConference.
  destruct (forallb _ _); [|apply follows_ret].
  do 2 (apply follows_deref; intros ? _).
  apply follows_updateConferenceGame; try done.
  intros d Hd; by eapply Forall_lookup in Hd.
Qed.

Lemma follows_reseedRounds games seeds :
  lo ≤ 1 → Forall (λ g, g ∈ gs0 ∧ season_id g = s) games →
  follows lo s gs0 (reseedRounds games seeds) (planRounds games seeds).
Proof.
  intros Hlo Hgames.
  pose proof (Forall_from_round s gs0 divisional _ Hgames) as Hdiv.
  pose proof (Forall_from_round s gs0 conference _ Hgames) as Hconf.
  pose proof (Forall_from_round s gs0 super_bowl _ Hgames) as Hsb.
  assert (follows lo s gs0 (reseedRounds games seeds)
            (a ← planDivisionalRound games seeds;
             b ← (x ← planConferenceRound games seeds;
                  y ← planSuperBowl games seeds; Some (x ++ y));
             Some (a ++ b))) as H.
  { unfold reseedRounds. apply follows_seq; [|apply follows_seq].
    - unfold planDivisionalRound.
      destruct (isRoundComplete _); [|apply follows_ret].
      apply follows_seq; by apply follows_reseedDivisional.
    - unfold planConferenceRound.
      destruct (isRoundComplete _); [|apply follows_ret].
      apply follows_seq; apply follows_reseedConference; try done; lia.
    - unfold planSuperBowl.
      destruct (isRoundComplete _); [|apply follows_ret].
      destruct (head _) as [sb|] eqn:Hhead; [|apply follows_ret].
      do 2 (apply follows_deref; intros ? _).
      apply follows_updateSuperBowlGame; [lia|].
      apply head_Some_elem_of in Hhead.
      by rewrite Forall_forall in Hsb; apply Hsb. }
  unfold planRounds.
  destruct (planDivisionalRound games seeds), (planConferenceRound games seeds),
    (planSuperBowl games seeds); exact H.
Qed.
End follows.

(** ** What a plan does to a row *)

Lemma foldl_applyWrite ws : ∀ db,
  foldl applyWrite db ws = set_games (fmap (rowPlan ws)) db.
Proof.
  induction ws as [|w ws IH]; intros db; simpl.
  - destruct db. unfold set_games. simpl. by rewrite list_fmap_id.
  - rewrite IH. unfold applyWrite. rewrite set_games_set_games.
    apply set_games_ext. simpl. by rewrite <- list_fmap_compose.
Qed.

Lemma rowWrite_slot w g : same_slot g (rowWrite w g).
Proof.
  unfold rowWrite. destruct (matchupChanged _ _ _); [apply clearStep_slot|].
  destruct (negb _); [apply setStep_slot|apply same_slot_refl].
Qed.

Lemma rowPlan_slot ws : ∀ g, same_slot g (rowPlan ws g).
Proof.
  induction ws as [|w ws IH]; intros g; [apply same_slot_refl|].
  simpl. eapply same_slot_trans; [apply rowWrite_slot|apply IH].
Qed.

Lemma rowWrite_other w g :
  id (target w) ≠ id g →
  teams (rowWrite w g) = teams g
  ∧ is_actual_matchup (rowWrite w g) = is_actual_matchup g.
Proof.
  intros Hne. unfold rowWrite.
  destruct (matchupChanged _ _ _); [by apply clearStep_other|].
  destruct (negb _); [|done].
  unfold setStep, WHERE_id. by rewrite (proj2 (Z.eqb_neq (id g) _)).
Qed.


Lemma rowWrite_target w g :
  id (target w) = id g → teams g = teams (target w) →
  is_actual_matchup g = is_actual_matchup (target w) →
  teams (rowWrite w g) = (newHome w, newAway w)
  ∧ is_actual_matchup (rowWrite w g) = true.
Proof.
  intros Hid Ht Ha. unfold rowWrite.
  destruct (matchupChanged _ _ _) eqn:Hm.
  - unfold clearStep, WHERE_id. rewrite <- Hid, Z.eqb_refl. by case_match.
  - apply matchupChanged_false in Hm.
    destruct (is_actual_matchup (target w)) eqn:Hact; simpl.
    + split; congruence.
    + unfold setStep, WHERE_id. by rewrite <- Hid, Z.eqb_refl.
Qed.


Lemma rowPlan_untargeted ws : ∀ g,
  (∀ w, w ∈ ws → id (target w) ≠ id g) →
  teams (rowPlan ws g) = teams g
  ∧ is_actual_matchup (rowPlan ws g) = is_actual_matchup g.
Proof.
  induction ws as [|w ws IH]; intros g Hws; [done|]. simpl.
  destruct (rowWrite_other w g) as [Ht Ha]; [apply Hws; left|].
  destruct (IH (rowWrite w g)) as [Ht' Ha'].
  { intros w' Hw'. destruct (rowWrite_slot w g) as (-> & _). apply Hws. by right. }
  split; congruence.
Qed.


(** After the plan, a targeted row shows the matchup written for it. *)
Lemma rowPlan_settles ws : ∀ g w,
  NoDup (id ∘ target <$> ws) → w ∈ ws →
  id (target w) = id g → teams g = teams (target w) →
  is_actual_matchup g = is_actual_matchup (target w) →
  teams (rowPlan ws g) = (newHome w, newAway w)
  ∧ is_actual_matchup (rowPlan ws g) = true.
Proof.
  induction ws as [|w0 ws IH]; intros g w Hnd Hw Hid Ht Ha;
    [by apply elem_of_nil in Hw|].
  rewrite fmap_cons in Hnd. apply NoDup_cons in Hnd as [Hw0 Hnd]. simpl.
  destruct (rowWrite_slot w0 g) as (Hid0 & _).
  apply elem_of_cons in Hw as [->|Hw].
  - destruct (rowWrite_target w0 g Hid Ht Ha) as [Ht1 Ha1].
    destruct (rowPlan_untargeted ws (rowWrite w0 g)) as [Ht2 Ha2].
    { intros w' Hw' Heq. apply Hw0. apply list_elem_of_fmap. exists w'.
      split; [|done]. simpl. congruence. }
    split; congruence.
  - assert (id (target w0) ≠ id g) as Hne.
    { intros Heq. apply Hw0. apply list_elem_of_fmap. exists w.
      split; [|done]. simpl. congruence. }
    destruct (rowWrite_other w0 g Hne) as [Ht1 Ha1].
    apply IH; try done; congruence.
Qed.


(** ** The targets of a plan *)

Lemma sublist_fmap {A B} (f : A → B) (l k : list A) :
  l `sublist_of` k → f <$> l `sublist_of` f <$> k.
Proof. induction 1; simpl; by constructor. Qed.

Lemma take_2_lookup {A} (l : list A) i a b :
  l !! i = Some a → l !! S i = Some b → take 2 (drop i l) = [a; b].
Proof.
  intros Ha Hb. rewrite <- (Nat.add_0_r i) in Ha.
  replace (S i) with (i + 1)%nat in Hb by lia.
  rewrite <- lookup_drop in Ha, Hb.
  destruct (drop i l) as [|x [|y k]]; by simplify_eq/=.
Qed.

Lemma take_1_lookup {A} (l : list A) i a :
  l !! i = Some a → take 1 (drop i l) = [a].
Proof.
  intros Ha. rewrite <- (Nat.add_0_r i) in Ha. rewrite <- lookup_drop in Ha.
  destruct (drop i l) as [|x k]; by simplify_eq/=.
Qed.

Lemma planWrite_Some game h a sh sa ws :
  planWrite game h a sh sa = Some ws →
  ∃ d, game = Some d ∧ ws = [mkWrite d h a sh sa].
Proof. destruct game as [d|]; [|done]. intros [= <-]. by exists d. Qed.

Lemma planDivisional_targets seeds c wcs divs slot ws :
  planDivisional seeds c wcs divs slot = Some ws →
  target <$> ws `sublist_of` take 2 (drop slot divs).
Proof.
  unfold planDivisional. destruct (forallb _ _).
  2:{ intros [= <-]. apply sublist_nil_l. }
  intros H.
  repeat match type of H with
         | (?v ≫= _) = Some _ =>
             destruct v eqn:?; simpl in H; [|discriminate]
         end.
  repeat match goal with
         | E : planWrite _ _ _ _ _ = Some _ |- _ =>
             apply planWrite_Some in E as (? & ? & ->)
         end.
  injection H as <-. simpl. by erewrite take_2_lookup.
Qed.

Lemma planConference_targets seeds divs confs slot ws :
  planConference seeds divs confs slot = Some ws →
  target <$> ws `sublist_of` take 1 (drop slot confs).
Proof.
  unfold planConference. destruct (forallb _ _).
  2:{ intros [= <-]. apply sublist_nil_l. }
  intros H.
  repeat match type of H with
         | (?v ≫= _) = Some _ =>
             destruct v eqn:?; simpl in H; [|discriminate]
         end.
  apply planWrite_Some in H as (? & ? & ->). simpl. by erewrite take_1_lookup.
Qed.

Lemma planDivisionalRound_targets games seeds ws :
  planDivisionalRound games seeds = Some ws →
  target <$> ws `sublist_of` filter (λ g, round g = divisional) games.
Proof.
  unfold planDivisionalRound. destruct (isRoundComplete _).
  2:{ intros [= <-]. apply sublist_nil_l. }
  intros H.
  destruct (planDivisional _ AFC _ _ _) as [a|] eqn:Ha; simpl in H; [|done].
  destruct (planDivisional _ NFC _ _ _) as [b|] eqn:Hb; simpl in H; [|done].
  injection H as <-. rewrite fmap_app.
  apply planDivisional_targets in Ha, Hb.
  etrans; [by apply sublist_app|].
  rewrite drop_0, take_take_drop. apply sublist_take.
Qed.

Lemma planConferenceRound_targets games seeds ws :
  planConferenceRound games seeds = Some ws →
  target <$> ws `sublist_of` filter (λ g, round g = conference) games.
Proof.
  unfold planConferenceRound. destruct (isRoundComplete _).
  2:{ intros [= <-]. apply sublist_nil_l. }
  intros H.
  destruct (planConference _ _ _ 0) as [a|] eqn:Ha; simpl in H; [|done].
  destruct (planConference _ _ _ 1) as [b|] eqn:Hb; simpl in H; [|done].
  injection H as <-. rewrite fmap_app.
  apply planConference_targets in Ha, Hb.
  etrans; [by apply sublist_app|].
  rewrite drop_0, take_take_drop. apply sublist_take.
Qed.

Lemma planSuperBowl_targets games seeds ws :
  planSuperBowl games seeds = Some ws →
  target <$> ws `sublist_of` filter (λ g, round g = super_bowl) games.
Proof.
  unfold planSuperBowl. destruct (isRoundComplete _).
  2:{ intros [= <-]. apply sublist_nil_l. }
  destruct (head _) as [sb|] eqn:Hsb.
  2:{ intros [= <-]. apply sublist_nil_l. }
  intros H.
  repeat match type of H with
         | (?v ≫= _) = Some _ =>
             destruct v eqn:?; simpl in H; [|discriminate]
         end.
  injection H as <-. simpl.
  destruct (filter _ games) as [|x l]; [done|]. injection Hsb as ->.
  apply sublist_skip, sublist_nil_l.
Qed.

Lemma planRounds_Some games seeds ws :
  planRounds games seeds = Some ws →
  ∃ p1 p2 p3,
    planDivisionalRound games seeds = Some p1
    ∧ planConferenceRound games seeds = Some p2
    ∧ planSuperBowl games seeds = Some p3
    ∧ ws = p1 ++ p2 ++ p3.
Proof.
  unfold planRounds. intros H.
  destruct (planDivisionalRound games seeds) as [p1|]; simpl in H; [|done].
  destruct (planConferenceRound games seeds) as [p2|]; simpl in H; [|done].
  destruct (planSuperBowl games seeds) as [p3|]; simpl in H; [|done].
  injection H as <-. by exists p1, p2, p3.
Qed.

Lemma planRounds_targets games seeds ws :
  planRounds games seeds = Some ws →
  target <$> ws `sublist_of`
    filter (λ g, round g = divisional) games
    ++ filter (λ g, round g = conference) games
    ++ filter (λ g, round g = super_bowl) games.
Proof.
  intros (p1 & p2 & p3 & H1 & H2 & H3 & ->)%planRounds_Some.
  rewrite !fmap_app.
  apply sublist_app; [by eapply planDivisionalRound_targets|].
  apply sublist_app;
    [by eapply planConferenceRound_targets|by eapply planSuperBowl_targets].
Qed.

Lemma later_rounds_NoDup games :
  NoDup (id <$> games) →
  NoDup (id <$> (filter (λ g, round g = divisional) games
                 ++ filter (λ g, round g = conference) games
                 ++ filter (λ g, round g = super_bowl) games)).
Proof.
  intros Hnd.
  assert (Hdisj : ∀ r1 r2 x, r1 ≠ r2 →
            x ∈ id <$> filter (λ g, round g = r1) games →
            x ∉ id <$> filter (λ g, round g = r2) games).
  { intros r1 r2 x Hr (g1 & -> & [H1 Hg1]%list_elem_of_filter)%list_elem_of_fmap
      (g2 & Heq & [H2 Hg2]%list_elem_of_filter)%list_elem_of_fmap.
    apply Hr. rewrite <- H1, <- H2. f_equal. by apply (pk_inj games). }
  rewrite !fmap_app. apply NoDup_app. split; [by apply NoDup_fmap_filter|].
  split.
  - intros x Hx [Hc|Hc]%elem_of_app.
    + exact (Hdisj divisional conference x ltac:(done) Hx Hc).
    + exact (Hdisj divisional super_bowl x ltac:(done) Hx Hc).
  - apply NoDup_app. split; [by apply NoDup_fmap_filter|].
    split; [|by apply NoDup_fmap_filter].
    intros x Hx Hc.
    exact (Hdisj conference super_bowl x ltac:(done) Hx Hc).
Qed.

Lemma planRounds_NoDup games seeds ws :
  NoDup (id <$> games) → planRounds games seeds = Some ws →
  NoDup (id ∘ target <$> ws).
Proof.
  intros Hnd Hplan. rewrite list_fmap_compose.
  eapply sublist_NoDup; [by apply later_rounds_NoDup|].
  apply sublist_fmap. by eapply planRounds_targets.
Qed.

Lemma planRounds_target games seeds ws w :
  planRounds games seeds = Some ws → w ∈ ws →
  target w ∈ games ∧ round (target w) ≠ wild_card.
Proof.
  intros Hplan Hw.
  assert (target w ∈ target <$> ws) as Hin by (by apply list_elem_of_fmap_2).
  eapply elem_of_sublist in Hin; [|by eapply planRounds_targets].
  rewrite !elem_of_app, !list_elem_of_filter in Hin.
  destruct Hin as [[Hr ?]|[[Hr ?]|[Hr ?]]]; by rewrite Hr.
Qed.

(** ** A run that returns *)

Lemma season_snapshot_NoDup s db :
  pk_unique db → NoDup (id <$> SELECT_games_WHERE_season_ORDERED s db).
Proof.
  intros Hpk. unfold SELECT_games_WHERE_season_ORDERED.
  rewrite js_sort_perm. by apply NoDup_fmap_filter.
Qed.

Lemma reseedPlayoffBracket_plan s db :
  pk_unique db →
  match planRounds (SELECT_games_WHERE_season_ORDERED s db)
                   (SELECT_seeds_WHERE_season_ORDERED s db) with
  | Some ws =>
      reseedPlayoffBracket s db = (Ok tt, set_games (fmap (rowPlan ws)) db)
  | None => (reseedPlayoffBracket s db).1 = Throw TypeError
  end.
Proof.
  intros Hpk. rewrite reseedPlayoffBracket_unfold.
  destruct (follows_reseedRounds 1 s (games db) Hpk
              (SELECT_games_WHERE_season_ORDERED s db)
              (SELECT_seeds_WHERE_season_ORDERED s db) ltac:(lia)
              ltac:(apply Forall_forall; intros g; by rewrite elem_of_season_snapshot)
              db (Inv_init 1 s (games db) db Hpk eq_refl)) as [_ H].
  destruct (planRounds _ _) as [ws|]; [|done].
  by rewrite H, foldl_applyWrite.
Qed.

Lemma reseedPlayoffBracket_returns s db db' :
  pk_unique db → reseedPlayoffBracket s db = (Ok tt, db') →
  ∃ ws, planRounds (SELECT_games_WHERE_season_ORDERED s db)
                   (SELECT_seeds_WHERE_season_ORDERED s db) = Some ws
        ∧ db' = set_games (fmap (rowPlan ws)) db.
Proof.
  intros Hpk Hrun. pose proof (reseedPlayoffBracket_plan s db Hpk) as H.
  destruct (planRounds _ _) as [ws|].
  - exists ws. split; [done|]. congruence.
  - rewrite Hrun in H. done.
Qed.

Lemma games_set_games f db : games (set_games f db) = f (games db).
Proof. done. Qed.






(** ** Divisional matchups from a complete wild-card round *)

Ltac filter_cond :=
  first
    [ congruence
    | by (unfold game_number_between;
          repeat match goal with H : game_number _ = _ |- _ => rewrite H end)
    | by (repeat match goal with
                 | H : game_number _ = _ |- _ => rewrite H
                 | H : round _ = _ |- _ => rewrite H
                 end; intuition (try discriminate; try lia)) ].

Ltac eval_filter :=
  repeat (rewrite filter_cons;
          first [ rewrite decide_True by filter_cond
                | rewrite decide_False by filter_cond ]);
  rewrite ?filter_nil.

Lemma sorted_three {A} (key : A → Z) (cmp : A → A → Z) (a b c : A) :
  (∀ x y, cmp x y = key x - key y) →
  ∃ x0 x1 x2,
    js_sort cmp [a; b; c] = [x0; x1; x2]
    ∧ [x0; x1; x2] ≡ₚ [a; b; c]
    ∧ key x0 ≤ key x1 ≤ key x2.
Proof.
  intros Hcmp.
  pose proof (js_sort_perm cmp [a; b; c]) as Hp.
  pose proof (js_sort_sorted key cmp Hcmp [a; b; c]) as Hs.
  pose proof (length_js_sort cmp [a; b; c]) as Hl.
  destruct (js_sort cmp [a; b; c]) as [|x0 [|x1 [|x2 [|]]]]; try done.
  exists x0, x1, x2. split; [done|]. split; [done|].
  apply StronglySorted_inv in Hs as [Hs H0].
  apply StronglySorted_inv in Hs as [_ H1].
  apply Forall_cons in H0 as [? _]. apply Forall_cons in H1 as [? _]. lia.
Qed.

Lemma sorted_two {A} (cmp : A → A → Z) (a b : A) :
  ∃ x0 x1, js_sort cmp [a; b] = [x0; x1].
Proof.
  pose proof (length_js_sort cmp [a; b]) as Hl.
  destruct (js_sort cmp [a; b]) as [|x0 [|x1 [|]]]; try done. by eexists _, _.
Qed.

Lemma chalk_ranks (r0 r1 r2 : Z) :
  [r0; r1; r2] ≡ₚ [2; 3; 4] → r0 ≤ r1 ≤ r2 → r0 = 2 ∧ r1 = 3 ∧ r2 = 4.
Proof.
  intros Hp Hle.
  assert (Hnd : NoDup [r0; r1; r2]).
  { rewrite Hp. apply (bool_decide_unpack _). reflexivity. }
  assert (Hin : ∀ r, r ∈ [r0; r1; r2] → r = 2 ∨ r = 3 ∨ r = 4).
  { intros r. rewrite Hp. rewrite !elem_of_cons, elem_of_nil. tauto. }
  pose proof (Hin r0 ltac:(left)). pose proof (Hin r1 ltac:(right; left)).
  pose proof (Hin r2 ltac:(do 2 right; left)).
  apply NoDup_cons in Hnd as [Hn0 Hnd]. apply NoDup_cons in Hnd as [Hn1 _].
  rewrite !not_elem_of_cons in Hn0, Hn1. lia.
Qed.

Lemma planDivisional_three seeds c w1 w2 w3 divs slot top d1 d2 :
  truthy (winner w1) = true → truthy (winner w2) = true →
  truthy (winner w3) = true →
  firstSeedOf seeds c = Some top →
  divs !! slot = Some d1 → divs !! S slot = Some d2 →
  ∃ best second worst,
    planDivisional seeds c [w1; w2; w3] divs slot
    = Some [mkWrite d1 (team_abbr top) worst (Some 1) (getSeedForTeam seeds worst);
            mkWrite d2 best second (getSeedForTeam seeds best)
                    (getSeedForTeam seeds second)]
    ∧ [best; second; worst]
      ≡ₚ [bang (winner w1); bang (winner w2); bang (winner w3)]
    ∧ rankOf seeds best ≤ rankOf seeds second ≤ rankOf seeds worst.
Proof.
  intros H1 H2 H3 Htop Hd1 Hd2. unfold planDivisional, winnersBySeed.
  cbn [forallb]. rewrite H1, H2, H3. cbn [andb]. rewrite Htop.
  rewrite !fmap_cons, fmap_nil.
  destruct (sorted_three (λ x : string * option Z, toNumber (x.2))
              (λ a b, toNumber (a.2) - toNumber (b.2))
              (bang (winner w1), getSeedForTeam seeds (bang (winner w1)))
              (bang (winner w2), getSeedForTeam seeds (bang (winner w2)))
              (bang (winner w3), getSeedForTeam seeds (bang (winner w3)))
              ltac:(done))
    as (x0 & x1 & x2 & -> & Hp & Hle).
  assert (Hall : ∀ x, x ∈ [x0; x1; x2] → x.2 = getSeedForTeam seeds (x.1)).
  { intros x. rewrite Hp. rewrite !elem_of_cons, elem_of_nil.
    intros [->|[->|[->|[]]]]; done. }
  pose proof (Hall x0 ltac:(left)) as E0.
  pose proof (Hall x1 ltac:(right; left)) as E1.
  pose proof (Hall x2 ltac:(do 2 right; left)) as E2.
  exists (x0.1), (x1.1), (x2.1).
  cbn [mbind option_bind lookup list_lookup]. rewrite Hd1, Hd2.
  cbn [planWrite mbind option_bind app]. rewrite E0, E1, E2.
  split; [done|]. split.
  - change [x0.1; x1.1; x2.1] with (fst <$> [x0; x1; x2]). by rewrite Hp.
  - unfold rankOf. by rewrite <- E0, <- E1, <- E2.
Qed.

Lemma planConference_is_Some seeds d1 d2 confs slot :
  is_Some (confs !! slot) →
  is_Some (planConference seeds [d1; d2] confs slot).
Proof.
  intros [c Hc]. unfold planConference, winnersBySeed.
  destruct (forallb _ _); [|done]. rewrite !fmap_cons, fmap_nil.
  destruct (sorted_two (λ a b : string * option Z, toNumber (a.2) - toNumber (b.2))
              (bang (winner d1), getSeedForTeam seeds (bang (winner d1)))
              (bang (winner d2), getSeedForTeam seeds (bang (winner d2))))
    as (x0 & x1 & ->).
  cbn [mbind option_bind lookup list_lookup]. rewrite Hc. done.
Qed.

(** The divisional round as the engine pairs it, by the rank its own
    lookup gives each winner. *)
Lemma divisional_pairing_by_rank (seasonId : Z) (db : DB)
    (afc1 nfc1 : PlayoffSeed) (d1 d2 d3 d4 : Game) :
  pk_unique db →
  standardBracket seasonId db →
  Forall (λ g, round g = wild_card →
                 completed g = true ∧ winner g ≠ None ∧ winner g ≠ Some "")
         (SELECT_games_WHERE_season_ORDERED seasonId db) →
  firstSeedOf (SELECT_seeds_WHERE_season_ORDERED seasonId db) AFC = Some afc1 →
  firstSeedOf (SELECT_seeds_WHERE_season_ORDERED seasonId db) NFC = Some nfc1 →
  Forall (λ d, d ∈ games (reseedPlayoffBracket seasonId db).2
               ∧ season_id d = seasonId ∧ round d = divisional)
         [d1; d2; d3; d4] →
  game_number <$> [d1; d2; d3; d4] = [1; 2; 3; 4] →
  divisionalPairing (SELECT_seeds_WHERE_season_ORDERED seasonId db)
    (wildCardWinners seasonId 1 3 db) (team_abbr afc1) d1 d2
  ∧ divisionalPairing (SELECT_seeds_WHERE_season_ORDERED seasonId db)
      (wildCardWinners seasonId 4 6 db) (team_abbr nfc1) d3 d4.
Proof.
  intros Hpk Hstd Hwc Hafc Hnfc Hds Hnum.
  set (seeds := SELECT_seeds_WHERE_season_ORDERED seasonId db) in *.
  unfold standardBracket in Hstd.
  pose proof (reseedPlayoffBracket_plan seasonId db Hpk) as Hrun.
  pose proof (season_snapshot_NoDup seasonId db Hpk) as HndS.
  assert (HinS : ∀ g, g ∈ SELECT_games_WHERE_season_ORDERED seasonId db →
                      g ∈ games db ∧ season_id g = seasonId)
    by (intros g; apply elem_of_season_snapshot).
  assert (HSin : ∀ g, g ∈ games db → season_id g = seasonId →
                      g ∈ SELECT_games_WHERE_season_ORDERED seasonId db)
    by (intros g ??; by apply elem_of_season_snapshot).
  unfold wildCardWinners. fold seeds in Hrun.
  destruct (SELECT_games_WHERE_season_ORDERED seasonId db)
    as [|c1 [|c2 [|e1 [|e2 [|e3 [|e4 [|sb [|w1 [|w2 [|w3 [|w4 [|w5 [|w6 [|]]]]]]]]]]]]]];
    try discriminate Hstd.
  injection Hstd as Hc1r Hc1n Hc2r Hc2n He1r He1n He2r He2n He3r He3n He4r He4n
    Hsbr Hsbn Hw1r Hw1n Hw2r Hw2n Hw3r Hw3n Hw4r Hw4n Hw5r Hw5n Hw6r Hw6n.
  set (S := [c1; c2; e1; e2; e3; e4; sb; w1; w2; w3; w4; w5; w6]) in *.
  assert (Hw : ∀ w, w ∈ [w1; w2; w3; w4; w5; w6] →
            completed w = true ∧ truthy (winner w) = true).
  { intros w Hin.
    assert (w ∈ S ∧ round w = wild_card) as [HwS Hwr].
    { rewrite !elem_of_cons, elem_of_nil in Hin. unfold S.
      rewrite !elem_of_cons. intuition (subst; tauto). }
    rewrite Forall_forall in Hwc.
    destruct (Hwc w HwS Hwr) as (Hc & Hn & Hne).
    split; [done|]. destruct (winner w) as [t|]; [|done].
    apply truthy_Some_nonempty. congruence. }
  destruct (Hw w1 ltac:(left)) as [Cw1 Tw1].
  destruct (Hw w2 ltac:(right; left)) as [Cw2 Tw2].
  destruct (Hw w3 ltac:(do 2 right; left)) as [Cw3 Tw3].
  destruct (Hw w4 ltac:(do 3 right; left)) as [Cw4 Tw4].
  destruct (Hw w5 ltac:(do 4 right; left)) as [Cw5 Tw5].
  destruct (Hw w6 ltac:(do 5 right; left)) as [Cw6 Tw6].
  destruct (planDivisional_three seeds AFC w1 w2 w3 [e1; e2; e3; e4] 0
              afc1 e1 e2 Tw1 Tw2 Tw3 Hafc eq_refl eq_refl)
    as (ba & sa & wa & Hpa & Hperma & Hlea).
  destruct (planDivisional_three seeds NFC w4 w5 w6 [e1; e2; e3; e4] 2
              nfc1 e3 e4 Tw4 Tw5 Tw6 Hnfc eq_refl eq_refl)
    as (bn & sn & wn & Hpn & Hpermn & Hlen).
  assert (Hp1 : planDivisionalRound S seeds
                = Some [mkWrite e1 (team_abbr afc1) wa (Some 1) (getSeedForTeam seeds wa);
                        mkWrite e2 ba sa (getSeedForTeam seeds ba) (getSeedForTeam seeds sa);
                        mkWrite e3 (team_abbr nfc1) wn (Some 1) (getSeedForTeam seeds wn);
                        mkWrite e4 bn sn (getSeedForTeam seeds bn) (getSeedForTeam seeds sn)]).
  { unfold planDivisionalRound, S. eval_filter.
    unfold isRoundComplete. cbn [forallb length].
    rewrite Cw1, Cw2, Cw3, Cw4, Cw5, Cw6, Tw1, Tw2, Tw3, Tw4, Tw5, Tw6.
    cbn [andb Z.ltb Z.of_nat Z.compare Pos.of_succ_nat Pos.succ].
    eval_filter. rewrite Hpa, Hpn. done. }
  assert (Hp2 : is_Some (planConferenceRound S seeds)).
  { unfold planConferenceRound, S. eval_filter.
    destruct (isRoundComplete _); [|done]. eval_filter.
    destruct (planConference_is_Some seeds e1 e2 [c1; c2] 0) as [a ->]; [done|].
    destruct (planConference_is_Some seeds e3 e4 [c1; c2] 1) as [b ->]; [done|].
    done. }
  assert (Hp3 : is_Some (planSuperBowl S seeds)).
  { unfold planSuperBowl, S. eval_filter.
    destruct (isRoundComplete _); done. }
  destruct Hp2 as [p2 Hp2], Hp3 as [p3 Hp3].
  set (W1 := mkWrite e1 (team_abbr afc1) wa (Some 1) (getSeedForTeam seeds wa)) in *.
  set (W2 := mkWrite e2 ba sa (getSeedForTeam seeds ba) (getSeedForTeam seeds sa)) in *.
  set (W3 := mkWrite e3 (team_abbr nfc1) wn (Some 1) (getSeedForTeam seeds wn)) in *.
  set (W4 := mkWrite e4 bn sn (getSeedForTeam seeds bn) (getSeedForTeam seeds sn)) in *.
  assert (Hplan : planRounds S seeds = Some ([W1; W2; W3; W4] ++ p2 ++ p3))
    by (unfold planRounds; by rewrite Hp1, Hp2, Hp3).
  rewrite Hplan in Hrun. rewrite Hrun in Hds. cbn [snd] in Hds.
  pose proof (planRounds_NoDup S seeds _ HndS Hplan) as Hnd.
  assert (Hslot : ∀ d k W, d ∈ [d1; d2; d3; d4] → game_number d = k →
            W ∈ [W1; W2; W3; W4] → game_number (target W) = k →
            teams d = (newHome W, newAway W) ∧ is_actual_matchup d = true).
  { intros d k W Hd Hk HW HWk.
    rewrite Forall_forall in Hds. destruct (Hds d Hd) as (Hin & Hs & Hr).
    rewrite games_set_games in Hin.
    apply list_elem_of_fmap in Hin as (x & -> & Hx).
    destruct (rowPlan_slot ([W1; W2; W3; W4] ++ p2 ++ p3) x)
      as (_ & Hxs & Hxr & Hxn & _).
    assert (HxS : x ∈ S) by (apply HSin; congruence).
    assert (x = target W) as ->.
    { rewrite Hxr in Hr. rewrite Hxn in Hk.
      unfold S in HxS. rewrite !elem_of_cons, elem_of_nil in HxS.
      rewrite !elem_of_cons, elem_of_nil in HW.
      destruct HW as [->|[->|[->|[->|[]]]]]; simpl in *;
        destruct HxS as [->|[->|[->|[->|[->|[->|[->|[->|[->|[->|[->|[->|[->|[]]]]]]]]]]]]]];
        try done; congruence. }
    apply rowPlan_settles; try done.
    apply elem_of_app. by left. }
  injection Hnum as N1 N2 N3 N4.
  destruct (Hslot d1 1 W1) as [T1 A1]; try done; [left|left|].
  destruct (Hslot d2 2 W2) as [T2 A2]; try done; [right; left|right; left|].
  destruct (Hslot d3 3 W3) as [T3 A3]; try done;
    [do 2 right; left|do 2 right; left|].
  destruct (Hslot d4 4 W4) as [T4 A4]; try done;
    [do 3 right; left|do 3 right; left|].
  split.
  - exists ba, sa, wa. unfold S. eval_filter. rewrite !fmap_cons, fmap_nil.
    do 6 (split; [done|]).
    intros Hchalk.
    assert (Hr : rankOf seeds <$> [ba; sa; wa] ≡ₚ [2; 3; 4])
      by (rewrite Hperma; exact Hchalk).
    destruct (chalk_ranks _ _ _ Hr Hlea) as (? & ? & ?). done.
  - exists bn, sn, wn. unfold S. eval_filter. rewrite !fmap_cons, fmap_nil.
    do 6 (split; [done|]).
    intros Hchalk.
    assert (Hr : rankOf seeds <$> [bn; sn; wn] ≡ₚ [2; 3; 4])
      by (rewrite Hpermn; exact Hchalk).
    destruct (chalk_ranks _ _ _ Hr Hlen) as (? & ? & ?). done.
Qed.


(** *** Ranks and seeds *)

Lemma key_inj {A K} (f : A → K) (l : list A) (x y : A) :
  NoDup (f <$> l) → x ∈ l → y ∈ l → f x = f y → x = y.
Proof.
  intros Hnd Hx Hy Hf.
  apply list_elem_of_lookup in Hx as [i Hi], Hy as [j Hj].
  assert (i = j) as ->.
  { eapply NoDup_lookup; [exact Hnd| |]; rewrite list_lookup_fmap.
    - by rewrite Hi.
    - rewrite Hj. simpl. by rewrite Hf. }
  congruence.
Qed.

Lemma head_filter_key {A K} `{EqDecision K} (f : A → K) (P : A → Prop)
    `{!∀ x, Decision (P x)} (l : list A) (x : A) :
  NoDup (f <$> l) → x ∈ l → P x → (∀ y, P y → f y = f x) →
  head (filter P l) = Some x.
Proof.
  intros Hnd Hx HP Hkey.
  assert (Hin : x ∈ filter P l) by (by apply list_elem_of_filter).
  destruct (filter P l) as [|y l'] eqn:Hf; [by apply elem_of_nil in Hin|].
  assert (Hy : y ∈ filter P l) by (rewrite Hf; left).
  apply list_elem_of_filter in Hy as [HPy Hy]. simpl. f_equal.
  apply (key_inj f l); try done. by apply Hkey.
Qed.

Lemma season_seeds_perm s db :
  SELECT_seeds_WHERE_season_ORDERED s db ≡ₚ seasonSeeds s db.
Proof. apply js_sort_perm. Qed.

Lemma elem_of_seedsOf s c db row :
  row ∈ seedsOf s c db
  ↔ row ∈ SELECT_seeds_WHERE_season_ORDERED s db ∧ conference_of row = c.
Proof.
  rewrite season_seeds_perm. unfold seedsOf, seasonSeeds.
  rewrite list_elem_of_filter. tauto.
Qed.

Section proper_seeds.
Context (s : Z) (db : DB) (Hproper : properSeeds s db).

Lemma proper_sorted :
  NoDup ((λ p, (conference_of p, seed p))
           <$> SELECT_seeds_WHERE_season_ORDERED s db)
  ∧ NoDup (team_abbr <$> SELECT_seeds_WHERE_season_ORDERED s db).
Proof.
  destruct Hproper as [Hk Ha]. by rewrite !season_seeds_perm.
Qed.

Lemma rankOf_seeded c team n :
  seededAs s db c team n →
  getSeedForTeam (SELECT_seeds_WHERE_season_ORDERED s db) team = Some n.
Proof.
  intros (row & Hrow & <- & <-). apply elem_of_seedsOf in Hrow as [Hin _].
  unfold getSeedForTeam.
  rewrite (head_filter_key team_abbr _ _ row); try done.
  apply proper_sorted.
Qed.

Lemma firstSeedOf_seeded c team :
  seededAs s db c team 1 →
  ∃ row, firstSeedOf (SELECT_seeds_WHERE_season_ORDERED s db) c = Some row
         ∧ team_abbr row = team.
Proof.
  intros (row & Hrow & Habbr & Hseed).
  apply elem_of_seedsOf in Hrow as [Hin Hc].
  exists row. split; [|done]. unfold firstSeedOf.
  apply (head_filter_key (λ p, (conference_of p, seed p))); try done.
  - apply proper_sorted.
  - intros y [-> ->]. by rewrite Hc, Hseed.
Qed.

Lemma seeded_team_unique c team team' n :
  seededAs s db c team n → seededAs s db c team' n → team = team'.
Proof.
  intros (row & Hrow & <- & <-) (row' & Hrow' & <- & Hseed).
  apply elem_of_seedsOf in Hrow as [Hin Hc], Hrow' as [Hin' Hc'].
  f_equal.
  apply (key_inj (λ p, (conference_of p, seed p))
           (SELECT_seeds_WHERE_season_ORDERED s db)); try done.
  - apply proper_sorted.
  - by rewrite Hc, Hc', Hseed.
Qed.

Lemma seeded_of_team c team :
  team ∈ conferenceTeams s db c →
  ∃ n, seededAs s db c team n
       ∧ rankOf (SELECT_seeds_WHERE_season_ORDERED s db) team = n.
Proof.
  intros (row & -> & Hrow)%list_elem_of_fmap. exists (seed row).
  assert (Hs : seededAs s db c (team_abbr row) (seed row)) by (by exists row).
  split; [done|]. unfold rankOf. by rewrite (rankOf_seeded c _ _ Hs).
Qed.

Lemma pairing_is_seeding c winners top slot1 slot2 :
  Forall (λ w, w ∈ conferenceTeams s db c) winners →
  divisionalPairing (SELECT_seeds_WHERE_season_ORDERED s db) winners top
    slot1 slot2 →
  divisionalSeeding s db c winners top slot1 slot2.
Proof.
  intros Hteams (best & second & worst & Hperm & Hle & T1 & A1 & T2 & A2 & _).
  set (seeds := SELECT_seeds_WHERE_season_ORDERED s db) in *.
  rewrite Forall_forall in Hteams.
  assert (Hin : ∀ w, w ∈ [best; second; worst] → w ∈ conferenceTeams s db c).
  { intros w Hw. apply Hteams. by rewrite <- Hperm. }
  destruct (seeded_of_team c best (Hin _ ltac:(left))) as (nb & Hb & Rb).
  destruct (seeded_of_team c second (Hin _ ltac:(right; left)))
    as (ns & Hs & Rs).
  destruct (seeded_of_team c worst (Hin _ ltac:(do 2 right; left)))
    as (nw & Hw & Rw).
  fold seeds in Rb, Rs, Rw. rewrite Rb, Rs, Rw in Hle.
  split.
  - exists best, second, worst, nb, ns, nw. done.
  - intros t2 t3 t4 H2 H3 H4 Hchalk.
    assert (Hr : [nb; ns; nw] ≡ₚ [2; 3; 4]).
    { assert (Hranks : rankOf seeds <$> [best; second; worst]
                       ≡ₚ rankOf seeds <$> [t2; t3; t4])
        by (by rewrite Hperm, Hchalk).
      rewrite !fmap_cons, !fmap_nil, Rb, Rs, Rw in Hranks.
      unfold rankOf, seeds in Hranks.
      by rewrite (rankOf_seeded c _ _ H2), (rankOf_seeded c _ _ H3),
        (rankOf_seeded c _ _ H4) in Hranks. }
    destruct (chalk_ranks _ _ _ Hr Hle) as (-> & -> & ->).
    rewrite T1, T2.
    by rewrite (seeded_team_unique c _ _ _ Hb H2),
      (seeded_team_unique c _ _ _ Hs H3), (seeded_team_unique c _ _ _ Hw H4).
Qed.
End proper_seeds.

(** C4 (as amended) — In a season whose thirteen games fill the standard
    slots, whose seeds form a proper table (one row per conference and
    seed, no abbreviation on two rows) and whose six wild-card games are
    all completed with a non-empty winner that is a seeded team of the
    game's conference, a run of the re-seeding engine leaves, for each
    conference, the conference's seed 1 at home against the worst-seeded
    of the conference's three wild-card winners in its first divisional
    slot, and the best-seeded winner at home against the second-best in its
    second slot — the AFC (wild-card games 1-3) in divisional games 1-2,
    the NFC (wild-card games 4-6) in divisional games 3-4; when the
    winners are the seeds 2, 3 and 4 this is #1 against #4 and #2 against
    #3. *)
Theorem divisional_matchups_after_wild_card (seasonId : Z) (db : DB)
    (topA topN : string) (d1 d2 d3 d4 : Game) :
  pk_unique db →
  standardBracket seasonId db →
  properSeeds seasonId db →
  seededAs seasonId db AFC topA 1 →
  seededAs seasonId db NFC topN 1 →
  Forall (λ g, round g = wild_card →
                 completed g = true ∧ winner g ≠ None ∧ winner g ≠ Some "")
         (SELECT_games_WHERE_season_ORDERED seasonId db) →
  Forall (λ w, w ∈ conferenceTeams seasonId db AFC)
         (wildCardWinners seasonId 1 3 db) →
  Forall (λ w, w ∈ conferenceTeams seasonId db NFC)
         (wildCardWinners seasonId 4 6 db) →
  Forall (λ d, d ∈ games (reseedPlayoffBracket seasonId db).2
               ∧ season_id d = seasonId ∧ round d = divisional)
         [d1; d2; d3; d4] →
  game_number <$> [d1; d2; d3; d4] = [1; 2; 3; 4] →
  divisionalSeeding seasonId db AFC (wildCardWinners seasonId 1 3 db) topA
    d1 d2
  ∧ divisionalSeeding seasonId db NFC (wildCardWinners seasonId 4 6 db) topN
      d3 d4.
Proof.
  intros Hpk Hstd Hproper HtopA HtopN Hwc HwA HwN Hds Hnum.
  destruct (firstSeedOf_seeded seasonId db Hproper AFC topA HtopA)
    as (afc1 & Hafc & <-).
  destruct (firstSeedOf_seeded seasonId db Hproper NFC topN HtopN)
    as (nfc1 & Hnfc & <-).
  destruct (divisional_pairing_by_rank seasonId db afc1 nfc1 d1 d2 d3 d4
              Hpk Hstd Hwc Hafc Hnfc Hds Hnum) as [HA HN].
  split; by apply pairing_is_seeding.
Qed.

Lemma divisional_matchups_after_wild_card_witness :
  divisionalSeeding 1 upset2025 AFC (wildCardWinners 1 1 3 upset2025) "KC"
    (gameOf 7 (exec (reseedPlayoffBracket 1) upset2025))
    (gameOf 8 (exec (reseedPlayoffBracket 1) upset2025))
  ∧ divisionalSeeding 1 upset2025 NFC (wildCardWinners 1 4 6 upset2025) "SF"
      (gameOf 9 (exec (reseedPlayoffBracket 1) upset2025))
      (gameOf 10 (exec (reseedPlayoffBracket 1) upset2025)).
Proof.
  apply (divisional_matchups_after_wild_card 1 upset2025 "KC" "SF").
  - concrete.
  - vm_compute. reflexivity.
  - split; apply (bool_decide_unpack _); vm_compute; reflexivity.
  - exists (mkPlayoffSeed 1 1 AFC 1 "KC"). split; [|done].
    apply (bool_decide_unpack _). vm_compute. reflexivity.
  - exists (mkPlayoffSeed 8 1 NFC 1 "SF"). split; [|done].
    apply (bool_decide_unpack _). vm_compute. reflexivity.
  - apply (bool_decide_unpack _). vm_compute. reflexivity.
  - apply (bool_decide_unpack _). vm_compute. reflexivity.
  - apply (bool_decide_unpack _). vm_compute. reflexivity.
  - apply (bool_decide_unpack _). vm_compute. reflexivity.
  - vm_compute. reflexivity.
Defined.

(** C4 (counterexample) — two seasons with the six wild-card games
    completed with non-null winners.  In the first the abbreviation "PIT"
    is seed 7 of the AFC and seed 2 of the NFC, and the NFC winners are its
    seeds 2, 3 and 4: the engine ranks "PIT" by the AFC row and sends it,
    not seed 4, to the NFC's seed 1, and pairs seeds 3 and 4.  In the second
    every winner is the empty string: the divisional round is left as it
    was generated. *)
Lemma wild_card_winners_misranked :
  (roundDecided 1 wild_card twinSeeds2025
   ∧ (λ p, (seed p, team_abbr p)) <$> take 4 (seedsOf 1 NFC twinSeeds2025)
     = [(1, "SF"); (2, "PIT"); (3, "DET"); (4, "TB")]
   ∧ wildCardWinners 1 4 6 twinSeeds2025 = ["PIT"; "DET"; "TB"]
   ∧ teams (gameOf 9 (exec (reseedPlayoffBracket 1) twinSeeds2025))
     = ("SF", "PIT")
   ∧ teams (gameOf 10 (exec (reseedPlayoffBracket 1) twinSeeds2025))
     = ("DET", "TB"))
  ∧ (Forall (λ g, round g = wild_card →
                    completed g = true ∧ winner g = Some "")
            (games emptyWinners2025)
     ∧ properSeeds 1 emptyWinners2025
     ∧ teams (gameOf 7 (exec (reseedPlayoffBracket 1) emptyWinners2025))
       = ("TBD", "TBD")
     ∧ teams (gameOf 9 (exec (reseedPlayoffBracket 1) emptyWinners2025))
       = ("TBD", "TBD")).
Proof.
  split.
  - split; [apply (bool_decide_unpack _); vm_compute; reflexivity|].
    repeat split; vm_compute; reflexivity.
  - split; [apply (bool_decide_unpack _); vm_compute; reflexivity|].
    split; [split; apply (bool_decide_unpack _); vm_compute; reflexivity|].
    split; vm_compute; reflexivity.
Qed.

(** ** Running the engine again *)

Lemma filter_fmap_commute {A} (f : A → A) (P : A → Prop)
    `{!∀ x, Decision (P x)} (l : list A) :
  (∀ x, P (f x) ↔ P x) → filter P (f <$> l) = f <$> filter P l.
Proof.
  intros HP. induction l as [|x l IH]; [done|].
  rewrite fmap_cons, !filter_cons, IH.
  destruct (HP x) as [H1 H2].
  destruct (decide (P (f x))), (decide (P x)); try done; tauto.
Qed.

Lemma season_snapshot_fmap s F db :
  (∀ g, same_slot g (F g)) →
  SELECT_games_WHERE_season_ORDERED s (set_games (fmap F) db)
  = F <$> SELECT_games_WHERE_season_ORDERED s db.
Proof.
  intros HF. unfold SELECT_games_WHERE_season_ORDERED.
  rewrite games_set_games.
  rewrite filter_fmap_commute.
  - apply js_sort_fmap. intros a b. unfold ORDER_BY_round_game_number.
    destruct (HF a) as (_ & _ & -> & -> & _).
    by destruct (HF b) as (_ & _ & -> & -> & _).
  - intros g. unfold WHERE_season. by destruct (HF g) as (_ & -> & _).
Qed.

Lemma settled_rowWrite w g : settled w → rowWrite w g = g.
Proof.
  intros [Ht Ha]. unfold rowWrite.
  rewrite (proj2 (matchupChanged_false _ _ _) Ht). by rewrite Ha.
Qed.

Lemma settled_rowPlan ws g : Forall settled ws → rowPlan ws g = g.
Proof.
  induction 1 as [|w ws Hw _ IH]; [done|]. simpl. by rewrite settled_rowWrite.
Qed.

Lemma settled_plan_is_identity ws db :
  Forall settled ws → set_games (fmap (rowPlan ws)) db = db.
Proof.
  intros Hs. destruct db as [gs ? ? ? ?]. unfold set_games. simpl. f_equal.
  rewrite <- (list_fmap_id gs) at 2. apply list_fmap_ext.
  intros i g _. by apply settled_rowPlan.
Qed.

(** Plans over refreshed rows. *)
Lemma planWrite_fmap F (game : option Game) h a sh sa :
  planWrite (F <$> game) h a sh sa
  = (λ ws : list Write, retarget F <$> ws) <$> planWrite game h a sh sa.
Proof. by destruct game. Qed.

Lemma planDivisional_fmap F seeds c wcs divs slot :
  planDivisional seeds c wcs (F <$> divs) slot
  = (λ ws : list Write, retarget F <$> ws)
    <$> planDivisional seeds c wcs divs slot.
Proof.
  unfold planDivisional. destruct (forallb _ _); [|done].
  destruct (firstSeedOf seeds c); [|done]. simpl.
  destruct (winnersBySeed seeds wcs !! 2%nat); [|done]. simpl.
  destruct (winnersBySeed seeds wcs !! 0%nat); [|done]. simpl.
  destruct (winnersBySeed seeds wcs !! 1%nat); [|done]. simpl.
  rewrite !list_lookup_fmap, !planWrite_fmap.
  destruct (planWrite (divs !! slot) _ _ _ _); [|done]. simpl.
  destruct (planWrite (divs !! S slot) _ _ _ _); [|done]. simpl.
  by rewrite fmap_app.
Qed.

Lemma winnersBySeed_fmap F seeds gs :
  Forall (λ g, result_kept g (F g)) gs →
  winnersBySeed seeds (F <$> gs) = winnersBySeed seeds gs
  ∧ forallb (λ g, truthy (winner g)) (F <$> gs)
    = forallb (λ g, truthy (winner g)) gs.
Proof.
  intros Hk. unfold winnersBySeed. rewrite <- list_fmap_compose.
  split.
  - f_equal. apply list_fmap_ext. intros i g Hg. simpl.
    apply list_elem_of_lookup_2 in Hg. rewrite Forall_forall in Hk.
    by destruct (Hk g Hg) as [-> _].
  - induction Hk as [|g gs [Hw _] _ IH]; [done|].
    rewrite fmap_cons. simpl. by rewrite Hw, IH.
Qed.

Lemma planConference_fmap F seeds divs confs slot :
  Forall (λ g, result_kept g (F g)) divs →
  planConference seeds (F <$> divs) (F <$> confs) slot
  = (λ ws : list Write, retarget F <$> ws)
    <$> planConference seeds divs confs slot.
Proof.
  intros Hk. unfold planConference.
  destruct (winnersBySeed_fmap F seeds divs Hk) as [-> ->].
  destruct (forallb _ _); [|done].
  destruct (winnersBySeed seeds divs !! 0%nat); [|done]. simpl.
  destruct (winnersBySeed seeds divs !! 1%nat); [|done]. simpl.
  by rewrite list_lookup_fmap, planWrite_fmap.
Qed.

Lemma isRoundComplete_fmap F gs :
  Forall (λ g, result_kept g (F g)) gs → isRoundComplete (F <$> gs) = isRoundComplete gs.
Proof.
  intros Hk. unfold isRoundComplete. rewrite length_fmap. f_equal.
  induction Hk as [|g l [Hw Hc] _ IH]; [done|].
  rewrite fmap_cons. simpl. by rewrite Hw, Hc, IH.
Qed.

(** A round that is complete after the run was not touched by it. *)
Lemma complete_round_kept F gs :
  (∀ g, g ∈ gs → result_kept g (F g) ∨ cleared (F g)) →
  isRoundComplete (F <$> gs) = true → Forall (λ g, result_kept g (F g)) gs.
Proof.
  intros Hrow Hcomplete. apply Forall_forall. intros g Hg.
  destruct (Hrow g Hg) as [?|[_ Hc]]; [done|].
  destruct (isRoundComplete_elem _ (F g) Hcomplete) as [Hc' _];
    [by apply list_elem_of_fmap_2|]. congruence.
Qed.

Lemma rowWrite_result w g : result_kept g (rowWrite w g) ∨ cleared (rowWrite w g).
Proof.
  unfold rowWrite, clearStep, setStep.
  repeat match goal with
         | |- context [if ?b then _ else _] => destruct b
         end; solve [by left | by right].
Qed.

Lemma rowPlan_result ws : ∀ g,
  result_kept g (rowPlan ws g) ∨ cleared (rowPlan ws g).
Proof.
  induction ws as [|w ws IH]; intros g; [by left|]. simpl.
  destruct (IH (rowWrite w g)) as [[Hw Hc]|?]; [|by right].
  destruct (rowWrite_result w g) as [[Hw' Hc']|[Hw' Hc']].
  - left. split; congruence.
  - right. split; congruence.
Qed.

Lemma rowWrite_wild_card w g :
  id (target w) ≠ id g → round g = wild_card → rowWrite w g = g.
Proof.
  intros Hne Hg. unfold rowWrite, clearStep, setStep, WHERE_id.
  rewrite (proj2 (Z.eqb_neq (id g) _)) by done. rewrite Hg.
  destruct (matchupChanged _ _ _); [|by destruct (negb _)].
  rewrite bool_decide_eq_false_2, andb_false_r; [done|].
  rewrite <- downstream_roundsAfter. unfold downstream.
  destruct (round (target w)); simpl; lia.
Qed.

Lemma rowPlan_wild_card ws : ∀ g,
  (∀ w, w ∈ ws → id (target w) ≠ id g) → round g = wild_card →
  rowPlan ws g = g.
Proof.
  induction ws as [|w ws IH]; intros g Hws Hg; [done|]. simpl.
  rewrite rowWrite_wild_card by (done || apply Hws; left).
  apply IH; [|done]. intros w' Hw'. apply Hws. by right.
Qed.

Lemma Forall_filter_of {A} (P Q : A → Prop) `{!∀ x, Decision (Q x)} (l : list A) :
  Forall P l → Forall P (filter Q l).
Proof.
  rewrite !Forall_forall. intros Hl x [_ Hx]%list_elem_of_filter. by apply Hl.
Qed.

Section rerun.
Variable F : Game → Game.
Variable S : list Game.
Variable seeds : list PlayoffSeed.
Hypothesis HF : ∀ g, same_slot g (F g).
Hypothesis Hwc : ∀ g, g ∈ S → round g = wild_card → F g = g.
Hypothesis Hres : ∀ g, result_kept g (F g) ∨ cleared (F g).

Lemma filter_round_again r :
  filter (λ g, round g = r) (F <$> S) = F <$> filter (λ g, round g = r) S.
Proof.
  apply filter_fmap_commute. intros g.
  by destruct (HF g) as (_ & _ & -> & _).
Qed.

Lemma filter_between_again lo hi (gs : list Game) :
  filter (λ g, game_number_between lo hi g = true) (F <$> gs)
  = F <$> filter (λ g, game_number_between lo hi g = true) gs.
Proof.
  apply filter_fmap_commute. intros g. unfold game_number_between.
  by destruct (HF g) as (_ & _ & _ & -> & _).
Qed.

Lemma wild_card_round_again :
  filter (λ g, round g = wild_card) (F <$> S)
  = filter (λ g, round g = wild_card) S.
Proof.
  rewrite filter_round_again.
  rewrite <- (list_fmap_id (filter _ S)) at 2. apply list_fmap_ext.
  intros i g Hg. apply list_elem_of_lookup_2, list_elem_of_filter in Hg as [Hr Hg].
  by apply Hwc.
Qed.

Lemma planDivisionalRound_again :
  planDivisionalRound (F <$> S) seeds
  = (λ ws : list Write, retarget F <$> ws) <$> planDivisionalRound S seeds.
Proof.
  unfold planDivisionalRound.
  rewrite wild_card_round_again, filter_round_again.
  destruct (isRoundComplete _); [|done].
  rewrite !planDivisional_fmap.
  destruct (planDivisional seeds AFC _ _ _); [|done]. simpl.
  destruct (planDivisional seeds NFC _ _ _); [|done]. simpl.
  by rewrite fmap_app.
Qed.

Lemma planConferenceRound_again p2 :
  planConferenceRound S seeds = Some p2 →
  ∃ ws, planConferenceRound (F <$> S) seeds = Some ws
        ∧ ws ⊆ retarget F <$> p2.
Proof.
  unfold planConferenceRound. rewrite !filter_round_again. intros Hp2.
  destruct (isRoundComplete (F <$> _)) eqn:Hcomplete;
    [|exists []; split; [done|apply list_subseteq_nil]].
  assert (Hk : Forall (λ g, result_kept g (F g))
                 (filter (λ g, round g = divisional) S))
    by (by apply complete_round_kept).
  rewrite isRoundComplete_fmap in Hcomplete by done. rewrite Hcomplete in Hp2.
  rewrite !filter_between_again.
  rewrite !planConference_fmap by (by apply Forall_filter_of).
  destruct (planConference seeds _ _ 0) as [a|]; [|done]. simpl in *.
  destruct (planConference seeds _ _ 1) as [b|]; [|done]. simpl in *.
  injection Hp2 as <-. eexists. split; [done|]. by rewrite fmap_app.
Qed.

Lemma planSuperBowl_again p3 :
  planSuperBowl S seeds = Some p3 →
  ∃ ws, planSuperBowl (F <$> S) seeds = Some ws ∧ ws ⊆ retarget F <$> p3.
Proof.
  unfold planSuperBowl. rewrite !filter_round_again. intros Hp3.
  destruct (isRoundComplete (F <$> _)) eqn:Hcomplete;
    [|exists []; split; [done|apply list_subseteq_nil]].
  assert (Hk : Forall (λ g, result_kept g (F g))
                 (filter (λ g, round g = conference) S))
    by (by apply complete_round_kept).
  rewrite isRoundComplete_fmap in Hcomplete by done. rewrite Hcomplete in Hp3.
  destruct (filter (λ g, round g = super_bowl) S) as [|sb ?];
    [exists []; split; [done|apply list_subseteq_nil]|].
  simpl in *. rewrite !list_lookup_fmap.
  destruct (filter (λ g, round g = conference) S !! 0%nat) as [afc|] eqn:Ha;
    [|done].
  destruct (filter (λ g, round g = conference) S !! 1%nat) as [nfc|] eqn:Hn;
    [|done].
  simpl in *. injection Hp3 as <-.
  rewrite Forall_forall in Hk.
  destruct (Hk afc) as [-> _]; [by eapply list_elem_of_lookup_2|].
  destruct (Hk nfc) as [-> _]; [by eapply list_elem_of_lookup_2|].
  eexists. split; [done|]. done.
Qed.

Lemma planRounds_again ws0 :
  planRounds S seeds = Some ws0 →
  ∃ ws, planRounds (F <$> S) seeds = Some ws ∧ ws ⊆ retarget F <$> ws0.
Proof.
  intros (p1 & p2 & p3 & H1 & H2 & H3 & ->)%planRounds_Some.
  destruct (planConferenceRound_again p2 H2) as (q2 & Hq2 & Hs2).
  destruct (planSuperBowl_again p3 H3) as (q3 & Hq3 & Hs3).
  unfold planRounds. rewrite planDivisionalRound_again, H1, Hq2, Hq3. simpl.
  eexists. split; [done|]. rewrite !fmap_app.
  intros w. rewrite !elem_of_app. intros [?|[?|?]]; auto.
Qed.
End rerun.

Lemma pk_unique_plan ws db :
  pk_unique db → pk_unique (set_games (fmap (rowPlan ws)) db).
Proof.
  unfold pk_unique. intros Hpk. rewrite games_set_games, <- list_fmap_compose.
  erewrite list_fmap_ext; [exact Hpk|].
  intros i g _. simpl. by destruct (rowPlan_slot ws g) as (-> & _).
Qed.

(** The state a run leaves is one the engine does not change. *)
Lemma reseedPlayoffBracket_idempotent s db db1 :
  pk_unique db →
  reseedPlayoffBracket s db = (Ok tt, db1) →
  reseedPlayoffBracket s db1 = (Ok tt, db1).
Proof.
  intros Hpk Hrun.
  destruct (reseedPlayoffBracket_returns s db db1 Hpk Hrun) as (ws0 & Hplan & ->).
  pose proof (season_snapshot_NoDup s db Hpk) as HndS.
  pose proof (planRounds_NoDup _ _ _ HndS Hplan) as Hnd.
  pose proof (reseedPlayoffBracket_plan s _ (pk_unique_plan ws0 db Hpk)) as H.
  rewrite season_snapshot_fmap in H by apply rowPlan_slot.
  change (SELECT_seeds_WHERE_season_ORDERED s (set_games _ db))
    with (SELECT_seeds_WHERE_season_ORDERED s db) in H.
  destruct (planRounds_again (rowPlan ws0)
              (SELECT_games_WHERE_season_ORDERED s db)
              (SELECT_seeds_WHERE_season_ORDERED s db)) with (ws0 := ws0)
    as (ws1 & Hws1 & Hsub); [apply rowPlan_slot| |apply rowPlan_result|done|].
  { intros g Hg Hr. apply rowPlan_wild_card; [|done].
    intros w Hw Hid.
    destruct (planRounds_target _ _ _ w Hplan Hw) as [Hin Hne].
    apply Hne. by rewrite (pk_inj _ (target w) g HndS Hin Hg Hid). }
  rewrite Hws1 in H. rewrite H. f_equal.
  apply settled_plan_is_identity, Forall_forall. intros w Hw.
  apply Hsub, list_elem_of_fmap in Hw as (w0 & -> & Hw0).
  unfold settled, retarget. simpl.
  by apply (rowPlan_settles ws0 (target w0) w0).
Qed.

(** A writer called with the pair its game already shows. *)
Lemma updateDivisionalGame_settled d h a sh sa db :
  teams d = (h, a) → is_actual_matchup d = true →
  updateDivisionalGame (Some d) h a sh sa db = (Ok tt, db).
Proof.
  intros Ht Ha. unfold updateDivisionalGame. rewrite bind_deref_Some.
  by rewrite (proj2 (matchupChanged_false _ _ _) Ht), Ha.
Qed.

Lemma updateConferenceGame_settled d h a sh sa db :
  teams d = (h, a) → is_actual_matchup d = true →
  updateConferenceGame (Some d) h a sh sa db = (Ok tt, db).
Proof.
  intros Ht Ha. unfold updateConferenceGame. rewrite bind_deref_Some.
  by rewrite (proj2 (matchupChanged_false _ _ _) Ht), Ha.
Qed.

Lemma updateSuperBowlGame_settled d h a sh sa db :
  teams d = (h, a) → is_actual_matchup d = true →
  updateSuperBowlGame d h a sh sa db = (Ok tt, db).
Proof.
  intros Ht Ha. unfold updateSuperBowlGame.
  by rewrite (proj2 (matchupChanged_false _ _ _) Ht), Ha.
Qed.

Lemma UPDATE_games_fixed set wh db :
  (∀ g, g ∈ games db → wh g = true → set g = g) → UPDATE_games set wh db = db.
Proof.
  intros Hfix. destruct db as [gs ? ? ? ?]. unfold UPDATE_games, set_games.
  simpl in *. f_equal. rewrite <- (list_fmap_id gs) at 2.
  apply list_fmap_ext. intros i g Hg. apply list_elem_of_lookup_2 in Hg.
  destruct (wh g) eqn:Hwh; [|done]. by apply Hfix.
Qed.

Lemma record_same_winner k w db g :
  pk_unique db → head (SELECT_games_WHERE_id k db) = Some g →
  winner g = Some w → completed g = true →
  UPDATE_games (SET_winner_completed w) (WHERE_id k) db = db.
Proof.
  intros Hpk Hg Hw Hc. destruct (head_by_id_Some _ _ _ Hg) as [Hin Hid].
  apply UPDATE_games_fixed. intros x Hx Hk. apply Z.eqb_eq in Hk.
  assert (x = g) as -> by (apply (pk_inj (games db)); try done; congruence).
  destruct g. simpl in *. by subst.
Qed.

(** C6 — Re-recording the winner an already-decided game shows changes
    nothing.  In the state [db1] that a winner-recording call of the season
    returned, (i) a matchup writer called with the home/away pair its game
    already shows, the matchup being the actual one, returns without
    changing the table, and (ii) recording again the winner [w] that a
    completed game of that season already shows returns and leaves the
    whole table as it was, so every downstream game keeps its winner and
    its completed flag. *)
Theorem rerecording_same_winner_is_noop (k0 k : Z) (w0 w : string)
    (db0 db1 : DB) (g0 g : Game) :
  pk_unique db0 →
  head (SELECT_games_WHERE_id k0 db0) = Some g0 →
  updateGameWinner k0 w0 db0 = (Ok tt, db1) →
  head (SELECT_games_WHERE_id k db1) = Some g →
  season_id g = season_id g0 →
  winner g = Some w → completed g = true →
  (∀ d h a sh sa, teams d = (h, a) → is_actual_matchup d = true →
     updateDivisionalGame (Some d) h a sh sa db1 = (Ok tt, db1)
     ∧ updateConferenceGame (Some d) h a sh sa db1 = (Ok tt, db1)
     ∧ updateSuperBowlGame d h a sh sa db1 = (Ok tt, db1))
  ∧ updateGameWinner k w db1 = (Ok tt, db1).
Proof.
  intros Hpk Hg0 Hrun Hg Hs Hw Hc.
  split.
  { intros d h a sh sa Ht Ha.
    by rewrite updateDivisionalGame_settled, updateConferenceGame_settled,
      updateSuperBowlGame_settled. }
  unfold updateGameWinner, getGameById in Hrun.
  rewrite bind_runQuery, Hg0, bind_runExec in Hrun.
  assert (Hpk0 : pk_unique
            (UPDATE_games (SET_winner_completed w0) (WHERE_id k0) db0))
    by (by apply pk_unique_UPDATE_games).
  assert (Hpk1 : pk_unique db1).
  { destruct (reseedPlayoffBracket_returns _ _ _ Hpk0 Hrun) as (ws & _ & ->).
    by apply pk_unique_plan. }
  unfold updateGameWinner, getGameById.
  rewrite bind_runQuery, Hg, bind_runExec.
  rewrite (record_same_winner k w db1 g) by done. rewrite Hs.
  exact (reseedPlayoffBracket_idempotent _ _ _ Hpk0 Hrun).
Qed.

Lemma rerecording_same_winner_is_noop_witness :
  updateGameWinner 13 "KC" (exec (updateGameWinner 1 "BUF") decided2025)
  = (Ok tt, exec (updateGameWinner 1 "BUF") decided2025).
Proof.
  refine (proj2 (rerecording_same_winner_is_noop 1 13 "BUF" "KC" decided2025
            (exec (updateGameWinner 1 "BUF") decided2025)
            (gameOf 1 decided2025)
            (gameOf 13 (exec (updateGameWinner 1 "BUF") decided2025))
            _ _ _ _ _ _ _)).
  - concrete.
  - vm_compute. reflexivity.
  - vm_compute. reflexivity.
  - vm_compute. reflexivity.
  - vm_compute. reflexivity.
  - vm_compute. reflexivity.
  - vm_compute. reflexivity.
Defined.

(** ** The engine run again, and what a run leaves alone *)

(** X1 — Running the re-seeding engine on the state a returning run left
    returns and changes nothing: one run reaches a state the engine is
    done with. *)
Theorem reseed_twice_is_once (seasonId : Z) (db db1 : DB) :
  pk_unique db →
  reseedPlayoffBracket seasonId db = (Ok tt, db1) →
  reseedPlayoffBracket seasonId db1 = (Ok tt, db1).
Proof. apply reseedPlayoffBracket_idempotent. Qed.

Lemma reseed_twice_is_once_witness :
  reseedPlayoffBracket 1 (exec (reseedPlayoffBracket 1) upset2025)
  = (Ok tt, exec (reseedPlayoffBracket 1) upset2025).
Proof.
  apply (reseed_twice_is_once 1 upset2025).
  - concrete.
  - vm_compute. reflexivity.
Defined.

Lemma same_tables_refl db : same_tables db db.
Proof. done. Qed.

Lemma same_tables_set_games db0 f db :
  same_tables db0 db → same_tables db0 (set_games f db).
Proof. done. Qed.

Lemma preserves_runExec_games db0 (stmt : DB → DB) :
  (∀ db, ∃ f, stmt db = set_games f db) →
  preserves (same_tables db0) (runExec stmt).
Proof.
  intros Hstmt db HI. unfold runExec. simpl.
  destruct (Hstmt db) as [f ->]. by apply same_tables_set_games.
Qed.

Lemma preserves_UPDATE_games db0 set wh :
  preserves (same_tables db0) (runExec (UPDATE_games set wh)).
Proof. apply preserves_runExec_games. intros db. by eexists. Qed.

Ltac frame_step :=
  first
    [ apply preserves_ret
    | apply preserves_deref
    | apply preserves_runQuery
    | apply preserves_UPDATE_games
    | apply preserves_runExec_games; intros ?; by eexists
    | apply preserves_bind; [|intros ?] ].

Lemma updateDivisionalGame_frame db0 game h a sh sa :
  preserves (same_tables db0) (updateDivisionalGame game h a sh sa).
Proof.
  unfold updateDivisionalGame. frame_step; [frame_step|].
  destruct (matchupChanged _ _ _); [|destruct (negb _)]; repeat frame_step.
Qed.

Lemma updateConferenceGame_frame db0 game h a sh sa :
  preserves (same_tables db0) (updateConferenceGame game h a sh sa).
Proof.
  unfold updateConferenceGame. frame_step; [frame_step|].
  destruct (matchupChanged _ _ _); [|destruct (negb _)]; repeat frame_step.
Qed.

Lemma updateSuperBowlGame_frame db0 game h a sh sa :
  preserves (same_tables db0) (updateSuperBowlGame game h a sh sa).
Proof.
  unfold updateSuperBowlGame.
  destruct (matchupChanged _ _ _); [|destruct (negb _)]; repeat frame_step.
Qed.

Lemma reseedRounds_frame db0 games seeds :
  preserves (same_tables db0) (reseedRounds games seeds).
Proof.
  unfold reseedRounds, reseedDivisional, reseedConference.
  repeat match goal with
         | |- preserves _ (updateDivisionalGame _ _ _ _ _) =>
             apply updateDivisionalGame_frame
         | |- preserves _ (updateConferenceGame _ _ _ _ _) =>
             apply updateConferenceGame_frame
         | |- preserves _ (updateSuperBowlGame _ _ _ _ _) =>
             apply updateSuperBowlGame_frame
         | |- preserves _ (if ?b then _ else _) => destruct b
         | |- preserves _ (match ?o with Some _ => _ | None => _ end) => destruct o
         | |- _ => frame_step
         end.
Qed.

Lemma Forall2_fmap_same {A} (P : A → A → Prop) (f : A → A) (l : list A) :
  (∀ x, x ∈ l → P x (f x)) → Forall2 P l (f <$> l).
Proof.
  induction l as [|x l IH]; intros H; [constructor|].
  rewrite fmap_cons. constructor; [apply H; left|].
  apply IH. intros y Hy. apply H. by right.
Qed.

Lemma Forall2_trans_elem {A} (P Q R : A → A → Prop) (l1 l2 l3 : list A) :
  (∀ x y z, P x y → Q y z → R x z) →
  Forall2 P l1 l2 → Forall2 Q l2 l3 → Forall2 R l1 l3.
Proof.
  intros H H12. revert l3. induction H12; intros l3 H23; inversion H23; subst;
    constructor; eauto.
Qed.

Lemma updateGameWinner_keeps (gameId : Z) (w : string) (db : DB) :
  pk_unique db →
  Forall2 (λ g g', same_slot g g'
                   ∧ match head (SELECT_games_WHERE_id gameId db) with
                     | Some game => season_id g ≠ season_id game → g' = g
                     | None => g' = g
                     end)
          (games db) (games (updateGameWinner gameId w db).2)
  ∧ same_tables db (updateGameWinner gameId w db).2
  ∧ (head (SELECT_games_WHERE_id gameId db) = None →
     (updateGameWinner gameId w db).2 = db).
Proof.
  intros Hpk. unfold updateGameWinner, getGameById. rewrite bind_runQuery.
  destruct (head (SELECT_games_WHERE_id gameId db)) as [game|] eqn:Hgame.
  2:{ split; [|done]. apply Forall2_diag_elem. intros g _.
      split; [apply same_slot_refl|done]. }
  rewrite bind_runExec.
  set (recorded := UPDATE_games (SET_winner_completed w) (WHERE_id gameId) db).
  destruct (head_by_id_Some _ _ _ Hgame) as [Hin Hid].
  assert (Hpk' : pk_unique recorded) by (by apply pk_unique_UPDATE_games).
  split; [|split; [|done]].
  - destruct (reseedPlayoffBracket_Inv 1 (season_id game) recorded Hpk')
      as [HF _]; [lia|by left|].
    eapply Forall2_trans_elem; [| |exact HF].
    2:{ unfold recorded. rewrite games_UPDATE_games.
        apply (Forall2_fmap_same
                 (λ g g', same_slot g g'
                          ∧ (season_id g ≠ season_id game → g' = g))).
        intros x Hx. unfold WHERE_id.
        destruct (Z.eqb_spec (id x) gameId) as [Heq|Hne].
        - split; [done|]. intros Hs. exfalso. apply Hs. f_equal.
          apply (pk_inj (games db)); try done. congruence.
        - split; [apply same_slot_refl|done]. }
    simpl. intros x y z [Hxy Hs] Hyz. split.
    + eapply same_slot_trans; [exact Hxy|apply Hyz].
    + intros Hne. rewrite <- (Hs Hne). apply Hyz.
      destruct Hxy as (_ & -> & _). done.
  - rewrite reseedPlayoffBracket_unfold. by apply reseedRounds_frame.
Qed.

(** X2 — [updateGameWinner], whether it returns or throws, adds and
    removes no game and leaves the id, season, round, game number and ESPN
    event id of every game as they were; without a game of the given id the
    whole database is unchanged, otherwise the games of every other season
    are; the games counter, the seeds, the participants and the predictions
    are never written. *)
Theorem updateGameWinner_frame (gameId : Z) (w : string) (db : DB) :
  pk_unique db →
  Forall2 (λ g g', same_slot g g'
                   ∧ match head (SELECT_games_WHERE_id gameId db) with
                     | Some game => season_id g ≠ season_id game → g' = g
                     | None => g' = g
                     end)
          (games db) (games (updateGameWinner gameId w db).2)
  ∧ same_tables db (updateGameWinner gameId w db).2
  ∧ (head (SELECT_games_WHERE_id gameId db) = None →
     (updateGameWinner gameId w db).2 = db).
Proof. apply updateGameWinner_keeps. Qed.

Lemma updateGameWinner_frame_witness :
  same_tables decided2025 (updateGameWinner 1 "PIT" decided2025).2.
Proof.
  refine (proj1 (proj2 (updateGameWinner_frame 1 "PIT" decided2025 _))).
  concrete.
Defined.

(** ** Conference and Super Bowl matchups in the states the engine leaves *)

Lemma fmap_fixed {A} (f : A → A) (l : list A) :
  f <$> l = l → ∀ x, x ∈ l → f x = x.
Proof.
  induction l as [|y l IH]; intros H x Hx; [by apply elem_of_nil in Hx|].
  rewrite fmap_cons in H. injection H as Hy Hl.
  apply elem_of_cons in Hx as [->|Hx]; [done|by apply IH].
Qed.

(** In a state the engine does not change, every write it plans is of the
    matchup its target already shows. *)
Lemma stable_plan_settled s db :
  pk_unique db → reseedPlayoffBracket s db = (Ok tt, db) →
  ∃ ws, planRounds (SELECT_games_WHERE_season_ORDERED s db)
                   (SELECT_seeds_WHERE_season_ORDERED s db) = Some ws
        ∧ Forall settled ws.
Proof.
  intros Hpk Hrun.
  destruct (reseedPlayoffBracket_returns s db db Hpk Hrun) as (ws & Hplan & Hdb).
  exists ws. split; [done|]. apply Forall_forall. intros w Hw.
  pose proof (season_snapshot_NoDup s db Hpk) as HndS.
  pose proof (planRounds_NoDup _ _ _ HndS Hplan) as Hnd.
  destruct (planRounds_target _ _ _ w Hplan Hw) as [Hin _].
  apply elem_of_season_snapshot in Hin as [Hin _].
  assert (Hfix : rowPlan ws (target w) = target w).
  { apply (fmap_fixed _ (games db)); [|done].
    rewrite Hdb at 2. by rewrite games_set_games. }
  destruct (rowPlan_settles ws (target w) w Hnd Hw eq_refl eq_refl eq_refl)
    as [Ht Ha].
  rewrite Hfix in Ht, Ha. done.
Qed.

Lemma planConference_two seeds d1 d2 confs slot c :
  truthy (winner d1) = true → truthy (winner d2) = true →
  confs !! slot = Some c →
  ∃ best second,
    planConference seeds [d1; d2] confs slot
    = Some [mkWrite c best second (getSeedForTeam seeds best)
                    (getSeedForTeam seeds second)]
    ∧ [best; second] ≡ₚ [bang (winner d1); bang (winner d2)]
    ∧ rankOf seeds best ≤ rankOf seeds second.
Proof.
  intros H1 H2 Hc. unfold planConference, winnersBySeed.
  cbn [forallb]. rewrite H1, H2. cbn [andb].
  rewrite !fmap_cons, fmap_nil.
  set (cmp := λ a b : string * option Z, toNumber (a.2) - toNumber (b.2)).
  set (x := (bang (winner d1), getSeedForTeam seeds (bang (winner d1)))).
  set (y := (bang (winner d2), getSeedForTeam seeds (bang (winner d2)))).
  pose proof (js_sort_perm cmp [x; y]) as Hp.
  pose proof (js_sort_sorted (λ x : string * option Z, toNumber (x.2)) cmp
                ltac:(done) [x; y]) as Hs.
  pose proof (length_js_sort cmp [x; y]) as Hl.
  destruct (js_sort cmp [x; y]) as [|x0 [|x1 [|]]]; try done.
  assert (Hall : ∀ z, z ∈ [x0; x1] → z.2 = getSeedForTeam seeds (z.1)).
  { intros z. rewrite Hp. rewrite !elem_of_cons, elem_of_nil.
    intros [->|[->|[]]]; done. }
  pose proof (Hall x0 ltac:(left)) as E0.
  pose proof (Hall x1 ltac:(right; left)) as E1.
  exists (x0.1), (x1.1).
  cbn [mbind option_bind lookup list_lookup]. rewrite Hc.
  cbn [planWrite mbind option_bind]. rewrite E0, E1.
  split; [done|]. split.
  - change [x0.1; x1.1] with (fst <$> [x0; x1]). by rewrite Hp.
  - unfold rankOf. rewrite <- E0, <- E1.
    apply StronglySorted_inv in Hs as [_ H0].
    by apply Forall_cons in H0 as [? _].
Qed.

Lemma decided_truthy (g : Game) :
  completed g = true ∧ winner g ≠ None ∧ winner g ≠ Some "" →
  completed g = true ∧ truthy (winner g) = true.
Proof.
  intros (Hc & Hn & Hne). split; [done|].
  destruct (winner g) as [t|]; [|done]. apply truthy_Some_nonempty. congruence.
Qed.

Section standard_state.
Context (s : Z) (db0 db : DB).
Context (Hpk0 : pk_unique db0).
Context (Hrun : reseedPlayoffBracket s db0 = (Ok tt, db)).

Lemma engine_state_pk : pk_unique db.
Proof.
  destruct (reseedPlayoffBracket_returns _ _ _ Hpk0 Hrun) as (ws & _ & ->).
  by apply pk_unique_plan.
Qed.

Lemma engine_state_settled :
  ∃ ws, planRounds (SELECT_games_WHERE_season_ORDERED s db)
                   (SELECT_seeds_WHERE_season_ORDERED s db) = Some ws
        ∧ Forall settled ws.
Proof.
  apply stable_plan_settled; [apply engine_state_pk|].
  by eapply reseedPlayoffBracket_idempotent.
Qed.
End standard_state.

(** The conference round as the engine pairs it, by the rank its own
    lookup gives each winner. *)
Lemma conference_pairing_by_rank (seasonId : Z) (db0 db : DB)
    (c1 c2 : Game) :
  pk_unique db0 →
  reseedPlayoffBracket seasonId db0 = (Ok tt, db) →
  standardBracket seasonId db →
  roundDecided seasonId divisional db →
  Forall (λ c, c ∈ games db ∧ season_id c = seasonId ∧ round c = conference)
         [c1; c2] →
  game_number <$> [c1; c2] = [1; 2] →
  conferencePairing (SELECT_seeds_WHERE_season_ORDERED seasonId db)
    (roundWinners seasonId divisional 1 2 db) c1
  ∧ conferencePairing (SELECT_seeds_WHERE_season_ORDERED seasonId db)
      (roundWinners seasonId divisional 3 4 db) c2.
Proof.
  intros Hpk0 Hrun Hstd Hdec Hcs Hnum.
  destruct (engine_state_settled seasonId db0 db Hpk0 Hrun)
    as (ws & Hplan & Hset).
  apply planRounds_Some in Hplan as (p1 & p2 & p3 & _ & Hp2 & _ & ->).
  apply Forall_app in Hset as [_ Hset]. apply Forall_app in Hset as [Hset _].
  set (seeds := SELECT_seeds_WHERE_season_ORDERED seasonId db) in *.
  assert (HSin : ∀ g, g ∈ games db → season_id g = seasonId →
                      g ∈ SELECT_games_WHERE_season_ORDERED seasonId db)
    by (intros g ??; by apply elem_of_season_snapshot).
  unfold standardBracket in Hstd. unfold roundWinners, roundDecided in *.
  destruct (SELECT_games_WHERE_season_ORDERED seasonId db)
    as [|k1 [|k2 [|e1 [|e2 [|e3 [|e4 [|sb [|w1 [|w2 [|w3 [|w4 [|w5 [|w6 [|]]]]]]]]]]]]]];
    try discriminate Hstd.
  injection Hstd as Hc1r Hc1n Hc2r Hc2n He1r He1n He2r He2n He3r He3n He4r He4n
    Hsbr Hsbn Hw1r Hw1n Hw2r Hw2n Hw3r Hw3n Hw4r Hw4n Hw5r Hw5n Hw6r Hw6n.
  set (S := [k1; k2; e1; e2; e3; e4; sb; w1; w2; w3; w4; w5; w6]) in *.
  assert (Hd : ∀ d, d ∈ [e1; e2; e3; e4] →
            completed d = true ∧ truthy (winner d) = true).
  { intros d Hin. apply decided_truthy.
    assert (d ∈ S ∧ round d = divisional) as [HdS Hdr].
    { rewrite !elem_of_cons, elem_of_nil in Hin. unfold S.
      rewrite !elem_of_cons. intuition (subst; tauto). }
    rewrite Forall_forall in Hdec. by apply Hdec. }
  destruct (Hd e1 ltac:(left)) as [C1 T1].
  destruct (Hd e2 ltac:(right; left)) as [C2 T2].
  destruct (Hd e3 ltac:(do 2 right; left)) as [C3 T3].
  destruct (Hd e4 ltac:(do 3 right; left)) as [C4 T4].
  destruct (planConference_two seeds e1 e2 [k1; k2] 0 k1 T1 T2 eq_refl)
    as (ba & sa & Hpa & Hperma & Hlea).
  destruct (planConference_two seeds e3 e4 [k1; k2] 1 k2 T3 T4 eq_refl)
    as (bn & sn & Hpn & Hpermn & Hlen).
  assert (Hp2' : planConferenceRound S seeds
                 = Some [mkWrite k1 ba sa (getSeedForTeam seeds ba)
                                 (getSeedForTeam seeds sa);
                         mkWrite k2 bn sn (getSeedForTeam seeds bn)
                                 (getSeedForTeam seeds sn)]).
  { unfold planConferenceRound, S. eval_filter.
    unfold isRoundComplete. cbn [forallb length].
    rewrite C1, C2, C3, C4, T1, T2, T3, T4.
    cbn [andb Z.ltb Z.of_nat Z.compare Pos.of_succ_nat Pos.succ].
    eval_filter. rewrite Hpa, Hpn. done. }
  rewrite Hp2' in Hp2. injection Hp2 as <-.
  apply Forall_cons in Hset as [[Tk1 Ak1] Hset].
  apply Forall_cons in Hset as [[Tk2 Ak2] _]. simpl in *.
  apply Forall_cons in Hcs as [(Hin1 & Hs1 & Hr1) Hcs].
  apply Forall_cons in Hcs as [(Hin2 & Hs2 & Hr2) _].
  injection Hnum as N1 N2.
  assert (c1 = k1) as ->.
  { pose proof (HSin c1 Hin1 Hs1) as HcS. unfold S in HcS.
    rewrite !elem_of_cons, elem_of_nil in HcS.
    destruct HcS as [->|[->|[->|[->|[->|[->|[->|[->|[->|[->|[->|[->|[->|[]]]]]]]]]]]]]];
      try done; congruence. }
  assert (c2 = k2) as ->.
  { pose proof (HSin c2 Hin2 Hs2) as HcS. unfold S in HcS.
    rewrite !elem_of_cons, elem_of_nil in HcS.
    destruct HcS as [->|[->|[->|[->|[->|[->|[->|[->|[->|[->|[->|[->|[->|[]]]]]]]]]]]]]];
      try done; congruence. }
  split.
  - exists ba, sa. unfold S. eval_filter. rewrite !fmap_cons, fmap_nil. done.
  - exists bn, sn. unfold S. eval_filter. rewrite !fmap_cons, fmap_nil. done.
Qed.


Lemma pairing_is_conferenceSeeding s db c winners slot :
  properSeeds s db →
  Forall (λ w, w ∈ conferenceTeams s db c) winners →
  conferencePairing (SELECT_seeds_WHERE_season_ORDERED s db) winners slot →
  conferenceSeeding s db c winners slot.
Proof.
  intros Hproper Hteams (best & second & Hperm & Hle & T & A).
  rewrite Forall_forall in Hteams.
  assert (Hin : ∀ w, w ∈ [best; second] → w ∈ conferenceTeams s db c).
  { intros w Hw. apply Hteams. by rewrite <- Hperm. }
  destruct (seeded_of_team s db Hproper c best (Hin _ ltac:(left)))
    as (nb & Hb & Rb).
  destruct (seeded_of_team s db Hproper c second (Hin _ ltac:(right; left)))
    as (ns & Hs & Rs).
  rewrite Rb, Rs in Hle. by exists best, second, nb, ns.
Qed.

(** X3 — In a state a returning run of the engine left, with the games of
    the season in the thirteen standard slots, the seeds a proper table
    (one row per conference and seed, no abbreviation on two rows) and the
    four divisional games completed with a non-empty winner that is a
    seeded team of the game's conference, conference game 1 has the
    better-seeded winner of divisional games 1-2 (AFC) at home against the
    other, conference game 2 the same for divisional games 3-4 (NFC), both
    marked as actual matchups. *)
Theorem conference_matchups_after_divisional (seasonId : Z) (db0 db : DB)
    (c1 c2 : Game) :
  pk_unique db0 →
  reseedPlayoffBracket seasonId db0 = (Ok tt, db) →
  standardBracket seasonId db →
  properSeeds seasonId db →
  roundDecided seasonId divisional db →
  Forall (λ w, w ∈ conferenceTeams seasonId db AFC)
         (roundWinners seasonId divisional 1 2 db) →
  Forall (λ w, w ∈ conferenceTeams seasonId db NFC)
         (roundWinners seasonId divisional 3 4 db) →
  Forall (λ c, c ∈ games db ∧ season_id c = seasonId ∧ round c = conference)
         [c1; c2] →
  game_number <$> [c1; c2] = [1; 2] →
  conferenceSeeding seasonId db AFC (roundWinners seasonId divisional 1 2 db)
    c1
  ∧ conferenceSeeding seasonId db NFC
      (roundWinners seasonId divisional 3 4 db) c2.
Proof.
  intros Hpk0 Hrun Hstd Hproper Hdec HwA HwN Hcs Hnum.
  destruct (conference_pairing_by_rank seasonId db0 db c1 c2
              Hpk0 Hrun Hstd Hdec Hcs Hnum) as [HA HN].
  split; by apply pairing_is_conferenceSeeding.
Qed.

Lemma conference_matchups_after_divisional_witness :
  conferenceSeeding 1 decided2025 AFC
    (roundWinners 1 divisional 1 2 decided2025) (gameOf 11 decided2025)
  ∧ conferenceSeeding 1 decided2025 NFC
      (roundWinners 1 divisional 3 4 decided2025) (gameOf 12 decided2025).
Proof.
  apply (conference_matchups_after_divisional 1
           (UPDATE_games (SET_winner_completed "KC") (WHERE_id 13)
              (recordAll (take 6 chalkLaterRounds) wildCardDone2025))
           decided2025).
  - concrete.
  - vm_compute. reflexivity.
  - vm_compute. reflexivity.
  - split; apply (bool_decide_unpack _); vm_compute; reflexivity.
  - apply (bool_decide_unpack _). vm_compute. reflexivity.
  - apply (bool_decide_unpack _). vm_compute. reflexivity.
  - apply (bool_decide_unpack _). vm_compute. reflexivity.
  - apply (bool_decide_unpack _). vm_compute. reflexivity.
  - vm_compute. reflexivity.
Defined.

(** X4 — In a state a returning run of the engine left, with the games of
    the season in the thirteen standard slots and both conference games
    completed with a winner, the Super Bowl has the winner of conference
    game 1 at home and the winner of conference game 2 away, marked as the
    actual matchup. *)
Theorem super_bowl_matchup_after_conference (seasonId : Z) (db0 db : DB)
    (c1 c2 sb : Game) :
  pk_unique db0 →
  reseedPlayoffBracket seasonId db0 = (Ok tt, db) →
  standardBracket seasonId db →
  roundDecided seasonId conference db →
  Forall (λ c, c ∈ games db ∧ season_id c = seasonId ∧ round c = conference)
         [c1; c2] →
  game_number <$> [c1; c2] = [1; 2] →
  sb ∈ games db → season_id sb = seasonId → round sb = super_bowl →
  winner c1 = Some (team_home sb) ∧ winner c2 = Some (team_away sb)
  ∧ is_actual_matchup sb = true.
Proof.
  intros Hpk0 Hrun Hstd Hdec Hcs Hnum Hsb Hsbs Hsbr'.
  destruct (engine_state_settled seasonId db0 db Hpk0 Hrun)
    as (ws & Hplan & Hset).
  apply planRounds_Some in Hplan as (p1 & p2 & p3 & _ & _ & Hp3 & ->).
  apply Forall_app in Hset as [_ Hset]. apply Forall_app in Hset as [_ Hset].
  set (seeds := SELECT_seeds_WHERE_season_ORDERED seasonId db) in *.
  assert (HSin : ∀ g, g ∈ games db → season_id g = seasonId →
                      g ∈ SELECT_games_WHERE_season_ORDERED seasonId db)
    by (intros g ??; by apply elem_of_season_snapshot).
  unfold standardBracket in Hstd. unfold roundDecided in *.
  destruct (SELECT_games_WHERE_season_ORDERED seasonId db)
    as [|k1 [|k2 [|e1 [|e2 [|e3 [|e4 [|sb' [|w1 [|w2 [|w3 [|w4 [|w5 [|w6 [|]]]]]]]]]]]]]];
    try discriminate Hstd.
  injection Hstd as Hc1r Hc1n Hc2r Hc2n He1r He1n He2r He2n He3r He3n He4r He4n
    Hsbr Hsbn Hw1r Hw1n Hw2r Hw2n Hw3r Hw3n Hw4r Hw4n Hw5r Hw5n Hw6r Hw6n.
  set (S := [k1; k2; e1; e2; e3; e4; sb'; w1; w2; w3; w4; w5; w6]) in *.
  assert (Hd : ∀ d, d ∈ [k1; k2] →
            completed d = true ∧ truthy (winner d) = true
            ∧ winner d = Some (bang (winner d))).
  { intros d Hin.
    assert (d ∈ S ∧ round d = conference) as [HdS Hdr].
    { rewrite !elem_of_cons, elem_of_nil in Hin. unfold S.
      rewrite !elem_of_cons. intuition (subst; tauto). }
    rewrite Forall_forall in Hdec. pose proof (Hdec d HdS Hdr) as Hd.
    destruct (decided_truthy d Hd) as [? ?]. do 2 (split; [done|]).
    destruct Hd as (_ & Hn & _). by destruct (winner d). }
  destruct (Hd k1 ltac:(left)) as (C1 & T1 & W1).
  destruct (Hd k2 ltac:(right; left)) as (C2 & T2 & W2).
  assert (Hp3' : planSuperBowl S seeds
                 = Some [mkWrite sb' (bang (winner k1)) (bang (winner k2))
                           (getSeedForTeam seeds (bang (winner k1)))
                           (getSeedForTeam seeds (bang (winner k2)))]).
  { unfold planSuperBowl, S. eval_filter.
    unfold isRoundComplete. cbn [forallb length].
    rewrite C1, C2, T1, T2. done. }
  rewrite Hp3' in Hp3. injection Hp3 as <-.
  apply Forall_cons in Hset as [[Tsb Asb] _]. simpl in *.
  apply Forall_cons in Hcs as [(Hin1 & Hs1 & Hr1) Hcs].
  apply Forall_cons in Hcs as [(Hin2 & Hs2 & Hr2) _].
  injection Hnum as N1 N2.
  assert (c1 = k1) as ->.
  { pose proof (HSin c1 Hin1 Hs1) as HcS. unfold S in HcS.
    rewrite !elem_of_cons, elem_of_nil in HcS.
    destruct HcS as [->|[->|[->|[->|[->|[->|[->|[->|[->|[->|[->|[->|[->|[]]]]]]]]]]]]]];
      try done; congruence. }
  assert (c2 = k2) as ->.
  { pose proof (HSin c2 Hin2 Hs2) as HcS. unfold S in HcS.
    rewrite !elem_of_cons, elem_of_nil in HcS.
    destruct HcS as [->|[->|[->|[->|[->|[->|[->|[->|[->|[->|[->|[->|[->|[]]]]]]]]]]]]]];
      try done; congruence. }
  assert (sb = sb') as ->.
  { pose proof (HSin sb Hsb Hsbs) as HcS. unfold S in HcS.
    rewrite !elem_of_cons, elem_of_nil in HcS.
    destruct HcS as [->|[->|[->|[->|[->|[->|[->|[->|[->|[->|[->|[->|[->|[]]]]]]]]]]]]]];
      try done; congruence. }
  unfold teams in Tsb. injection Tsb as -> ->. done.
Qed.

Lemma super_bowl_matchup_after_conference_witness :
  winner (gameOf 11 decided2025) = Some (team_home (gameOf 13 decided2025))
  ∧ winner (gameOf 12 decided2025) = Some (team_away (gameOf 13 decided2025))
  ∧ is_actual_matchup (gameOf 13 decided2025) = true.
Proof.
  apply (super_bowl_matchup_after_conference 1
           (UPDATE_games (SET_winner_completed "KC") (WHERE_id 13)
              (recordAll (take 6 chalkLaterRounds) wildCardDone2025))
           decided2025).
  - concrete.
  - vm_compute. reflexivity.
  - vm_compute. reflexivity.
  - apply (bool_decide_unpack _). vm_compute. reflexivity.
  - apply (bool_decide_unpack _). vm_compute. reflexivity.
  - vm_compute. reflexivity.
  - concrete.
  - vm_compute. reflexivity.
  - vm_compute. reflexivity.
Defined.

(** ** A recorded winner stays recorded *)

Lemma planConferenceRound_kept F (S : list Game) seeds :
  (∀ g, same_slot g (F g)) →
  Forall (λ g, result_kept g (F g)) (filter (λ g, round g = divisional) S) →
  planConferenceRound (F <$> S) seeds
  = (λ ws : list Write, retarget F <$> ws) <$> planConferenceRound S seeds.
Proof.
  intros HF Hk. unfold planConferenceRound.
  rewrite !(filter_round_again F S HF), isRoundComplete_fmap by done.
  destruct (isRoundComplete _); [|done].
  rewrite !(filter_between_again F HF).
  rewrite !planConference_fmap by (by apply Forall_filter_of).
  destruct (planConference seeds _ _ 0) as [a|]; [|done]. simpl.
  destruct (planConference seeds _ _ 1) as [b|]; [|done]. simpl.
  by rewrite fmap_app.
Qed.

Lemma planSuperBowl_kept F (S : list Game) seeds :
  (∀ g, same_slot g (F g)) →
  Forall (λ g, result_kept g (F g)) (filter (λ g, round g = conference) S) →
  planSuperBowl (F <$> S) seeds
  = (λ ws : list Write, retarget F <$> ws) <$> planSuperBowl S seeds.
Proof.
  intros HF Hk. unfold planSuperBowl.
  rewrite !(filter_round_again F S HF), isRoundComplete_fmap by done.
  destruct (isRoundComplete _); [|done].
  destruct (filter (λ g, round g = super_bowl) S) as [|sb ?]; [done|].
  simpl. rewrite !list_lookup_fmap.
  destruct (filter (λ g, round g = conference) S !! 0%nat) as [afc|] eqn:Ha;
    [|done].
  destruct (filter (λ g, round g = conference) S !! 1%nat) as [nfc|] eqn:Hn;
    [|done].
  simpl. rewrite Forall_forall in Hk.
  destruct (Hk afc) as [-> _]; [by eapply list_elem_of_lookup_2|].
  destruct (Hk nfc) as [-> _]; [by eapply list_elem_of_lookup_2|].
  done.
Qed.

Lemma rowWrite_upstream w g :
  id (target w) ≠ id g → depth (round g) ≤ depth (round (target w)) →
  rowWrite w g = g.
Proof.
  intros Hne Hd. unfold rowWrite, clearStep, setStep, WHERE_id.
  rewrite (proj2 (Z.eqb_neq (id g) _)) by done.
  destruct (matchupChanged _ _ _); [|by destruct (negb _)].
  rewrite bool_decide_eq_false_2, andb_false_r; [done|].
  rewrite <- downstream_roundsAfter. unfold downstream. lia.
Qed.

Lemma rowPlan_upstream ws : ∀ g,
  (∀ w, w ∈ ws → id (target w) ≠ id g
                 ∧ depth (round g) ≤ depth (round (target w))) →
  rowPlan ws g = g.
Proof.
  induction ws as [|w ws IH]; intros g Hws; [done|]. simpl.
  destruct (Hws w) as [Hne Hd]; [left|].
  rewrite rowWrite_upstream by done.
  apply IH. intros w' Hw'. apply Hws. by right.
Qed.

Lemma rowPlan_app ws1 ws2 g :
  rowPlan (ws1 ++ ws2) g = rowPlan ws2 (rowPlan ws1 g).
Proof. unfold rowPlan. by rewrite foldl_app. Qed.

Lemma recordRow_slot k w g : same_slot g (recordRow k w g).
Proof. unfold recordRow. by destruct (WHERE_id k g). Qed.

Lemma recordRow_other k w g : id g ≠ k → recordRow k w g = g.
Proof.
  intros Hne. unfold recordRow, WHERE_id.
  by rewrite (proj2 (Z.eqb_neq _ _) Hne).
Qed.

Lemma recordRow_settled k w x :
  settled x → settled (retarget (recordRow k w) x).
Proof.
  intros [Ht Ha]. unfold settled, retarget, recordRow. simpl.
  by destruct (WHERE_id k (target x)).
Qed.

Lemma UPDATE_games_recordRow k w db :
  UPDATE_games (SET_winner_completed w) (WHERE_id k) db
  = set_games (fmap (recordRow k w)) db.
Proof. done. Qed.

(** A phase of the plan leaves the row [g'] alone when all its writes are
    settled or all its targets sit in the round [r], which is not before
    the round of [g'] and is not its own. *)
Lemma phase_keeps_row (S' : list Game) q r g' :
  NoDup (id <$> S') → g' ∈ S' →
  target <$> q `sublist_of` filter (λ g, round g = r) S' →
  Forall settled q ∨ depth (round g') < depth r →
  rowPlan q g' = g'.
Proof.
  intros Hnd Hg' Hsub [Hset|Hlt]; [by apply settled_rowPlan|].
  apply rowPlan_upstream. intros w Hw.
  assert (Hin : target w ∈ filter (λ g, round g = r) S').
  { eapply elem_of_sublist; [|exact Hsub]. by apply list_elem_of_fmap_2. }
  apply list_elem_of_filter in Hin as [Hr Hin]. rewrite Hr.
  split; [|lia]. intros Hid.
  rewrite (pk_inj S' _ _ Hnd Hin Hg' Hid) in Hr. rewrite Hr in Hlt. lia.
Qed.

(** X5 — In a state a returning run of the engine left for the season,
    recording a winner for a game of that season in any round, when the
    call returns, leaves that game's row with winner = the recorded winner,
    completed = 1 and every other column (the matchup, the seeds, the
    actual-matchup flag) as it was: the engine run that follows the write
    does not undo it. *)
Theorem recorded_winner_stays (seasonId gameId : Z) (w : string)
    (db0 db db2 : DB) (g : Game) :
  pk_unique db0 →
  reseedPlayoffBracket seasonId db0 = (Ok tt, db) →
  head (SELECT_games_WHERE_id gameId db) = Some g →
  season_id g = seasonId →
  updateGameWinner gameId w db = (Ok tt, db2) →
  head (SELECT_games_WHERE_id gameId db2)
  = Some (mkGame (id g) (season_id g) (round g) (game_number g) (team_home g)
                 (team_away g) (seed_home g) (seed_away g) (Some w)
                 (espn_event_id g) true (is_actual_matchup g)).
Proof.
  intros Hpk0 Hrun0 Hg Hs Hrun.
  change (head (SELECT_games_WHERE_id gameId db2)
          = Some (SET_winner_completed w g)).
  pose proof (engine_state_pk _ _ _ Hpk0 Hrun0) as Hpk.
  destruct (engine_state_settled _ _ _ Hpk0 Hrun0) as (ws & Hplan & Hset).
  destruct (head_by_id_Some _ _ _ Hg) as [Hin Hid].
  unfold updateGameWinner, getGameById in Hrun.
  rewrite bind_runQuery, Hg, bind_runExec, Hs, UPDATE_games_recordRow in Hrun.
  set (F := recordRow gameId w) in *.
  assert (Hpk' : pk_unique (set_games (fmap F) db)).
  { change (pk_unique (UPDATE_games (SET_winner_completed w)
                         (WHERE_id gameId) db)).
    by apply pk_unique_UPDATE_games. }
  destruct (reseedPlayoffBracket_returns _ _ _ Hpk' Hrun) as (ws' & Hplan' & ->).
  rewrite season_snapshot_fmap in Hplan' by apply recordRow_slot.
  change (SELECT_seeds_WHERE_season_ORDERED seasonId (set_games _ db))
    with (SELECT_seeds_WHERE_season_ORDERED seasonId db) in Hplan'.
  set (S := SELECT_games_WHERE_season_ORDERED seasonId db) in *.
  set (seeds := SELECT_seeds_WHERE_season_ORDERED seasonId db) in *.
  pose proof (season_snapshot_NoDup seasonId db Hpk) as HndS. fold S in HndS.
  assert (HgS : g ∈ S) by (by apply elem_of_season_snapshot).
  assert (HFg : F g = SET_winner_completed w g).
  { unfold F, recordRow, WHERE_id. by rewrite Hid, Z.eqb_refl. }
  assert (Hother : ∀ x, x ∈ S → round x ≠ round g → F x = x).
  { intros x Hx Hr. apply recordRow_other. intros Hk. apply Hr. f_equal.
    apply (pk_inj S); try done. congruence. }
  assert (HndS' : NoDup (id <$> (F <$> S))).
  { rewrite <- list_fmap_compose. erewrite list_fmap_ext; [exact HndS|].
    intros i x _. simpl. unfold F.
    by destruct (recordRow_slot gameId w x) as (-> & _). }
  assert (HFgS : F g ∈ F <$> S) by (by apply list_elem_of_fmap_2).
  assert (Hdepth : depth (round (F g)) = depth (round g)).
  { unfold F. by destruct (recordRow_slot gameId w g) as (_ & _ & -> & _). }
  apply planRounds_Some in Hplan as (p1 & p2 & p3 & Hp1 & Hp2 & Hp3 & ->).
  apply Forall_app in Hset as [Hs1 Hset]. apply Forall_app in Hset as [Hs2 Hs3].
  apply planRounds_Some in Hplan' as (q1 & q2 & q3 & Hq1 & Hq2 & Hq3 & ->).
  assert (Hretarget : ∀ p, Forall settled p → Forall settled (retarget F <$> p)).
  { intros p Hp. apply Forall_fmap. eapply Forall_impl; [exact Hp|].
    intros x Hx. by apply recordRow_settled. }
  assert (Hkept : ∀ r, r ≠ round g →
            Forall (λ x, result_kept x (F x)) (filter (λ x, round x = r) S)).
  { intros r Hr. apply Forall_forall. intros x [Hxr Hx]%list_elem_of_filter.
    rewrite Hother; [done|done|congruence]. }
  assert (Hrow : rowPlan (q1 ++ q2 ++ q3) (F g) = F g).
  { rewrite !rowPlan_app.
    rewrite (phase_keeps_row (F <$> S) q1 divisional); try done;
      [|by eapply planDivisionalRound_targets|].
    2:{ destruct (decide (round g = wild_card)) as [Hwc|Hwc].
        - right. rewrite Hdepth, Hwc. simpl. lia.
        - left. rewrite (planDivisionalRound_again F S seeds) in Hq1;
            [|apply recordRow_slot|intros x Hx Hr; apply Hother; congruence].
          rewrite Hp1 in Hq1. injection Hq1 as <-. by apply Hretarget. }
    rewrite (phase_keeps_row (F <$> S) q2 conference); try done;
      [|by eapply planConferenceRound_targets|].
    2:{ destruct (decide (depth (round g) < 2)) as [Hlt|Hge].
        - right. by rewrite Hdepth.
        - left. rewrite (planConferenceRound_kept F S seeds) in Hq2;
            [|apply recordRow_slot|apply Hkept; intros E; rewrite <- E in Hge;
                                    simpl in Hge; lia].
          rewrite Hp2 in Hq2. injection Hq2 as <-. by apply Hretarget. }
    rewrite (phase_keeps_row (F <$> S) q3 super_bowl); try done;
      [by eapply planSuperBowl_targets|].
    destruct (decide (depth (round g) < 3)) as [Hlt|Hge].
    - right. by rewrite Hdepth.
    - left. rewrite (planSuperBowl_kept F S seeds) in Hq3;
        [|apply recordRow_slot|apply Hkept; intros E; rewrite <- E in Hge;
                                simpl in Hge; lia].
      rewrite Hp3 in Hq3. injection Hq3 as <-. by apply Hretarget. }
  rewrite <- HFg, <- Hrow.
  assert (Hk : gameId = id (rowPlan (q1 ++ q2 ++ q3) (F g))).
  { destruct (rowPlan_slot (q1 ++ q2 ++ q3) (F g)) as (-> & _).
    unfold F. destruct (recordRow_slot gameId w g) as (-> & _). done. }
  rewrite Hk at 1. apply head_by_id_of_elem; [by apply pk_unique_plan|].
  rewrite !games_set_games. do 2 apply list_elem_of_fmap_2. done.
Qed.

Lemma recorded_winner_stays_witness :
  head (SELECT_games_WHERE_id 8 (exec (updateGameWinner 8 "BAL") decided2025))
  = Some (mkGame 8 1 divisional 2 "BUF" "BAL" (Some 2) (Some 3) (Some "BAL")
                 None true true).
Proof.
  apply (recorded_winner_stays 1 8 "BAL"
           (UPDATE_games (SET_winner_completed "KC") (WHERE_id 13)
              (recordAll (take 6 chalkLaterRounds) wildCardDone2025))
           decided2025 _
           (mkGame 8 1 divisional 2 "BUF" "BAL" (Some 2) (Some 3) (Some "BUF")
                   None true true)).
  - concrete.
  - vm_compute. reflexivity.
  - vm_compute. reflexivity.
  - vm_compute. reflexivity.
  - vm_compute. reflexivity.
Defined.

(** ** What bracket generation creates *)

Lemma max_id_nonneg gs : 0 ≤ max_id gs.
Proof. induction gs; simpl; lia. Qed.

Lemma max_id_app gs1 gs2 : max_id (gs1 ++ gs2) = Z.max (max_id gs1) (max_id gs2).
Proof.
  pose proof (max_id_nonneg gs2).
  induction gs1 as [|g gs1 IH]; simpl; [lia|]. rewrite IH. lia.
Qed.

Lemma max_id_ge gs g : g ∈ gs → id g ≤ max_id gs.
Proof.
  induction gs as [|x gs IH]; intros Hg; [by apply elem_of_nil in Hg|].
  apply elem_of_cons in Hg as [->|Hg]; simpl; [lia|].
  specialize (IH Hg). lia.
Qed.

Lemma bind_runInsert_game_at {B} k s r n h a sh sa ac (f : Z → M B) gs seq P Q R :
  slot_taken s r n gs = false →
  Z.max seq (max_id gs) = k →
  (runInsert_game s r n h a sh sa ac ≫= f) (mkDB gs seq P Q R)
  = f (k + 1)
      (mkDB (gs ++ [mkGame (k + 1) s r n h a sh sa None None false ac])
            (k + 1) P Q R).
Proof. intros H <-. by apply bind_runInsert_game. Qed.

Lemma max_after_insert k gs seq g :
  Z.max seq (max_id gs) = k → id g = k + 1 →
  Z.max (k + 1) (max_id (gs ++ [g])) = k + 1.
Proof.
  intros Hk Hg. rewrite max_id_app. simpl. rewrite Hg.
  pose proof (max_id_nonneg gs). lia.
Qed.

Lemma generate_run s db :
  (7 ≤ length (sortedSeeds s AFC db))%nat →
  (7 ≤ length (sortedSeeds s NFC db))%nat →
  let base := filter (λ g, WHERE_season s g = false) (games db) in
  let k := Z.max (games_seq db) (max_id base) in
  generatePlayoffGamesFromSeeds s db
  = (Ok tt,
     mkDB (base ++ bracketRows k s (sortedSeeds s AFC db) (sortedSeeds s NFC db))
          (k + 13) (playoff_seeds db) (participants db) (predictions db)).
Proof.
  intros Ha Hn base k.
  unfold generatePlayoffGamesFromSeeds, getPlayoffSeeds. rewrite bind_runQuery.
  fold (sortedSeeds s AFC db). fold (sortedSeeds s NFC db).
  rewrite bool_decide_eq_false_2.
  2:{ intros Hz. apply nil_length_inv in Hz. unfold sortedSeeds in Ha.
      rewrite Hz in Ha. simpl in Ha. lia. }
  destruct (sortedSeeds s AFC db) as [|a0 [|a1 [|a2 [|a3 [|a4 [|a5 [|a6 resta]]]]]]];
    try (simpl in Ha; lia).
  destruct (sortedSeeds s NFC db) as [|n0 [|n1 [|n2 [|n3 [|n4 [|n5 [|n6 restn]]]]]]];
    try (simpl in Hn; lia).
  replace (_ || _) with false.
  2:{ symmetry. apply orb_false_iff. split; apply Z.ltb_ge;
        rewrite !length_cons; lia. }
  rewrite bind_runExec. unfold DELETE_games, set_games.
  unfold generateWildCardGames, generateDivisionalPlaceholders. simpl zip.
  cbn [forM_]. fold base.
  assert (Hbase : ∀ r n, slot_taken s r n base = false)
    by (intros; apply slot_taken_other_seasons).
  assert (Hk : Z.max (games_seq db) (max_id base) = k) by done.
  clearbody k.
  repeat first
    [ rewrite bind_assoc_at
    | rewrite bind_deref_Some
    | rewrite bind_ret
    | erewrite bind_runInsert_game_at;
        [ | rewrite <- ?app_assoc, ?slot_taken_app, ?Hbase;
            simpl; rewrite ?Z.eqb_refl; reflexivity
          | exact Hk ];
        match goal with
        | |- context [mkDB (?gs ++ [?g]) ?k1 _ _ _] =>
            let Hk' := fresh "Hk" in
            assert (Z.max k1 (max_id (gs ++ [g])) = k1) as Hk'
              by (eapply max_after_insert; [exact Hk|reflexivity]);
            clear Hk; rename Hk' into Hk
        end ].
  clear Hk. unfold mret, M_ret. f_equal.
  rewrite <- !app_assoc. simpl app. unfold bracketRows, wildCardRow, placeholderRow.
  simpl Z.add. rewrite <- !Z.add_assoc. simpl Z.add. done.
Qed.

Lemma StronglySorted_key_fmap {A} (key : A → Z) (l : list A) :
  StronglySorted (λ a b, key a ≤ key b) l → StronglySorted Z.le (key <$> l).
Proof.
  induction 1 as [|x l _ IH Hx]; [constructor|].
  rewrite fmap_cons. constructor; [done|]. by apply Forall_fmap.
Qed.

Lemma sortedSeeds_perm s c db : sortedSeeds s c db ≡ₚ seedsOf s c db.
Proof.
  unfold sortedSeeds, seedsOf, SELECT_seeds_WHERE_season_ORDERED.
  rewrite js_sort_perm. apply filter_Permutation, js_sort_perm.
Qed.

Lemma sortedSeeds_ranked s c db :
  seed <$> seedsOf s c db ≡ₚ [1; 2; 3; 4; 5; 6; 7] →
  seed <$> sortedSeeds s c db = [1; 2; 3; 4; 5; 6; 7].
Proof.
  intros Hp. apply (StronglySorted_unique Z.le).
  - apply StronglySorted_key_fmap. unfold sortedSeeds.
    apply js_sort_sorted. done.
  - repeat (constructor; [repeat constructor; lia|]). constructor.
  - by rewrite sortedSeeds_perm.
Qed.

Lemma base_other_seasons s (gs : list Game) g :
  g ∈ filter (λ g, WHERE_season s g = false) gs → season_id g ≠ s.
Proof.
  intros [Hs _]%list_elem_of_filter. unfold WHERE_season in Hs.
  by apply Z.eqb_neq in Hs.
Qed.

(** X6 — With the seeds 1 to 7 on record for each conference,
    [generatePlayoffGamesFromSeeds] returns, and the games of the season
    are then undecided, without ESPN event id, and: each wild-card game is
    the actual matchup of two seeds of one conference (the AFC in games
    1-3, the NFC in games 4-6), #2 hosting #7, #3 hosting #6 and #4 hosting
    #5 in game order; every later game is a TBD-against-TBD placeholder
    without seeds, not marked as an actual matchup. *)
Theorem generate_pairs_the_wild_card_round (seasonId : Z) (db : DB) (g : Game) :
  seed <$> seedsOf seasonId AFC db ≡ₚ [1; 2; 3; 4; 5; 6; 7] →
  seed <$> seedsOf seasonId NFC db ≡ₚ [1; 2; 3; 4; 5; 6; 7] →
  g ∈ games (generatePlayoffGamesFromSeeds seasonId db).2 →
  season_id g = seasonId →
  (generatePlayoffGamesFromSeeds seasonId db).1 = Ok tt
  ∧ espn_event_id g = None ∧ winner g = None ∧ completed g = false
  ∧ match round g with
    | wild_card =>
        ∃ h a,
          h ∈ seedsOf seasonId (wildCardConference g) db
          ∧ a ∈ seedsOf seasonId (wildCardConference g) db
          ∧ seed h = 2 + (game_number g - 1) `mod` 3
          ∧ seed h + seed a = 9
          ∧ team_home g = team_abbr h ∧ team_away g = team_abbr a
          ∧ seed_home g = Some (seed h) ∧ seed_away g = Some (seed a)
          ∧ is_actual_matchup g = true
    | _ =>
        team_home g = "TBD" ∧ team_away g = "TBD"
        ∧ seed_home g = None ∧ seed_away g = None
        ∧ is_actual_matchup g = false
    end.
Proof.
  intros Hafc Hnfc.
  pose proof (sortedSeeds_ranked _ _ _ Hafc) as Ha.
  pose proof (sortedSeeds_ranked _ _ _ Hnfc) as Hn.
  assert (Hina : ∀ p, p ∈ sortedSeeds seasonId AFC db → p ∈ seedsOf seasonId AFC db)
    by (intros p; by rewrite sortedSeeds_perm).
  assert (Hinn : ∀ p, p ∈ sortedSeeds seasonId NFC db → p ∈ seedsOf seasonId NFC db)
    by (intros p; by rewrite sortedSeeds_perm).
  rewrite generate_run
    by (rewrite <- (length_fmap seed), ?Ha, ?Hn; simpl; lia).
  cbn [fst snd games].
  destruct (sortedSeeds seasonId AFC db)
    as [|a0 [|a1 [|a2 [|a3 [|a4 [|a5 [|a6 [|]]]]]]]]; try discriminate Ha.
  destruct (sortedSeeds seasonId NFC db)
    as [|n0 [|n1 [|n2 [|n3 [|n4 [|n5 [|n6 [|]]]]]]]]; try discriminate Hn.
  injection Ha as ? ? ? ? ? ? ?. injection Hn as ? ? ? ? ? ? ?.
  intros Hg Hs. split; [done|].
  apply elem_of_app in Hg as [Hg|Hg]; [by apply base_other_seasons in Hg|].
  unfold bracketRows in Hg. rewrite !elem_of_cons, elem_of_nil in Hg.
  repeat destruct Hg as [->|Hg]; try done;
    (do 3 (split; [done|]));
    lazymatch goal with
    | |- context [wildCardRow _ _ _ ?x ?y] =>
        unfold wildCardConference; simpl; exists x, y;
        split; [first [apply Hina|apply Hinn]; rewrite !elem_of_cons; auto 10|];
        split; [first [apply Hina|apply Hinn]; rewrite !elem_of_cons; auto 10|];
        repeat split; simpl; try lia;
        match goal with
        | |- _ = ?rhs => let v := eval vm_compute in rhs in change rhs with v
        end; lia
    | |- _ => simpl; done
    end.
Qed.

Lemma generate_pairs_the_wild_card_round_witness :
  (generatePlayoffGamesFromSeeds 1 season2025).1 = Ok tt
  ∧ espn_event_id (gameOf 5 bracket2025) = None
  ∧ winner (gameOf 5 bracket2025) = None
  ∧ completed (gameOf 5 bracket2025) = false
  ∧ ∃ h a,
      h ∈ seedsOf 1 (wildCardConference (gameOf 5 bracket2025)) season2025
      ∧ a ∈ seedsOf 1 (wildCardConference (gameOf 5 bracket2025)) season2025
      ∧ seed h = 2 + (game_number (gameOf 5 bracket2025) - 1) `mod` 3
      ∧ seed h + seed a = 9
      ∧ team_home (gameOf 5 bracket2025) = team_abbr h
      ∧ team_away (gameOf 5 bracket2025) = team_abbr a
      ∧ seed_home (gameOf 5 bracket2025) = Some (seed h)
      ∧ seed_away (gameOf 5 bracket2025) = Some (seed a)
      ∧ is_actual_matchup (gameOf 5 bracket2025) = true.
Proof.
  apply (generate_pairs_the_wild_card_round 1 season2025 (gameOf 5 bracket2025)).
  - vm_compute. reflexivity.
  - vm_compute. reflexivity.
  - concrete.
  - vm_compute. reflexivity.
Defined.

Lemma isRoundComplete_open (l : list Game) :
  Forall (λ g, completed g = false) l → isRoundComplete l = false.
Proof.
  intros H. unfold isRoundComplete. destruct H as [|g l Hg _]; [done|].
  simpl. rewrite Hg. simpl. by rewrite ?andb_false_r.
Qed.

(** With no game of the snapshot completed, the engine has nothing to do. *)
Lemma reseedRounds_open games seeds db :
  Forall (λ g, completed g = false) games →
  reseedRounds games seeds db = (Ok tt, db).
Proof.
  intros H. unfold reseedRounds.
  rewrite !isRoundComplete_open by (by apply Forall_filter_of). done.
Qed.

Lemma filter_all {A} (P : A → Prop) `{!∀ x, Decision (P x)} (l : list A) :
  (∀ x, x ∈ l → P x) → filter P l = l.
Proof.
  induction l as [|x l IH]; intros Hall; [done|].
  rewrite filter_cons_True by (apply Hall; left).
  f_equal. apply IH. intros y Hy. apply Hall. by right.
Qed.

Lemma season_snapshot_app s gs1 gs2 seq P Q R :
  (∀ g, g ∈ gs1 → season_id g ≠ s) → (∀ g, g ∈ gs2 → season_id g = s) →
  SELECT_games_WHERE_season_ORDERED s (mkDB (gs1 ++ gs2) seq P Q R)
  = js_sort ORDER_BY_round_game_number gs2.
Proof.
  intros H1 H2. unfold SELECT_games_WHERE_season_ORDERED. simpl. f_equal.
  rewrite filter_app, filter_none.
  2:{ intros g Hg. unfold WHERE_season. rewrite (proj2 (Z.eqb_neq _ _) (H1 g Hg)).
      done. }
  simpl. apply filter_all.
  intros g Hg. unfold WHERE_season. by rewrite (H2 g Hg), Z.eqb_refl.
Qed.

(** X7 — When [generatePlayoffGamesFromSeeds] passes its seed check, the
    table it leaves has unique game ids again, the season's games fill
    exactly the thirteen slots of the standard bracket, and the re-seeding
    engine run on it returns without changing anything: a fresh bracket
    needs no re-seeding. *)
Theorem generated_bracket_is_standard (seasonId : Z) (db : DB) :
  pk_unique db →
  (7 ≤ length (seedsOf seasonId AFC db))%nat →
  (7 ≤ length (seedsOf seasonId NFC db))%nat →
  pk_unique (generatePlayoffGamesFromSeeds seasonId db).2
  ∧ standardBracket seasonId (generatePlayoffGamesFromSeeds seasonId db).2
  ∧ reseedPlayoffBracket seasonId (generatePlayoffGamesFromSeeds seasonId db).2
    = (Ok tt, (generatePlayoffGamesFromSeeds seasonId db).2).
Proof.
  intros Hpk Ha Hn.
  rewrite <- (Permutation_length (sortedSeeds_perm seasonId AFC db)) in Ha.
  rewrite <- (Permutation_length (sortedSeeds_perm seasonId NFC db)) in Hn.
  rewrite generate_run by done. cbn [snd].
  set (base := filter (λ g, WHERE_season seasonId g = false) (games db)).
  set (k := Z.max (games_seq db) (max_id base)).
  destruct (sortedSeeds seasonId AFC db)
    as [|a0 [|a1 [|a2 [|a3 [|a4 [|a5 [|a6 resta]]]]]]]; try (simpl in Ha; lia).
  destruct (sortedSeeds seasonId NFC db)
    as [|n0 [|n1 [|n2 [|n3 [|n4 [|n5 [|n6 restn]]]]]]]; try (simpl in Hn; lia).
  cbn [bracketRows].
  match goal with |- context [base ++ ?l] => set (rows := l) end.
  assert (Hbase : ∀ g, g ∈ base → season_id g ≠ seasonId)
    by (intros g; apply base_other_seasons).
  assert (Hrows : ∀ g, g ∈ rows → season_id g = seasonId ∧ completed g = false).
  { intros g Hg. unfold rows in Hg. rewrite !elem_of_cons, elem_of_nil in Hg.
    repeat destruct Hg as [->|Hg]; done. }
  assert (Hsnap : SELECT_games_WHERE_season_ORDERED seasonId
                    (mkDB (base ++ rows) (k + 13) (playoff_seeds db)
                          (participants db) (predictions db))
                  = js_sort ORDER_BY_round_game_number rows).
  { apply season_snapshot_app; [done|]. intros g Hg. by apply Hrows. }
  split; [|split].
  - unfold pk_unique. cbn [games]. rewrite fmap_app.
    apply NoDup_app. split; [|split].
    + unfold pk_unique in Hpk. unfold base.
      by apply NoDup_fmap_filter.
    + intros x [g [-> Hg]]%list_elem_of_fmap Hx.
      pose proof (max_id_ge base g Hg) as Hle.
      unfold rows in Hx. simpl in Hx. rewrite !elem_of_cons, elem_of_nil in Hx.
      lia.
    + unfold rows. simpl.
      repeat (apply NoDup_cons; split;
              [rewrite ?elem_of_cons, elem_of_nil; lia|]).
      constructor.
  - unfold standardBracket. rewrite Hsnap. reflexivity.
  - rewrite reseedPlayoffBracket_unfold. apply reseedRounds_open.
    rewrite Hsnap. apply Forall_forall. intros g Hg.
    apply elem_of_js_sort in Hg. by apply Hrows.
Qed.

Lemma generated_bracket_is_standard_witness :
  pk_unique bracket2025 ∧ standardBracket 1 bracket2025
  ∧ reseedPlayoffBracket 1 bracket2025 = (Ok tt, bracket2025).
Proof.
  apply (generated_bracket_is_standard 1 season2025).
  - concrete.
  - vm_compute. lia.
  - vm_compute. lia.
Defined.

(** ** Adding and deleting games *)

Lemma Math_max_ge (xs : list Z) x : x ∈ xs → x ≤ Math_max xs.
Proof.
  destruct xs as [|y xs]; [by intros ?%elem_of_nil|].
  simpl. revert x y. induction xs as [|z xs IH]; intros x y Hx; simpl.
  - apply elem_of_cons in Hx as [->|?%elem_of_nil]; [lia|done].
  - apply elem_of_cons in Hx as [->|Hx].
    + specialize (IH y y ltac:(left)). lia.
    + apply elem_of_cons in Hx as [->|Hx]; [lia|].
      specialize (IH x y ltac:(by right)). lia.
Qed.

Lemma Math_max_in (xs : list Z) : xs ≠ [] → Math_max xs ∈ xs.
Proof.
  destruct xs as [|y xs]; [done|]. intros _. simpl.
  induction xs as [|z xs IH]; simpl; [left|].
  destruct (Z.max_spec z (foldr Z.max y xs)) as [[_ E]|[_ E]]; rewrite E.
  - apply elem_of_cons in IH as [IH|IH]; [rewrite IH; left|by do 2 right].
  - right. left.
Qed.

Lemma slot_taken_false s r n gs :
  (∀ g, g ∈ gs → season_id g = s → round g = r → game_number g ≠ n) →
  slot_taken s r n gs = false.
Proof.
  intros H. unfold slot_taken. apply not_true_is_false. intros Hex.
  apply existsb_exists in Hex as (g & Hg & Hc).
  apply andb_true_iff in Hc as [Hc Hn]. apply andb_true_iff in Hc as [Hs Hr].
  apply Z.eqb_eq in Hs, Hn. apply bool_decide_eq_true in Hr.
  apply (H g); try done. by apply list_elem_of_In.
Qed.

Lemma head_by_id_fresh gs g k :
  id g = k → (∀ x, x ∈ gs → id x ≠ k) →
  head (filter (λ x, WHERE_id k x = true) (gs ++ [g])) = Some g.
Proof.
  intros <- H. rewrite filter_app, filter_none.
  - simpl. rewrite filter_cons_True; [done|]. unfold WHERE_id. apply Z.eqb_refl.
  - intros x Hx Hk. unfold WHERE_id in Hk. apply Z.eqb_eq in Hk. by apply (H x).
Qed.

(** X8 — [addGameToSeason] always returns: it appends one game whose id is
    larger than every stored id, in the given season and round, numbered
    one more than the largest game number of that round in the season (1 in
    an empty round), so the UNIQUE(season, round, number) check cannot
    fail; the game is undecided, a seed of 0 and an empty ESPN id are stored
    as NULL, is_actual_matchup defaults to true, and the row returned is
    the row stored.  No other row or table is touched. *)
Theorem addGameToSeason_appends (seasonId : Z) (r : Round) (teamHome teamAway : string)
    (espnEventId : option string) (seedHome seedAway : option Z)
    (isActualMatchup : option bool) (db : DB) :
  ∃ n k,
    let g := mkGame k seasonId r n teamHome teamAway
               (orNull_number seedHome) (orNull_number seedAway) None
               (orNull_string espnEventId) false (default true isActualMatchup) in
    addGameToSeason seasonId r teamHome teamAway espnEventId seedHome seedAway
      isActualMatchup db
    = (Ok (Some g),
       mkDB (games db ++ [g]) k (playoff_seeds db) (participants db)
            (predictions db))
    ∧ (∀ x, x ∈ games db → id x < k)
    ∧ (∀ x, x ∈ games db → season_id x = seasonId → round x = r →
         game_number x < n)
    ∧ (n = 1 ∨ ∃ x, x ∈ games db ∧ season_id x = seasonId ∧ round x = r
                     ∧ n = game_number x + 1).
Proof.
  unfold addGameToSeason, getGamesBySeason. rewrite bind_runQuery.
  set (inRound := filter (λ g, round g = r)
                    (SELECT_games_WHERE_season_ORDERED seasonId db)).
  set (n := (if 0 <? Z.of_nat (length inRound)
             then Math_max (game_number <$> inRound) else 0) + 1).
  set (k := Z.max (games_seq db) (max_id (games db)) + 1).
  exists n, k.
  assert (HinRound : ∀ x, x ∈ inRound ↔
            x ∈ games db ∧ season_id x = seasonId ∧ round x = r).
  { intros x. unfold inRound.
    rewrite list_elem_of_filter, elem_of_season_snapshot. tauto. }
  assert (Hlt : ∀ x, x ∈ games db → season_id x = seasonId → round x = r →
            game_number x < n).
  { intros x Hx Hs Hr.
    assert (Hin : x ∈ inRound) by (by apply HinRound).
    unfold n. destruct inRound as [|y l] eqn:E; [by apply elem_of_nil in Hin|].
    replace (0 <? _) with true by (symmetry; apply Z.ltb_lt; simpl; lia).
    pose proof (Math_max_ge (game_number <$> y :: l) (game_number x)
                  ltac:(by apply list_elem_of_fmap_2)). lia. }
  assert (Hfresh : ∀ x, x ∈ games db → id x < k).
  { intros x Hx. pose proof (max_id_ge _ _ Hx). unfold k. lia. }
  rewrite bind_unfold. unfold runInsert_game_espn.
  rewrite slot_taken_false.
  2:{ intros x Hx Hs Hr. specialize (Hlt x Hx Hs Hr). lia. }
  fold k. unfold getGameById, runQuery, SELECT_games_WHERE_id. cbn [games].
  set (g := mkGame k seasonId r n teamHome teamAway _ _ None _ false _).
  rewrite (head_by_id_fresh (games db) g k)
    by (done || intros x Hx; specialize (Hfresh x Hx); lia).
  split; [done|]. split; [done|]. split; [done|].
  unfold n. destruct (0 <? Z.of_nat (length inRound)) eqn:Hne; [|by left].
  right. apply Z.ltb_lt in Hne.
  pose proof (Math_max_in (game_number <$> inRound)) as Hmax.
  destruct (list_elem_of_fmap_1 _ _ _ (Hmax ltac:(by destruct inRound)))
    as (x & Hx & Hin).
  exists x. apply HinRound in Hin as (? & ? & ?). rewrite <- Hx. done.
Qed.

Lemma filter_ext_elem {A} (P Q : A → Prop) `{!∀ x, Decision (P x)}
    `{!∀ x, Decision (Q x)} (l : list A) :
  (∀ x, x ∈ l → P x ↔ Q x) → filter P l = filter Q l.
Proof.
  induction l as [|x l IH]; intros Hl; [done|].
  rewrite !filter_cons, IH by (intros y Hy; apply Hl; by right).
  destruct (Hl x ltac:(left)).
  destruct (decide (P x)), (decide (Q x)); tauto || done.
Qed.

Lemma games_DELETE_games wh db :
  games (DELETE_games wh db) = filter (λ g, wh g = false) (games db).
Proof. done. Qed.

Lemma DELETE_games_twice wh1 wh2 db :
  DELETE_games wh2 (DELETE_games wh1 db)
  = DELETE_games (λ g, wh1 g || wh2 g) db.
Proof.
  unfold DELETE_games, set_games. simpl. f_equal.
  induction (games db) as [|g gs IH]; [done|].
  rewrite !filter_cons.
  destruct (decide (wh1 g = false)) as [E1|E1].
  - rewrite filter_cons, E1. simpl.
    destruct (decide (wh2 g = false)); by rewrite IH.
  - apply not_false_is_true in E1. rewrite E1. simpl.
    rewrite ?decide_False by done. exact IH.
Qed.

Lemma DELETE_games_ext wh1 wh2 db :
  (∀ g, wh1 g = wh2 g) → DELETE_games wh1 db = DELETE_games wh2 db.
Proof.
  intros H. unfold DELETE_games, set_games. f_equal.
  apply list_filter_iff. intros g. by rewrite H.
Qed.

Lemma DELETE_games_none db : DELETE_games (λ _, false) db = db.
Proof.
  unfold DELETE_games, set_games. destruct db as [gs ? ? ? ?]. simpl. f_equal.
  by apply filter_all.
Qed.

Lemma deleteMultipleGames_run ids db :
  deleteMultipleGames ids db = (Ok tt, DELETE_games (WHERE_id_IN ids) db).
Proof.
  unfold deleteMultipleGames. case_bool_decide as Hl; [|done].
  apply nil_length_inv in Hl as ->. unfold mret, M_ret. f_equal.
  rewrite <- (DELETE_games_none db) at 1. apply DELETE_games_ext.
  intros g. unfold WHERE_id_IN. symmetry. apply bool_decide_eq_false_2.
  apply not_elem_of_nil.
Qed.

Lemma fold_deleteGame ids : ∀ db,
  foldl (λ d k, (deleteGame k d).2) db ids = DELETE_games (WHERE_id_IN ids) db.
Proof.
  induction ids as [|k ids IH]; intros db; simpl.
  - rewrite <- (DELETE_games_none db) at 1. apply DELETE_games_ext.
    intros g. unfold WHERE_id_IN. symmetry. apply bool_decide_eq_false_2.
    apply not_elem_of_nil.
  - rewrite IH. rewrite DELETE_games_twice. apply DELETE_games_ext.
    intros g. unfold WHERE_id, WHERE_id_IN.
    destruct (Z.eqb_spec (id g) k) as [->|Hne]; simpl.
    + symmetry. apply bool_decide_eq_true_2. left.
    + apply bool_decide_ext. rewrite elem_of_cons. tauto.
Qed.

(** X9 — [deleteMultipleGames ids] always returns and has the effect of
    [deleteGame] applied to each id in turn (none for the empty list):
    afterwards no game with one of these ids is found, the lookup of every
    other id gives what it gave before, and the predictions that name a
    deleted game are left in place. *)
Theorem deleteMultipleGames_is_repeated_deleteGame (gameIds : list Z) (db : DB) :
  (deleteMultipleGames gameIds db).1 = Ok tt
  ∧ (deleteMultipleGames gameIds db).2
    = foldl (λ d k, (deleteGame k d).2) db gameIds
  ∧ (∀ k, (getGameById k (deleteMultipleGames gameIds db).2).1
          = if bool_decide (k ∈ gameIds) then Ok None else (getGameById k db).1)
  ∧ same_tables db (deleteMultipleGames gameIds db).2.
Proof.
  rewrite deleteMultipleGames_run, fold_deleteGame. cbn [fst snd].
  split; [done|]. split; [done|]. split; [|done].
  intros k. unfold getGameById, runQuery. cbn [fst].
  unfold SELECT_games_WHERE_id. rewrite games_DELETE_games, list_filter_filter.
  case_bool_decide as Hin.
  - rewrite filter_none; [done|]. intros g _ [Hk Hg].
    unfold WHERE_id in Hk. apply Z.eqb_eq in Hk. unfold WHERE_id_IN in Hg.
    apply bool_decide_eq_false in Hg. congruence.
  - do 2 f_equal. apply list_filter_iff. intros g. split; [tauto|].
    intros Hk. split; [done|]. unfold WHERE_id in Hk. apply Z.eqb_eq in Hk.
    unfold WHERE_id_IN. apply bool_decide_eq_false_2. congruence.
Qed.

(** X10 — [deleteAllGamesForSeason] leaves the season without games and
    every other season's games as they were; with unique game ids it is
    [deleteMultipleGames] on the ids of the season's games, the pair of
    calls the reset route and the bulk-delete route make. *)
Theorem deleteAllGamesForSeason_empties_the_season (seasonId : Z) (db : DB) :
  pk_unique db →
  SELECT_games_WHERE_season_ORDERED seasonId
    (deleteAllGamesForSeason seasonId db).2 = []
  ∧ (∀ s, s ≠ seasonId →
       SELECT_games_WHERE_season_ORDERED s (deleteAllGamesForSeason seasonId db).2
       = SELECT_games_WHERE_season_ORDERED s db)
  ∧ deleteAllGamesForSeason seasonId db
    = deleteMultipleGames (id <$> SELECT_games_WHERE_season_ORDERED seasonId db) db.
Proof.
  intros Hpk. unfold deleteAllGamesForSeason, runExec. cbn [snd].
  split; [|split].
  - unfold SELECT_games_WHERE_season_ORDERED. rewrite games_DELETE_games.
    rewrite filter_none; [done|].
    intros g [Hs _]%list_elem_of_filter. congruence.
  - intros s Hs. unfold SELECT_games_WHERE_season_ORDERED.
    rewrite games_DELETE_games, list_filter_filter. f_equal.
    apply list_filter_iff. intros g. split; [tauto|]. intros Hg.
    split; [done|]. unfold WHERE_season in *. apply Z.eqb_eq in Hg.
    apply Z.eqb_neq. congruence.
  - rewrite deleteMultipleGames_run. f_equal.
    unfold DELETE_games, set_games. f_equal.
    apply filter_ext_elem. intros g Hg. unfold WHERE_id_IN.
    case_bool_decide as Hin.
    + apply list_elem_of_fmap in Hin as (x & Hid & Hx).
      apply elem_of_season_snapshot in Hx as [Hx Hs].
      rewrite (pk_inj (games db) g x Hpk Hg Hx Hid).
      unfold WHERE_season. by rewrite Hs, Z.eqb_refl.
    + unfold WHERE_season. destruct (Z.eqb_spec (season_id g) seasonId); [|done].
      exfalso. apply Hin. apply list_elem_of_fmap_2.
      by apply elem_of_season_snapshot.
Qed.

Lemma deleteAllGamesForSeason_empties_the_season_witness :
  SELECT_games_WHERE_season_ORDERED 1 (deleteAllGamesForSeason 1 decided2025).2 = []
  ∧ deleteAllGamesForSeason 1 decided2025
    = deleteMultipleGames (id <$> SELECT_games_WHERE_season_ORDERED 1 decided2025)
        decided2025.
Proof.
  pose proof (deleteAllGamesForSeason_empties_the_season 1 decided2025) as H.
  destruct H as (H1 & _ & H3); [concrete|]. by split.
Defined.

(** ** The leaderboard, exactly *)

Section score_exact.
Context (games : list Game) (st : ScoringType).

Lemma scorePrediction_step lb p e db :
  map_get (participant_id p) lb = Some e →
  scorePrediction games st lb p db
  = (Ok (match targetGame games p with
         | Some _ => map_set (participant_id p) (scoredEntryOf games st e p) lb
         | None => lb
         end), db).
Proof.
  intros Hget. unfold scorePrediction, scoredEntryOf, targetGame.
  destruct (head (filter _ games)) as [g|]; [|done].
  rewrite Hget, bind_deref_Some. unfold scoredEntry.
  by destruct (isCorrect _).
Qed.

Lemma map_set_present_keys k v (m : JsMap) :
  is_Some (map_get k m) → (map_set k v m).*1 = m.*1.
Proof.
  unfold map_get. induction m as [|[k0 v0] m IH]; intros [e He]; [done|].
  cbn [map_set]. case_bool_decide as Hk; [by subst|].
  rewrite filter_cons_False in He by done. rewrite !fmap_cons.
  f_equal. apply IH. by eexists.
Qed.

Lemma score_loop_exact ps : ∀ lb db,
  Forall (λ p, is_Some (map_get (participant_id p) lb)) ps →
  ∃ lb',
    foldM (scorePrediction games st) lb ps db = (Ok lb', db)
    ∧ lb'.*1 = lb.*1
    ∧ ∀ k e, map_get k lb = Some e →
        map_get k lb' = Some (foldl (scoredEntryOf games st) e (picksOf k ps)).
Proof.
  induction ps as [|p ps IH]; intros lb db Hkeys.
  - exists lb. by repeat split.
  - apply Forall_cons in Hkeys as [[e0 He0] Hkeys].
    rewrite foldM_cons, bind_unfold, (scorePrediction_step lb p e0 db He0).
    set (lb1 := match targetGame games p with
                | Some _ => map_set (participant_id p) (scoredEntryOf games st e0 p) lb
                | None => lb
                end) in *.
    assert (Hget1 : ∀ k e, map_get k lb = Some e →
              map_get k lb1
              = Some (if decide (participant_id p = k)
                      then scoredEntryOf games st e p else e)).
    { intros k e Hk. unfold lb1.
      destruct (decide (participant_id p = k)) as [<-|Hnek].
      - rewrite He0 in Hk. injection Hk as <-.
        unfold scoredEntryOf at 2.
        destruct (targetGame games p) eqn:Ht; [|done].
        rewrite map_get_set_eq. unfold scoredEntryOf. by rewrite Ht.
      - destruct (targetGame games p); [|done]. by rewrite map_get_set_ne. }
    destruct (IH lb1 db) as (lb' & Hfold & Hids & Hall).
    { eapply Forall_impl; [exact Hkeys|]. intros q [e He]. simpl.
      rewrite (Hget1 _ _ He). by eexists. }
    exists lb'. split; [done|]. split.
    { rewrite Hids. unfold lb1. destruct (targetGame games p); [|done].
      apply map_set_present_keys. by eexists. }
    intros k e Hk. rewrite (Hall k _ (Hget1 k e Hk)). rewrite picksOf_cons.
    by destruct (decide (participant_id p = k)).
Qed.
End score_exact.

Lemma map_values_by_keys {A} (f : A → Z) (g : A → LeaderboardEntry)
    (l : list A) : ∀ m : JsMap,
  NoDup (f <$> l) → m.*1 = f <$> l →
  (∀ x, x ∈ l → map_get (f x) m = Some (g x)) →
  map_values m = g <$> l.
Proof.
  induction l as [|x l IH]; intros m Hnd Hkeys Hget.
  - by destruct m.
  - destruct m as [|[k v] m]; [done|]. rewrite !fmap_cons in Hkeys.
    injection Hkeys as Hk Hkeys. simpl in Hk. subst k.
    rewrite fmap_cons in Hnd. apply NoDup_cons in Hnd as [Hx Hnd].
    unfold map_values. rewrite !fmap_cons. f_equal.
    + specialize (Hget x ltac:(left)). unfold map_get in Hget.
      rewrite filter_cons_True in Hget by done. by injection Hget.
    + apply IH; try done. intros y Hy.
      specialize (Hget y ltac:(by right)). unfold map_get in *.
      rewrite filter_cons_False in Hget; [done|].
      simpl. intros Heq. apply Hx. rewrite Heq. by apply list_elem_of_fmap_2.
Qed.

(** With participant ids unique, [calculateLeaderboard] returns, reads
    only, and its entries are the final entries of the lobby's participants
    in the order of the policy. *)
Lemma calculateLeaderboard_exact lobbyId seasonId st db :
  NoDup (pt_id <$> participants db) →
  calculateLeaderboard lobbyId seasonId st db
  = (Ok (sortEntries st
           (finalEntry (SELECT_games_WHERE_season_ORDERED seasonId db) st
                       (SELECT_predictions_JOIN_lobby lobbyId db)
              <$> SELECT_participants_WHERE_lobby_ORDERED lobbyId db)), db).
Proof.
  intros Hnd.
  unfold calculateLeaderboard, getGamesBySeason, getPredictionsByLobby,
    getParticipantsByLobby.
  rewrite !bind_runQuery.
  set (games := SELECT_games_WHERE_season_ORDERED seasonId db).
  set (preds := SELECT_predictions_JOIN_lobby lobbyId db).
  set (pts := SELECT_participants_WHERE_lobby_ORDERED lobbyId db).
  pose proof (lobby_participants_NoDup lobbyId db Hnd) as Hpts. fold pts in Hpts.
  change (λ lb participant, map_set (pt_id participant)
            (mkEntry (pt_id participant) (pt_name participant) 0 0 0 0) lb)
    with (λ lb pt, map_set (pt_id pt) (freshEntry pt) lb).
  rewrite (initial_map_run pts []) by done. rewrite app_nil_l.
  set (lb0 := (λ pt, (pt_id pt, freshEntry pt)) <$> pts).
  destruct (score_loop_exact games st preds lb0 db) as (lb' & Hrun & Hids & Hall).
  { apply Forall_forall. intros p Hp.
    apply elem_of_lobby_predictions in Hp as (_ & pt & Hpt & Hid & Hl).
    rewrite <- Hid. unfold lb0. rewrite map_get_initial; [by eexists|done|].
    by apply elem_of_lobby_participants. }
  rewrite bind_unfold, Hrun. unfold mret, M_ret. do 3 f_equal.
  apply (map_values_by_keys pt_id); [done| |].
  - rewrite Hids. unfold lb0. rewrite <- list_fmap_compose.
    by apply list_fmap_ext.
  - intros pt Hpt. apply Hall. unfold lb0. by apply map_get_initial.
Qed.

Lemma calculatePoints_correct game p st :
  isCorrect (calculatePoints game p st) = true →
  pts_simple (calculatePoints game p st) = 1
  ∧ 1 ≤ pts_weighted (calculatePoints game p st) ≤ 5.
Proof.
  unfold calculatePoints. destruct (_ || _); [done|].
  destruct (negb _); [done|]. simpl. intros _. destruct (round game); simpl; lia.
Qed.

Lemma scoredEntry_id game p st e :
  participantId (scoredEntry game p st e) = participantId e
  ∧ name (scoredEntry game p st e) = name e.
Proof. unfold scoredEntry. by destruct (isCorrect _). Qed.

Lemma scoredEntry_consistent game p st e n :
  entryConsistent e → totalPicks e = n →
  entryConsistent (scoredEntry game p st e)
  ∧ totalPicks (scoredEntry game p st e) = n + 1.
Proof.
  intros (Hc & Hs & Hw) Hn. unfold scoredEntry, entryConsistent.
  destruct (isCorrect _) eqn:Hok; simpl.
  - destruct (calculatePoints_correct _ _ _ Hok) as [-> ?]. lia.
  - lia.
Qed.

Lemma fold_scored_consistent games st ps : ∀ e n,
  entryConsistent e → totalPicks e = n →
  entryConsistent (foldl (scoredEntryOf games st) e ps)
  ∧ totalPicks (foldl (scoredEntryOf games st) e ps)
    = n + Z.of_nat (length (filter (λ p, is_Some (targetGame games p)) ps))
  ∧ participantId (foldl (scoredEntryOf games st) e ps) = participantId e
  ∧ name (foldl (scoredEntryOf games st) e ps) = name e.
Proof.
  induction ps as [|p ps IH]; intros e n He Hn; simpl.
  - repeat split; try done; try apply He. lia.
  - rewrite filter_cons. unfold scoredEntryOf at 2 4 6 8.
    destruct (targetGame games p) as [g|] eqn:Ht.
    + destruct (scoredEntry_consistent g p st e n He Hn) as [He1 Hn1].
      destruct (scoredEntry_id g p st e) as [Hi Hm].
      destruct (IH _ _ He1 Hn1) as (H1 & H2 & H3 & H4).
      rewrite decide_True by done. rewrite length_cons.
      split; [done|]. split; [lia|]. split; congruence.
    + destruct (IH _ _ He Hn) as (H1 & H2 & H3 & H4).
      rewrite decide_False by (by intros [? ?]). done.
Qed.

(** X11 — With participant ids unique, [calculateLeaderboard] returns for
    every lobby, season and policy, and leaves the database as it is; it
    has one entry per participant of the lobby, and in every entry the
    correct picks equal the simple score, the total picks count the
    participant's predictions whose game belongs to the season, the simple
    score is between 0 and the total picks, and the weighted score between
    the simple score and five times it. *)
Theorem leaderboard_entries_consistent (lobbyId : string) (seasonId : Z)
    (scoringType : ScoringType) (db : DB) :
  NoDup (pt_id <$> participants db) →
  ∃ entries,
    calculateLeaderboard lobbyId seasonId scoringType db = (Ok entries, db)
    ∧ participantId <$> entries
      ≡ₚ pt_id <$> SELECT_participants_WHERE_lobby_ORDERED lobbyId db
    ∧ Forall (λ e,
        entryConsistent e
        ∧ totalPicks e
          = Z.of_nat (length (countedPicks
                                (SELECT_games_WHERE_season_ORDERED seasonId db)
                                (participantId e)
                                (SELECT_predictions_JOIN_lobby lobbyId db))))
        entries.
Proof.
  intros Hnd. rewrite calculateLeaderboard_exact by done.
  eexists. split; [done|].
  set (games := SELECT_games_WHERE_season_ORDERED seasonId db).
  set (preds := SELECT_predictions_JOIN_lobby lobbyId db).
  set (pts := SELECT_participants_WHERE_lobby_ORDERED lobbyId db).
  assert (Hfinal : ∀ pt,
            let e := finalEntry games scoringType preds pt in
            entryConsistent e
            ∧ totalPicks e = Z.of_nat (length (countedPicks games (pt_id pt) preds))
            ∧ participantId e = pt_id pt).
  { intros pt.
    destruct (fold_scored_consistent games scoringType
                (picksOf (pt_id pt) preds) (freshEntry pt) 0)
      as (H1 & H2 & H3 & _); [unfold entryConsistent; simpl; lia|done|].
    unfold finalEntry, countedPicks. split; [exact H1|].
    split; [rewrite H2; lia|exact H3]. }
  split.
  - assert (sortEntries scoringType (finalEntry games scoringType preds <$> pts)
            ≡ₚ finalEntry games scoringType preds <$> pts) as ->
      by (unfold sortEntries; destruct scoringType; apply js_sort_perm).
    rewrite <- list_fmap_compose.
    erewrite list_fmap_ext; [reflexivity|]. intros i pt _. simpl. apply Hfinal.
  - apply Forall_forall. intros e He. apply elem_of_sortEntries in He.
    apply list_elem_of_fmap in He as (pt & -> & _).
    destruct (Hfinal pt) as (? & ? & ->). done.
Qed.

Lemma leaderboard_entries_consistent_witness :
  ∃ entries,
    calculateLeaderboard "M" 1 weighted lobby2025 = (Ok entries, lobby2025)
    ∧ participantId <$> entries
      ≡ₚ pt_id <$> SELECT_participants_WHERE_lobby_ORDERED "M" lobby2025
    ∧ Forall (λ e,
        entryConsistent e
        ∧ totalPicks e
          = Z.of_nat (length (countedPicks
                                (SELECT_games_WHERE_season_ORDERED 1 lobby2025)
                                (participantId e)
                                (SELECT_predictions_JOIN_lobby "M" lobby2025))))
        entries.
Proof.
  apply (leaderboard_entries_consistent "M" 1 weighted lobby2025).
  apply (bool_decide_unpack _). vm_compute. reflexivity.
Defined.

Lemma sort_by_weightedScore entries :
  StronglySorted (λ a b, weightedScore b ≤ weightedScore a)
    (js_sort (λ a b, weightedScore b - weightedScore a) entries)
  ∧ ∀ v, filter (λ e, weightedScore e = v)
           (js_sort (λ a b, weightedScore b - weightedScore a) entries)
         = filter (λ e, weightedScore e = v) entries.
Proof.
  split.
  - eapply StronglySorted_weaken;
      [|apply (js_sort_sorted (λ e, - weightedScore e)); intros; simpl; lia].
    simpl. intros; lia.
  - intros v.
    pose proof (js_sort_stable (λ e, - weightedScore e)
                  (λ a b, weightedScore b - weightedScore a)
                  ltac:(intros; simpl; lia) (- v) entries) as H.
    erewrite (list_filter_iff (λ e, weightedScore e = v)
                (λ e, - weightedScore e = - v)) by (intros; lia).
    rewrite H. apply list_filter_iff. intros; lia.
Qed.

(** X12 — Under the "weighted" policy the leaderboard is in descending
    order of weighted score, participants with equal weighted scores in
    the order they were read from the lobby; it has the same entries as
    under "simple", and the "bracket" policy gives the very result of
    "simple". *)
Theorem weighted_policy_sorts_by_weighted_score (lobbyId : string)
    (seasonId : Z) (db : DB) :
  NoDup (pt_id <$> participants db) →
  calculateLeaderboard lobbyId seasonId bracket db
  = calculateLeaderboard lobbyId seasonId simple db
  ∧ ∃ unsorted byWeighted bySimple,
      calculateLeaderboard lobbyId seasonId weighted db = (Ok byWeighted, db)
      ∧ calculateLeaderboard lobbyId seasonId simple db = (Ok bySimple, db)
      ∧ participantId <$> unsorted
        = pt_id <$> SELECT_participants_WHERE_lobby_ORDERED lobbyId db
      ∧ byWeighted ≡ₚ unsorted ∧ bySimple ≡ₚ unsorted
      ∧ StronglySorted (λ a b, weightedScore b ≤ weightedScore a) byWeighted
      ∧ ∀ v, filter (λ e, weightedScore e = v) byWeighted
             = filter (λ e, weightedScore e = v) unsorted.
Proof.
  intros Hnd. split; [reflexivity|].
  rewrite !calculateLeaderboard_exact by done.
  set (games := SELECT_games_WHERE_season_ORDERED seasonId db).
  set (preds := SELECT_predictions_JOIN_lobby lobbyId db).
  set (pts := SELECT_participants_WHERE_lobby_ORDERED lobbyId db).
  exists (finalEntry games weighted preds <$> pts). eexists _, _.
  split; [reflexivity|]. split; [reflexivity|]. split.
  { rewrite <- list_fmap_compose. apply list_fmap_ext. intros i pt _. simpl.
    apply (fold_scored_consistent games weighted _ (freshEntry pt) 0);
      [unfold entryConsistent; simpl; lia|done]. }
  unfold sortEntries. split; [apply js_sort_perm|].
  split; [exact (js_sort_perm _ (finalEntry games weighted preds <$> pts))|].
  apply sort_by_weightedScore.
Qed.

Lemma weighted_policy_sorts_by_weighted_score_witness :
  calculateLeaderboard "L" 1 bracket lobby2025
  = calculateLeaderboard "L" 1 simple lobby2025
  ∧ ∃ unsorted byWeighted bySimple,
      calculateLeaderboard "L" 1 weighted lobby2025 = (Ok byWeighted, lobby2025)
      ∧ calculateLeaderboard "L" 1 simple lobby2025 = (Ok bySimple, lobby2025)
      ∧ participantId <$> unsorted
        = pt_id <$> SELECT_participants_WHERE_lobby_ORDERED "L" lobby2025
      ∧ byWeighted ≡ₚ unsorted ∧ bySimple ≡ₚ unsorted
      ∧ StronglySorted (λ a b, weightedScore b ≤ weightedScore a) byWeighted
      ∧ ∀ v, filter (λ e, weightedScore e = v) byWeighted
             = filter (λ e, weightedScore e = v) unsorted.
Proof.
  apply (weighted_policy_sorts_by_weighted_score "L" 1 lobby2025).
  apply (bool_decide_unpack _). vm_compute. reflexivity.
Defined.

(** ** Deleting participants *)

Section sort_filter.
Context {A : Type} (key : A → Z) (cmp : A → A → Z).
Context (Hcmp : ∀ a b, cmp a b = key a - key b).
Context (P : A → Prop) `{!∀ x, Decision (P x)}.

Lemma sort_insert_head x l :
  Forall (λ y, key x ≤ key y) l → sort_insert cmp x l = x :: l.
Proof.
  intros Hl. destruct Hl as [|y l Hy _]; [done|]. simpl.
  rewrite Hcmp. by rewrite (proj2 (Z.leb_le _ _)) by lia.
Qed.

Lemma sort_insert_filter x l :
  StronglySorted (λ a b, key a ≤ key b) l →
  filter P (sort_insert cmp x l)
  = if decide (P x) then sort_insert cmp x (filter P l) else filter P l.
Proof.
  induction 1 as [|y l Hs IH Hy]; simpl.
  - rewrite filter_cons, filter_nil. by destruct (decide (P x)).
  - rewrite Hcmp. destruct (Z.leb_spec (key x - key y) 0) as [Hle|Hgt].
    + rewrite filter_cons. destruct (decide (P x)); [|done].
      rewrite sort_insert_head; [done|].
      apply Forall_forall. intros z [_ Hz]%list_elem_of_filter.
      apply elem_of_cons in Hz as [->|Hz]; [lia|].
      rewrite Forall_forall in Hy. specialize (Hy z Hz). lia.
    + rewrite !filter_cons, IH.
      destruct (decide (P y)), (decide (P x)); try done.
      simpl. rewrite Hcmp. by rewrite (proj2 (Z.leb_gt _ _)) by lia.
Qed.

Lemma js_sort_filter l :
  filter P (js_sort cmp l) = js_sort cmp (filter P l).
Proof.
  induction l as [|x l IH]; [done|]. simpl.
  rewrite sort_insert_filter by (by apply js_sort_sorted).
  rewrite filter_cons, IH. by destruct (decide (P x)).
Qed.
End sort_filter.

Lemma sortEntries_filter st (P : LeaderboardEntry → Prop)
    `{!∀ x, Decision (P x)} entries :
  filter P (sortEntries st entries) = sortEntries st (filter P entries).
Proof.
  unfold sortEntries.
  destruct st;
    first [ apply (js_sort_filter (λ e, - simpleScore e)); intros; simpl; lia
          | apply (js_sort_filter (λ e, - weightedScore e)); intros; simpl; lia ].
Qed.

Lemma deleteParticipant_run k db :
  deleteParticipant k db
  = (Ok tt,
     mkDB (games db) (games_seq db) (playoff_seeds db)
          (filter (λ pt, pt_id pt ≠ k) (participants db))
          (filter (λ p, participant_id p ≠ k) (predictions db))).
Proof.
  unfold deleteParticipant. rewrite bind_runExec. unfold runExec.
  unfold DELETE_participants, DELETE_predictions, set_participants,
    set_predictions. simpl. do 2 f_equal.
  - apply list_filter_iff. intros pt. rewrite Z.eqb_neq. done.
  - apply list_filter_iff. intros p. rewrite Z.eqb_neq. done.
Qed.

Lemma deleteMultipleParticipants_run ks db :
  deleteMultipleParticipants ks db
  = (Ok tt,
     mkDB (games db) (games_seq db) (playoff_seeds db)
          (filter (λ pt, pt_id pt ∉ ks) (participants db))
          (filter (λ p, participant_id p ∉ ks) (predictions db))).
Proof.
  unfold deleteMultipleParticipants. case_bool_decide as Hl.
  - apply nil_length_inv in Hl as ->. unfold mret, M_ret. f_equal.
    destruct db. simpl. f_equal; symmetry; apply filter_all;
      intros ? _; apply not_elem_of_nil.
  - rewrite bind_runExec. unfold runExec.
    unfold DELETE_participants, DELETE_predictions, set_participants,
      set_predictions. simpl. do 2 f_equal.
    + apply list_filter_iff. intros pt. by rewrite bool_decide_eq_false.
    + apply list_filter_iff. intros p. by rewrite bool_decide_eq_false.
Qed.

Lemma fold_deleteParticipant ks : ∀ db,
  foldl (λ d k, (deleteParticipant k d).2) db ks
  = mkDB (games db) (games_seq db) (playoff_seeds db)
         (filter (λ pt, pt_id pt ∉ ks) (participants db))
         (filter (λ p, participant_id p ∉ ks) (predictions db)).
Proof.
  induction ks as [|k ks IH]; intros db; cbn [foldl].
  - destruct db. simpl. f_equal; symmetry; apply filter_all;
      intros ? _; apply not_elem_of_nil.
  - rewrite IH, deleteParticipant_run. simpl. f_equal.
    + rewrite list_filter_filter. apply list_filter_iff. intros pt.
      rewrite not_elem_of_cons. tauto.
    + rewrite list_filter_filter. apply list_filter_iff. intros p.
      rewrite not_elem_of_cons. tauto.
Qed.

(** X13 — [deleteMultipleParticipants ids] always returns and has the
    effect of [deleteParticipant] on each id in turn (none for the empty
    list): the participants with these ids and every prediction of theirs
    are gone, all other participants and predictions, the games and the
    seeds are untouched, and if every prediction named a stored participant
    before, every prediction still does. *)
Theorem deleteMultipleParticipants_is_repeated_delete (participantIds : list Z)
    (db : DB) :
  deleteMultipleParticipants participantIds db
  = (Ok tt, foldl (λ d k, (deleteParticipant k d).2) db participantIds)
  ∧ participants (deleteMultipleParticipants participantIds db).2
    = filter (λ pt, pt_id pt ∉ participantIds) (participants db)
  ∧ predictions (deleteMultipleParticipants participantIds db).2
    = filter (λ p, participant_id p ∉ participantIds) (predictions db)
  ∧ games (deleteMultipleParticipants participantIds db).2 = games db
  ∧ playoff_seeds (deleteMultipleParticipants participantIds db).2
    = playoff_seeds db
  ∧ (predictions_have_participants db →
     predictions_have_participants (deleteMultipleParticipants participantIds db).2).
Proof.
  rewrite deleteMultipleParticipants_run, fold_deleteParticipant. cbn [snd].
  do 5 (split; [done|]). unfold predictions_have_participants. simpl.
  rewrite !Forall_forall. intros H p [Hp Hin]%list_elem_of_filter.
  specialize (H p Hin). apply list_elem_of_fmap in H as (pt & Hid & Hpt).
  apply list_elem_of_fmap. exists pt. split; [done|].
  apply list_elem_of_filter. split; [congruence|done].
Qed.

Lemma deleteMultipleParticipants_is_repeated_delete_witness :
  predictions_have_participants (deleteMultipleParticipants [1; 3] lobby2025).2.
Proof.
  refine (proj2 (proj2 (proj2 (proj2 (proj2
            (deleteMultipleParticipants_is_repeated_delete [1; 3] lobby2025)))))
            _).
  apply (bool_decide_unpack _). vm_compute. reflexivity.
Defined.

Lemma filter_fmap_key {A B} (f : A → B) (P : B → Prop) (Q : A → Prop)
    `{!∀ x, Decision (P x)} `{!∀ x, Decision (Q x)} (l : list A) :
  (∀ x, P (f x) ↔ Q x) → filter P (f <$> l) = f <$> filter Q l.
Proof.
  intros HPQ. induction l as [|x l IH]; [done|].
  rewrite fmap_cons, !filter_cons, IH. destruct (HPQ x).
  destruct (decide (P (f x))), (decide (Q x)); try done; tauto.
Qed.

Lemma filter_copies {A} (P : Prediction → Prop) `{!∀ x, Decision (P x)}
    (l : list A) (p : Prediction) :
  filter P (l ≫= λ _, [p]) = if decide (P p) then l ≫= λ _, [p] else [].
Proof.
  induction l as [|x l IH]; [by destruct (decide (P p))|].
  cbn [mbind list_bind]. rewrite filter_app, IH, filter_cons, filter_nil.
  by destruct (decide (P p)).
Qed.

Lemma lobby_predictions_without k lobbyId db :
  SELECT_predictions_JOIN_lobby lobbyId (deleteParticipant k db).2
  = filter (λ p, participant_id p ≠ k) (SELECT_predictions_JOIN_lobby lobbyId db).
Proof.
  rewrite deleteParticipant_run. unfold SELECT_predictions_JOIN_lobby.
  cbn [snd predictions participants].
  induction (predictions db) as [|p ps IH]; [done|].
  rewrite filter_cons. cbn [mbind list_bind]. rewrite filter_app, <- IH.
  rewrite filter_copies.
  destruct (decide (participant_id p ≠ k)) as [Hne|Heq]; [|done].
  cbn [mbind list_bind]. f_equal.
  rewrite list_filter_filter. f_equal.
  apply list_filter_iff. intros pt. split; [tauto|].
  intros [? ?]. repeat split; congruence.
Qed.

Lemma lobby_participants_without k lobbyId db :
  SELECT_participants_WHERE_lobby_ORDERED lobbyId (deleteParticipant k db).2
  = filter (λ pt, pt_id pt ≠ k)
      (SELECT_participants_WHERE_lobby_ORDERED lobbyId db).
Proof.
  rewrite deleteParticipant_run. unfold SELECT_participants_WHERE_lobby_ORDERED.
  cbn [snd participants].
  rewrite (js_sort_filter submitted_at) by done. f_equal.
  rewrite !list_filter_filter. apply list_filter_iff. intros pt. tauto.
Qed.

Lemma finalEntry_without games st preds k pt :
  pt_id pt ≠ k →
  finalEntry games st (filter (λ p, participant_id p ≠ k) preds) pt
  = finalEntry games st preds pt.
Proof.
  intros Hne. unfold finalEntry, picksOf. f_equal.
  rewrite list_filter_filter. apply list_filter_iff. intros p.
  split; [tauto|]. intros Hp. split; [done|congruence].
Qed.

(** X14 — Deleting a participant removes their entry from the leaderboard
    of every lobby and changes nothing else in it: with participant ids
    unique, the leaderboard computed after [deleteParticipant k] is the
    leaderboard computed before, in the same order, without the entry of
    participant [k]. *)
Theorem leaderboard_after_deleteParticipant (k : Z) (lobbyId : string)
    (seasonId : Z) (scoringType : ScoringType) (db : DB) :
  NoDup (pt_id <$> participants db) →
  ∃ entries,
    calculateLeaderboard lobbyId seasonId scoringType db = (Ok entries, db)
    ∧ calculateLeaderboard lobbyId seasonId scoringType (deleteParticipant k db).2
      = (Ok (filter (λ e, participantId e ≠ k) entries),
         (deleteParticipant k db).2).
Proof.
  intros Hnd. rewrite calculateLeaderboard_exact by done.
  eexists. split; [reflexivity|].
  rewrite calculateLeaderboard_exact.
  2:{ rewrite deleteParticipant_run. cbn [snd participants].
      by apply NoDup_fmap_filter. }
  f_equal. f_equal.
  rewrite lobby_predictions_without, lobby_participants_without.
  change (SELECT_games_WHERE_season_ORDERED seasonId (deleteParticipant k db).2)
    with (SELECT_games_WHERE_season_ORDERED seasonId db).
  rewrite sortEntries_filter. f_equal.
  set (games := SELECT_games_WHERE_season_ORDERED seasonId db).
  set (preds := SELECT_predictions_JOIN_lobby lobbyId db).
  rewrite (filter_fmap_key (finalEntry games scoringType preds)
             (λ e, participantId e ≠ k) (λ pt, pt_id pt ≠ k)).
  2:{ intros pt.
      destruct (fold_scored_consistent games scoringType
                  (picksOf (pt_id pt) preds) (freshEntry pt) 0)
        as (_ & _ & Hid & _); [unfold entryConsistent; simpl; lia|done|].
      unfold finalEntry. rewrite Hid. done. }
  apply list_fmap_ext. intros i pt Hpt.
  apply list_elem_of_lookup_2, list_elem_of_filter in Hpt as [Hne _].
  by apply finalEntry_without.
Qed.

Lemma leaderboard_after_deleteParticipant_witness :
  ∃ entries,
    calculateLeaderboard "L" 1 simple lobby2025 = (Ok entries, lobby2025)
    ∧ calculateLeaderboard "L" 1 simple (deleteParticipant 1 lobby2025).2
      = (Ok (filter (λ e, participantId e ≠ 1) entries),
         (deleteParticipant 1 lobby2025).2).
Proof.
  apply (leaderboard_after_deleteParticipant 1 "L" 1 simple lobby2025).
  apply (bool_decide_unpack _). vm_compute. reflexivity.
Defined.

(** ** The bracket of a participant and the leaderboard *)

Lemma stats_add_assoc a b c :
  stats_add a (stats_add b c) = stats_add (stats_add a b) c.
Proof. unfold stats_add. simpl. f_equal; lia. Qed.

Lemma stats_add_comm a b : stats_add a b = stats_add b a.
Proof. unfold stats_add. f_equal; lia. Qed.

Lemma stats_add_zero_r a : stats_add a stats_zero = a.
Proof. destruct a. unfold stats_add. simpl. f_equal; lia. Qed.

Lemma stats_add_zero_l a : stats_add stats_zero a = a.
Proof. by rewrite stats_add_comm, stats_add_zero_r. Qed.

Lemma stats_sum_cons x l : stats_sum (x :: l) = stats_add x (stats_sum l).
Proof. done. Qed.

Lemma fold_stats {A} (f : A → BracketStats) (l : list A) : ∀ t0,
  foldl (λ t x, stats_add t (f x)) t0 l = stats_add t0 (stats_sum (f <$> l)).
Proof.
  induction l as [|x l IH]; intros t0.
  - simpl. by rewrite stats_add_zero_r.
  - rewrite fmap_cons, stats_sum_cons. cbn [foldl].
    by rewrite IH, stats_add_assoc.
Qed.

Lemma stats_sum_pointwise {A} (f g : A → BracketStats) (l : list A) :
  stats_sum ((λ x, stats_add (f x) (g x)) <$> l)
  = stats_add (stats_sum (f <$> l)) (stats_sum (g <$> l)).
Proof.
  induction l as [|x l IH]; [done|].
  rewrite !fmap_cons, !stats_sum_cons, IH.
  rewrite !stats_add_assoc. f_equal.
  rewrite <- !stats_add_assoc. f_equal. apply stats_add_comm.
Qed.

Lemma stats_sum_zero {A} (l : list A) :
  stats_sum ((λ _, stats_zero) <$> l) = stats_zero.
Proof.
  induction l as [|x l IH]; [done|].
  by rewrite fmap_cons, stats_sum_cons, IH.
Qed.

Lemma stats_sum_swap {A B} (c : A → B → BracketStats) (G : list A) (P : list B) :
  stats_sum ((λ p, stats_sum ((λ g, c g p) <$> G)) <$> P)
  = stats_sum ((λ g, stats_sum ((λ p, c g p) <$> P)) <$> G).
Proof.
  induction P as [|p P IH].
  - simpl. by rewrite stats_sum_zero.
  - rewrite fmap_cons, stats_sum_cons, IH, <- stats_sum_pointwise.
    apply (f_equal stats_sum). apply list_fmap_ext. intros i g _.
    by rewrite fmap_cons, stats_sum_cons.
Qed.

Lemma stats_sum_pick {A} (key : A → Z) (h : A → BracketStats) (k : Z)
    (l : list A) :
  NoDup (key <$> l) →
  stats_sum ((λ x, if decide (key x = k) then h x else stats_zero) <$> l)
  = match head (filter (λ x, key x = k) l) with
    | Some x => h x
    | None => stats_zero
    end.
Proof.
  induction l as [|x l IH]; intros Hnd; [done|].
  rewrite fmap_cons in Hnd. apply NoDup_cons in Hnd as [Hx Hnd].
  rewrite fmap_cons, filter_cons, stats_sum_cons, IH by done.
  destruct (decide (key x = k)) as [Hk|Hk]; simpl.
  - rewrite filter_none; [apply stats_add_zero_r|].
    intros y Hy Hky. apply Hx. rewrite Hk, <- Hky. by apply list_elem_of_fmap_2.
  - apply stats_add_zero_l.
Qed.

Lemma statsOf_scoredEntry g p st e :
  statsOf (scoredEntry g p st e) = stats_add (statsOf e) (pickStats g p).
Proof.
  unfold scoredEntry, calculatePoints, pickStats, statsOf, stats_add.
  destruct (completed g), (truthy (winner g)); simpl; try (f_equal; lia).
  destruct (bool_decide _); simpl; f_equal; lia.
Qed.

Lemma statsOf_fold games st P : ∀ e,
  statsOf (foldl (scoredEntryOf games st) e P)
  = stats_add (statsOf e)
      (stats_sum ((λ p, match targetGame games p with
                        | Some g => pickStats g p
                        | None => stats_zero
                        end) <$> P)).
Proof.
  induction P as [|p P IH]; intros e.
  - simpl. by rewrite stats_add_zero_r.
  - rewrite fmap_cons, stats_sum_cons. cbn [foldl]. rewrite IH.
    unfold scoredEntryOf at 1.
    destruct (targetGame games p) as [g|].
    + by rewrite statsOf_scoredEntry, stats_add_assoc.
    + by rewrite stats_add_zero_l.
Qed.

Lemma orZero_weight r : orZero (WEIGHTED_POINTS r) = WEIGHTED_POINTS r.
Proof. by destruct r. Qed.

Lemma bracketStep_stats M E acc g :
  (bracketStep M E acc g).1
  = stats_add acc.1 (match pmap_get (id g) M with
                     | Some p => pickStats g p
                     | None => stats_zero
                     end).
Proof.
  unfold bracketStep, pickStats. cbn [fst].
  destruct (pmap_get (id g) M) as [p|]; [|by rewrite stats_add_zero_r].
  rewrite orZero_weight. destruct acc as [[s w c t] out]. unfold stats_add.
  destruct (completed g && truthy (winner g)); simpl; [|f_equal; lia].
  destruct (bool_decide _); simpl; f_equal; lia.
Qed.

Lemma bracketFold_stats M E G : ∀ acc,
  (foldl (bracketStep M E) acc G).1
  = stats_add acc.1
      (stats_sum ((λ g, match pmap_get (id g) M with
                        | Some p => pickStats g p
                        | None => stats_zero
                        end) <$> G)).
Proof.
  induction G as [|g G IH]; intros acc.
  - simpl. by rewrite stats_add_zero_r.
  - rewrite fmap_cons, stats_sum_cons. cbn [foldl].
    by rewrite IH, bracketStep_stats, stats_add_assoc.
Qed.

Lemma pmap_set_fresh k v (m : list (Z * Prediction)) :
  k ∉ m.*1 → pmap_set k v m = m ++ [(k, v)].
Proof.
  induction m as [|[k0 v0] m IH]; intros Hk; [done|].
  rewrite fmap_cons, not_elem_of_cons in Hk. destruct Hk as [Hne Hk].
  simpl in *. rewrite bool_decide_eq_false_2 by congruence. by rewrite IH.
Qed.

Lemma pmap_build P : ∀ acc : list (Z * Prediction),
  NoDup (acc.*1 ++ (game_id <$> P)) →
  foldl (λ m pred, pmap_set (game_id pred) pred m) acc P
  = acc ++ ((λ p, (game_id p, p)) <$> P).
Proof.
  induction P as [|p P IH]; intros acc Hnd; simpl.
  - by rewrite app_nil_r.
  - rewrite fmap_cons in Hnd. apply NoDup_app in Hnd as (Hacc & Hdisj & HP).
    apply NoDup_cons in HP as [Hp HP].
    rewrite pmap_set_fresh by (intros Hin; apply (Hdisj _ Hin); left).
    rewrite IH.
    + by rewrite <- app_assoc.
    + rewrite fmap_app. simpl. rewrite <- app_assoc. simpl.
      apply NoDup_app. split; [done|]. split.
      * intros x Hx Hin. apply elem_of_cons in Hin as [->|Hin].
        -- apply (Hdisj _ Hx). left.
        -- apply (Hdisj _ Hx). by right.
      * by apply NoDup_cons.
Qed.

Lemma pmap_get_build P k :
  pmap_get k ((λ p, (game_id p, p)) <$> P)
  = head (filter (λ p, game_id p = k) P).
Proof.
  unfold pmap_get. induction P as [|p P IH]; [done|].
  rewrite fmap_cons, !filter_cons. simpl.
  destruct (decide (game_id p = k)); [done|]. exact IH.
Qed.

Lemma participant_singleton (pts : list Participant) pt :
  NoDup (pt_id <$> pts) → pt ∈ pts →
  filter (λ x, pt_id x = pt_id pt ∧ lobby_id x = lobby_id pt) pts = [pt].
Proof.
  induction pts as [|x pts IH]; intros Hnd Hpt; [by apply elem_of_nil in Hpt|].
  rewrite fmap_cons in Hnd. apply NoDup_cons in Hnd as [Hx Hnd].
  rewrite filter_cons. apply elem_of_cons in Hpt as [<-|Hpt].
  - rewrite decide_True by done. f_equal. apply filter_none.
    intros y Hy [Hid _]. apply Hx. rewrite <- Hid. by apply list_elem_of_fmap_2.
  - rewrite decide_False; [by apply IH|].
    intros [Hid _]. apply Hx. rewrite Hid. by apply list_elem_of_fmap_2.
Qed.

Lemma picksOf_join db pt :
  NoDup (pt_id <$> participants db) → pt ∈ participants db →
  picksOf (pt_id pt) (SELECT_predictions_JOIN_lobby (lobby_id pt) db)
  = filter (λ p, participant_id p = pt_id pt) (predictions db).
Proof.
  intros Hnd Hpt. unfold picksOf, SELECT_predictions_JOIN_lobby.
  induction (predictions db) as [|p ps IH]; [done|].
  cbn [mbind list_bind]. rewrite filter_app, IH, filter_copies, filter_cons.
  destruct (decide (participant_id p = pt_id pt)) as [Hk|Hk]; [|done].
  rewrite Hk, participant_singleton by done. done.
Qed.

Lemma picks_NoDup db k :
  one_pick_per_game db →
  NoDup (game_id <$> filter (λ p, participant_id p = k) (predictions db)).
Proof.
  unfold one_pick_per_game. induction (predictions db) as [|p ps IH];
    intros Hnd; [constructor|].
  rewrite fmap_cons in Hnd. apply NoDup_cons in Hnd as [Hp Hnd].
  rewrite filter_cons. destruct (decide (participant_id p = k)) as [Hk|Hk];
    [|by apply IH].
  rewrite fmap_cons. apply NoDup_cons. split; [|by apply IH].
  intros Hin. apply list_elem_of_fmap in Hin as (q & Hg & Hq).
  apply list_elem_of_filter in Hq as [Hqk Hq]. apply Hp.
  apply list_elem_of_fmap. exists q. split; [|done]. congruence.
Qed.

(** X15 — The bracket view and the leaderboard agree: with participant and
    game ids unique and at most one prediction per participant and game,
    [getParticipantBracket] returns for a stored participant, and the
    simple score, weighted score, correct picks and total picks of its
    [stats] are those of the participant's entry on the leaderboard of the
    participant's lobby, for the same season and under any policy. *)
Theorem bracket_stats_agree_with_leaderboard (pt : Participant) (seasonId : Z)
    (scoringType : ScoringType) (db : DB) :
  NoDup (pt_id <$> participants db) →
  pk_unique db →
  one_pick_per_game db →
  pt ∈ participants db →
  ∃ bd entries e,
    getParticipantBracket (pt_id pt) seasonId db = (Ok (Some bd), db)
    ∧ calculateLeaderboard (lobby_id pt) seasonId scoringType db = (Ok entries, db)
    ∧ e ∈ entries ∧ participantId e = pt_id pt
    ∧ bd_participant bd = (pt_id pt, pt_name pt)
    ∧ stats bd = statsOf e.
Proof.
  intros Hnd Hpk Huniq Hpt.
  rewrite calculateLeaderboard_exact by done.
  set (games := SELECT_games_WHERE_season_ORDERED seasonId db).
  set (preds := SELECT_predictions_JOIN_lobby (lobby_id pt) db).
  set (P := filter (λ p, participant_id p = pt_id pt) (predictions db)).
  pose proof (season_snapshot_NoDup seasonId db Hpk) as HndG. fold games in HndG.
  pose proof (picks_NoDup db (pt_id pt) Huniq) as HndP. fold P in HndP.
  unfold getParticipantBracket, getParticipantById, getPredictionsByParticipant,
    getGamesBySeason.
  rewrite bind_runQuery.
  assert (Hhead : head (filter (λ x, pt_id x = pt_id pt) (participants db))
                  = Some pt).
  { clear -Hnd Hpt. induction (participants db) as [|x pts IH];
      [by apply elem_of_nil in Hpt|].
    rewrite fmap_cons in Hnd. apply NoDup_cons in Hnd as [Hx Hnd].
    rewrite filter_cons. apply elem_of_cons in Hpt as [<-|Hpt].
    - by rewrite decide_True.
    - rewrite decide_False; [by apply IH|].
      intros Hid. apply Hx. rewrite Hid. by apply list_elem_of_fmap_2. }
  rewrite Hhead, !bind_runQuery. fold games P.
  eexists _, _, (finalEntry games scoringType preds pt).
  split; [reflexivity|]. split; [reflexivity|].
  split; [apply elem_of_sortEntries; by apply list_elem_of_fmap_2,
            elem_of_lobby_participants|].
  destruct (fold_scored_consistent games scoringType
              (picksOf (pt_id pt) preds) (freshEntry pt) 0)
    as (_ & _ & Hid & _); [unfold entryConsistent; simpl; lia|done|].
  split; [exact Hid|]. split; [done|]. cbn [stats].
  unfold finalEntry. unfold preds. rewrite picksOf_join by done. fold P.
  rewrite statsOf_fold, bracketFold_stats. cbn [fst]. f_equal.
  rewrite (pmap_build P []) by (by rewrite app_nil_l). rewrite app_nil_l.
  symmetry. transitivity (stats_sum ((λ p, stats_sum
                   ((λ g, if decide (id g = game_id p) then pickStats g p
                          else stats_zero) <$> games)) <$> P)).
  - apply (f_equal stats_sum). apply list_fmap_ext. intros i p _.
    by rewrite (stats_sum_pick id (λ g, pickStats g p)).
  - rewrite stats_sum_swap. apply (f_equal stats_sum).
    apply list_fmap_ext. intros i g _. rewrite pmap_get_build.
    rewrite <- (stats_sum_pick game_id (λ p, pickStats g p)) by done.
    apply (f_equal stats_sum). apply list_fmap_ext. intros j p _.
    destruct (decide (id g = game_id p)), (decide (game_id p = id g));
      congruence.
Qed.

Lemma bracket_stats_agree_with_leaderboard_witness :
  ∃ bd entries e,
    getParticipantBracket 3 1 lobby2025 = (Ok (Some bd), lobby2025)
    ∧ calculateLeaderboard "M" 1 weighted lobby2025 = (Ok entries, lobby2025)
    ∧ e ∈ entries ∧ participantId e = 3
    ∧ bd_participant bd = (3, "Cy")
    ∧ stats bd = statsOf e.
Proof.
  apply (bracket_stats_agree_with_leaderboard
           (mkParticipant 3 "M" "Cy" 300) 1 weighted lobby2025).
  - apply (bool_decide_unpack _). vm_compute. reflexivity.
  - concrete.
  - apply (bool_decide_unpack _). vm_compute. reflexivity.
  - concrete.
Defined.

Lemma set_add_elem x y s : y ∈ set_add x s ↔ y = x ∨ y ∈ s.
Proof.
  unfold set_add. case_bool_decide as Hin.
  - split; [by right|]. intros [->|?]; done.
  - rewrite elem_of_app, list_elem_of_singleton. tauto.
Qed.

Lemma loser_iff (w : option string) (x : string) :
  truthy (Some x) && negb (bool_decide (Some x = w)) = true
  ↔ x ≠ "" ∧ w ≠ Some x.
Proof.
  unfold truthy. rewrite andb_true_iff, !negb_true_iff, String.eqb_neq,
    bool_decide_eq_false. split; intros [? ?]; split; congruence.
Qed.

Lemma set_add_if (c : bool) (Q : Prop) x s t :
  (c = true ↔ Q) →
  t ∈ (if c then set_add x s else s) ↔ t ∈ s ∨ (t = x ∧ Q).
Proof.
  intros Hc. destruct c.
  - rewrite set_add_elem. tauto.
  - split; [by left|]. intros [?|[_ HQ]]; [done|].
    apply Hc in HQ. done.
Qed.

Lemma eliminate_elem E g t :
  t ∈ eliminate E g
  ↔ t ∈ E ∨ (completed g = true ∧ truthy (winner g) = true
             ∧ t ≠ "" ∧ winner g ≠ Some t
             ∧ (team_home g = t ∨ team_away g = t)).
Proof.
  unfold eliminate.
  destruct (completed g) eqn:Hc, (truthy (winner g)) eqn:Ht; cbn [andb];
    try (split; [by left|intros [?|(?&?&_)]; done]).
  rewrite (set_add_if _ _ _ _ _ (loser_iff (winner g) (team_away g))).
  rewrite (set_add_if _ _ _ _ _ (loser_iff (winner g) (team_home g))).
  split.
  - intros [[?|[-> [? ?]]]|[-> [? ?]]]; [by left|right..]; repeat split; auto.
  - intros [?|(_ & _ & ? & ? & [<-|<-])]; [by do 2 left| |]; tauto.
Qed.

Lemma eliminated_iff games t : ∀ E,
  t ∈ foldl eliminate E games ↔ t ∈ E ∨ lostIn games t.
Proof.
  unfold lostIn. induction games as [|g games IH]; intros E; simpl.
  - rewrite Exists_nil. tauto.
  - rewrite IH, eliminate_elem, Exists_cons. tauto.
Qed.

Lemma bracketStep_row pm E acc g :
  (bracketStep pm E acc g).2
  = acc.2 ++ (bracketStep pm E (stats_zero, []) g).2.
Proof.
  unfold bracketStep. cbn [snd app]. do 3 f_equal.
  destruct (pmap_get (id g) pm); [|done].
  by destruct (completed g && truthy (winner g)).
Qed.

Lemma bracketFold_rows pm E (G : list Game) : ∀ acc,
  (foldl (bracketStep pm E) acc G).2
  = acc.2 ++ (G ≫= λ g, (bracketStep pm E (stats_zero, []) g).2).
Proof.
  induction G as [|g G IH]; intros acc.
  - simpl. by rewrite app_nil_r.
  - cbn [foldl mbind list_bind]. rewrite IH, bracketStep_row.
    by rewrite <- app_assoc.
Qed.

Lemma Forall2_bind_singleton {A B} (R : A → B → Prop) (f : A → list B)
    (l : list A) :
  (∀ x, x ∈ l → ∃ y, f x = [y] ∧ R x y) → Forall2 R l (l ≫= f).
Proof.
  induction l as [|x l IH]; intros H; [constructor|].
  cbn [mbind list_bind]. destruct (H x ltac:(left)) as (y & -> & Hy).
  constructor; [done|]. apply IH. intros z Hz. apply H. by right.
Qed.

(** X16 — [getParticipantBracket] answers null, without writing, when no
    participant has the id.  For a stored participant it lists the games
    of the season in the order of [getGamesBySeason], each with the
    participant's prediction for it, judged as follows: no prediction, no
    verdict; on a completed game with a winner, right exactly when the
    predicted team is the winner; on any other game, wrong as soon as the
    predicted team is the loser of a completed game of the season, and
    undecided otherwise. *)
Theorem bracket_judges_each_pick (participantId seasonId : Z) (db : DB) :
  NoDup (pt_id <$> participants db) →
  one_pick_per_game db →
  match head (filter (λ pt, pt_id pt = participantId) (participants db)) with
  | None => getParticipantBracket participantId seasonId db = (Ok None, db)
  | Some pt =>
      ∃ bd,
        getParticipantBracket participantId seasonId db = (Ok (Some bd), db)
        ∧ bd_participant bd = (pt_id pt, pt_name pt)
        ∧ Forall2 (λ g row,
              bg_id row = id g ∧ bg_round row = round g
              ∧ gameNumber row = game_number g
              ∧ (teamHome row, teamAway row) = teams g
              ∧ bg_winner row = winner g ∧ bg_completed row = completed g
              ∧ bg_prediction row
                = (λ p, mkBracketPick (predicted_winner p) (predicted_opponent p))
                    <$> pickFor participantId g db
              ∧ bg_isCorrect row
                = judged (SELECT_games_WHERE_season_ORDERED seasonId db) g
                         (pickFor participantId g db))
            (SELECT_games_WHERE_season_ORDERED seasonId db) (bd_games bd)
  end.
Proof.
  intros Hnd Huniq.
  unfold getParticipantBracket, getParticipantById, getPredictionsByParticipant,
    getGamesBySeason.
  rewrite bind_runQuery.
  destruct (head (filter _ (participants db))) as [pt|] eqn:Hpt; [|done].
  rewrite !bind_runQuery.
  set (games := SELECT_games_WHERE_season_ORDERED seasonId db).
  set (P := filter (λ p, participant_id p = participantId) (predictions db)).
  pose proof (picks_NoDup db participantId Huniq) as HndP. fold P in HndP.
  eexists. split; [reflexivity|]. split; [done|]. cbn [bd_games].
  rewrite bracketFold_rows. cbn [snd app].
  rewrite (pmap_build P []) by (by rewrite app_nil_l). rewrite app_nil_l.
  apply Forall2_bind_singleton. intros g Hg.
  unfold bracketStep. cbn [fst snd app]. eexists. split; [reflexivity|].
  rewrite pmap_get_build.
  unfold pickFor, judged. fold P. cbn.
  do 6 (split; [done|]). split; [done|].
  destruct (head (filter _ P)) as [p|]; [|done]. cbn.
  destruct (completed g && truthy (winner g)); [done|]. cbn.
  unfold set_has. apply (f_equal (λ b : bool, if b then Some false else None)).
  apply bool_decide_ext. rewrite eliminated_iff, elem_of_nil. tauto.
Qed.

Lemma bracket_judges_each_pick_witness :
  getParticipantBracket 7 1 lobby2025 = (Ok None, lobby2025).
Proof.
  pose proof (bracket_judges_each_pick 7 1 lobby2025) as H.
  apply H.
  - apply (bool_decide_unpack _). vm_compute. reflexivity.
  - apply (bool_decide_unpack _). vm_compute. reflexivity.
Defined.

(** ** Scores from ESPN *)

Lemma foldM_skip {A} (f : Z → A → M Z) (l : list A) n db :
  (∀ x m, x ∈ l → f m x db = (Ok m, db)) → foldM f n l db = (Ok n, db).
Proof.
  revert n. induction l as [|x l IH]; intros n H; [done|].
  rewrite foldM_cons, bind_unfold, H by left.
  apply IH. intros y m Hy. apply H. by right.
Qed.

(** X17 — [updateSeasonScoresFromESPN] returns 0 and changes nothing when
    the scoreboard could not be fetched, and also when every game of the
    season is already completed or has no ESPN event id, as is the case of
    every game [generatePlayoffGamesFromSeeds] creates. *)
Theorem espn_update_without_candidates (fetched : option ESPNScoreboard)
    (seasonId : Z) (db : DB) :
  fetched = None ∨ espnCandidates seasonId db = [] →
  updateSeasonScoresFromESPN fetched seasonId db = (Ok 0, db).
Proof.
  intros H. unfold updateSeasonScoresFromESPN, getGamesBySeason.
  rewrite bind_runQuery. destruct fetched as [sb|]; [|done].
  destruct H as [?|Hnone]; [done|].
  apply foldM_skip. intros g m Hg. unfold updateFromEvent.
  destruct (completed g) eqn:Hc; [done|].
  destruct (truthy (espn_event_id g)) eqn:Ht; [|done].
  exfalso. apply (not_elem_of_nil g). rewrite <- Hnone.
  unfold espnCandidates. by apply list_elem_of_filter.
Qed.

Lemma espn_update_without_candidates_witness :
  updateSeasonScoresFromESPN
    (Some (mkESPNScoreboard
             [mkESPNEvent "401"
                [mkESPNCompetition [mkESPNCompetitor "BUF" (Some true);
                                    mkESPNCompetitor "PIT" None] true]]))
    1 bracket2025
  = (Ok 0, bracket2025).
Proof.
  apply espn_update_without_candidates. right. vm_compute. reflexivity.
Defined.

Lemma same_slot_ids (l l' : list Game) :
  Forall2 same_slot l l' → id <$> l' = id <$> l.
Proof.
  induction 1 as [|g g' l l' (Hid & _) _ IH]; [done|].
  by rewrite !fmap_cons, IH, Hid.
Qed.

Lemma same_slots_pk db db' : same_slots db db' → pk_unique db → pk_unique db'.
Proof.
  unfold same_slots, pk_unique. intros HF Hpk.
  by rewrite (same_slot_ids _ _ HF).
Qed.

Lemma same_slots_trans db1 db2 db3 :
  same_slots db1 db2 → same_slots db2 db3 → same_slots db1 db3.
Proof.
  unfold same_slots. intros H12 H23.
  eapply Forall2_trans_elem; [|exact H12|exact H23].
  intros x y z Hxy Hyz. by eapply same_slot_trans.
Qed.

Lemma same_tables_trans db1 db2 db3 :
  same_tables db1 db2 → same_tables db2 db3 → same_tables db1 db3.
Proof. unfold same_tables. intros (?&?&?&?) (?&?&?&?). repeat split; congruence. Qed.

(** What a winner-recording call keeps of a state [db0] it started from. *)
Lemma updateGameWinner_kept db0 k w db :
  pk_unique db ∧ same_slots db0 db ∧ same_tables db0 db →
  pk_unique (updateGameWinner k w db).2
  ∧ same_slots db0 (updateGameWinner k w db).2
  ∧ same_tables db0 (updateGameWinner k w db).2.
Proof.
  intros (Hpk & Hs & Ht).
  destruct (updateGameWinner_keeps k w db Hpk) as (HF & Ht' & _).
  assert (Hs' : same_slots db (updateGameWinner k w db).2).
  { unfold same_slots. eapply Forall2_impl; [exact HF|]. by intros ?? [? _]. }
  split; [exact (same_slots_pk _ _ Hs' Hpk)|].
  split; [exact (same_slots_trans _ _ _ Hs Hs')
         |exact (same_tables_trans _ _ _ Ht Ht')].
Qed.

Lemma updateFromEvent_kept db0 sb n g db :
  pk_unique db ∧ same_slots db0 db ∧ same_tables db0 db →
  (pk_unique (updateFromEvent sb n g db).2
   ∧ same_slots db0 (updateFromEvent sb n g db).2
   ∧ same_tables db0 (updateFromEvent sb n g db).2)
  ∧ ∀ m, (updateFromEvent sb n g db).1 = Ok m →
      m = n ∨ (m = n + 1 ∧ completed g = false
               ∧ truthy (espn_event_id g) = true).
Proof.
  intros HI. unfold updateFromEvent.
  destruct (completed g) eqn:Hc; [split; [done|]; intros m [= <-]; by left|].
  destruct (truthy (espn_event_id g)) eqn:Ht;
    [|split; [done|]; intros m [= <-]; by left].
  cbn [orb negb].
  destruct (head (filter _ (events sb))) as [ev|];
    [|split; [done|]; intros m [= <-]; by left].
  destruct (head (competitions ev)) as [c|]; [|by split].
  rewrite bind_deref_Some.
  destruct (status_completed c); cbn [negb];
    [|split; [done|]; intros m [= <-]; by left].
  destruct (head (filter _ (competitors c))) as [wn|];
    [|split; [done|]; intros m [= <-]; by left].
  rewrite bind_unfold.
  pose proof (updateGameWinner_kept db0 (id g) (team_abbreviation wn) db HI) as HK.
  destruct (updateGameWinner (id g) (team_abbreviation wn) db) as [[[]|e] db'];
    simpl in *; (split; [done|]); [|done].
  intros m [= <-]. by right.
Qed.

Lemma espn_loop_kept db0 sb l : ∀ n db,
  pk_unique db ∧ same_slots db0 db ∧ same_tables db0 db →
  (pk_unique (foldM (updateFromEvent sb) n l db).2
   ∧ same_slots db0 (foldM (updateFromEvent sb) n l db).2
   ∧ same_tables db0 (foldM (updateFromEvent sb) n l db).2)
  ∧ ∀ m, (foldM (updateFromEvent sb) n l db).1 = Ok m →
      n ≤ m ≤ n + Z.of_nat (length
                  (filter (λ g, completed g = false
                                ∧ truthy (espn_event_id g) = true) l)).
Proof.
  induction l as [|g l IH]; intros n db HI.
  - split; [done|]. intros m [= <-]. simpl. lia.
  - rewrite foldM_cons, bind_unfold.
    destruct (updateFromEvent_kept db0 sb n g db HI) as [HI1 Hn1].
    destruct (updateFromEvent sb n g db) as [[n1|e] db1]; simpl in *; [|by split].
    destruct (IH n1 db1 HI1) as [HI2 Hn2]. split; [done|].
    intros m Hm. specialize (Hn2 m Hm). rewrite filter_cons.
    destruct (Hn1 n1 eq_refl) as [->|(-> & Hc & Ht)].
    + destruct (decide _); rewrite ?length_cons; lia.
    + rewrite decide_True by done. rewrite length_cons. lia.
Qed.

(** X18 — Whether it returns or throws, [updateSeasonScoresFromESPN] adds
    and removes no game, changes no id, season, round, game number or ESPN
    id, and writes to no other table; the count it returns is between 0
    and the number of games of the season that were open with an ESPN
    event id when it started. *)
Theorem espn_update_frame (fetched : option ESPNScoreboard) (seasonId : Z)
    (db : DB) :
  pk_unique db →
  same_slots db (updateSeasonScoresFromESPN fetched seasonId db).2
  ∧ same_tables db (updateSeasonScoresFromESPN fetched seasonId db).2
  ∧ ∀ n, (updateSeasonScoresFromESPN fetched seasonId db).1 = Ok n →
      0 ≤ n ≤ Z.of_nat (length (espnCandidates seasonId db)).
Proof.
  intros Hpk. unfold updateSeasonScoresFromESPN, getGamesBySeason.
  rewrite bind_runQuery.
  assert (HI : pk_unique db ∧ same_slots db db ∧ same_tables db db).
  { split; [done|]. split; [|done].
    apply Forall2_diag_elem. intros g _. apply same_slot_refl. }
  destruct fetched as [sb|].
  - destruct (espn_loop_kept db sb (SELECT_games_WHERE_season_ORDERED seasonId db)
                0 db HI) as [(_ & Hs & Ht) Hn].
    split; [done|]. split; [done|]. intros n Hr. specialize (Hn n Hr).
    unfold espnCandidates. lia.
  - destruct HI as (_ & Hs & Ht). split; [done|]. split; [done|].
    intros n [= <-]. lia.
Qed.

Lemma espn_update_frame_witness :
  same_tables decided2025 (updateSeasonScoresFromESPN None 1 decided2025).2.
Proof.
  refine (proj1 (proj2 (espn_update_frame None 1 decided2025 _))). concrete.
Defined.

(** * The limits *)

Lemma orCurrent_row v c field st :
  system_config st = Some c →
  orCurrent v (system_config st) field st = (Ok (default (field c) v), st).
Proof. intros ->. by destruct v. Qed.

Lemma updateSystemConfig_run config c st :
  system_config st = Some c →
  updateSystemConfig config st
  = let c' := mkSystemConfig
                (Z.min (default (max_admins c) (new_max_admins config)) MAX_ADMINS)
                (Z.min (default (max_lobbies_per_admin c)
                          (new_max_lobbies_per_admin config))
                   MAX_LOBBIES_PER_ADMIN)
                (Z.min (default (max_participants_per_lobby c)
                          (new_max_participants_per_lobby config))
                   MAX_PARTICIPANTS_PER_LOBBY)
                (Z.min (default (max_active_seasons c)
                          (new_max_active_seasons config))
                   MAX_ACTIVE_SEASONS)
                (now st) in
    (Ok (Some c'),
     mkStore (tables st) (seeds_seq st) (participants_seq st)
             (predictions_seq st) (admins st) (seasons st) (seasons_seq st)
             (lobbies st) (Some c') (now st)).
Proof.
  intros Hc. unfold updateSystemConfig, getSystemConfig, runQueryS.
  destruct config as [[a|] [l|] [p|] [s|]];
    unfold orCurrent, derefS, runExecS, UPDATE_system_config, mbind, MS_bind,
      mret, MS_ret; cbn; by rewrite ?Hc.
Qed.

Lemma updateSystemConfig_no_row config st :
  system_config st = None →
  system_config (updateSystemConfig config st).2 = None
  ∧ same_data st (updateSystemConfig config st).2.
Proof.
  intros Hc. unfold updateSystemConfig, getSystemConfig, runQueryS.
  destruct config as [[a|] [l|] [p|] [s|]];
    unfold orCurrent, derefS, throwS, runExecS, UPDATE_system_config, mbind,
      MS_bind, mret, MS_ret; cbn; rewrite ?Hc; by repeat split.
Qed.

(** X19 — Whatever limits are asked for, and whatever the limits were, the
    limits in force after [updateSystemConfig] do not exceed the hard caps
    (1000 admins, 50 lobbies per admin, 500 participants per lobby, 20
    active seasons), and no other table is changed. *)
Theorem updateSystemConfig_never_exceeds_hard_caps (config : ConfigPatch)
    (st : Store) :
  same_data st (updateSystemConfig config st).2
  ∧ ∀ c, system_config (updateSystemConfig config st).2 = Some c
         → within_hard_caps c.
Proof.
  destruct (system_config st) as [c0|] eqn:Hc.
  - rewrite (updateSystemConfig_run _ c0) by done. cbn.
    split; [by repeat split|].
    intros c [= <-]. unfold within_hard_caps. cbn. lia.
  - destruct (updateSystemConfig_no_row config st Hc) as [Hn Hd].
    split; [done|]. intros c. by rewrite Hn.
Qed.

Lemma checkLimit_run count limit reason st :
  checkLimit count (Some limit) reason st
  = (Ok (mkLimitCheck (bool_decide (count < limit))
           (if bool_decide (count < limit) then None else Some (reason limit))),
     st).
Proof.
  unfold checkLimit, derefS, mbind, MS_bind, mret, MS_ret.
  destruct (Z.leb_spec limit count).
  - by rewrite bool_decide_eq_false_2 by lia.
  - by rewrite bool_decide_eq_true_2 by lia.
Qed.

Ltac run_check Hc :=
  unfold canCreateAdmin, canCreateLobby, canAddParticipant,
    canCreateActiveSeason, getSystemConfig, runQueryS;
  unfold mbind at 1 2, MS_bind at 1 2; rewrite Hc; cbn [fmap option_fmap option_map];
  rewrite checkLimit_run; eexists; reflexivity.

Lemma canCreateAdmin_run c st :
  system_config st = Some c →
  ∃ r, canCreateAdmin st
       = (Ok (mkLimitCheck
                (bool_decide (Z.of_nat (length (admins st)) < max_admins c)) r),
          st).
Proof. intros Hc. run_check Hc. Qed.

Lemma canCreateLobby_run adminId c st :
  system_config st = Some c →
  ∃ r, canCreateLobby adminId st
       = (Ok (mkLimitCheck
                (bool_decide
                   (Z.of_nat (length (filter (λ l, lb_admin_id l = adminId)
                                        (lobbies st)))
                    < max_lobbies_per_admin c)) r),
          st).
Proof. intros Hc. run_check Hc. Qed.

Lemma canAddParticipant_run lobbyId c st :
  system_config st = Some c →
  ∃ r, canAddParticipant lobbyId st
       = (Ok (mkLimitCheck
                (bool_decide
                   (Z.of_nat (length (filter (λ pt, lobby_id pt = lobbyId)
                                        (participants (tables st))))
                    < max_participants_per_lobby c)) r),
          st).
Proof. intros Hc. run_check Hc. Qed.

Lemma canCreateActiveSeason_run c st :
  system_config st = Some c →
  ∃ r, canCreateActiveSeason st
       = (Ok (mkLimitCheck
                (bool_decide (Z.of_nat (length (activeSeasons st))
                              < max_active_seasons c)) r),
          st).
Proof. intros Hc. run_check Hc. Qed.

(** X20 — After [updateSystemConfig], each of the four checks allows exactly
    while its count is below the smaller of the limit asked for (the limit
    in force when none is asked for) and the hard cap, and leaves the
    database as it is.  No request therefore makes a check allow a 1001st
    admin, a 51st lobby of an admin, a 501st participant of a lobby or a
    21st active season. *)
Theorem checks_after_updateSystemConfig (config : ConfigPatch)
    (c : SystemConfig) (st : Store) (adminId : Z) (lobbyId : string) :
  system_config st = Some c →
  let st' := (updateSystemConfig config st).2 in
  ∃ ra rl rp rs,
    canCreateAdmin st'
    = (Ok (mkLimitCheck
             (bool_decide
                (Z.of_nat (length (admins st))
                 < Z.min (default (max_admins c) (new_max_admins config))
                         MAX_ADMINS)) ra), st')
    ∧ canCreateLobby adminId st'
      = (Ok (mkLimitCheck
               (bool_decide
                  (Z.of_nat (length (filter (λ l, lb_admin_id l = adminId)
                                       (lobbies st)))
                   < Z.min (default (max_lobbies_per_admin c)
                              (new_max_lobbies_per_admin config))
                           MAX_LOBBIES_PER_ADMIN)) rl), st')
    ∧ canAddParticipant lobbyId st'
      = (Ok (mkLimitCheck
               (bool_decide
                  (Z.of_nat (length (filter (λ pt, lobby_id pt = lobbyId)
                                       (participants (tables st))))
                   < Z.min (default (max_participants_per_lobby c)
                              (new_max_participants_per_lobby config))
                           MAX_PARTICIPANTS_PER_LOBBY)) rp), st')
    ∧ canCreateActiveSeason st'
      = (Ok (mkLimitCheck
               (bool_decide
                  (Z.of_nat (length (activeSeasons st))
                   < Z.min (default (max_active_seasons c)
                              (new_max_active_seasons config))
                           MAX_ACTIVE_SEASONS)) rs), st').
Proof.
  intros Hc st'. subst st'.
  rewrite (updateSystemConfig_run config c st Hc). cbn [snd].
  set (st' := mkStore _ _ _ _ _ _ _ _ _ _).
  assert (Hc' : system_config st' = Some
            (mkSystemConfig
               (Z.min (default (max_admins c) (new_max_admins config)) MAX_ADMINS)
               (Z.min (default (max_lobbies_per_admin c)
                         (new_max_lobbies_per_admin config))
                  MAX_LOBBIES_PER_ADMIN)
               (Z.min (default (max_participants_per_lobby c)
                         (new_max_participants_per_lobby config))
                  MAX_PARTICIPANTS_PER_LOBBY)
               (Z.min (default (max_active_seasons c)
                         (new_max_active_seasons config))
                  MAX_ACTIVE_SEASONS)
               (now st))) by done.
  destruct (canCreateAdmin_run _ st' Hc') as [ra Ha].
  destruct (canCreateLobby_run adminId _ st' Hc') as [rl Hl].
  destruct (canAddParticipant_run lobbyId _ st' Hc') as [rp Hp].
  destruct (canCreateActiveSeason_run _ st' Hc') as [rs Hs].
  exists ra, rl, rp, rs. by rewrite Ha, Hl, Hp, Hs.
Qed.

Lemma checks_after_updateSystemConfig_witness :
  system_config store2025 = Some defaultConfig
  ∧ ∃ ra rl rp rs,
      let st' := (updateSystemConfig
                    (mkConfigPatch (Some 5000) None (Some 2) None) store2025).2 in
      canCreateAdmin st' = (Ok (mkLimitCheck true ra), st')
      ∧ canCreateLobby 1 st' = (Ok (mkLimitCheck true rl), st')
      ∧ canAddParticipant "L" st' = (Ok (mkLimitCheck false rp), st')
      ∧ canCreateActiveSeason st' = (Ok (mkLimitCheck true rs), st').
Proof.
  split; [reflexivity|].
  exact (checks_after_updateSystemConfig
           (mkConfigPatch (Some 5000) None (Some 2) None) defaultConfig
           store2025 1 "L" eq_refl).
Defined.

(** * Seeds *)

Lemma seed_key_eq s c n p :
  seed_key s c n p = true
  ↔ (ps_season_id p, conference_of p, seed p) = (s, c, n).
Proof.
  unfold seed_key. rewrite !andb_true_iff, !Z.eqb_eq, bool_decide_eq_true.
  split; [intros [[-> ->] ->]; done|]. by intros [= -> -> ->].
Qed.

Lemma setPlayoffSeed_rows s c n t st :
  playoff_seeds (tables (setPlayoffSeed s c n t st).2)
  = filter (λ p, seed_key s c n p = false) (playoff_seeds (tables st))
    ++ [mkPlayoffSeed
          (Z.max (seeds_seq st) (max_key ps_id (playoff_seeds (tables st))) + 1)
          s c n t].
Proof. done. Qed.

Lemma filter_key_other s c n s' c' n' (rows : list PlayoffSeed) :
  (s', c', n') ≠ (s, c, n) →
  filter (λ p, seed_key s' c' n' p = true)
         (filter (λ p, seed_key s c n p = false) rows)
  = filter (λ p, seed_key s' c' n' p = true) rows.
Proof.
  intros Hne. rewrite list_filter_filter. apply list_filter_iff. intros p.
  split; [tauto|]. intros Hp. split; [done|].
  destruct (seed_key s c n p) eqn:Hk; [|done].
  apply seed_key_eq in Hp, Hk. congruence.
Qed.

Lemma filter_key_same s c n (rows : list PlayoffSeed) :
  filter (λ p, seed_key s c n p = true)
         (filter (λ p, seed_key s c n p = false) rows) = [].
Proof.
  rewrite list_filter_filter. apply filter_none.
  intros p _ [? ?]. congruence.
Qed.

(** X21 — [setPlayoffSeed] is an upsert on the key (season, conference,
    seed): afterwards exactly one row has that key and it names the team
    given, the team stored under every other key is the one stored before,
    and nothing outside [playoff_seeds] is changed. *)
Theorem setPlayoffSeed_upsert (s : Z) (c : Conference) (n : Z) (t : string)
    (st : Store) :
  let st' := (setPlayoffSeed s c n t st).2 in
  (setPlayoffSeed s c n t st).1 = Ok tt
  ∧ team_abbr <$> filter (λ p, seed_key s c n p = true)
                         (playoff_seeds (tables st')) = [t]
  ∧ seedTeam s c n st' = Some t
  ∧ (∀ s' c' n', (s', c', n') ≠ (s, c, n)
                 → seedTeam s' c' n' st' = seedTeam s' c' n' st)
  ∧ games (tables st') = games (tables st)
  ∧ participants (tables st') = participants (tables st)
  ∧ predictions (tables st') = predictions (tables st)
  ∧ seasons st' = seasons st ∧ lobbies st' = lobbies st
  ∧ system_config st' = system_config st.
Proof.
  intros st'. subst st'. split; [done|].
  assert (Hkey : seed_key s c n
            (mkPlayoffSeed
               (Z.max (seeds_seq st)
                  (max_key ps_id (playoff_seeds (tables st))) + 1) s c n t)
            = true) by (by apply seed_key_eq).
  split; [|split; [|split; [|done]]].
  - rewrite setPlayoffSeed_rows, filter_app, filter_key_same.
    rewrite filter_cons, decide_True by done. done.
  - unfold seedTeam. rewrite setPlayoffSeed_rows, filter_app, filter_key_same.
    rewrite filter_cons, decide_True by done. done.
  - intros s' c' n' Hne. unfold seedTeam.
    rewrite setPlayoffSeed_rows, filter_app, filter_key_other by done.
    rewrite filter_cons, decide_False, filter_nil, app_nil_r; [done|].
    rewrite seed_key_eq. cbn. congruence.
Qed.

Lemma max_key_ge {A} (key : A → Z) (l : list A) x :
  x ∈ l → key x ≤ max_key key l.
Proof.
  unfold max_key. induction 1 as [x l|x y l _ IH]; cbn [foldr]; lia.
Qed.

Lemma max_key_nonneg {A} (key : A → Z) (l : list A) : 0 ≤ max_key key l.
Proof. unfold max_key. induction l; cbn [foldr]; lia. Qed.

Lemma NoDup_fmap_filter_of {A B} (f : A → B) (P : A → Prop)
    `{!∀ x, Decision (P x)} (l : list A) :
  NoDup (f <$> l) → NoDup (f <$> filter P l).
Proof.
  induction l as [|x l IH]; [done|]. rewrite fmap_cons, NoDup_cons.
  intros [Hx Hl]. rewrite filter_cons. destruct (decide (P x)); [|auto].
  rewrite fmap_cons, NoDup_cons. split; [|auto].
  intros Hin. apply Hx. apply list_elem_of_fmap in Hin as (y & -> & Hy).
  apply list_elem_of_fmap. exists y. split; [done|].
  by apply list_elem_of_filter in Hy as [_ ?].
Qed.

(** X22 — [setPlayoffSeed] keeps the table within its constraints: if no
    two rows of [playoff_seeds] share a key and no two share an id, the same
    holds afterwards, whether the call inserted a row or replaced one. *)
Theorem setPlayoffSeed_keeps_constraints (s : Z) (c : Conference) (n : Z)
    (t : string) (st : Store) :
  seeds_unique st →
  NoDup (ps_id <$> playoff_seeds (tables st)) →
  seeds_unique (setPlayoffSeed s c n t st).2
  ∧ NoDup (ps_id <$> playoff_seeds (tables (setPlayoffSeed s c n t st).2)).
Proof.
  unfold seeds_unique. intros Hu Hid. rewrite setPlayoffSeed_rows.
  rewrite !fmap_app, !fmap_cons, !fmap_nil. cbn [ps_season_id conference_of seed ps_id].
  split.
  - apply NoDup_app. split; [by apply NoDup_fmap_filter_of|]. split.
    + intros k Hk. rewrite list_elem_of_singleton. intros ->.
      apply list_elem_of_fmap in Hk as (p & Hp & Hin).
      apply list_elem_of_filter in Hin as [Hf _].
      symmetry in Hp. apply seed_key_eq in Hp. congruence.
    + apply NoDup_singleton.
  - apply NoDup_app. split; [by apply NoDup_fmap_filter_of|]. split.
    + intros k Hk. rewrite list_elem_of_singleton. intros ->.
      apply list_elem_of_fmap in Hk as (p & Hp & Hin).
      apply list_elem_of_filter in Hin as [_ Hin].
      pose proof (max_key_ge ps_id _ _ Hin). lia.
    + apply NoDup_singleton.
Qed.

Lemma setPlayoffSeed_keeps_constraints_witness :
  seeds_unique seedStore2025
  ∧ NoDup (ps_id <$> playoff_seeds (tables seedStore2025))
  ∧ seeds_unique (setPlayoffSeed 1 AFC 7 "NE" seedStore2025).2
  ∧ NoDup (ps_id <$> playoff_seeds
             (tables (setPlayoffSeed 1 AFC 7 "NE" seedStore2025).2)).
Proof.
  assert (H1 : seeds_unique seedStore2025)
    by (apply (bool_decide_unpack _); vm_compute; reflexivity).
  assert (H2 : NoDup (ps_id <$> playoff_seeds (tables seedStore2025)))
    by (apply (bool_decide_unpack _); vm_compute; reflexivity).
  split; [exact H1|]. split; [exact H2|].
  exact (setPlayoffSeed_keeps_constraints 1 AFC 7 "NE" seedStore2025 H1 H2).
Defined.

(** * Participants and predictions *)

Lemma name_taken_iff lobbyId name pts :
  name_taken lobbyId name pts = true
  ↔ (lobbyId, name) ∈ ((λ pt, (lobby_id pt, pt_name pt)) <$> pts).
Proof.
  unfold name_taken. rewrite existsb_exists, list_elem_of_fmap.
  split.
  - intros (pt & Hin & Hpt). exists pt.
    apply andb_true_iff in Hpt as [->%String.eqb_eq ->%String.eqb_eq].
    split; [done|]. by apply list_elem_of_In.
  - intros (pt & [= -> ->] & Hin). exists pt.
    split; [by apply list_elem_of_In|]. by rewrite !String.eqb_refl.
Qed.

Lemma head_filter_fresh {A} (key : A → Z) (l : list A) (x : A) :
  max_key key l < key x →
  head (filter (λ y, key y = key x) (l ++ [x])) = Some x.
Proof.
  intros Hlt. rewrite filter_app, filter_none.
  - by rewrite filter_cons, decide_True.
  - intros y Hy Heq. pose proof (max_key_ge key _ _ Hy). lia.
Qed.

Lemma addParticipant_run lobbyId name st :
  name_taken lobbyId name (participants (tables st)) = false →
  addParticipant lobbyId name st
  = let k := Z.max (participants_seq st)
                   (max_key pt_id (participants (tables st))) + 1 in
    let pt := mkParticipant k lobbyId name (now st) in
    (Ok (Some pt),
     mkStore (set_participants (λ pts, pts ++ [pt]) (tables st))
             (seeds_seq st) k (predictions_seq st) (admins st) (seasons st)
             (seasons_seq st) (lobbies st) (system_config st) (now st)).
Proof.
  intros Hfree. unfold addParticipant, runInsert_participant, mbind, MS_bind.
  rewrite Hfree. unfold liftDB, getParticipantById, runQuery, set_tables.
  cbn [fst snd tables set_participants participants seeds_seq participants_seq
       predictions_seq admins seasons seasons_seq lobbies system_config now].
  set (k := Z.max _ _ + 1).
  rewrite (head_filter_fresh pt_id _ (mkParticipant k lobbyId name (now st)))
    by (cbn; lia).
  by destruct (tables st).
Qed.

Lemma addParticipant_taken lobbyId name st :
  name_taken lobbyId name (participants (tables st)) = true →
  addParticipant lobbyId name st
  = (Throw (Error "UNIQUE constraint failed: participants.lobby_id, participants.name"), st).
Proof.
  intros Htaken. unfold addParticipant, runInsert_participant, mbind, MS_bind.
  by rewrite Htaken.
Qed.

(** X23 — [addParticipant] either fails or appends one row.  It throws,
    changing nothing, exactly when the lobby already has a participant of
    that name.  Otherwise it returns the stored row — never [undefined] —
    carrying the lobby and the name given and an id no participant has, and
    that row is appended to [participants]; every other table is as
    before. *)
Theorem addParticipant_appends_or_throws (lobbyId name : string) (st : Store) :
  match addParticipant lobbyId name st with
  | (Ok (Some pt), st') =>
      ((lobbyId, name) ∉ ((λ pt, (lobby_id pt, pt_name pt))
                            <$> participants (tables st)))
      ∧ lobby_id pt = lobbyId ∧ pt_name pt = name
      ∧ (pt_id pt ∉ (pt_id <$> participants (tables st)))
      ∧ participants (tables st') = participants (tables st) ++ [pt]
      ∧ predictions (tables st') = predictions (tables st)
      ∧ games (tables st') = games (tables st)
      ∧ playoff_seeds (tables st') = playoff_seeds (tables st)
      ∧ lobbies st' = lobbies st ∧ seasons st' = seasons st
      ∧ system_config st' = system_config st
  | (Ok None, _) => False
  | (Throw e, st') =>
      (lobbyId, name) ∈ ((λ pt, (lobby_id pt, pt_name pt))
                           <$> participants (tables st))
      ∧ st' = st
  end.
Proof.
  destruct (name_taken lobbyId name (participants (tables st))) eqn:Ht.
  - rewrite addParticipant_taken by done. split; [|done].
    by apply name_taken_iff.
  - rewrite addParticipant_run by done. cbn.
    split. { rewrite <- name_taken_iff. congruence. }
    do 2 (split; [done|]). split; [|done].
    intros (pt & Hid & Hin)%list_elem_of_fmap.
    pose proof (max_key_ge pt_id _ _ Hin). lia.
Qed.

(** X24 — A participant admitted after [canAddParticipant] allowed it
    leaves the lobby within its limit: if the check allows and the name is
    free, [addParticipant] succeeds, the lobby has one participant more and
    no more than [max_participants_per_lobby], and the other lobbies have
    as many as before. *)
Theorem admitted_participant_within_limit (lobbyId name : string)
    (c : SystemConfig) (chk : LimitCheck) (st : Store) :
  system_config st = Some c →
  canAddParticipant lobbyId st = (Ok chk, st) →
  allowed chk = true →
  name_taken lobbyId name (participants (tables st)) = false →
  ∃ pt st',
    addParticipant lobbyId name st = (Ok (Some pt), st')
    ∧ lobbySize lobbyId st' = lobbySize lobbyId st + 1
    ∧ lobbySize lobbyId st' ≤ max_participants_per_lobby c
    ∧ ∀ other, other ≠ lobbyId → lobbySize other st' = lobbySize other st.
Proof.
  intros Hc Hchk Hallowed Hfree.
  destruct (canAddParticipant_run lobbyId c st Hc) as [r Hrun].
  rewrite Hrun in Hchk. injection Hchk as <-. cbn in Hallowed.
  apply bool_decide_eq_true in Hallowed.
  rewrite addParticipant_run by done. cbn zeta.
  eexists _, _. split; [reflexivity|].
  unfold lobbySize in *. cbn [tables set_participants participants].
  rewrite filter_app, filter_cons, decide_True, length_app by done.
  rewrite filter_nil. cbn [length]. split; [lia|]. split; [lia|].
  intros other Hne. rewrite filter_app, filter_cons, decide_False by done.
  by rewrite filter_nil, app_nil_r.
Qed.

Lemma admitted_participant_within_limit_witness :
  ∃ pt st',
    addParticipant "L" "Dee" store2025 = (Ok (Some pt), st')
    ∧ lobbySize "L" st' = lobbySize "L" store2025 + 1
    ∧ lobbySize "L" st' ≤ max_participants_per_lobby defaultConfig
    ∧ ∀ other, other ≠ "L" → lobbySize other st' = lobbySize other store2025.
Proof.
  apply (admitted_participant_within_limit "L" "Dee" defaultConfig
           (mkLimitCheck true None) store2025);
    vm_compute; reflexivity.
Defined.

Lemma pick_taken_iff participantId gameId ps :
  pick_taken participantId gameId ps = true
  ↔ (participantId, gameId) ∈ ((λ p, (participant_id p, game_id p)) <$> ps).
Proof.
  unfold pick_taken. rewrite existsb_exists, list_elem_of_fmap.
  split.
  - intros (p & Hin & Hp). exists p.
    apply andb_true_iff in Hp as [->%Z.eqb_eq ->%Z.eqb_eq].
    split; [done|]. by apply list_elem_of_In.
  - intros (p & [= -> ->] & Hin). exists p.
    split; [by apply list_elem_of_In|]. by rewrite !Z.eqb_refl.
Qed.

Lemma addPrediction_run participantId gameId w o st :
  pick_taken participantId gameId (predictions (tables st)) = false →
  addPrediction participantId gameId w o st
  = let k := Z.max (predictions_seq st)
                   (max_key pr_id (predictions (tables st))) + 1 in
    (Ok tt,
     mkStore (set_predictions
                (λ ps, ps ++ [mkPrediction k participantId gameId w
                                (orNull_string o)])
                (tables st))
             (seeds_seq st) (participants_seq st) k (admins st) (seasons st)
             (seasons_seq st) (lobbies st) (system_config st) (now st)).
Proof. intros Hfree. unfold addPrediction. by rewrite Hfree. Qed.

Lemma addPrediction_taken participantId gameId w o st :
  pick_taken participantId gameId (predictions (tables st)) = true →
  addPrediction participantId gameId w o st
  = (Throw (Error "UNIQUE constraint failed: predictions.participant_id, predictions.game_id"), st).
Proof. intros Htaken. unfold addPrediction. by rewrite Htaken. Qed.

(** X25 — [addPrediction] stores at most one pick per participant and
    game.  It throws, changing nothing, exactly when the participant
    already has a pick for the game.  Otherwise the picks of that
    participant are the ones stored before followed by the new pick, whose
    opponent is null when the one given is missing or empty; the picks of
    everyone else are as before; and if no participant had two picks for a
    game, none has afterwards. *)
Theorem addPrediction_one_pick_per_game (participantId gameId : Z)
    (w : string) (o : option string) (st : Store) :
  one_pick_per_game (tables st) →
  match addPrediction participantId gameId w o st with
  | (Ok _, st') =>
      ((participantId, gameId)
         ∉ ((λ p, (participant_id p, game_id p)) <$> predictions (tables st)))
      ∧ (∃ k, (getPredictionsByParticipant participantId (tables st')).1
              = Ok (filter (λ p, participant_id p = participantId)
                      (predictions (tables st))
                    ++ [mkPrediction k participantId gameId w
                          (if truthy o then o else None)]))
      ∧ (∀ other, other ≠ participantId
           → getPredictionsByParticipant other (tables st')
             = (Ok (filter (λ p, participant_id p = other)
                      (predictions (tables st))), tables st'))
      ∧ one_pick_per_game (tables st')
      ∧ participants (tables st') = participants (tables st)
      ∧ games (tables st') = games (tables st)
  | (Throw e, st') =>
      (participantId, gameId)
        ∈ ((λ p, (participant_id p, game_id p)) <$> predictions (tables st))
      ∧ st' = st
  end.
Proof.
  intros Hone.
  destruct (pick_taken participantId gameId (predictions (tables st))) eqn:Ht.
  - rewrite addPrediction_taken by done. split; [|done].
    by apply pick_taken_iff.
  - rewrite addPrediction_run by done. cbn zeta.
    assert (Hfresh : (participantId, gameId)
              ∉ ((λ p, (participant_id p, game_id p))
                   <$> predictions (tables st))).
    { rewrite <- pick_taken_iff. congruence. }
    split; [done|].
    unfold getPredictionsByParticipant, runQuery, one_pick_per_game in *.
    cbn [tables set_predictions predictions participants games fst].
    split; [|split; [|split; [|done]]].
    + eexists. rewrite filter_app, filter_cons, decide_True by done.
      reflexivity.
    + intros other Hne. rewrite filter_app, filter_cons, decide_False by done.
      by rewrite filter_nil, app_nil_r.
    + rewrite fmap_app. apply NoDup_app. split; [done|]. split.
      * intros k Hk. cbn. rewrite list_elem_of_singleton. by intros ->.
      * apply NoDup_singleton.
Qed.

Lemma addPrediction_one_pick_per_game_witness :
  one_pick_per_game (tables store2025)
  ∧ one_pick_per_game (tables (addPrediction 1 2 "BAL" (Some "") store2025).2)
  ∧ (addPrediction 1 1 "LAC" None store2025).2 = store2025.
Proof.
  assert (H1 : one_pick_per_game (tables store2025))
    by (apply (bool_decide_unpack _); vm_compute; reflexivity).
  split; [exact H1|].
  destruct (addPrediction_one_pick_per_game 1 2 "BAL" (Some "") store2025 H1)
    as (_ & _ & _ & Hone & _).
  destruct (addPrediction_one_pick_per_game 1 1 "LAC" None store2025 H1)
    as [_ Hsame].
  split; [exact Hone | exact Hsame].
Defined.

Lemma same_but_predictions_refl st : same_but_predictions st st.
Proof. by repeat split. Qed.

Lemma same_but_predictions_trans st1 st2 st3 :
  same_but_predictions st1 st2 → same_but_predictions st2 st3
  → same_but_predictions st1 st3.
Proof.
  unfold same_but_predictions. intros H12 H23.
  destruct_and!. repeat split; congruence.
Qed.

Lemma MS_bind_run {A B} (m : MS A) (f : A → MS B) (st : Store) :
  (m ≫= f) st
  = match m st with
    | (Ok a, st') => f a st'
    | (Throw e, st') => (Throw e, st')
    end.
Proof. done. Qed.

Lemma pick_taken_app participantId gameId ps qs :
  pick_taken participantId gameId (ps ++ qs)
  = pick_taken participantId gameId ps || pick_taken participantId gameId qs.
Proof. unfold pick_taken. apply existsb_app. Qed.

Lemma forS_app {A} (f : A → MS unit) (l1 l2 : list A) (st : Store) :
  forS_ f (l1 ++ l2) st
  = match forS_ f l1 st with
    | (Ok _, st1) => forS_ f l2 st1
    | (Throw e, st1) => (Throw e, st1)
    end.
Proof.
  revert st. induction l1 as [|x l1 IH]; intros st; [done|].
  cbn [app forS_]. unfold mbind, MS_bind.
  destruct (f x st) as [[[]|e] st1]; [apply IH|done].
Qed.

(** The loop of [createTestParticipant] over picks for distinct games, none
    of which the participant has a pick for. *)
Lemma addPrediction_loop (pt : Participant) (picks : list PickInput) :
  ∀ st,
    NoDup (in_gameId <$> picks) →
    Forall (λ i, pick_taken (pt_id pt) (in_gameId i) (predictions (tables st))
                 = false) picks →
    ∃ rows st',
      forS_ (λ pred,
               participant ← derefS (Some pt);
               addPrediction (pt_id participant) (in_gameId pred)
                 (in_predictedWinner pred) (in_predictedOpponent pred))
            picks st
      = (Ok tt, st')
      ∧ predictions (tables st') = predictions (tables st) ++ rows
      ∧ Forall (λ r, participant_id r = pt_id pt) rows
      ∧ storedPick <$> rows = submittedPick <$> picks
      ∧ same_but_predictions st st'.
Proof.
  induction picks as [|i picks IH]; intros st Hnd Hfree.
  - exists [], st. rewrite app_nil_r. repeat split; constructor.
  - rewrite fmap_cons in Hnd. apply NoDup_cons in Hnd as [Hi Hnd].
    apply Forall_cons in Hfree as [Hfi Hfree].
    cbn [forS_]. unfold mbind at 1, MS_bind at 1.
    unfold derefS at 1, mbind at 1, MS_bind at 1, mret at 1, MS_ret at 1.
    rewrite addPrediction_run by done. cbn zeta.
    set (row := mkPrediction _ _ _ _ _).
    set (st1 := mkStore _ _ _ _ _ _ _ _ _ _).
    destruct (IH st1 Hnd) as (rows & st' & Hrun & Hrows & Hpid & Hpicks & Hsame).
    { apply Forall_forall. intros j Hj.
      subst st1. cbn [tables set_predictions predictions].
      rewrite pick_taken_app. rewrite Forall_forall in Hfree.
      rewrite (Hfree j Hj). cbn. rewrite orb_false_r.
      apply andb_false_intro2. apply Z.eqb_neq. intros Heq.
      apply Hi. rewrite Heq. apply list_elem_of_fmap. by exists j. }
    exists (row :: rows), st'. split; [exact Hrun|].
    split. { rewrite Hrows. subst st1. cbn. by rewrite <- app_assoc. }
    split. { by constructor. }
    split. { rewrite !fmap_cons. by f_equal. }
    eapply same_but_predictions_trans; [|exact Hsame].
    by repeat split.
Qed.

Lemma fresh_participant_has_no_pick k gameId db :
  predictions_have_participants db →
  max_key pt_id (participants db) < k →
  pick_taken k gameId (predictions db) = false.
Proof.
  intros Hhave Hk. apply not_true_is_false. intros Ht.
  apply pick_taken_iff in Ht.
  apply list_elem_of_fmap in Ht as (p & [= Hp _] & Hin).
  unfold predictions_have_participants in Hhave. rewrite Forall_forall in Hhave.
  specialize (Hhave p Hin). apply list_elem_of_fmap in Hhave as (q & Hq & Hqin).
  pose proof (max_key_ge pt_id _ _ Hqin). lia.
Qed.

Lemma filter_all_of {A} (P : A → Prop) `{!∀ x, Decision (P x)} (l : list A) :
  Forall P l → filter P l = l.
Proof.
  induction 1 as [|x l Hx _ IH]; [done|].
  by rewrite filter_cons, decide_True, IH.
Qed.

(** X26 — [createTestParticipant] registers a participant with exactly the
    picks given.  If the name is free in the lobby, the picks are for
    distinct games and every stored prediction belongs to a stored
    participant, then the call returns the new participant, whose stored
    picks are the picks given, in order (an empty or missing opponent being
    stored as null); the picks of every other participant are as before;
    and the two invariants — every prediction has a participant, no
    participant has two picks for a game — still hold. *)
Theorem createTestParticipant_stores_the_picks (lobbyId name : string)
    (picks : list PickInput) (st : Store) :
  name_taken lobbyId name (participants (tables st)) = false →
  NoDup (in_gameId <$> picks) →
  predictions_have_participants (tables st) →
  one_pick_per_game (tables st) →
  ∃ pt st',
    createTestParticipant lobbyId name picks st = (Ok (Some pt), st')
    ∧ participants (tables st') = participants (tables st) ++ [pt]
    ∧ lobby_id pt = lobbyId ∧ pt_name pt = name
    ∧ storedPick <$> filter (λ p, participant_id p = pt_id pt)
                       (predictions (tables st'))
      = submittedPick <$> picks
    ∧ filter (λ p, participant_id p ≠ pt_id pt) (predictions (tables st'))
      = predictions (tables st)
    ∧ predictions_have_participants (tables st')
    ∧ one_pick_per_game (tables st').
Proof.
  intros Hfree Hnd Hhave Hone.
  unfold createTestParticipant. rewrite MS_bind_run.
  rewrite addParticipant_run by done. cbn zeta.
  set (k := Z.max _ _ + 1).
  set (pt := mkParticipant k lobbyId name (now st)).
  set (st1 := mkStore _ _ _ _ _ _ _ _ _ _).
  assert (Hk : max_key pt_id (participants (tables st)) < k) by (subst k; lia).
  assert (Hnone : ∀ g, pick_taken k g (predictions (tables st)) = false).
  { intros g. by apply fresh_participant_has_no_pick. }
  destruct (addPrediction_loop pt picks st1 Hnd)
    as (rows & st' & Hrun & Hrows & Hpid & Hpicks & Hsame).
  { apply Forall_forall. intros i _. apply Hnone. }
  rewrite MS_bind_run, Hrun. unfold mret, MS_ret.
  exists pt, st'.
  destruct Hsame as (_ & _ & Hpts & _).
  assert (Hold : Forall (λ p, participant_id p ≠ k) (predictions (tables st))).
  { apply Forall_forall. intros p Hin Heq.
    specialize (Hnone (game_id p)). apply not_true_iff_false in Hnone.
    apply Hnone, pick_taken_iff, list_elem_of_fmap. exists p.
    split; [by rewrite Heq|done]. }
  change (predictions (tables st1)) with (predictions (tables st)) in Hrows.
  change (participants (tables st1))
    with (participants (tables st) ++ [pt]) in Hpts.
  split; [done|]. split; [done|]. split; [done|]. split; [done|].
  rewrite Hrows, !filter_app. cbn [pt_id pt].
  split; [|split; [|split]].
  - rewrite filter_none, (filter_all_of _ rows) by
      (first [done | intros p Hp Heq; rewrite Forall_forall in Hold;
                     by apply (Hold p Hp)]).
    done.
  - rewrite (filter_all_of _ (predictions (tables st))) by done.
    rewrite filter_none, app_nil_r; [done|].
    intros p Hp Hne. rewrite Forall_forall in Hpid. by apply Hne, Hpid.
  - unfold predictions_have_participants in *. rewrite Hrows, Hpts.
    apply Forall_app. split.
    + eapply Forall_impl; [exact Hhave|]. intros p Hp. cbn beta in Hp.
      rewrite fmap_app. apply elem_of_app. by left.
    + eapply Forall_impl; [exact Hpid|]. intros p Hp. cbn beta in Hp.
      rewrite fmap_app. apply elem_of_app. right. rewrite Hp.
      apply list_elem_of_singleton. done.
  - unfold one_pick_per_game in *. rewrite Hrows, fmap_app.
    apply NoDup_app. split; [done|]. split.
    + intros [a b] Hab Hab'.
      apply list_elem_of_fmap in Hab as (p & [= -> ->] & Hp).
      apply list_elem_of_fmap in Hab' as (r & [= Hr1 Hr2] & Hr).
      rewrite Forall_forall in Hold, Hpid.
      apply (Hold p Hp). rewrite Hr1. by apply Hpid.
    + assert (Hg : game_id <$> rows = in_gameId <$> picks).
      { apply (f_equal (fmap (λ x : Z * string * option string, x.1.1)))
          in Hpicks.
        by rewrite <- !list_fmap_compose in Hpicks. }
      apply (NoDup_fmap_1 snd). rewrite <- list_fmap_compose.
      change (snd ∘ _) with game_id. by rewrite Hg.
Qed.

Lemma createTestParticipant_stores_the_picks_witness :
  ∃ pt st',
    createTestParticipant "L" "Dee"
      [mkPickInput 1 "BUF" (Some "LAC"); mkPickInput 2 "BAL" (Some "")]
      store2025 = (Ok (Some pt), st')
    ∧ participants (tables st') = participants (tables store2025) ++ [pt]
    ∧ lobby_id pt = "L" ∧ pt_name pt = "Dee"
    ∧ storedPick <$> filter (λ p, participant_id p = pt_id pt)
                       (predictions (tables st'))
      = [(1, "BUF", Some "LAC"); (2, "BAL", None)]
    ∧ filter (λ p, participant_id p ≠ pt_id pt) (predictions (tables st'))
      = predictions (tables store2025)
    ∧ predictions_have_participants (tables st')
    ∧ one_pick_per_game (tables st').
Proof.
  apply (createTestParticipant_stores_the_picks "L" "Dee"
           [mkPickInput 1 "BUF" (Some "LAC"); mkPickInput 2 "BAL" (Some "")]
           store2025);
    first [ reflexivity
          | apply (bool_decide_unpack _); vm_compute; reflexivity ].
Defined.

(** X27 — [createTestParticipant] does not undo what it has done when a
    pick fails.  If the picks given name a game twice, the call throws at
    the second pick for that game; the participant stays registered under
    the name given, with the picks that preceded the repeated one. *)
Theorem createTestParticipant_repeated_game (lobbyId name : string)
    (before : list PickInput) (again : PickInput) (after : list PickInput)
    (st : Store) :
  name_taken lobbyId name (participants (tables st)) = false →
  NoDup (in_gameId <$> before) →
  in_gameId again ∈ in_gameId <$> before →
  predictions_have_participants (tables st) →
  ∃ pt st',
    createTestParticipant lobbyId name (before ++ again :: after) st
    = (Throw (Error "UNIQUE constraint failed: predictions.participant_id, predictions.game_id"), st')
    ∧ participants (tables st') = participants (tables st) ++ [pt]
    ∧ lobby_id pt = lobbyId ∧ pt_name pt = name
    ∧ storedPick <$> filter (λ p, participant_id p = pt_id pt)
                       (predictions (tables st'))
      = submittedPick <$> before.
Proof.
  intros Hfree Hnd Hagain Hhave.
  unfold createTestParticipant. rewrite MS_bind_run.
  rewrite addParticipant_run by done. cbn zeta.
  set (k := Z.max _ _ + 1).
  set (pt := mkParticipant k lobbyId name (now st)).
  set (st1 := mkStore _ _ _ _ _ _ _ _ _ _).
  assert (Hk : max_key pt_id (participants (tables st)) < k) by (subst k; lia).
  assert (Hnone : ∀ g, pick_taken k g (predictions (tables st)) = false).
  { intros g. by apply fresh_participant_has_no_pick. }
  destruct (addPrediction_loop pt before st1 Hnd)
    as (rows & st' & Hrun & Hrows & Hpid & Hpicks & Hsame).
  { apply Forall_forall. intros i _. apply Hnone. }
  rewrite MS_bind_run, forS_app, Hrun. cbn [forS_].
  rewrite MS_bind_run.
  unfold derefS at 1. rewrite MS_bind_run. unfold mret at 1, MS_ret at 1.
  assert (Hg : game_id <$> rows = in_gameId <$> before).
  { apply (f_equal (fmap (λ x : Z * string * option string, x.1.1))) in Hpicks.
    by rewrite <- !list_fmap_compose in Hpicks. }
  rewrite addPrediction_taken.
  2:{ apply pick_taken_iff. rewrite Hrows, fmap_app. apply elem_of_app. right.
      rewrite <- Hg in Hagain. apply list_elem_of_fmap in Hagain as (r & Hr & Hin).
      apply list_elem_of_fmap. exists r. split; [|done].
      rewrite Forall_forall in Hpid. by rewrite (Hpid r Hin), Hr. }
  exists pt, st'. destruct Hsame as (_ & _ & Hpts & _).
  split; [done|]. split; [exact Hpts|]. split; [done|]. split; [done|].
  change (predictions (tables st1)) with (predictions (tables st)) in Hrows.
  rewrite Hrows, filter_app. cbn [pt_id pt].
  rewrite filter_none, (filter_all_of _ rows); [done|done|].
  intros p Hp Heq. specialize (Hnone (game_id p)).
  apply not_true_iff_false in Hnone.
  apply Hnone, pick_taken_iff, list_elem_of_fmap. exists p.
  split; [by rewrite Heq|done].
Qed.

Lemma createTestParticipant_repeated_game_witness :
  ∃ pt st',
    createTestParticipant "L" "Dee"
      ([mkPickInput 1 "BUF" None; mkPickInput 2 "BAL" None]
       ++ mkPickInput 1 "LAC" None :: [mkPickInput 3 "HOU" None])
      store2025
    = (Throw (Error "UNIQUE constraint failed: predictions.participant_id, predictions.game_id"), st')
    ∧ participants (tables st') = participants (tables store2025) ++ [pt]
    ∧ lobby_id pt = "L" ∧ pt_name pt = "Dee"
    ∧ storedPick <$> filter (λ p, participant_id p = pt_id pt)
                       (predictions (tables st'))
      = [(1, "BUF", None); (2, "BAL", None)].
Proof.
  apply (createTestParticipant_repeated_game "L" "Dee"
           [mkPickInput 1 "BUF" None; mkPickInput 2 "BAL" None]
           (mkPickInput 1 "LAC" None) [mkPickInput 3 "HOU" None] store2025);
    first [ reflexivity
          | apply (bool_decide_unpack _); vm_compute; reflexivity ].
Defined.

(** * Deleting a lobby *)

Lemma lobbyParticipantIds_elem k lobbyId db :
  k ∈ lobbyParticipantIds lobbyId db
  ↔ ∃ pt, pt ∈ participants db ∧ pt_id pt = k ∧ lobby_id pt = lobbyId.
Proof.
  unfold lobbyParticipantIds, SELECT_participants_WHERE_lobby_ORDERED.
  rewrite list_elem_of_fmap. split.
  - intros (pt & -> & Hin). apply elem_of_js_sort in Hin.
    apply list_elem_of_filter in Hin as [? ?]. by exists pt.
  - intros (pt & Hin & <- & Hl). exists pt. split; [done|].
    apply elem_of_js_sort, list_elem_of_filter. done.
Qed.

Lemma deleteLobby_run lobbyId st :
  deleteLobby lobbyId st
  = (Ok tt,
     mkStore
       (mkDB (games (tables st)) (games_seq (tables st))
             (playoff_seeds (tables st))
             (filter (λ pt, lobby_id pt ≠ lobbyId) (participants (tables st)))
             (filter (λ p, participant_id p
                           ∉ lobbyParticipantIds lobbyId (tables st))
                     (predictions (tables st))))
       (seeds_seq st) (participants_seq st) (predictions_seq st) (admins st)
       (seasons st) (seasons_seq st)
       (filter (λ l, lb_id l ≠ lobbyId) (lobbies st))
       (system_config st) (now st)).
Proof.
  unfold deleteLobby. rewrite MS_bind_run.
  unfold liftDB at 1, getParticipantsByLobby, runQuery. cbn [fst snd].
  fold (lobbyParticipantIds lobbyId (tables st)).
  assert (Hst : set_tables (λ _, tables st) st = st) by (by destruct st).
  rewrite Hst. rewrite MS_bind_run.
  assert (Hparts : ∀ db : DB,
            filter (λ pt, String.eqb (lobby_id pt) lobbyId = false)
                   (participants db)
            = filter (λ pt, lobby_id pt ≠ lobbyId) (participants db)).
  { intros db. apply list_filter_iff. intros pt.
    by rewrite String.eqb_neq. }
  case_bool_decide as Hlen.
  - unfold liftDB, runExec, runExecS, set_tables, set_lobbies,
      DELETE_predictions, DELETE_participants, set_predictions,
      set_participants. cbn. rewrite MS_bind_run. cbn.
    do 3 f_equal; [apply Hparts|].
    apply list_filter_iff. intros p. by rewrite bool_decide_eq_false.
  - assert (Hnil : lobbyParticipantIds lobbyId (tables st) = []).
    { destruct (lobbyParticipantIds _ _); [done|]. cbn in Hlen. lia. }
    unfold mret at 1, MS_ret at 1.
    unfold liftDB, runExec, runExecS, set_tables, set_lobbies,
      DELETE_participants, set_participants. rewrite MS_bind_run. cbn.
    do 3 f_equal; [apply Hparts|].
    rewrite Hnil. symmetry. apply filter_all. intros p _. apply not_elem_of_nil.
Qed.

Lemma same_id_same_lobby (pts : list Participant) (x y : Participant) :
  NoDup (pt_id <$> pts) → x ∈ pts → y ∈ pts → pt_id x = pt_id y → x = y.
Proof.
  induction pts as [|z pts IH]; [by intros _ ?%elem_of_nil|].
  rewrite fmap_cons, NoDup_cons. intros [Hz Hnd] Hx Hy Hid.
  apply elem_of_cons in Hx as [->|Hx]; apply elem_of_cons in Hy as [->|Hy].
  - done.
  - exfalso. apply Hz. rewrite Hid. apply list_elem_of_fmap. by exists y.
  - exfalso. apply Hz. rewrite <- Hid. apply list_elem_of_fmap. by exists x.
  - by apply IH.
Qed.

(** X28 — [deleteLobby] is [deleteMultipleParticipants] on the participants
    of the lobby followed by the removal of the lobby's row: with
    participant ids unique, the database after [deleteLobby] is the one
    [deleteMultipleParticipants] leaves when given the ids of the lobby's
    participants, less the row of the lobby.  Deleting the lobby a second
    time, or a lobby that does not exist, changes nothing. *)
Theorem deleteLobby_deletes_its_participants (lobbyId : string) (st : Store) :
  NoDup (pt_id <$> participants (tables st)) →
  deleteLobby lobbyId st
  = (Ok tt,
     set_lobbies (filter (λ l, lb_id l ≠ lobbyId))
       (set_tables
          (λ db, (deleteMultipleParticipants
                    (lobbyParticipantIds lobbyId db) db).2) st))
  ∧ deleteLobby lobbyId (deleteLobby lobbyId st).2
    = (Ok tt, (deleteLobby lobbyId st).2)
  ∧ (lobbyId ∉ (lb_id <$> lobbies st)
     → lobbyParticipantIds lobbyId (tables st) = []
     → deleteLobby lobbyId st = (Ok tt, st)).
Proof.
  intros Hnd.
  assert (Hmembers : filter (λ pt, lobby_id pt ≠ lobbyId) (participants (tables st))
            = filter (λ pt, pt_id pt ∉ lobbyParticipantIds lobbyId (tables st))
                (participants (tables st))).
  { apply filter_ext_elem. intros pt Hin. rewrite lobbyParticipantIds_elem.
    split.
    - intros Hne (y & Hy & Hid & Hl).
      assert (y = pt) by (by apply (same_id_same_lobby _ _ _ Hnd)).
      congruence.
    - intros Hno Hl. apply Hno. by exists pt. }
  split; [|split].
  - rewrite deleteLobby_run. unfold set_lobbies, set_tables. cbn.
    rewrite deleteMultipleParticipants_run. cbn. by rewrite Hmembers.
  - rewrite !deleteLobby_run.
    cbn [snd tables games games_seq playoff_seeds participants predictions
         seeds_seq participants_seq predictions_seq admins seasons
         seasons_seq lobbies system_config now].
    f_equal. f_equal; [f_equal|].
    + apply filter_all. intros pt Hin. by apply list_elem_of_filter in Hin as [? _].
    + apply filter_all. intros p _.
      rewrite lobbyParticipantIds_elem. cbn [participants].
      intros (pt & Hin & _ & Hl). apply list_elem_of_filter in Hin. tauto.
    + apply filter_all. intros l Hin. by apply list_elem_of_filter in Hin as [? _].
  - intros Hrow Hnone. rewrite deleteLobby_run, Hnone.
    rewrite !filter_all; [by destruct st as [[] ?]| | |].
    + intros l Hl Heq. apply Hrow, list_elem_of_fmap. by exists l.
    + intros p _. apply not_elem_of_nil.
    + intros pt Hin Heq.
      assert (Hk : pt_id pt ∈ lobbyParticipantIds lobbyId (tables st))
        by (apply lobbyParticipantIds_elem; by exists pt).
      rewrite Hnone in Hk. by apply elem_of_nil in Hk.
Qed.

Lemma deleteLobby_deletes_its_participants_witness :
  NoDup (pt_id <$> participants (tables store2025))
  ∧ pt_name <$> participants (tables (deleteLobby "L" store2025).2) = ["Cy"]
  ∧ deleteLobby "L" (deleteLobby "L" store2025).2
    = (Ok tt, (deleteLobby "L" store2025).2)
  ∧ deleteLobby "Z" store2025 = (Ok tt, store2025).
Proof.
  assert (Hnd : NoDup (pt_id <$> participants (tables store2025)))
    by (apply (bool_decide_unpack _); vm_compute; reflexivity).
  split; [exact Hnd|].
  destruct (deleteLobby_deletes_its_participants "L" store2025 Hnd)
    as (Hrun & Htwice & _).
  destruct (deleteLobby_deletes_its_participants "Z" store2025 Hnd)
    as (_ & _ & Hmissing).
  split; [by rewrite Hrun|]. split; [exact Htwice|].
  apply Hmissing; [|reflexivity].
  apply (bool_decide_unpack _). vm_compute. reflexivity.
Defined.

Lemma bind_filter_nil {A B} (P : A → Prop) `{!∀ x, Decision (P x)}
    (f : A → list B) (l : list A) :
  (∀ x, x ∈ l → ¬ P x → f x = []) →
  filter P l ≫= f = l ≫= f.
Proof.
  induction l as [|x l IH]; intros Hf; [done|].
  rewrite filter_cons. destruct (decide (P x)) as [Hx|Hx].
  - cbn. rewrite IH; [done|]. intros y Hy. apply Hf. by right.
  - cbn. rewrite (Hf x) by (done || left). cbn.
    apply IH. intros y Hy. apply Hf. by right.
Qed.

Lemma bind_ext_elem {A B} (f g : A → list B) (l : list A) :
  (∀ x, x ∈ l → f x = g x) → l ≫= f = l ≫= g.
Proof.
  induction l as [|x l IH]; intros Hfg; [done|].
  cbn. rewrite (Hfg x) by left. f_equal. apply IH. intros y Hy.
  apply Hfg. by right.
Qed.

Lemma other_lobby_after_deleteLobby lobbyId other st :
  NoDup (pt_id <$> participants (tables st)) →
  other ≠ lobbyId →
  SELECT_participants_WHERE_lobby_ORDERED other (tables (deleteLobby lobbyId st).2)
  = SELECT_participants_WHERE_lobby_ORDERED other (tables st)
  ∧ SELECT_predictions_JOIN_lobby other (tables (deleteLobby lobbyId st).2)
    = SELECT_predictions_JOIN_lobby other (tables st).
Proof.
  intros Hnd Hne. rewrite deleteLobby_run.
  unfold SELECT_participants_WHERE_lobby_ORDERED, SELECT_predictions_JOIN_lobby.
  cbn [snd tables participants predictions].
  assert (Hin : ∀ (Q : Participant → Prop) `{!∀ x, Decision (Q x)},
            (∀ pt, Q pt → lobby_id pt = other) →
            filter Q (filter (λ pt, lobby_id pt ≠ lobbyId)
                        (participants (tables st)))
            = filter Q (participants (tables st))).
  { intros Q ? HQ. rewrite list_filter_filter. apply list_filter_iff.
    intros pt. split; [tauto|]. intros Hq. split; [done|].
    rewrite (HQ pt Hq). done. }
  split.
  - by rewrite Hin.
  - rewrite (bind_ext_elem _
               (λ p, pt ← filter (λ pt, pt_id pt = participant_id p
                                        ∧ lobby_id pt = other)
                          (participants (tables st)); [p])).
    2:{ intros p _. rewrite Hin; [done|]. tauto. }
    apply bind_filter_nil. intros p _ Hp.
    apply dec_stable in Hp. apply lobbyParticipantIds_elem in Hp
      as (y & Hy & Hid & Hl).
    rewrite filter_none; [done|].
    intros pt Hpt [Hid' Hl'].
    assert (y = pt) by (apply (same_id_same_lobby _ _ _ Hnd); congruence).
    congruence.
Qed.

(** X29 — Deleting a lobby empties its leaderboard and leaves the
    leaderboard of every other lobby as it was: with participant ids
    unique, [calculateLeaderboard] for another lobby returns after
    [deleteLobby] the entries it returned before, in the same order, and
    for the deleted lobby it returns no entry. *)
Theorem leaderboards_after_deleteLobby (lobbyId other : string) (seasonId : Z)
    (scoringType : ScoringType) (st : Store) :
  NoDup (pt_id <$> participants (tables st)) →
  other ≠ lobbyId →
  ∃ entries,
    calculateLeaderboard other seasonId scoringType (tables st)
    = (Ok entries, tables st)
    ∧ calculateLeaderboard other seasonId scoringType
        (tables (deleteLobby lobbyId st).2)
      = (Ok entries, tables (deleteLobby lobbyId st).2)
    ∧ calculateLeaderboard lobbyId seasonId scoringType
        (tables (deleteLobby lobbyId st).2)
      = (Ok [], tables (deleteLobby lobbyId st).2).
Proof.
  intros Hnd Hne.
  assert (Hnd' : NoDup (pt_id <$> participants (tables (deleteLobby lobbyId st).2))).
  { rewrite deleteLobby_run. cbn [snd tables participants].
    by apply NoDup_fmap_filter_of. }
  rewrite !calculateLeaderboard_exact by done.
  destruct (other_lobby_after_deleteLobby lobbyId other st Hnd Hne) as [-> ->].
  eexists. split; [reflexivity|]. split.
  - by rewrite deleteLobby_run.
  - assert (Hnone : SELECT_participants_WHERE_lobby_ORDERED lobbyId
                      (tables (deleteLobby lobbyId st).2) = []).
    { rewrite deleteLobby_run.
      unfold SELECT_participants_WHERE_lobby_ORDERED.
      cbn [snd tables participants].
      rewrite list_filter_filter, filter_none; [done|]. intros pt _. tauto. }
    rewrite Hnone. by destruct scoringType.
Qed.

Lemma leaderboards_after_deleteLobby_witness :
  ∃ entries,
    calculateLeaderboard "M" 1 weighted (tables store2025)
    = (Ok entries, tables store2025)
    ∧ calculateLeaderboard "M" 1 weighted (tables (deleteLobby "L" store2025).2)
      = (Ok entries, tables (deleteLobby "L" store2025).2)
    ∧ calculateLeaderboard "L" 1 weighted (tables (deleteLobby "L" store2025).2)
      = (Ok [], tables (deleteLobby "L" store2025).2).
Proof.
  apply (leaderboards_after_deleteLobby "L" "M" 1 weighted store2025).
  - apply (bool_decide_unpack _). vm_compute. reflexivity.
  - apply (bool_decide_unpack _). vm_compute. reflexivity.
Defined.

(** * Seasons *)

Lemma createSeason_run name year sport st :
  existsb (λ s, String.eqb (se_name s) name) (seasons st) = false →
  createSeason name year sport st
  = let k := Z.max (seasons_seq st) (max_key se_id (seasons st)) + 1 in
    let s := mkSeason k name year (default "NFL" sport) season_active (now st) in
    (Ok (Some s),
     mkStore (tables st) (seeds_seq st) (participants_seq st)
             (predictions_seq st) (admins st) (seasons st ++ [s]) k
             (lobbies st) (system_config st) (now st)).
Proof.
  intros Hfree. unfold createSeason. rewrite MS_bind_run.
  unfold runInsert_season. rewrite Hfree. cbn zeta.
  unfold getSeasonById, runQueryS. cbn [seasons].
  set (k := Z.max _ _ + 1).
  by rewrite (head_filter_fresh se_id _
                (mkSeason k name year (default "NFL" sport) season_active
                   (now st))) by (cbn; lia).
Qed.

Lemma activeSeasons_archive_fresh k s st :
  max_key se_id (seasons st) < k →
  se_id s = k →
  filter (λ s, se_status s = season_active)
    ((λ s, if se_id s =? k then SET_status season_archived s else s)
       <$> (seasons st ++ [s]))
  = activeSeasons st.
Proof.
  intros Hk Hs. rewrite fmap_app, filter_app, fmap_cons, fmap_nil.
  rewrite Hs, Z.eqb_refl, filter_cons, decide_False, filter_nil, app_nil_r
    by done.
  unfold activeSeasons. f_equal.
  rewrite <- (list_fmap_id (seasons st)) at 2.
  apply list_fmap_ext. intros i x Hx.
  apply list_elem_of_lookup_2 in Hx. pose proof (max_key_ge se_id _ _ Hx).
  destruct (Z.eqb_spec (se_id x) k); [lia|done].
Qed.

(** X30 — A season created after [canCreateActiveSeason] allowed it is
    active and leaves the number of active seasons within
    [max_active_seasons]; archiving it with [updateSeasonStatus] gives back
    the active seasons there were before.  The sport is "NFL" when none is
    given. *)
Theorem season_created_then_archived (name : string) (year : Z)
    (sport : option string) (c : SystemConfig) (chk : LimitCheck) (st : Store) :
  system_config st = Some c →
  canCreateActiveSeason st = (Ok chk, st) →
  allowed chk = true →
  existsb (λ s, String.eqb (se_name s) name) (seasons st) = false →
  ∃ s st',
    createSeason name year sport st = (Ok (Some s), st')
    ∧ se_name s = name ∧ se_status s = season_active
    ∧ se_sport s = default "NFL" sport
    ∧ activeSeasons st' = activeSeasons st ++ [s]
    ∧ Z.of_nat (length (activeSeasons st')) ≤ max_active_seasons c
    ∧ activeSeasons (updateSeasonStatus (se_id s) season_archived st').2
      = activeSeasons st.
Proof.
  intros Hc Hchk Hallowed Hfree.
  destruct (canCreateActiveSeason_run c st Hc) as [r Hrun].
  rewrite Hrun in Hchk. injection Hchk as <-. cbn in Hallowed.
  apply bool_decide_eq_true in Hallowed.
  rewrite createSeason_run by done. cbn zeta.
  eexists _, _. split; [reflexivity|].
  do 3 (split; [done|]).
  set (k := Z.max _ _ + 1).
  set (s := mkSeason k name year (default "NFL" sport) season_active (now st)).
  set (st' := mkStore _ _ _ _ _ _ _ _ _ _).
  assert (Hact : activeSeasons st' = activeSeasons st ++ [s]).
  { unfold activeSeasons. subst st'. cbn [seasons].
    by rewrite filter_app, filter_cons, decide_True. }
  split; [done|]. split.
  { rewrite Hact, length_app. cbn [length]. unfold activeSeasons in Hallowed.
    unfold activeSeasons. lia. }
  unfold updateSeasonStatus, runExecS, set_seasons.
  unfold activeSeasons at 1. subst st'. cbn [snd seasons se_id].
  apply activeSeasons_archive_fresh; [subst s k; cbn [se_id]; lia|done].
Qed.

Lemma season_created_then_archived_witness :
  ∃ s st',
    createSeason "2026" 2026 None store2025 = (Ok (Some s), st')
    ∧ se_name s = "2026" ∧ se_status s = season_active
    ∧ se_sport s = "NFL"
    ∧ activeSeasons st' = activeSeasons store2025 ++ [s]
    ∧ Z.of_nat (length (activeSeasons st')) ≤ max_active_seasons defaultConfig
    ∧ activeSeasons (updateSeasonStatus (se_id s) season_archived st').2
      = activeSeasons store2025.
Proof.
  apply (season_created_then_archived "2026" 2026 None defaultConfig
           (mkLimitCheck true None) store2025);
    vm_compute; reflexivity.
Defined.
